(** * infopoisk: compressed positional index and boolean query engine

    A shallow embedding of [search_engine/compression.py],
    [search_engine/tokenizer_wrapper.py], [search_engine/indexer.py] and
    [search_engine/search.py], followed by the properties of the
    specification that were checked against it.

    Conventions of the embedding:
    - a Python [int] is a [Z]; an index into a buffer is a [nat];
    - [bytes] is a list of integers in [0, 256);
    - [str] is the list of its Unicode code points;
    - [dict] and [set] are stdpp's [gmap] and [gset];
    - a raised exception is the [Raise] case of [result];
    - the interpreter is CPython 3.11: its tables of white space and of
      decimal digits are those of Unicode 14.0, [int] refuses more than 4300
      digits, and a recursion deeper than the limit raises
      [RecursionError]. *)

From Stdlib Require Import ZArith Lia List Bool String Ascii.
From stdpp Require Import base decidable list sorting gmap.

Local Open Scope Z_scope.

(** ** Python values and exceptions *)

Module Py.

Abbreviation bytes := (list Z) (only parsing).
Abbreviation str := (list Z) (only parsing).

Inductive exn : Type :=
| ValueError (msg : string)
| IndexError (msg : string)
| KeyError
| struct_error
| UnicodeDecodeError
| UnicodeEncodeError
| RecursionError
| OutOfFuel.

Inductive result (A : Type) : Type :=
| Ok (a : A)
| Raise (e : exn).
Arguments Ok {A} a.
Arguments Raise {A} e.

#[global] Instance result_ret : MRet result := fun A a => Ok a.
#[global] Instance result_bind : MBind result := fun A B k r =>
  match r with
  | Ok a => k a
  | Raise e => Raise e
  end.

(** *** str *)

(** An ASCII literal, as the list of its code points. *)
Definition py (s : string) : str :=
  map (fun a => Z.of_nat (nat_of_ascii a)) (list_ascii_of_string s).

(** [s1 < s2] on [str]: lexicographic on code points; the same function
    compares two [bytes] objects. *)
Fixpoint str_ltb (s1 s2 : list Z) : bool :=
  match s1, s2 with
  | _, [] => false
  | [], _ :: _ => true
  | c1 :: r1, c2 :: r2 =>
      if c1 <? c2 then true else if c2 <? c1 then false else str_ltb r1 r2
  end.

Definition str_lt (s1 s2 : list Z) : Prop := str_ltb s1 s2 = true.
Definition str_le (s1 s2 : list Z) : Prop := str_ltb s2 s1 = false.

#[global] Instance str_lt_dec s1 s2 : Decision (str_lt s1 s2).
Proof. unfold str_lt. apply _. Defined.
#[global] Instance str_le_dec s1 s2 : Decision (str_le s1 s2).
Proof. unfold str_le. apply _. Defined.

Definition str_eqb (s1 s2 : str) : bool := bool_decide (s1 = s2).

Fixpoint startswith (s prefix : str) : bool :=
  match prefix, s with
  | [], _ => true
  | _ :: _, [] => false
  | p :: prefix', c :: s' => (c =? p) && startswith s' prefix'
  end.

(** [s.replace(old, new)] for one-character [old] and [new]. *)
Definition replace_char (old new : Z) (s : str) : str :=
  map (fun c => if c =? old then new else c) s.

(** [str.isspace] on one code point: the Unicode white space of CPython,
    which is also the class [\s] of [re] on [str] patterns. *)
Definition isspace (c : Z) : bool :=
  ((9 <=? c) && (c <=? 13)) || ((28 <=? c) && (c <=? 32))
  || (c =? 0x85) || (c =? 0xA0) || (c =? 0x1680)
  || ((0x2000 <=? c) && (c <=? 0x200A))
  || (c =? 0x2028) || (c =? 0x2029) || (c =? 0x202F) || (c =? 0x205F)
  || (c =? 0x3000).

Fixpoint lstrip (s : str) : str :=
  match s with
  | [] => []
  | c :: rest => if isspace c then lstrip rest else s
  end.

Definition strip (s : str) : str := rev (lstrip (rev (lstrip s))).

(** [s.split(sep)] for a one-character separator. *)
Fixpoint split_char (sep : Z) (s : str) : list str :=
  match s with
  | [] => [[]]
  | c :: rest =>
      match split_char sep rest with
      | [] => [[]]
      | field :: fields =>
          if c =? sep then [] :: field :: fields else (c :: field) :: fields
      end
  end.

(** The decimal digits of Unicode (category Nd), as of Unicode 14.0, the
    version of CPython 3.11: every script has its ten digits in a row, and
    the list holds the code point of the zero of each. *)
Definition decimal_zeros : list Z :=
  [ 0x30; 0x660; 0x6F0; 0x7C0; 0x966; 0x9E6; 0xA66; 0xAE6; 0xB66; 0xBE6;
    0xC66; 0xCE6; 0xD66; 0xDE6; 0xE50; 0xED0; 0xF20; 0x1040; 0x1090; 0x17E0;
    0x1810; 0x1946; 0x19D0; 0x1A80; 0x1A90; 0x1B50; 0x1BB0; 0x1C40; 0x1C50;
    0xA620; 0xA8D0; 0xA900; 0xA9D0; 0xA9F0; 0xAA50; 0xABF0; 0xFF10; 0x104A0;
    0x10D30; 0x11066; 0x110F0; 0x11136; 0x111D0; 0x112F0; 0x11450; 0x114D0;
    0x11650; 0x116C0; 0x11730; 0x118E0; 0x11950; 0x11C50; 0x11D50; 0x11DA0;
    0x16A60; 0x16AC0; 0x16B50; 0x1D7CE; 0x1D7D8; 0x1D7E2; 0x1D7EC; 0x1D7F6;
    0x1E140; 0x1E2F0; 0x1E950; 0x1FBF0 ].

(** The value of a decimal digit, [unicodedata.decimal]. *)
Definition decimal (c : Z) : option Z :=
  match List.find (fun zero => (zero <=? c) && (c <=? zero + 9))
                  decimal_zeros with
  | Some zero => Some (c - zero)
  | None => None
  end.

(** [str.isdecimal] on one code point, which is also the class [\d] of
    [re] on [str] patterns. *)
Definition isdecimal (c : Z) : bool :=
  match decimal c with
  | Some _ => true
  | None => false
  end.

(** The first step of [int(s)]: a character outside ASCII is replaced by a
    space when it is white space, by its ASCII digit when it is a decimal
    digit, and by a question mark otherwise. *)
Definition to_ascii (c : Z) : Z :=
  if c <? 128 then c
  else if isspace c then 32
  else match decimal c with
       | Some d => 48 + d
       | None => 63
       end.

(** White space for the parser of [int]: the six ASCII characters. *)
Definition c_isspace (c : Z) : bool :=
  (c =? 32) || ((9 <=? c) && (c <=? 13)).

Fixpoint c_lstrip (s : str) : str :=
  match s with
  | [] => []
  | c :: rest => if c_isspace c then c_lstrip rest else s
  end.

(** The scan of the digits: ASCII digits with single underscores between
    them. [prev] is the character before, an underscore at the start, so
    that a leading, a doubled and a trailing underscore and the absence of
    digits are all refused. Returns the value, the number of digits and the
    rest of the string. *)
Fixpoint scan_digits (s : str) (prev : Z) (acc : Z) (digits : nat)
  : option (Z * nat * str) :=
  match s with
  | c :: rest =>
      if (48 <=? c) && (c <=? 57)
      then scan_digits rest c (10 * acc + (c - 48)) (S digits)
      else if c =? 95
      then (if prev =? 95 then None else scan_digits rest c acc digits)
      else if prev =? 95 then None else Some (acc, digits, s)
  | [] => if prev =? 95 then None else Some (acc, digits, s)
  end.

(** [sys.int_info.default_max_str_digits] *)
Definition max_str_digits : nat := 4300.

(** [int(s)] in base ten, as of CPython 3.11: white space around, an
    optional sign, digits with single underscores between them, at most 4300
    digits. The messages of [ValueError] are cut short. *)
Definition int (s : str) : result Z :=
  let buffer := c_lstrip (map to_ascii s) in
  let '(sign, buffer) :=
    match buffer with
    | c :: rest =>
        if c =? 45 then (-1, rest)
        else if c =? 43 then (1, rest)
        else (1, buffer)
    | [] => (1, buffer)
    end in
  match scan_digits buffer 95 0 0 with
  | None => Raise (ValueError "invalid literal for int()")
  | Some (value, digits, rest) =>
      if (max_str_digits <? digits)%nat
      then Raise (ValueError "Exceeds the limit (4300 digits)")
      else if forallb c_isspace rest then Ok (sign * value)
      else Raise (ValueError "invalid literal for int()")
  end.

(** *** Sequences *)

(** [l[i]] with Python's negative indices and [IndexError]. *)
Definition getitem {A} (l : list A) (i : Z) : result A :=
  let j := if i <? 0 then i + Z.of_nat (length l) else i in
  if (0 <=? j) && (j <? Z.of_nat (length l))
  then match l !! Z.to_nat j with
       | Some x => Ok x
       | None => Raise (IndexError "list index out of range")
       end
  else Raise (IndexError "list index out of range").

(** [l[:n]] for [n >= 0]. *)
Definition slice_to {A} (n : Z) (l : list A) : list A := take (Z.to_nat n) l.

(** [sorted] on integers and on strings. *)
Definition sorted_int (l : list Z) : list Z := merge_sort Z.le l.
Definition sorted_str (l : list str) : list str := merge_sort str_le l.

(** *** struct: unsigned little-endian integers *)

Fixpoint le_bytes (size : nat) (v : Z) : bytes :=
  match size with
  | O => []
  | S size' => v mod 256 :: le_bytes size' (v / 256)
  end.

Fixpoint le_value (data : bytes) : Z :=
  match data with
  | [] => 0
  | b :: rest => b + 256 * le_value rest
  end.

(** [struct.pack('<B' | '<H' | '<I' | '<Q', v)] for [size] = 1, 2, 4, 8. *)
Definition pack (size : nat) (v : Z) : result bytes :=
  if (0 <=? v) && (v <? 256 ^ Z.of_nat size)
  then Ok (le_bytes size v) else Raise struct_error.

(** [struct.unpack(fmt, data)[0]]: the buffer must have exactly the size of
    the format. *)
Definition unpack (size : nat) (data : bytes) : result Z :=
  if (length data =? size)%nat then Ok (le_value data) else Raise struct_error.

(** *** UTF-8 *)

Definition utf8_char (c : Z) : result bytes :=
  if c <? 0 then Raise UnicodeEncodeError
  else if c <? 0x80 then Ok [c]
  else if c <? 0x800 then Ok [0xC0 + c / 64; 0x80 + c mod 64]
  else if (0xD800 <=? c) && (c <=? 0xDFFF) then Raise UnicodeEncodeError
  else if c <? 0x10000
  then Ok [0xE0 + c / 4096; 0x80 + (c / 64) mod 64; 0x80 + c mod 64]
  else if c <? 0x110000
  then Ok [0xF0 + c / 262144; 0x80 + (c / 4096) mod 64;
           0x80 + (c / 64) mod 64; 0x80 + c mod 64]
  else Raise UnicodeEncodeError.

(** [s.encode('utf-8')] *)
Fixpoint encode_utf8 (s : str) : result bytes :=
  match s with
  | [] => Ok []
  | c :: rest =>
      b ← utf8_char c; bs ← encode_utf8 rest; mret (b ++ bs)
  end.

Definition is_cont (b : Z) : bool := (0x80 <=? b) && (b <=? 0xBF).
Definition between (lo b hi : Z) : bool := (lo <=? b) && (b <=? hi).

(** [data.decode('utf-8')], strict: no overlong forms, no surrogates, nothing
    above U+10FFFF. *)
Fixpoint decode_utf8 (data : bytes) : result str :=
  match data with
  | [] => Ok []
  | b1 :: rest1 =>
      if between 0 b1 0x7F then s ← decode_utf8 rest1; mret (b1 :: s)
      else match rest1 with
      | [] => Raise UnicodeDecodeError
      | b2 :: rest2 =>
          if between 0xC2 b1 0xDF
          then if is_cont b2
               then s ← decode_utf8 rest2;
                    mret (((b1 - 0xC0) * 64 + (b2 - 0x80)) :: s)
               else Raise UnicodeDecodeError
          else match rest2 with
          | [] => Raise UnicodeDecodeError
          | b3 :: rest3 =>
              if between 0xE0 b1 0xEF
              then if between (if b1 =? 0xE0 then 0xA0 else 0x80) b2
                              (if b1 =? 0xED then 0x9F else 0xBF)
                      && is_cont b3
                   then s ← decode_utf8 rest3;
                        mret (((b1 - 0xE0) * 4096 + (b2 - 0x80) * 64
                               + (b3 - 0x80)) :: s)
                   else Raise UnicodeDecodeError
              else match rest3 with
              | [] => Raise UnicodeDecodeError
              | b4 :: rest4 =>
                  if between 0xF0 b1 0xF4
                     && between (if b1 =? 0xF0 then 0x90 else 0x80) b2
                                (if b1 =? 0xF4 then 0x8F else 0xBF)
                     && is_cont b3 && is_cont b4
                  then s ← decode_utf8 rest4;
                       mret (((b1 - 0xF0) * 262144 + (b2 - 0x80) * 4096
                              + (b3 - 0x80) * 64 + (b4 - 0x80)) :: s)
                  else Raise UnicodeDecodeError
              end
          end
      end
  end.

(** *** Binary files *)

(** An open binary file: its contents and the cursor. *)
Record file := File { content : bytes; cursor : nat }.

Definition open_rb (data : bytes) : file := File data 0.
Definition open_wb : file := File [] 0.

(** [f.read(n)]: at most [n] bytes, fewer at the end of the file. *)
Definition read (n : nat) (f : file) : bytes * file :=
  let data := take n (drop (cursor f) (content f)) in
  (data, File (content f) (cursor f + length data)).

Definition seek (offset : nat) (f : file) : file := File (content f) offset.
Definition tell (f : file) : nat := cursor f.

(** [f.write(data)]: overwrite from the cursor on, extending the file; a
    cursor beyond the end leaves a gap of zero bytes. *)
Definition write (data : bytes) (f : file) : file :=
  let c := content f in
  let p := cursor f in
  File (take p c ++ replicate (p - length c) 0 ++ data
        ++ drop (p + length data) c)
       (p + length data).

End Py.
Import Py.

(** ** compression.py *)

Module compression.

(** The [while number >= 128] loop of [encode_varbyte]; every turn shifts
    [number] right by seven bits, so [fuel] turns suffice for a number below
    [2 ^ (7 * fuel)]. *)
Fixpoint encode_loop (fuel : nat) (number : Z) (out : bytes) : option bytes :=
  match fuel with
  | O => None
  | S fuel' =>
      if 128 <=? number
      then encode_loop fuel' (Z.shiftr number 7)
             (out ++ [Z.lor (Z.land number 0x7F) 0x80])
      else Some (out ++ [number])
  end.

Definition encode_fuel (number : Z) : nat := S (Z.to_nat (Z.log2 number)).

Definition encode_varbyte (number : Z) : result bytes :=
  if number <? 0
  then Raise (ValueError "VarByte supports only non-negative integers")
  else if number =? 0 then Ok [0]
  else match encode_loop (encode_fuel number) number [] with
       | Some out => Ok out
       | None => Raise OutOfFuel
       end.

(** The [while True] loop of [decode_varbyte_stream]. [rest] is
    [data[offset:]]: it is empty exactly when [offset >= len(data)]. *)
Fixpoint decode_loop (rest : bytes) (number shift : Z) (offset : nat)
  : result (Z * nat) :=
  match rest with
  | [] => Raise (IndexError "Unexpected end of byte stream")
  | byte :: rest' =>
      let offset := S offset in
      let number := Z.lor number (Z.shiftl (Z.land byte 0x7F) shift) in
      if Z.land byte 0x80 =? 0
      then Ok (number, offset)
      else decode_loop rest' number (shift + 7) offset
  end.

Definition decode_varbyte_stream (data : bytes) (offset : nat)
  : result (Z * nat) :=
  decode_loop (drop offset data) 0 0 offset.

Fixpoint encode_delta_from (prev : Z) (numbers : list Z) : list Z :=
  match numbers with
  | [] => []
  | x :: rest => (x - prev) :: encode_delta_from x rest
  end.

Definition encode_delta (numbers : list Z) : list Z :=
  match numbers with
  | [] => []
  | x :: rest => x :: encode_delta_from x rest
  end.

Fixpoint decode_delta_from (current : Z) (deltas : list Z) : list Z :=
  match deltas with
  | [] => []
  | d :: rest => (current + d) :: decode_delta_from (current + d) rest
  end.

Definition decode_delta (deltas : list Z) : list Z :=
  match deltas with
  | [] => []
  | d :: rest => d :: decode_delta_from d rest
  end.

(** [int.bit_length] and the byte count the specification gives. *)
Definition bit_length (n : Z) : Z := if n =? 0 then 0 else Z.log2 n + 1.
Definition varbyte_len (n : Z) : Z := Z.max 1 ((bit_length n + 6) / 7).

End compression.


(** ** tokenizer_wrapper.py *)

Module tokenizer_wrapper.

(** What one call of [self.process.stdout.readline()] gives. The pipes are
    opened with [text=True]: the bytes of the child are decoded, in UTF-8,
    and every line ending, a line feed, a carriage return or the two in a
    row, is handed over as one line feed. A call returns the next line with
    its ending, or raises [UnicodeDecodeError] on bytes that are not text. *)
Inductive reading :=
| Line (line : str)
| Undecodable.

#[global] Instance reading_eq_dec : EqDecision reading.
Proof. solve_decision. Defined.

(** The child process seen through its two pipes. [respond line] is what
    the child does when it reads [line]: what it prints, as the calls of
    [readline] will return it, and whether it goes on running afterwards.
    [running] is false once the child has exited: a write then raises
    [BrokenPipeError], and reading past the output that is left is the end
    of the file. [stdout] is the output printed and not yet read. *)
Record Popen := {
  respond : str → list reading * bool;
  running : bool;
  stdout : list reading
}.

Definition END_DOC : str := py "__END_DOC__".

(** The lines of a text as [readline] returns them one by one: a line ends
    at a line feed, at a carriage return, or at a carriage return followed by
    a line feed, and ends in a line feed in each case; the last line may
    lack its ending. *)
Fixpoint lines_from (line : str) (s : str) : list str :=
  match s with
  | [] => if bool_decide (line = []) then [] else [line]
  | c :: rest =>
      if c =? 10 then (line ++ [10]) :: lines_from [] rest
      else if c =? 13
      then (line ++ [10])
           :: lines_from []
                (match rest with
                 | c' :: rest' => if c' =? 10 then rest' else rest
                 | [] => rest
                 end)
      else lines_from (line ++ [c]) rest
  end.

Definition readlines (printed : str) : list reading :=
  Line <$> lines_from [] printed.

(** The [while True] loop of [tokenize], over the output that is there:
    [None] when [readline] blocks for ever, on a child that runs and prints
    nothing more. Returns the tokens, or the exception of [readline], and
    the output left unread. *)
Fixpoint read_tokens (alive : bool) (out : list reading) (tokens : list str)
  : option (result (list str) * list reading) :=
  match out with
  | [] => if alive then None else Some (Ok tokens, [])
  | Undecodable :: out' => Some (Raise UnicodeDecodeError, out')
  | Line line :: out' =>
      if bool_decide (line = []) then Some (Ok tokens, out')
      else
        let line := strip line in
        if bool_decide (line = END_DOC) then Some (Ok tokens, out')
        else if bool_decide (line = []) then read_tokens alive out' tokens
        else read_tokens alive out' (tokens ++ [line])
  end.

(** [TokenizerClient.tokenize]: what the call returns or raises, and the
    process afterwards; [None] when the call does not return. The text is
    encoded before the pipe is written, so that [UnicodeEncodeError] comes
    before [BrokenPipeError]. *)
Definition tokenize (self : Popen) (text : str)
  : option (result (list str) * Popen) :=
  if bool_decide (text = []) then Some (Ok [], self)
  else
    let sanitized_text := replace_char 10 32 text in
    match encode_utf8 (sanitized_text ++ [10]) with
    | Raise e => Some (Raise e, self)
    | Ok _ =>
        if negb (running self) then Some (Ok [], self)
        else
          let '(printed, alive) := respond self (sanitized_text ++ [10]) in
          match read_tokens alive (stdout self ++ printed) [] with
          | Some (r, out') =>
              Some (r, {| respond := respond self; running := alive;
                          stdout := out' |})
          | None => None
          end
    end.

(** What a child that obeys the protocol prints: one line per token, then
    the sentinel. *)
Definition reply (tokens : list str) : list reading :=
  readlines (concat (map (fun t => t ++ [10]) tokens) ++ END_DOC ++ [10]).

(** A live child running the tokenizer [f]. *)
Definition live (f : str → list str) : Popen :=
  {| respond := fun line => (reply (f line), true); running := true;
     stdout := [] |}.

End tokenizer_wrapper.

(** ** indexer.py *)

Module indexer.

Definition MAGIC_DOCS : bytes := py "DOCS".
Definition MAGIC_DICT : bytes := py "DICT".
Definition MAGIC_POST : bytes := py "POST".
Definition VERSION : Z := 3.
Definition BLOCK_SIZE : Z := 5000.

(** [term -> (doc_id -> positions)] *)
Abbreviation postings := (gmap Z (list Z)) (only parsing).
Abbreviation index := (gmap (list Z) (gmap Z (list Z))) (only parsing).

(** The first loop of [write_docs_index]. *)
Fixpoint write_doc_records (doc_infos : list (str * str))
    (data_buffer : bytes) (offsets : list Z) : result (bytes * list Z) :=
  match doc_infos with
  | [] => Ok (data_buffer, offsets)
  | (url, title) :: rest =>
      let offsets := offsets ++ [Z.of_nat (length data_buffer)] in
      encoded ← encode_utf8 url;
      let encoded_url := slice_to 65535 encoded in
      len ← pack 2 (Z.of_nat (length encoded_url));
      let data_buffer := (data_buffer ++ len) ++ encoded_url in
      encoded_title ←
        (if bool_decide (title = []) then Ok []
         else encoded ← encode_utf8 title; mret (slice_to 65535 encoded));
      len ← pack 2 (Z.of_nat (length encoded_title));
      let data_buffer := (data_buffer ++ len) ++ encoded_title in
      write_doc_records rest data_buffer offsets
  end.

Fixpoint write_offsets (base_offset : Z) (offsets : list Z) (f : file)
  : result file :=
  match offsets with
  | [] => Ok f
  | off :: rest =>
      b ← pack 8 (base_offset + off);
      write_offsets base_offset rest (write b f)
  end.

(** [write_docs_index]: the contents of [index.docs]. *)
Definition write_docs_index (doc_infos : list (str * str)) : result bytes :=
  let count := Z.of_nat (length doc_infos) in
  '(data_buffer, offsets) ← write_doc_records doc_infos [] [];
  let f := open_wb in
  let f := write MAGIC_DOCS f in
  b ← pack 2 VERSION;
  let f := write b f in
  b ← pack 4 count;
  let f := write b f in
  let base_offset := Z.of_nat (tell f) + count * 8 in
  f ← write_offsets base_offset offsets f;
  let f := write data_buffer f in
  mret (content f).

(** A temporary block file: the pickled [(term, doc_map)] pairs in the order
    they were dumped; [block_reader] yields them back in that order. *)
Abbreviation block := (list (list Z * gmap Z (list Z))) (only parsing).

Definition keys {K V} `{Countable K} (d : gmap K V) : list K :=
  (map_to_list d).*1.

(** [save_temp_block]: the file [block_<block_id>.tmp]. *)
Definition save_temp_block (index : index) : block :=
  let sorted_terms := sorted_str (keys index) in
  map (fun term => (term, default ∅ (index !! term))) sorted_terms.

Definition block_reader (b : block) : block := b.

(** *** heapq.merge *)

Section heapq.
Context {A : Type} (key : A → list Z).

(** The iterator that yields next: the first one whose head has the least
    key. *)
Fixpoint least_head (iterators : list (list A)) : option (nat * A) :=
  match iterators with
  | [] => None
  | it :: others =>
      let later := prod_map S id <$> least_head others in
      match it with
      | [] => later
      | x :: _ =>
          match later with
          | Some (j, y) => if str_ltb (key y) (key x) then Some (j, y)
                           else Some (O, x)
          | None => Some (O, x)
          end
      end
  end.

Fixpoint merge_loop (fuel : nat) (iterators : list (list A)) : list A :=
  match fuel with
  | O => []
  | S fuel' =>
      match least_head iterators with
      | None => []
      | Some (i, x) => x :: merge_loop fuel' (alter (drop 1) i iterators)
      end
  end.

(** [heapq.merge] over the block iterators, with [key] *)
Definition heapq_merge (iterators : list (list A)) : list A :=
  merge_loop (length (concat iterators)) iterators.

End heapq.

(** *** write_term_entry *)

Fixpoint write_varbytes (numbers : list Z) (f_post : file) : result file :=
  match numbers with
  | [] => Ok f_post
  | n :: rest =>
      b ← compression.encode_varbyte n;
      write_varbytes rest (write b f_post)
  end.

(** The loop [for i, doc_id in enumerate(doc_ids)]; [entries] pairs every
    [doc_id] with [doc_deltas[i]]. *)
Fixpoint write_doc_entries (doc_map : postings) (entries : list (Z * Z))
    (f_post : file) : result file :=
  match entries with
  | [] => Ok f_post
  | (doc_id, doc_delta) :: rest =>
      b ← compression.encode_varbyte doc_delta;
      let f_post := write b f_post in
      match doc_map !! doc_id with
      | None => Raise KeyError
      | Some unsorted =>
          let positions := sorted_int unsorted in
          let freq := Z.of_nat (length positions) in
          b ← compression.encode_varbyte freq;
          let f_post := write b f_post in
          let pos_deltas := compression.encode_delta positions in
          f_post ← write_varbytes pos_deltas f_post;
          write_doc_entries doc_map rest f_post
      end
  end.

Definition write_term_entry (term : str) (doc_map : postings)
    (f_dict f_post : file) : result (file * file) :=
  let doc_ids := sorted_int (keys doc_map) in
  let doc_count := Z.of_nat (length doc_ids) in
  let offset := Z.of_nat (tell f_post) in
  b ← compression.encode_varbyte doc_count;
  let f_post := write b f_post in
  let doc_deltas := compression.encode_delta doc_ids in
  f_post ← write_doc_entries doc_map (zip doc_ids doc_deltas) f_post;
  encoded ← encode_utf8 term;
  let term_bytes := slice_to 255 encoded in
  b ← pack 1 (Z.of_nat (length term_bytes));
  let f_dict := write b f_dict in
  let f_dict := write term_bytes f_dict in
  b ← pack 8 offset;
  let f_dict := write b f_dict in
  b ← pack 4 doc_count;
  let f_dict := write b f_dict in
  mret (f_dict, f_post).

(** *** merge_blocks *)

Record merge_state := MergeState {
  current_term : option str;
  current_docs : gmap Z (list Z);
  term_count : Z;
  dict_file : file;
  post_file : file
}.

(** [if current_term is not None: write_term_entry(current_term,
    current_docs, f_dict, f_post); term_count += 1], which the source has
    inside the loop and again after it. *)
Definition flush_term (s : merge_state) : result (file * file * Z) :=
  match current_term s with
  | Some t =>
      '(f_dict, f_post) ←
        write_term_entry t (current_docs s) (dict_file s) (post_file s);
      mret (f_dict, f_post, term_count s + 1)
  | None => Ok (dict_file s, post_file s, term_count s)
  end.

(** The loop [for term, doc_map in merged_stream]. *)
Fixpoint merge_stream (merged_stream : block) (s : merge_state)
  : result merge_state :=
  match merged_stream with
  | [] => Ok s
  | (term, doc_map) :: rest =>
      if bool_decide (current_term s = Some term)
      then merge_stream rest
             (MergeState (current_term s) (doc_map ∪ current_docs s)
                (term_count s) (dict_file s) (post_file s))
      else
        '(f_dict, f_post, term_count) ← flush_term s;
        merge_stream rest (MergeState (Some term) doc_map term_count
                             f_dict f_post)
  end.

(** [merge_blocks]: the contents of [index.dict] and [index.postings].
    [temp_dir] holds [block_0.tmp], [block_1.tmp], ... in order. *)
Definition merge_blocks (temp_dir : list block) (num_blocks : nat)
  : result (bytes * bytes) :=
  let iterators := block_reader <$> take num_blocks temp_dir in
  let merged_stream := heapq_merge fst iterators in
  let f_dict := open_wb in
  let f_post := open_wb in
  let f_dict := write MAGIC_DICT f_dict in
  b ← pack 2 VERSION;
  let f_dict := write b f_dict in
  b ← pack 4 0;
  let f_dict := write b f_dict in
  let f_post := write MAGIC_POST f_post in
  b ← pack 2 VERSION;
  let f_post := write b f_post in
  s ← merge_stream merged_stream (MergeState None ∅ 0 f_dict f_post);
  '(f_dict, f_post, term_count) ← flush_term s;
  let f_dict := seek 6 f_dict in
  b ← pack 4 term_count;
  let f_dict := write b f_dict in
  mret (content f_dict, content f_post).

(** *** build_index *)

(** A record of the collection, after [doc.get] with its empty default. *)
Record document := { url : str; title : str; parsed_text : str }.

(** The three files of an index directory. *)
Record index_files := {
  index_docs : bytes;
  index_dict : bytes;
  index_postings : bytes
}.

Record build_state := BuildState {
  doc_infos : list (str * str);
  local_index : gmap (list Z) (gmap Z (list Z));
  docs_processed : Z;
  block_id : nat;
  temp_dir : list (list (list Z * gmap Z (list Z)))
}.

(** [for pos, token in enumerate(tokens): local_index[token][doc_id].append(pos)] *)
Fixpoint add_tokens (doc_id pos : Z) (tokens : list str) (local_index : index)
  : index :=
  match tokens with
  | [] => local_index
  | token :: rest =>
      let doc_map := default ∅ (local_index !! token) in
      let positions := default [] (doc_map !! doc_id) in
      add_tokens doc_id (pos + 1) rest
        (<[token := <[doc_id := positions ++ [pos]]> doc_map]> local_index)
  end.

(** [coll.find(...)], limited to [limit] documents when [limit > 0]. *)
Definition find (collection : list document) (limit : Z) : list document :=
  if 0 <? limit then take (Z.to_nat limit) collection else collection.

Section build.
(** [tokenizer.tokenize], for a child process that stays alive. *)
Variable tokenize : str → list str.
(** [BLOCK_SIZE]: the number of documents of a block, a positive number. *)
Variable block_size : Z.

(** One turn of [for doc in cursor]. *)
Definition build_step (s : build_state) (doc : document) : build_state :=
  let doc_id := docs_processed s in
  let infos := doc_infos s ++ [(url doc, title doc)] in
  let tokens := tokenize (parsed_text doc) in
  let index := add_tokens doc_id 0 tokens (local_index s) in
  let processed := docs_processed s + 1 in
  if processed mod block_size =? 0
  then BuildState infos ∅ processed (S (block_id s))
         (temp_dir s ++ [save_temp_block index])
  else BuildState infos index processed (block_id s) (temp_dir s).

(** The loop over the cursor and the spill of the last, partial block. *)
Definition build_blocks (cursor : list document) : build_state :=
  let s := foldl build_step (BuildState [] ∅ 0 O []) cursor in
  if bool_decide (local_index s = ∅) then s
  else BuildState (doc_infos s) (local_index s) (docs_processed s)
         (S (block_id s)) (temp_dir s ++ [save_temp_block (local_index s)]).

Definition build_index_sized (collection : list document) (limit : Z)
  : result index_files :=
  let cursor := find collection limit in
  let s := build_blocks cursor in
  docs ← write_docs_index (doc_infos s);
  '(dict, post) ← merge_blocks (temp_dir s) (block_id s);
  mret {| index_docs := docs; index_dict := dict; index_postings := post |}.

End build.

Definition build_index (tokenize : str → list str)
    (collection : list document) (limit : Z) : result index_files :=
  build_index_sized tokenize BLOCK_SIZE collection limit.

End indexer.

(** ** search.py *)

Module search.

Definition MAGIC_DOCS : bytes := py "DOCS".
Definition MAGIC_DICT : bytes := py "DICT".
Definition MAGIC_POST : bytes := py "POST".

(** The dictionary with the keys [url] and [title]. *)
Record DocInfo := { url : str; title : str }.

Record CompressedIndexReader := {
  doc_infos : list DocInfo;
  term_dict : gmap (list Z) (Z * Z);
  post_file : bytes
}.

(** *** _load_docs *)

Fixpoint read_offsets (count : nat) (f : file) (offsets : list Z)
  : result (list Z * file) :=
  match count with
  | O => Ok (offsets, f)
  | S count' =>
      let '(b, f) := read 8 f in
      off ← unpack 8 b;
      read_offsets count' f (offsets ++ [off])
  end.

Fixpoint read_doc_infos (ver : Z) (offsets : list Z) (f : file)
    (doc_infos : list DocInfo) : result (list DocInfo) :=
  match offsets with
  | [] => Ok doc_infos
  | off :: rest =>
      let f := seek (Z.to_nat off) f in
      let '(b, f) := read 2 f in
      url_len ← unpack 2 b;
      let '(b, f) := read (Z.to_nat url_len) f in
      url ← decode_utf8 b;
      '(title, f) ←
        (if 3 <=? ver
         then
           let '(b, f) := read 2 f in
           title_len ← unpack 2 b;
           let '(b, f) := read (Z.to_nat title_len) f in
           title ← decode_utf8 b;
           mret (title, f)
         else Ok ([], f));
      read_doc_infos ver rest f
        (doc_infos ++ [{| url := url; title := title |}])
  end.

Definition _load_docs (index_docs : bytes) : result (list DocInfo) :=
  let f := open_rb index_docs in
  let '(magic, f) := read 4 f in
  if negb (bool_decide (magic = MAGIC_DOCS))
  then Raise (ValueError "Invalid DOCS file")
  else
    let '(b, f) := read 2 f in
    ver ← unpack 2 b;
    let '(b, f) := read 4 f in
    count ← unpack 4 b;
    '(offsets, f) ← read_offsets (Z.to_nat count) f [];
    read_doc_infos ver offsets f [].

(** *** _load_dict *)

Fixpoint read_dict_entries (count : nat) (f : file)
    (term_dict : gmap (list Z) (Z * Z)) : result (gmap (list Z) (Z * Z)) :=
  match count with
  | O => Ok term_dict
  | S count' =>
      let '(b, f) := read 1 f in
      length ← unpack 1 b;
      let '(b, f) := read (Z.to_nat length) f in
      term ← decode_utf8 b;
      let '(b, f) := read 8 f in
      offset ← unpack 8 b;
      let '(b, f) := read 4 f in
      doc_count ← unpack 4 b;
      read_dict_entries count' f (<[term := (offset, doc_count)]> term_dict)
  end.

Definition _load_dict (index_dict : bytes)
  : result (gmap (list Z) (Z * Z)) :=
  let f := open_rb index_dict in
  let '(magic, f) := read 4 f in
  if negb (bool_decide (magic = MAGIC_DICT))
  then Raise (ValueError "Invalid DICT file")
  else
    let '(b, f) := read 2 f in
    ver ← unpack 2 b;
    let '(b, f) := read 4 f in
    count ← unpack 4 b;
    read_dict_entries (Z.to_nat count) f ∅.

(** [CompressedIndexReader(index_dir)]; [index.postings] is only opened. *)
Definition open_reader (dir : indexer.index_files)
  : result CompressedIndexReader :=
  doc_infos ← _load_docs (indexer.index_docs dir);
  term_dict ← _load_dict (indexer.index_dict dir);
  mret {| doc_infos := doc_infos; term_dict := term_dict;
          post_file := indexer.index_postings dir |}.

(** *** get_postings *)

(** The sliding buffer: the bytes held, the read pointer into them, and the
    postings file behind them. *)
Record window := Window { buffer : bytes; ptr : nat; handle : file }.

Section sliding.
Variable buffer_size : nat.

(** [if ptr >= len(buffer) - margin: ...], written out twice in the source,
    with margins 10 and 5. *)
Definition refill (margin : Z) (w : window) : window :=
  if Z.of_nat (length (buffer w)) - margin <=? Z.of_nat (ptr w)
  then
    let '(new_chunk, f) := read buffer_size (handle w) in
    if bool_decide (new_chunk = []) then Window (buffer w) (ptr w) f
    else Window (drop (ptr w) (buffer w) ++ new_chunk) 0 f
  else w.

Definition decode_next (w : window) : result (Z * window) :=
  '(number, ptr) ← compression.decode_varbyte_stream (buffer w) (ptr w);
  mret (number, Window (buffer w) ptr (handle w)).

(** [for _ in range(freq)] *)
Fixpoint read_positions (freq : nat) (w : window) (curr_pos : Z)
    (positions : list Z) : result (list Z * window) :=
  match freq with
  | O => Ok (positions, w)
  | S freq' =>
      let w := refill 5 w in
      '(pos_delta, w) ← decode_next w;
      let curr_pos := curr_pos + pos_delta in
      read_positions freq' w curr_pos (positions ++ [curr_pos])
  end.

(** [for _ in range(doc_count)] *)
Fixpoint read_entries (doc_count : nat) (w : window) (curr_doc_id : Z)
    (result : gmap Z (list Z)) : Py.result (gmap Z (list Z)) :=
  match doc_count with
  | O => Ok result
  | S doc_count' =>
      let w := refill 10 w in
      '(doc_delta, w) ← decode_next w;
      let curr_doc_id := curr_doc_id + doc_delta in
      '(freq, w) ← decode_next w;
      '(positions, w) ← read_positions (Z.to_nat freq) w 0 [];
      read_entries doc_count' w curr_doc_id (<[curr_doc_id := positions]> result)
  end.

Definition get_postings_sized (self : CompressedIndexReader) (term : str)
  : Py.result (gmap Z (list Z)) :=
  match term_dict self !! term with
  | None => Ok ∅
  | Some (offset, expected_doc_count) =>
      let f := seek (Z.to_nat offset) (open_rb (post_file self)) in
      let '(buffer, f) := read buffer_size f in
      if bool_decide (buffer = []) then Ok ∅
      else
        '(doc_count, w) ← decode_next (Window buffer 0 f);
        read_entries (Z.to_nat doc_count) w 0 ∅
  end.

End sliding.

Definition buffer_size : nat := Z.to_nat (1024 * 1024).

Definition get_postings (self : CompressedIndexReader) (term : str)
  : result (gmap Z (list Z)) :=
  get_postings_sized buffer_size self term.

(** *** get_doc_info, get_doc_url *)

Definition get_doc_info (self : CompressedIndexReader) (doc_id : Z)
  : result DocInfo :=
  if (0 <=? doc_id) && (doc_id <? Z.of_nat (length (doc_infos self)))
  then getitem (doc_infos self) doc_id
  else Ok {| url := []; title := [] |}.

Definition get_doc_url (self : CompressedIndexReader) (doc_id : Z)
  : result str :=
  info ← get_doc_info self doc_id; mret (url info).

(** *** SearchEngine *)

(** The three attributes that [__init__] sets, and [depth_left], which is
    not an attribute of the object but of the interpreter that runs it: the
    number of nested calls of [_find_path] that the recursion limit allows
    when [_check_sequence] calls it. *)
Record SearchEngine := {
  reader : CompressedIndexReader;
  tokenizer : str → list str;
  all_docs : gset Z;
  depth_left : nat
}.

(** [set(range(n))] *)
Definition set_range (n : nat) : gset Z := list_to_set (Z.of_nat <$> seq 0 n).

Definition new_engine (reader : CompressedIndexReader)
    (tokenizer : str → list str) (depth_left : nat) : SearchEngine :=
  {| reader := reader; tokenizer := tokenizer;
     all_docs := set_range (length (doc_infos reader));
     depth_left := depth_left |}.

(** *** _tokenize *)

Fixpoint span (p : Z → bool) (s : str) : str * str :=
  match s with
  | [] => ([], [])
  | c :: rest =>
      if p c then let '(taken, after) := span p rest in (c :: taken, after)
      else ([], s)
  end.

(** The last alternative of the pattern: neither white space, nor a double
    quote, nor one of the characters of the operators. *)
Definition word_char (c : Z) : bool :=
  negb (isspace c || (c =? 34) || (c =? 38) || (c =? 124) || (c =? 33)
        || (c =? 40) || (c =? 41) || (c =? 47)).

(** [pattern.finditer(q)] with the token each match appends: at every
    position the four alternatives are tried in order, and a character at
    which none matches is skipped. A match is never empty, so [length q]
    turns suffice. *)
Fixpoint finditer (fuel : nat) (q : str) : list str :=
  match fuel, q with
  | O, _ | _, [] => []
  | S fuel', c :: rest =>
      let '(phrase, closing) := span (fun x => negb (x =? 34)) rest in
      if (c =? 34) && negb (bool_decide (phrase = []))
         && startswith closing [34]
      then (py "PHRASE:" ++ phrase) :: finditer fuel' (drop 1 closing)
      else if isdecimal c
      then let '(num, after) := span isdecimal q in
           (py "NUM:" ++ num) :: finditer fuel' after
      else if startswith q (py "&&") then py "&&" :: finditer fuel' (drop 2 q)
      else if startswith q (py "||") then py "||" :: finditer fuel' (drop 2 q)
      else if (c =? 33) || (c =? 40) || (c =? 41) || (c =? 47)
      then [c] :: finditer fuel' rest
      else if word_char c
      then let '(word, after) := span word_char q in
           word :: finditer fuel' after
      else finditer fuel' rest
  end.

Definition _tokenize (query : str) : list str :=
  let q := replace_char 187 34 (replace_char 171 34 query) in
  finditer (length q) q.

(** *** _evaluate_recursive *)

Inductive op := And | Or | Not | LParen | RParen.

(** [('TERM', t)], [('PHRASE', text)], [('PROXIMITY', content, dist)] and
    [('OP', op)]. *)
Inductive token :=
| TERM (val : str)
| PHRASE (val : str)
| PROXIMITY (val : str) (dist : Z)
| OP (val : op).

#[global] Instance op_eq_dec : EqDecision op.
Proof. solve_decision. Defined.
#[global] Instance token_eq_dec : EqDecision token.
Proof. solve_decision. Defined.

(** [t in ('&&', '||', '!', '(', ')')] *)
Definition op_of_str (t : str) : option op :=
  if bool_decide (t = py "&&") then Some And
  else if bool_decide (t = py "||") then Some Or
  else if bool_decide (t = py "!") then Some Not
  else if bool_decide (t = py "(") then Some LParen
  else if bool_decide (t = py ")") then Some RParen
  else None.

Definition is_operand (t : str) : bool :=
  startswith t (py "PHRASE:")
  || negb (bool_decide (is_Some (op_of_str t)) || bool_decide (t = py "/")
           || startswith t (py "NUM:")).

(** The first loop: [processed_tokens]. One turn consumes one token, or
    three when a proximity suffix follows an operand. *)
Fixpoint process_tokens (tokens : list str) : result (list token) :=
  match tokens with
  | [] => Ok []
  | t :: rest =>
      if is_operand t
      then
        let plain :=
          if startswith t (py "PHRASE:") then PHRASE (drop 7 t) else TERM t in
        match rest with
        | slash :: num :: rest' =>
            if bool_decide (slash = py "/") && startswith num (py "NUM:")
            then
              field ← getitem (split_char 58 num) 1;
              dist ← int field;
              let content :=
                if startswith t (py "PHRASE:") then drop 7 t else t in
              more ← process_tokens rest';
              mret (PROXIMITY content dist :: more)
            else more ← process_tokens rest; mret (plain :: more)
        | _ => more ← process_tokens rest; mret (plain :: more)
        end
      else
        match op_of_str t with
        | Some o => more ← process_tokens rest; mret (OP o :: more)
        | None => process_tokens rest
        end
  end.

(** The second loop: [final_tokens], with the implicit [&&]. *)
Fixpoint add_implicit_and (processed_tokens : list token) : list token :=
  match processed_tokens with
  | [] => []
  | token :: rest =>
      match rest with
      | [] => [token]
      | next :: _ =>
          let is_op1 := match token with
                        | OP v => negb (bool_decide (v = RParen))
                        | _ => false
                        end in
          let is_op2 := match next with
                        | OP v => negb (bool_decide (v = LParen)
                                        || bool_decide (v = Not))
                        | _ => false
                        end in
          if negb is_op1 && negb is_op2
          then token :: OP And :: add_implicit_and rest
          else token :: add_implicit_and rest
      end
  end.

(** [PRECEDENCE.get(v, 0)] *)
Definition PRECEDENCE (v : op) : Z :=
  match v with
  | LParen => 0
  | Or => 1
  | And => 2
  | Not => 3
  | RParen => 0
  end.

(** [while stack and stack[-1] != '(': output.append(('OP', stack.pop()))].
    The top of the stack is the head of the list. *)
Fixpoint pop_to_paren (stack : list op) (output : list token)
  : list op * list token :=
  match stack with
  | [] => ([], output)
  | top :: below =>
      if bool_decide (top = LParen) then (stack, output)
      else pop_to_paren below (output ++ [OP top])
  end.

(** [while stack and stack[-1] != '(' and
     PRECEDENCE.get(stack[-1], 0) >= PRECEDENCE.get(val, 0): ...] *)
Fixpoint pop_higher (val : op) (stack : list op) (output : list token)
  : list op * list token :=
  match stack with
  | [] => ([], output)
  | top :: below =>
      if negb (bool_decide (top = LParen))
         && (PRECEDENCE val <=? PRECEDENCE top)
      then pop_higher val below (output ++ [OP top])
      else (stack, output)
  end.

(** The third loop and the final flush of the stack: the RPN [output]. *)
Fixpoint shunting_yard (final_tokens : list token) (stack : list op)
    (output : list token) : list token :=
  match final_tokens with
  | [] => output ++ (OP <$> stack)
  | token :: rest =>
      match token with
      | OP LParen => shunting_yard rest (LParen :: stack) output
      | OP RParen =>
          let '(stack, output) := pop_to_paren stack output in
          shunting_yard rest (drop 1 stack) output
      | OP val =>
          let '(stack, output) := pop_higher val stack output in
          shunting_yard rest (val :: stack) output
      | _ => shunting_yard rest stack (output ++ [token])
      end
  end.

(** The part of [_evaluate_recursive] before [_solve_rpn]: the RPN
    [output] of a token list. *)
Definition rpn_of_tokens (tokens : list str) : result (list token) :=
  processed_tokens ← process_tokens tokens;
  let final_tokens := add_implicit_and processed_tokens in
  mret (shunting_yard final_tokens [] []).

(** *** _find_path, _check_sequence, _sequence_search *)

(** [for pos in candidates: if <test pos>: return True] and the
    [return False] after the loop. *)
Fixpoint first_found (test : Z → result bool) (candidates : list Z)
  : result bool :=
  match candidates with
  | [] => Ok false
  | pos :: later =>
      found ← test pos;
      if found : bool then Ok true else first_found test later
  end.

(** [rest] is [positions_list[idx:]]. [depth] is the number of nested calls
    the interpreter still allows: a call beyond it raises
    [RecursionError]. *)
Fixpoint _find_path (depth : nat) (rest : list (list Z)) (idx : nat)
    (prev_pos first_pos max_dist : Z) (is_exact : bool) : result bool :=
  match depth with
  | O => Raise RecursionError
  | S depth' =>
      match rest with
      | [] => Ok true
      | candidates :: rest' =>
          first_found
            (fun pos =>
               if (idx =? 0)%nat
               then _find_path depth' rest' (S idx) pos pos max_dist is_exact
               else if (prev_pos <? pos)
                       && negb (is_exact && negb (pos =? prev_pos + 1))
                       && negb (max_dist <? pos - first_pos)
               then _find_path depth' rest' (S idx) pos first_pos max_dist
                      is_exact
               else Ok false)
            candidates
      end
  end.

Section engine.
Variable self : SearchEngine.

Definition _check_sequence (positions_list : list (list Z)) (max_dist : Z)
  : result bool :=
  let is_exact := max_dist =? Z.of_nat (length positions_list) in
  _find_path (depth_left self) positions_list 0 (-1) (-1) max_dist is_exact.

(** The loop [for t in terms]; [None] is the early [return set()]. *)
Fixpoint fetch_postings (terms : list str)
    (term_postings : list (gmap Z (list Z)))
  : result (option (list (gmap Z (list Z)))) :=
  match terms with
  | [] => Ok (Some term_postings)
  | t :: rest =>
      p ← get_postings (reader self) t;
      if bool_decide (p = ∅) then Ok None
      else fetch_postings rest (term_postings ++ [p])
  end.

(** [[term_postings[i][doc_id] for i in range(len(terms))]] *)
Fixpoint positions_of (doc_id : Z) (term_postings : list (gmap Z (list Z)))
  : result (list (list Z)) :=
  match term_postings with
  | [] => Ok []
  | p :: rest =>
      match p !! doc_id with
      | None => Raise KeyError
      | Some positions =>
          more ← positions_of doc_id rest; mret (positions :: more)
      end
  end.

(** The loop [for doc_id in common_docs]. *)
Fixpoint check_docs (common_docs : list Z)
    (term_postings : list (gmap Z (list Z))) (max_dist : Z)
    (result_docs : gset Z) : result (gset Z) :=
  match common_docs with
  | [] => Ok result_docs
  | doc_id :: rest =>
      positions_list ← positions_of doc_id term_postings;
      found ← _check_sequence positions_list max_dist;
      check_docs rest term_postings max_dist
        (if found : bool then {[doc_id]} ∪ result_docs else result_docs)
  end.

Definition _sequence_search (terms : list str) (max_dist : Z)
  : result (gset Z) :=
  if bool_decide (terms = []) then Ok ∅
  else
    fetched ← fetch_postings terms [];
    match fetched with
    | None => Ok ∅
    | Some term_postings =>
        let common_docs :=
          foldl (fun docs p => docs ∩ dom p)
                (from_option dom ∅ (head term_postings))
                (drop 1 term_postings) in
        check_docs (elements common_docs) term_postings max_dist ∅
    end.

(** *** _solve_rpn *)

(** One turn of [for token in rpn]; the top of the stack is the head. *)
Definition rpn_step (stack : list (gset Z)) (token : token)
  : result (list (gset Z)) :=
  match token with
  | TERM val =>
      let stems := tokenizer self val in
      match stems with
      | stem :: _ =>
          postings ← get_postings (reader self) stem;
          mret (dom postings :: stack)
      | [] => Ok (∅ :: stack)
      end
  | PHRASE val =>
      let terms := tokenizer self val in
      docs ← _sequence_search terms (Z.of_nat (length terms));
      mret (docs :: stack)
  | PROXIMITY val dist =>
      let terms := tokenizer self val in
      docs ← _sequence_search terms dist;
      mret (docs :: stack)
  | OP Not =>
      match stack with
      | [] => Ok stack
      | a :: below => Ok (all_docs self ∖ a :: below)
      end
  | OP And =>
      match stack with
      | b :: a :: below => Ok (a ∩ b :: below)
      | _ => Ok stack
      end
  | OP Or =>
      match stack with
      | b :: a :: below => Ok (a ∪ b :: below)
      | _ => Ok stack
      end
  | OP _ => Ok stack
  end.

Fixpoint run_rpn (rpn : list token) (stack : list (gset Z))
  : result (list (gset Z)) :=
  match rpn with
  | [] => Ok stack
  | token :: rest => stack ← rpn_step stack token; run_rpn rest stack
  end.

(** [return stack[0] if stack else set()]: [stack[0]] is the bottom. *)
Definition _solve_rpn (rpn : list token) : result (gset Z) :=
  stack ← run_rpn rpn [];
  mret (default ∅ (last stack)).

Definition _evaluate_recursive (tokens : list str) : result (gset Z) :=
  output ← rpn_of_tokens tokens;
  _solve_rpn output.

Definition execute (query : str) : result (gset Z) :=
  _evaluate_recursive (_tokenize query).

End engine.

End search.

(** ** The corpus of the end-to-end scenarios *)

Module Scenario.

Definition lower (c : Z) : Z :=
  if (65 <=? c) && (c <=? 90) then c + 32 else c.

(** [line.split()]: the maximal runs of characters that are not white
    space. *)
Fixpoint split_words (s : str) (word : str) : list str :=
  match s with
  | [] => if bool_decide (word = []) then [] else [word]
  | c :: rest =>
      if isspace c
      then (if bool_decide (word = []) then split_words rest []
            else word :: split_words rest [])
      else split_words rest (word ++ [c])
  end.

(** The identity tokenizer: lower-case the line and split it at white
    space. *)
Definition identity_tokenizer (line : str) : list str :=
  split_words (map lower line) [].

(** [TokenizerClient.tokenize] against a live child that runs it. *)
Definition tokenize (text : str) : list str :=
  match tokenizer_wrapper.tokenize
          (tokenizer_wrapper.live identity_tokenizer) text with
  | Some (Ok tokens, _) => tokens
  | _ => []
  end.

(** The depth of recursion the engine of the scenarios runs with: what the
    default limit of 1000 leaves under a caller a hundred frames deep. *)
Definition depth_left : nat := 900.

Definition doc (u t text : string) : indexer.document :=
  {| indexer.url := py u; indexer.title := py t;
     indexer.parsed_text := py text |}.

Definition corpus : list indexer.document :=
  [ doc "u0" "t0" "the quick brown fox";
    doc "u1" "t1" "the lazy brown dog";
    doc "u2" "t2" "quick fox quick fox";
    doc "u3" "t3" "brown bear sleeps" ].

(** Build the index, open it, run one query. *)
Definition search (query : str) : result (gset Z) :=
  dir ← indexer.build_index tokenize corpus 0;
  reader ← search.open_reader dir;
  search.execute (search.new_engine reader tokenize depth_left) query.

(** The engine over the index built from the corpus. *)
Definition engine : result search.SearchEngine :=
  dir ← indexer.build_index tokenize corpus 0;
  reader ← search.open_reader dir;
  mret (search.new_engine reader tokenize depth_left).

Definition empty_reader : search.CompressedIndexReader :=
  {| search.doc_infos := []; search.term_dict := ∅; search.post_file := [] |}.

Definition engine0 : search.SearchEngine :=
  match engine with
  | Ok e => e
  | Raise _ => search.new_engine empty_reader tokenize depth_left
  end.

(** A phrase literal: the text between double quotes. *)
Definition quoted (text : string) : str := [34] ++ py text ++ [34].

End Scenario.

(** ** Notions used in the statements *)

Module Spec.

(** A fragment of an RPN that leaves the set [A] on top of whatever the
    stack held: the translation of a subexpression. *)
Definition evaluates (self : search.SearchEngine) (r : list search.token)
    (A : gset Z) : Prop :=
  ∀ stack, search.run_rpn self r stack = Ok (A :: stack).

(** A token that the first loop of [_evaluate_recursive] turns into
    [('TERM', w)]. *)
Definition bare_word (w : str) : Prop :=
  search.is_operand w = true ∧ startswith w (py "PHRASE:") = false.

(** A reader over two documents. *)
Definition two_docs : search.CompressedIndexReader :=
  {| search.doc_infos :=
       [ {| search.url := py "u0"; search.title := py "t0" |};
         {| search.url := py "u1"; search.title := py "t1" |} ];
     search.term_dict := ∅; search.post_file := [] |}.

(** A child that prints one token and exits before the sentinel. *)
Definition dying_child : tokenizer_wrapper.Popen :=
  {| tokenizer_wrapper.respond :=
       fun _ => (tokenizer_wrapper.readlines (py "foo" ++ [10]), false);
     tokenizer_wrapper.running := true;
     tokenizer_wrapper.stdout := [] |}.

(** A child that has exited, with a line of its output still unread. *)
Definition dead_child : tokenizer_wrapper.Popen :=
  {| tokenizer_wrapper.respond := fun _ => ([], false);
     tokenizer_wrapper.running := false;
     tokenizer_wrapper.stdout :=
       tokenizer_wrapper.readlines (py "bar" ++ [10]) |}.



(** The order of the items of a stream by their keys. *)
Definition by_key {A} (key : A → list Z) : relation A :=
  λ x y, str_le (key x) (key y).

(** *** The dictionary file *)

(** One entry of [index.dict]: the term bytes, the offset of the postings
    and the number of documents. *)
Definition entry_bytes (e : bytes * Z * Z) : bytes :=
  let '(term_bytes, offset, doc_count) := e in
  [Z.of_nat (length term_bytes)] ++ term_bytes
  ++ le_bytes 8 offset ++ le_bytes 4 doc_count.

Definition entry_term (e : bytes * Z * Z) : bytes := e.1.1.

(** The layout of [index.dict]: magic, version 3, count, entries. *)
Definition dict_layout (entries : list (bytes * Z * Z)) : bytes :=
  indexer.MAGIC_DICT ++ le_bytes 2 3
  ++ le_bytes 4 (Z.of_nat (length entries))
  ++ concat (entry_bytes <$> entries).

(** [term_bytes] is what [write_term_entry] stores for [term]: its UTF-8
    encoding, cut after 255 bytes. *)
Definition serialized (term : str) (term_bytes : bytes) : Prop :=
  ∃ encoded, encode_utf8 term = Ok encoded ∧ term_bytes = slice_to 255 encoded.

(** The terms the tokenizer emits over the documents of the cursor. *)
Definition emitted (tokenize : str → list str)
    (cursor : list indexer.document) (term : str) : Prop :=
  ∃ doc, doc ∈ cursor ∧ term ∈ tokenize (indexer.parsed_text doc).

(** The runs of equal terms of the merged stream, each with the union of
    its document maps: the calls of [write_term_entry] that [merge_blocks]
    makes, in order. *)
Fixpoint groups (term : str) (docs : gmap Z (list Z))
    (stream : list (list Z * gmap Z (list Z)))
  : list (list Z * gmap Z (list Z)) :=
  match stream with
  | [] => [(term, docs)]
  | (t, d) :: rest =>
      if bool_decide (Some term = Some t) then groups term (d ∪ docs) rest
      else (term, docs) :: groups t d rest
  end.

Definition all_groups (stream : list (list Z * gmap Z (list Z)))
  : list (list Z * gmap Z (list Z)) :=
  match stream with
  | [] => []
  | (t, d) :: rest => groups t d rest
  end.

Fixpoint write_entries (gs : list (list Z * gmap Z (list Z)))
    (f_dict f_post : file) (term_count : Z) : result (file * file * Z) :=
  match gs with
  | [] => Ok (f_dict, f_post, term_count)
  | (t, d) :: rest =>
      '(f_dict, f_post) ← indexer.write_term_entry t d f_dict f_post;
      write_entries rest f_dict f_post (term_count + 1)
  end.

(** What holds of the blocks after the documents [docs] were read: every
    block is strictly sorted, the blocks are numbered in order, and the
    terms in memory and in the blocks are the terms emitted so far. *)
Definition blocks_ok (tokenize : str → list str)
    (docs : list indexer.document) (s : indexer.build_state) : Prop :=
  Forall (λ b : list (list Z * gmap Z (list Z)), StronglySorted str_lt b.*1)
         (indexer.temp_dir s)
  ∧ indexer.block_id s = length (indexer.temp_dir s)
  ∧ ∀ k, (is_Some (indexer.local_index s !! k)
          ∨ ∃ b, b ∈ indexer.temp_dir s ∧ k ∈ b.*1)
         ↔ emitted tokenize docs k.

(** A file open for appending: the cursor is at the end. *)
Definition at_end (f : file) : Prop := cursor f = length (content f).

(** *** The postings of a term *)

(** The bytes of [encode_varbyte n]. *)
Definition varbyte (n : Z) : bytes :=
  match compression.encode_varbyte n with
  | Ok b => b
  | Raise _ => []
  end.

(** One posting: the gap to the previous document, the frequency, the gaps
    between the positions. *)
Definition posting_bytes (p : Z * list Z) : bytes :=
  varbyte p.1 ++ varbyte (Z.of_nat (length p.2))
  ++ concat (varbyte <$> compression.encode_delta p.2).

(** The postings block of a term, as [write_term_entry] lays it out: the
    count, then one posting per document in ascending order, with the sorted
    positions of the document. *)
Definition postings_of (doc_map : gmap Z (list Z)) : list (Z * list Z) :=
  let doc_ids := sorted_int (indexer.keys doc_map) in
  zip (compression.encode_delta doc_ids)
      ((λ doc_id, sorted_int (default [] (doc_map !! doc_id))) <$> doc_ids).

Definition postings_block (doc_map : gmap Z (list Z)) : bytes :=
  varbyte (Z.of_nat (length (sorted_int (indexer.keys doc_map))))
  ++ concat (posting_bytes <$> postings_of doc_map).

(** What [read_entries] builds from a list of postings. *)
Fixpoint insert_postings (curr_doc_id : Z) (ps : list (Z * list Z))
    (result : gmap Z (list Z)) : gmap Z (list Z) :=
  match ps with
  | [] => result
  | (doc_delta, positions) :: rest =>
      insert_postings (curr_doc_id + doc_delta) rest
        (<[curr_doc_id + doc_delta := positions]> result)
  end.

(** The magnitudes a build stays within: document ids below [2 ^ 35] (the
    DOCS file counts documents in 32 bits), and per document fewer than
    [2 ^ 42] positions, each below [2 ^ 42]. *)
Definition bounded (doc_map : gmap Z (list Z)) : Prop :=
  ∀ doc_id positions, doc_map !! doc_id = Some positions →
    0 <= doc_id < 2 ^ 35
    ∧ Z.of_nat (length positions) < 2 ^ 42
    ∧ Forall (λ p, 0 <= p < 2 ^ 42) positions.

(** The bytes still to be decoded through a sliding buffer: the unread part
    of the buffer, then the unread part of the file. *)
Definition unread (f : file) : bytes := drop (cursor f) (content f).
Definition stream_of (w : search.window) : bytes :=
  drop (search.ptr w) (search.buffer w) ++ unread (search.handle w).

(** The buffer holds the next [k] bytes of the stream, or all of it. *)
Definition ready (k : nat) (w : search.window) : Prop :=
  (search.ptr w ≤ length (search.buffer w))%nat
  ∧ ((search.ptr w + k ≤ length (search.buffer w))%nat
     ∨ unread (search.handle w) = []).

(** What the reader needs of one posting: numbers that are not negative and
    short enough for the margins of the buffer. *)
Definition fits (p : Z * list Z) : Prop :=
  0 <= p.1 ∧ (length (varbyte p.1) ≤ 5)%nat
  ∧ (length (varbyte (Z.of_nat (length p.2))) ≤ 6)%nat
  ∧ Forall (λ d, 0 <= d ∧ (length (varbyte d) ≤ 6)%nat)
           (compression.encode_delta p.2).

(** *** The index of a build *)

(** [entry] is the dictionary entry of the run [g] of the merged stream in
    an index whose postings file is [post]: it carries the serialized term,
    the offset of the postings block of the run, and its number of
    documents. *)
Definition written_entry (post : bytes) (g : list Z * gmap Z (list Z))
    (e : bytes * Z * Z) : Prop :=
  serialized g.1 (entry_term e)
  ∧ (length (entry_term e) ≤ 255)%nat
  ∧ 0 <= e.1.2 < 2 ^ 64 ∧ 0 <= e.2 < 2 ^ 32
  ∧ e.2 = Z.of_nat (size g.2)
  ∧ ∃ before later,
      post = before ++ postings_block g.2 ++ later
      ∧ e.1.2 = Z.of_nat (length before).

(** The positions at which [term] occurs in a token list, counted from
    [pos]. *)
Fixpoint positions_in (term : str) (pos : Z) (tokens : list str) : list Z :=
  match tokens with
  | [] => []
  | token :: rest =>
      if bool_decide (token = term) then pos :: positions_in term (pos + 1) rest
      else positions_in term (pos + 1) rest
  end.

(** What tokenization observes of [term] in the document [doc_id] of the
    cursor: its positions, when it occurs there. *)
Definition observed_at (tokenize : str → list str)
    (cursor : list indexer.document) (term : str) (doc_id : Z)
  : option (list Z) :=
  if doc_id <? 0 then None
  else match cursor !! Z.to_nat doc_id with
       | Some doc =>
           let positions :=
             positions_in term 0 (tokenize (indexer.parsed_text doc)) in
           if bool_decide (positions = []) then None else Some positions
       | None => None
       end.

(** The positions an in-memory index holds for a term and a document. *)
Definition at2 (index : gmap (list Z) (gmap Z (list Z))) (term : str)
    (doc_id : Z) : option (list Z) :=
  index !! term ≫= (λ doc_map, doc_map !! doc_id).

(** The same for the block files, and for a stream of [(term, doc_map)]
    pairs. *)
Definition in_stream (stream : list (list Z * gmap Z (list Z)))
    (term : str) (doc_id : Z) (positions : list Z) : Prop :=
  ∃ doc_map, (term, doc_map) ∈ stream ∧ doc_map !! doc_id = Some positions.

Definition in_blocks (blocks : list (list (list Z * gmap Z (list Z))))
    (term : str) (doc_id : Z) (positions : list Z) : Prop :=
  ∃ b, b ∈ blocks ∧ in_stream b term doc_id positions.

(** What the build holds after the documents [docs]: the positions in
    memory and in the blocks are the positions observed. *)
Definition index_ok (tokenize : str → list str)
    (docs : list indexer.document) (s : indexer.build_state) : Prop :=
  indexer.docs_processed s = Z.of_nat (length docs)
  ∧ length (indexer.doc_infos s) = length docs
  ∧ ∀ term doc_id positions,
      (at2 (indexer.local_index s) term doc_id = Some positions
       ∨ in_blocks (indexer.temp_dir s) term doc_id positions)
      ↔ observed_at tokenize docs term doc_id = Some positions.

(** A reader whose dictionary sends [term] to [offset], over the postings
    file [data]. *)
Definition reader_at (term : str) (offset doc_count : Z) (data : bytes)
  : search.CompressedIndexReader :=
  {| search.doc_infos := [];
     search.term_dict := {[ term := (offset, doc_count) ]};
     search.post_file := data |}.

(** A term in twenty documents, twice in each. *)
Definition twenty_docs : gmap Z (list Z) :=
  list_to_map ((λ i, (Z.of_nat i * 1000, [Z.of_nat i * 300 + 200; Z.of_nat i]))
               <$> seq 0 20).

(** A document with two terms of 256 bytes that agree on the first 255. *)
Definition long_term (last : string) : str := replicate 255 97 ++ py last.
Definition long_corpus : list indexer.document :=
  [ {| indexer.url := py "u0"; indexer.title := py "t0";
       indexer.parsed_text := long_term "b" ++ py " " ++ long_term "c" |} ].

(** The reader over the index built from it. *)
Definition long_index : result search.CompressedIndexReader :=
  dir ← indexer.build_index Scenario.tokenize long_corpus 0;
  search.open_reader dir.

End Spec.

(** ** Notions used in the further properties *)

Module Sem.

(** Every position after the first is at most [max_dist] after it. *)
Definition within (max_dist : Z) (ps : list Z) : Prop :=
  match ps with
  | [] => True
  | first :: rest => Forall (λ p, p - first <= max_dist) rest
  end.

(** The search that [_find_path] makes when the recursion limit does not
    stop it: whether positions can be chosen from the lists [rest], under
    the tests of the source. *)
Fixpoint path_from (rest : list (list Z)) (idx : nat)
    (prev_pos first_pos max_dist : Z) (is_exact : bool) : bool :=
  match rest with
  | [] => true
  | candidates :: rest' =>
      existsb
        (fun pos =>
           if (idx =? 0)%nat
           then path_from rest' (S idx) pos pos max_dist is_exact
           else
             (prev_pos <? pos)
             && negb (is_exact && negb (pos =? prev_pos + 1))
             && negb (max_dist <? pos - first_pos)
             && path_from rest' (S idx) pos first_pos max_dist is_exact)
        candidates
  end.

(** The answer of [_check_sequence] then. *)
Definition accepted (positions_list : list (list Z)) (max_dist : Z) : bool :=
  path_from positions_list 0 (-1) (-1) max_dist
    (max_dist =? Z.of_nat (length positions_list)).

(** The UTF-8 encoding of [s], when there is one, takes at most [n]
    bytes. *)
Definition utf8_within (n : Z) (s : str) : Prop :=
  match encode_utf8 s with
  | Ok encoded => Z.of_nat (length encoded) <= n
  | Raise _ => True
  end.

#[global] Instance utf8_within_dec (n : Z) (s : str) :
  Decision (utf8_within n s).
Proof. unfold utf8_within. destruct (encode_utf8 s); apply _. Defined.

(** One record of [index.docs]: the length and the bytes of the URL, the
    length and the bytes of the title. *)
Definition doc_record (r : bytes * bytes) : bytes :=
  le_bytes 2 (Z.of_nat (length r.1)) ++ r.1
  ++ le_bytes 2 (Z.of_nat (length r.2)) ++ r.2.

(** The offsets of consecutive records, the first at [start]. *)
Fixpoint record_offsets (start : Z) (records : list (bytes * bytes))
  : list Z :=
  match records with
  | [] => []
  | r :: rest =>
      start :: record_offsets (start + Z.of_nat (length (doc_record r))) rest
  end.

(** The records of the documents: their encoded strings, which are read
    back as the strings of the documents. *)
Definition records_of (infos : list (str * str))
    (records : list (bytes * bytes)) : Prop :=
  Forall2 (λ it r, decode_utf8 r.1 = Ok it.1 ∧ decode_utf8 r.2 = Ok it.2
                   ∧ 0 <= Z.of_nat (length r.1) < 256 ^ Z.of_nat 2
                   ∧ 0 <= Z.of_nat (length r.2) < 256 ^ Z.of_nat 2)
          infos records.

(** The layout of [index.docs] after the magic and the version: the count,
    the table of the offsets, the records. *)
Definition docs_payload (records : list (bytes * bytes)) : bytes :=
  le_bytes 4 (Z.of_nat (length records))
  ++ concat (le_bytes 8 <$>
             record_offsets (10 + Z.of_nat (length records) * 8) records)
  ++ concat (doc_record <$> records).

(** The record [get_doc_info] returns for a document of the collection. *)
Definition info_of (doc : indexer.document) : search.DocInfo :=
  {| search.url := indexer.url doc; search.title := indexer.title doc |}.

(** The tokens of the document [doc_id] of the cursor, as the indexer saw
    them. *)
Definition tokens_of (tokenize : str → list str)
    (cursor : list indexer.document) (doc_id : Z) : option (list str) :=
  if doc_id <? 0 then None
  else (λ doc, tokenize (indexer.parsed_text doc)) <$> cursor !! Z.to_nat doc_id.

(** [terms] stand side by side somewhere in [tokens]. *)
Definition phrase_in (terms tokens : list str) : Prop :=
  ∃ before after, tokens = before ++ terms ++ after.

(** [terms] occur in [tokens] in this order, one position each, every one
    at most [max_dist] after the first. *)
Definition near_in (max_dist : Z) (terms tokens : list str) : Prop :=
  ∃ ps : list nat,
    Forall2 (λ p t, tokens !! p = Some t) ps terms
    ∧ Sorted lt ps
    ∧ within max_dist (Z.of_nat <$> ps).

(** The index of the corpus of the scenarios, built in blocks of two
    documents, and the reader opened on it. *)
Definition scenario_files : indexer.index_files :=
  match indexer.build_index_sized Scenario.tokenize 2 Scenario.corpus 0 with
  | Ok files => files
  | Raise _ =>
      {| indexer.index_docs := []; indexer.index_dict := [];
         indexer.index_postings := [] |}
  end.

Definition scenario_reader : search.CompressedIndexReader :=
  match search.open_reader scenario_files with
  | Ok reader => reader
  | Raise _ => Scenario.empty_reader
  end.

(** A token as a child that obeys the protocol prints it: not empty,
    without a line feed or a carriage return in it, without white space
    around it, and not the sentinel. *)
Definition clean_token (t : str) : Prop :=
  t ≠ [] ∧ strip t = t ∧ (10 ∉ t) ∧ (13 ∉ t)
  ∧ t ≠ tokenizer_wrapper.END_DOC.

#[global] Instance clean_token_dec (t : str) : Decision (clean_token t).
Proof. unfold clean_token. apply _. Defined.

End Sem.

(** * Properties *)

Import Spec.

(** * Properties *)

Section Varbyte.
Import compression.

Lemma low7_split (n : Z) :
  Z.lor (Z.land n 0x7F) (Z.shiftl (Z.shiftr n 7) 7) = n.
Proof.
  apply Z.bits_inj'. intros i Hi.
  rewrite Z.lor_spec, Z.land_spec.
  change 0x7F with (Z.ones 7).
  destruct (Z.lt_ge_cases i 7) as [Hlt | Hge].
  - rewrite Z.ones_spec_low by lia.
    rewrite Z.shiftl_spec_low by lia. now rewrite andb_true_r, orb_false_r.
  - rewrite Z.ones_spec_high by lia.
    rewrite Z.shiftl_spec by lia. rewrite Z.shiftr_spec by lia.
    rewrite andb_false_r. simpl. f_equal. lia.
Qed.

Lemma continuation_byte_low (n : Z) :
  Z.land (Z.lor (Z.land n 0x7F) 0x80) 0x7F = Z.land n 0x7F.
Proof.
  apply Z.bits_inj'. intros i Hi.
  rewrite !Z.land_spec, Z.lor_spec, Z.land_spec.
  change 0x7F with (Z.ones 7). change 0x80 with (2 ^ 7).
  destruct (Z.lt_ge_cases i 7) as [Hlt | Hge].
  - rewrite Z.ones_spec_low by lia. rewrite Z.pow2_bits_false by lia.
    now rewrite !andb_true_r, orb_false_r.
  - rewrite Z.ones_spec_high by lia. now rewrite !andb_false_r.
Qed.

Lemma continuation_byte_high (n : Z) :
  Z.land (Z.lor (Z.land n 0x7F) 0x80) 0x80 = 0x80.
Proof.
  apply Z.bits_inj'. intros i Hi.
  rewrite !Z.land_spec, Z.lor_spec, Z.land_spec.
  change 0x7F with (Z.ones 7). change 0x80 with (2 ^ 7).
  destruct (Z.eq_dec i 7) as [-> | Hne].
  - rewrite Z.pow2_bits_true by lia. now rewrite orb_true_r.
  - rewrite Z.pow2_bits_false by lia. now rewrite andb_false_r.
Qed.

Lemma final_byte (n : Z) :
  0 <= n < 128 → Z.land n 0x7F = n ∧ Z.land n 0x80 = 0.
Proof.
  intros Hn. split.
  - change 0x7F with (Z.ones 7). rewrite Z.land_ones by lia.
    apply Z.mod_small. lia.
  - apply Z.bits_inj'. intros i Hi.
    rewrite Z.land_spec, Z.bits_0. change 0x80 with (2 ^ 7).
    destruct (Z.eq_dec i 7) as [-> | Hne].
    + rewrite (Z.bits_above_log2 n 7); [reflexivity | lia |].
      destruct (Z.eq_dec n 0) as [-> | ?]; [simpl; lia |].
      apply Z.log2_lt_pow2; lia.
    + rewrite Z.pow2_bits_false by lia. now rewrite andb_false_r.
Qed.


Lemma shift_accumulate (acc n shift : Z) :
  0 <= shift →
  Z.lor (Z.lor acc (Z.shiftl (Z.land n 0x7F) shift))
        (Z.shiftl (Z.shiftr n 7) (shift + 7))
  = Z.lor acc (Z.shiftl n shift).
Proof.
  intros Hs. rewrite <- Z.lor_assoc. f_equal.
  rewrite (Z.add_comm shift 7), <- Z.shiftl_shiftl by lia.
  rewrite <- Z.shiftl_lor. now rewrite low7_split.
Qed.

Lemma varbyte_len_small (n : Z) : 0 <= n < 128 → varbyte_len n = 1.
Proof.
  intros Hn. unfold varbyte_len, bit_length.
  destruct (Z.eqb_spec n 0) as [-> | Hne]; [reflexivity |].
  assert (Z.log2 n < 7) by (apply Z.log2_lt_pow2; lia).
  pose proof (Z.log2_nonneg n).
  assert ((Z.log2 n + 1 + 6) / 7 = 1) as ->; [| lia].
  symmetry. apply Z.div_unique with (r := Z.log2 n); lia.
Qed.

Lemma varbyte_len_shift (n : Z) :
  128 <= n → varbyte_len n = 1 + varbyte_len (Z.shiftr n 7).
Proof.
  intros Hn. unfold varbyte_len, bit_length.
  assert (7 <= Z.log2 n) by (apply Z.log2_le_pow2; lia).
  assert (0 < Z.shiftr n 7).
  { rewrite Z.shiftr_div_pow2 by lia. apply Z.div_str_pos. lia. }
  rewrite (Z.log2_shiftr n 7) by lia.
  destruct (Z.eqb_spec n 0); [lia |].
  destruct (Z.eqb_spec (Z.shiftr n 7) 0); [lia |].
  replace (Z.max 0 (Z.log2 n - 7) + 1 + 6) with (Z.log2 n) by lia.
  replace (Z.log2 n + 1 + 6) with (Z.log2 n + 1 * 7) by lia.
  rewrite Z.div_add by lia.
  assert (1 <= Z.log2 n / 7) by (apply Z.div_le_lower_bound; lia).
  lia.
Qed.

(** The encoding loop appends to [out] a block of [varbyte_len n] bytes that
    the decoding loop, started at any accumulator and shift, reads back
    as [n]. *)
Lemma encode_loop_decode (fuel : nat) :
  ∀ (n : Z) (out : list Z),
    0 <= n < 2 ^ (7 * Z.of_nat (S fuel)) →
    ∃ bs, encode_loop (S fuel) n out = Some (out ++ bs)
          ∧ Z.of_nat (length bs) = varbyte_len n
          ∧ ∀ rest acc shift off, 0 <= shift →
              decode_loop (bs ++ rest) acc shift off
              = Ok (Z.lor acc (Z.shiftl n shift), (off + length bs)%nat).
Proof.
  assert (Hlast : ∀ n out, 0 <= n < 128 →
    ∃ bs, Some (out ++ [n]) = Some (out ++ bs)
          ∧ Z.of_nat (length bs) = varbyte_len n
          ∧ ∀ rest acc shift off, 0 <= shift →
              decode_loop (bs ++ rest) acc shift off
              = Ok (Z.lor acc (Z.shiftl n shift), (off + length bs)%nat)).
  { intros n out Hn. exists [n]. split; [| split].
    - reflexivity.
    - now rewrite varbyte_len_small by lia.
    - intros rest acc shift off Hs. simpl.
      destruct (final_byte n) as [-> ->]; [lia |]. simpl.
      do 2 f_equal. lia. }
  induction fuel as [| fuel IH]; intros n out Hn.
  - simpl encode_loop. change (2 ^ (7 * Z.of_nat 1)) with 128 in Hn.
    destruct (Z.leb_spec 128 n); [lia |]. now apply Hlast.
  - cbn [encode_loop]. destruct (Z.leb_spec 128 n) as [Hbig | Hsmall].
    + destruct (IH (Z.shiftr n 7) (out ++ [Z.lor (Z.land n 0x7F) 0x80]))
        as (bs & Henc & Hlen & Hdec).
      { rewrite Z.shiftr_div_pow2 by lia. split.
        - apply Z.div_pos; lia.
        - apply Z.div_lt_upper_bound; [lia |].
          rewrite <- Z.pow_add_r by lia.
          replace (7 + 7 * Z.of_nat (S fuel))
            with (7 * Z.of_nat (S (S fuel))) by lia.
          lia. }
      exists (Z.lor (Z.land n 0x7F) 0x80 :: bs). split; [| split].
      * cbn [encode_loop] in Henc. rewrite Henc. now rewrite <- app_assoc.
      * rewrite varbyte_len_shift by lia. simpl length. lia.
      * intros rest acc shift off Hs. simpl.
        rewrite continuation_byte_high, continuation_byte_low. simpl.
        rewrite Hdec by lia. rewrite shift_accumulate by lia.
        do 2 f_equal. lia.
    + apply Hlast. lia.
Qed.

Lemma encode_fuel_enough (n : Z) :
  0 < n →
  ∃ fuel, encode_fuel n = S fuel ∧ 0 <= n < 2 ^ (7 * Z.of_nat (S fuel)).
Proof.
  intros Hn. exists (Z.to_nat (Z.log2 n)). split; [reflexivity |].
  split; [lia |].
  pose proof (Z.log2_nonneg n).
  destruct (Z.log2_spec n Hn) as [_ Hup].
  eapply Z.lt_le_trans; [exact Hup |].
  apply Z.pow_le_mono_r; lia.
Qed.

Lemma encode_varbyte_decode (n : Z) :
  0 <= n →
  ∃ bs, encode_varbyte n = Ok bs
        ∧ Z.of_nat (length bs) = varbyte_len n
        ∧ ∀ rest acc shift off, 0 <= shift →
            decode_loop (bs ++ rest) acc shift off
            = Ok (Z.lor acc (Z.shiftl n shift), (off + length bs)%nat).
Proof.
  intros Hn. unfold encode_varbyte.
  destruct (Z.ltb_spec n 0); [lia |].
  destruct (Z.eqb_spec n 0) as [-> | Hne].
  - exists [0]. split; [reflexivity | split; [reflexivity |]].
    intros rest acc shift off Hs. simpl.
    rewrite !Z.shiftl_0_l. now rewrite Nat.add_1_r.
  - destruct (encode_fuel_enough n) as (fuel & -> & Hfuel); [lia |].
    destruct (encode_loop_decode fuel n [] Hfuel) as (bs & Henc & Hlen & Hdec).
    exists bs. rewrite Henc. auto.
Qed.

Lemma decode_loop_truncated (rest : list Z) :
  ∀ acc shift off,
    Forall (λ b, Z.land b 0x80 ≠ 0) rest →
    decode_loop rest acc shift off
    = Raise (IndexError "Unexpected end of byte stream").
Proof.
  induction rest as [| b rest IH]; intros acc shift off Hall; [reflexivity |].
  inversion Hall as [| ? ? Hb Hrest]; subst. simpl.
  destruct (Z.eqb_spec (Z.land b 0x80) 0); [contradiction |].
  now apply IH.
Qed.

(** C2. For every [n >= 0], [encode_varbyte n] is a block of
    [max(1, ceil(bit_length(n) / 7))] bytes that [decode_varbyte_stream]
    reads back from offset 0 as [(n, L)]; zero is the single byte 0x00;
    and a buffer in which every byte from [offset] on has its high bit set
    (so that it ends before a final byte) makes the decoder raise
    [IndexError("Unexpected end of byte stream")]. *)
Theorem varbyte_codec_contract :
  (∀ n : Z, 0 <= n →
     ∃ bs, encode_varbyte n = Ok bs
           ∧ Z.of_nat (length bs) = varbyte_len n
           ∧ decode_varbyte_stream bs 0 = Ok (n, length bs))
  ∧ encode_varbyte 0 = Ok [0]
  ∧ (∀ (data : list Z) (offset : nat),
       (∀ i b, (offset <= i)%nat → data !! i = Some b → Z.land b 0x80 ≠ 0) →
       decode_varbyte_stream data offset
       = Raise (IndexError "Unexpected end of byte stream")).
Proof.
  split; [| split].
  - intros n Hn. destruct (encode_varbyte_decode n Hn) as (bs & Henc & Hlen & Hdec).
    exists bs. split; [assumption | split; [assumption |]].
    unfold decode_varbyte_stream. rewrite drop_0.
    specialize (Hdec [] 0 0 0%nat ltac:(lia)).
    rewrite app_nil_r in Hdec. rewrite Hdec.
    now rewrite Z.shiftl_0_r, Z.lor_0_l.
  - reflexivity.
  - intros data offset Hhigh. unfold decode_varbyte_stream.
    apply decode_loop_truncated. apply Forall_lookup. intros i b Hib.
    rewrite lookup_drop in Hib. apply (Hhigh (offset + i)%nat); [lia | exact Hib].
Qed.

Lemma varbyte_codec_contract_witness :
  (∃ bs, encode_varbyte 300 = Ok bs
         ∧ Z.of_nat (length bs) = varbyte_len 300
         ∧ decode_varbyte_stream bs 0 = Ok (300, length bs))
  ∧ decode_varbyte_stream [0x81; 0xFF] 1
    = Raise (IndexError "Unexpected end of byte stream").
Proof.
  destruct varbyte_codec_contract as (Hround & _ & Htrunc). split.
  - apply (Hround 300). lia.
  - apply (Htrunc [0x81; 0xFF] 1%nat). intros i b Hi Hib.
    destruct i as [| [| i]]; [lia | | discriminate].
    injection Hib as <-. discriminate.
Defined.

Example encode_varbyte_300 : encode_varbyte 300 = Ok [0xAC; 0x02].
Proof. reflexivity. Qed.

Example varbyte_len_300 : varbyte_len 300 = 2.
Proof. reflexivity. Qed.

End Varbyte.

(** ** The index reader: document lookup *)

Section DocLookup.
Import search.

Lemma getitem_in_range {A} (l : list A) (i : Z) :
  0 <= i < Z.of_nat (length l) →
  ∃ x, l !! Z.to_nat i = Some x ∧ getitem l i = Ok x.
Proof.
  intros Hi. unfold getitem.
  destruct (Z.ltb_spec i 0); [lia |].
  destruct (Z.leb_spec 0 i); [| lia].
  destruct (Z.ltb_spec i (Z.of_nat (length l))); [| lia]. simpl.
  destruct (lookup_lt_is_Some_2 l (Z.to_nat i)) as [x Hx]; [lia |].
  exists x. now rewrite Hx.
Qed.

(** C10. [get_doc_info] returns a value for every integer: inside
    [0, N) the record stored at that index, outside it the record with empty
    url and title; [get_doc_url] is then the empty string. *)
Theorem get_doc_info_total (self : CompressedIndexReader) (doc_id : Z) :
  (0 <= doc_id < Z.of_nat (length (doc_infos self)) →
     ∃ info, doc_infos self !! Z.to_nat doc_id = Some info
             ∧ get_doc_info self doc_id = Ok info
             ∧ get_doc_url self doc_id = Ok (url info))
  ∧ (¬ 0 <= doc_id < Z.of_nat (length (doc_infos self)) →
     get_doc_info self doc_id = Ok {| url := []; title := [] |}
     ∧ get_doc_url self doc_id = Ok [])
  ∧ (∃ info, get_doc_info self doc_id = Ok info).
Proof.
  assert (Hin : 0 <= doc_id < Z.of_nat (length (doc_infos self)) →
     ∃ info, doc_infos self !! Z.to_nat doc_id = Some info
             ∧ get_doc_info self doc_id = Ok info
             ∧ get_doc_url self doc_id = Ok (url info)).
  { intros Hi. destruct (getitem_in_range (doc_infos self) doc_id Hi)
      as (info & Hlook & Hget).
    exists info. unfold get_doc_url, get_doc_info.
    destruct (Z.leb_spec 0 doc_id); [| lia].
    destruct (Z.ltb_spec doc_id (Z.of_nat (length (doc_infos self)))); [| lia].
    simpl. rewrite Hget. auto. }
  assert (Hout : ¬ 0 <= doc_id < Z.of_nat (length (doc_infos self)) →
     get_doc_info self doc_id = Ok {| url := []; title := [] |}
     ∧ get_doc_url self doc_id = Ok []).
  { intros Ho. unfold get_doc_url, get_doc_info.
    destruct (Z.leb_spec 0 doc_id);
      destruct (Z.ltb_spec doc_id (Z.of_nat (length (doc_infos self))));
      simpl; auto; lia. }
  split; [exact Hin | split; [exact Hout |]].
  destruct (decide (0 <= doc_id < Z.of_nat (length (doc_infos self))))
    as [Hi | Ho].
  - destruct (Hin Hi) as (info & _ & Hget & _). eauto.
  - destruct (Hout Ho) as [Hget _]. eauto.
Qed.

Lemma get_doc_info_total_witness :
  (∃ info, doc_infos two_docs !! Z.to_nat 1 = Some info
           ∧ get_doc_info two_docs 1 = Ok info
           ∧ get_doc_url two_docs 1 = Ok (url info))
  ∧ (get_doc_info two_docs (-1) = Ok {| url := []; title := [] |}
     ∧ get_doc_url two_docs (-1) = Ok [])
  ∧ (get_doc_info two_docs 2 = Ok {| url := []; title := [] |}
     ∧ get_doc_url two_docs 2 = Ok []).
Proof.
  split; [| split].
  - apply (get_doc_info_total two_docs 1). simpl. lia.
  - apply (get_doc_info_total two_docs (-1)). simpl. lia.
  - apply (get_doc_info_total two_docs 2). simpl. lia.
Defined.

Example get_doc_info_negative :
  get_doc_info two_docs (-1) = Ok {| url := []; title := [] |}
  ∧ getitem (doc_infos two_docs) (-1) = Ok {| url := py "u1"; title := py "t1" |}.
Proof. split; reflexivity. Qed.

End DocLookup.

(** ** The evaluator *)

Section Evaluator.
Import search.
Variable self : SearchEngine.

Lemma run_rpn_app (r1 r2 : list token) (stack : list (gset Z)) :
  run_rpn self (r1 ++ r2) stack
  = (stack' ← run_rpn self r1 stack; run_rpn self r2 stack').
Proof.
  revert stack. induction r1 as [| t r1 IH]; intros stack; [reflexivity |].
  simpl. destruct (rpn_step self stack t) as [stack' |]; simpl; [apply IH | reflexivity].
Qed.

Lemma evaluates_app (r1 r2 : list token) (A : gset Z) (stack : list (gset Z)) :
  evaluates self r1 A →
  run_rpn self (r1 ++ r2) stack = run_rpn self r2 (A :: stack).
Proof. intros H1. rewrite run_rpn_app, H1. reflexivity. Qed.

Lemma evaluates_not (r : list token) (A : gset Z) :
  evaluates self r A → evaluates self (r ++ [OP Not]) (all_docs self ∖ A).
Proof. intros H stack. rewrite (evaluates_app _ _ A) by assumption. reflexivity. Qed.

Lemma evaluates_and (r1 r2 : list token) (A B : gset Z) :
  evaluates self r1 A → evaluates self r2 B → evaluates self (r1 ++ r2 ++ [OP And]) (A ∩ B).
Proof.
  intros H1 H2 stack.
  rewrite (evaluates_app _ _ A), (evaluates_app _ _ B) by assumption.
  reflexivity.
Qed.

Lemma evaluates_or (r1 r2 : list token) (A B : gset Z) :
  evaluates self r1 A → evaluates self r2 B → evaluates self (r1 ++ r2 ++ [OP Or]) (A ∪ B).
Proof.
  intros H1 H2 stack.
  rewrite (evaluates_app _ _ A), (evaluates_app _ _ B) by assumption.
  reflexivity.
Qed.

Lemma evaluates_solve (r : list token) (A : gset Z) :
  evaluates self r A → _solve_rpn self r = Ok A.
Proof. intros H. unfold _solve_rpn. rewrite H. reflexivity. Qed.

(** An operand token pushes the same set on every stack. *)
Lemma evaluates_operand (t : token) (A : gset Z) :
  (∀ o, t ≠ OP o) → rpn_step self [] t = Ok [A] → evaluates self [t] A.
Proof.
  intros Hop Hstep stack. cbn [run_rpn].
  destruct t as [val | val | val dist | o]; [| | | now destruct (Hop o)];
    unfold rpn_step in *.
  - destruct (tokenizer self val) as [| stem stems].
    + injection Hstep as <-. reflexivity.
    + destruct (get_postings (reader self) stem); [| discriminate].
      injection Hstep as <-. reflexivity.
  - destruct (_sequence_search self _ _); [| discriminate].
    injection Hstep as <-. reflexivity.
  - destruct (_sequence_search self _ _); [| discriminate].
    injection Hstep as <-. reflexivity.
Qed.

End Evaluator.

Section BooleanLaws.
Import search.
Variable self : SearchEngine.
Variables (rA rB rC : list token) (A B C : gset Z).
Hypothesis HA : evaluates self rA A.
Hypothesis HB : evaluates self rB B.
Hypothesis HC : evaluates self rC C.
Hypothesis A_in_universe : A ⊆ all_docs self.

(** C4. For RPN fragments that evaluate to sets [A], [B], [C], with [A]
    inside the universe [all_docs]: [A && !A] is empty, [A || !A] is the
    universe, [!(!A)] is [A], [A && B] is [B && A], and [A || (B && C)] is
    [(A || B) && (A || C)]. *)
Theorem boolean_laws :
  _solve_rpn self (rA ++ (rA ++ [OP Not]) ++ [OP And]) = Ok ∅
  ∧ _solve_rpn self (rA ++ (rA ++ [OP Not]) ++ [OP Or]) = Ok (all_docs self)
  ∧ _solve_rpn self ((rA ++ [OP Not]) ++ [OP Not]) = _solve_rpn self rA
  ∧ _solve_rpn self (rA ++ rB ++ [OP And])
    = _solve_rpn self (rB ++ rA ++ [OP And])
  ∧ _solve_rpn self (rA ++ (rB ++ rC ++ [OP And]) ++ [OP Or])
    = _solve_rpn self ((rA ++ rB ++ [OP Or]) ++ (rA ++ rC ++ [OP Or])
                       ++ [OP And]).
Proof.
  pose proof (evaluates_not self rA A HA) as HnA.
  pose proof (evaluates_and self _ _ _ _ HB HC) as HBC.
  pose proof (evaluates_or self _ _ _ _ HA HB) as HAB.
  pose proof (evaluates_or self _ _ _ _ HA HC) as HAC.
  rewrite (evaluates_solve self _ _ (evaluates_and self _ _ _ _ HA HnA)).
  rewrite (evaluates_solve self _ _ (evaluates_or self _ _ _ _ HA HnA)).
  rewrite (evaluates_solve self _ _ (evaluates_not self _ _ HnA)).
  rewrite (evaluates_solve self _ _ HA).
  rewrite (evaluates_solve self _ _ (evaluates_and self _ _ _ _ HA HB)).
  rewrite (evaluates_solve self _ _ (evaluates_and self _ _ _ _ HB HA)).
  rewrite (evaluates_solve self _ _ (evaluates_or self _ _ _ _ HA HBC)).
  rewrite (evaluates_solve self _ _ (evaluates_and self _ _ _ _ HAB HAC)).
  assert (Hsub : ∀ x, x ∈ A → x ∈ all_docs self) by exact A_in_universe.
  repeat split; f_equal; apply set_eq; intros x;
    repeat first [ rewrite elem_of_difference | rewrite elem_of_union
                 | rewrite elem_of_intersection ];
    try (pose proof (not_elem_of_empty (C := gset Z) x));
    specialize (Hsub x); destruct (decide (x ∈ A)); tauto.
Qed.

End BooleanLaws.

Lemma boolean_laws_witness :
  let self := Scenario.engine0 in
  let rA := [search.TERM (py "brown")] in
  let rB := [search.PHRASE (py "quick fox")] in
  let rC := [search.PROXIMITY (py "the fox") 3] in
  search._solve_rpn self
    (rA ++ (rA ++ [search.OP search.Not]) ++ [search.OP search.And]) = Ok ∅
  ∧ search._solve_rpn self
      (rA ++ (rA ++ [search.OP search.Not]) ++ [search.OP search.Or])
    = Ok (search.all_docs self)
  ∧ search._solve_rpn self
      ((rA ++ [search.OP search.Not]) ++ [search.OP search.Not])
    = search._solve_rpn self rA
  ∧ search._solve_rpn self (rA ++ rB ++ [search.OP search.And])
    = search._solve_rpn self (rB ++ rA ++ [search.OP search.And])
  ∧ search._solve_rpn self
      (rA ++ (rB ++ rC ++ [search.OP search.And]) ++ [search.OP search.Or])
    = search._solve_rpn self
        ((rA ++ rB ++ [search.OP search.Or])
         ++ (rA ++ rC ++ [search.OP search.Or]) ++ [search.OP search.And]).
Proof.
  intros self rA rB rC.
  apply (boolean_laws self rA rB rC {[0; 1; 3]} {[2]} {[0]}).
  - apply evaluates_operand; [discriminate | vm_compute; reflexivity].
  - apply evaluates_operand; [discriminate | vm_compute; reflexivity].
  - apply evaluates_operand; [discriminate | vm_compute; reflexivity].
  - refine (bool_decide_unpack _ _). vm_compute. exact I.
Defined.

(** The queries of the laws, over bare words: the conversion to RPN gives
    the fragments of the laws, with the operands in the order of the query
    and each operator after its operands. The inner negation of [!(!a)] is
    between parentheses. *)
Section BooleanQueries.
Import search.

Lemma process_word (w next : str) (rest : list str) :
  bare_word w → next ≠ py "/" →
  process_tokens (w :: next :: rest)
  = (more ← process_tokens (next :: rest); mret (TERM w :: more)).
Proof.
  intros [Hoperand Hphrase] Hnext. cbn [process_tokens].
  rewrite Hoperand, Hphrase. destruct rest as [| num rest]; [reflexivity |].
  now rewrite (bool_decide_eq_false_2 _ Hnext).
Qed.

Lemma process_last_word (w : str) :
  bare_word w → process_tokens [w] = Ok [TERM w].
Proof.
  intros [Hoperand Hphrase]. cbn [process_tokens].
  now rewrite Hoperand, Hphrase.
Qed.

Lemma process_operator (t : str) (o : op) (rest : list str) :
  is_operand t = false → op_of_str t = Some o →
  process_tokens (t :: rest)
  = (more ← process_tokens rest; mret (OP o :: more)).
Proof. intros Hoperand Hop. cbn [process_tokens]. now rewrite Hoperand, Hop. Qed.

Ltac process_query :=
  unfold rpn_of_tokens;
  repeat first
    [ rewrite process_last_word by assumption
    | rewrite process_word by (assumption || discriminate)
    | rewrite (process_operator (py "&&") And) by reflexivity
    | rewrite (process_operator (py "||") Or) by reflexivity
    | rewrite (process_operator (py "!") Not) by reflexivity
    | rewrite (process_operator (py "(") LParen) by reflexivity
    | rewrite (process_operator (py ")") RParen) by reflexivity ];
  reflexivity.

Lemma boolean_queries_rpn (a b c : str) :
  bare_word a → bare_word b → bare_word c →
  rpn_of_tokens [a; py "&&"; py "!"; a]
  = Ok ([TERM a] ++ ([TERM a] ++ [OP Not]) ++ [OP And])
  ∧ rpn_of_tokens [a; py "||"; py "!"; a]
    = Ok ([TERM a] ++ ([TERM a] ++ [OP Not]) ++ [OP Or])
  ∧ rpn_of_tokens [py "!"; py "("; py "!"; a; py ")"]
    = Ok (([TERM a] ++ [OP Not]) ++ [OP Not])
  ∧ rpn_of_tokens [a; py "&&"; b] = Ok ([TERM a] ++ [TERM b] ++ [OP And])
  ∧ rpn_of_tokens [b; py "&&"; a] = Ok ([TERM b] ++ [TERM a] ++ [OP And])
  ∧ rpn_of_tokens [a; py "||"; py "("; b; py "&&"; c; py ")"]
    = Ok ([TERM a] ++ ([TERM b] ++ [TERM c] ++ [OP And]) ++ [OP Or])
  ∧ rpn_of_tokens [py "("; a; py "||"; b; py ")"; py "&&";
                   py "("; a; py "||"; c; py ")"]
    = Ok (([TERM a] ++ [TERM b] ++ [OP Or])
          ++ ([TERM a] ++ [TERM c] ++ [OP Or]) ++ [OP And]).
Proof. intros Ha Hb Hc. repeat split; process_query. Qed.

End BooleanQueries.

Section Underflow.
Import search.
Variable self : SearchEngine.

(** C8. A binary operator met with fewer than two sets on the stack, and
    [!] met with an empty stack, return the stack as it is and raise nothing;
    the result of the evaluation is the one set left on the stack, and the
    empty set when the stack is empty. *)
Theorem underflow_is_ignored :
  (∀ stack : list (gset Z), (length stack < 2)%nat →
     rpn_step self stack (OP And) = Ok stack
     ∧ rpn_step self stack (OP Or) = Ok stack)
  ∧ rpn_step self [] (OP Not) = Ok []
  ∧ (∀ rpn, run_rpn self rpn [] = Ok [] → _solve_rpn self rpn = Ok ∅)
  ∧ (∀ rpn A, run_rpn self rpn [] = Ok [A] → _solve_rpn self rpn = Ok A).
Proof.
  split; [| split; [reflexivity | split]].
  - intros stack Hlen.
    destruct stack as [| b [| a below]]; simpl in *; auto; lia.
  - intros rpn Hrun. unfold _solve_rpn. now rewrite Hrun.
  - intros rpn A Hrun. unfold _solve_rpn. now rewrite Hrun.
Qed.

End Underflow.

Lemma underflow_is_ignored_witness :
  let self := Scenario.engine0 in
  (search.rpn_step self [{[0; 2]}] (search.OP search.And) = Ok [{[0; 2]}]
   ∧ search.rpn_step self [{[0; 2]}] (search.OP search.Or) = Ok [{[0; 2]}])
  ∧ search._solve_rpn self [search.OP search.Or; search.OP search.Not] = Ok ∅
  ∧ search._solve_rpn self
      [search.OP search.And; search.TERM (py "fox"); search.OP search.Or]
    = Ok {[0; 2]}.
Proof.
  intros self.
  destruct (underflow_is_ignored self) as (Hbin & _ & Hempty & Hone).
  split; [| split].
  - apply Hbin. simpl. lia.
  - apply Hempty. reflexivity.
  - apply Hone. vm_compute. reflexivity.
Defined.

(** ** Negation in the shunting-yard conversion *)

Section DoubleNegation.
Import search.
Variable self : SearchEngine.

(** C7, as the code has it. For a bare word [w] the tokens [!], [!], [w]
    are converted to the RPN [NOT, w, NOT]: the second [!] pops the first,
    whose precedence is not lower, before the operand is output. The leading
    [NOT] finds an empty stack and is skipped, so that [!!w] evaluates to the
    complement of [w], not to [w]. *)
Theorem double_negation_rpn (w : str) :
  bare_word w →
  rpn_of_tokens [py "!"; py "!"; w] = Ok [OP Not; TERM w; OP Not]
  ∧ ∀ A, _solve_rpn self [TERM w] = Ok A →
         _evaluate_recursive self [py "!"; py "!"; w]
         = Ok (all_docs self ∖ A).
Proof.
  intros [Hoperand Hphrase].
  assert (Hrpn : rpn_of_tokens [py "!"; py "!"; w]
                 = Ok [OP Not; TERM w; OP Not]).
  { unfold rpn_of_tokens.
    change (process_tokens [py "!"; py "!"; w])
      with (more ← (more ← process_tokens [w]; mret (OP Not :: more));
            mret (OP Not :: more)).
    cbn [process_tokens]. rewrite Hoperand, Hphrase. reflexivity. }
  split; [exact Hrpn |].
  intros A HA. unfold _evaluate_recursive. rewrite Hrpn.
  unfold _solve_rpn in *. cbn [mbind result_bind run_rpn] in *.
  change (rpn_step self [] (OP Not)) with (Ok ([] : list (gset Z))).
  cbn [mbind result_bind]. unfold rpn_step in *.
  destruct (tokenizer self w) as [| stem stems].
  - injection HA as <-. reflexivity.
  - destruct (get_postings (reader self) stem) as [postings | e];
      [| discriminate].
    injection HA as <-. reflexivity.
Qed.

End DoubleNegation.

Lemma double_negation_rpn_witness :
  search.rpn_of_tokens [py "!"; py "!"; py "fox"]
  = Ok [search.OP search.Not; search.TERM (py "fox"); search.OP search.Not]
  ∧ search._evaluate_recursive Scenario.engine0 [py "!"; py "!"; py "fox"]
    = Ok (search.all_docs Scenario.engine0 ∖ {[0; 2]}).
Proof.
  destruct (double_negation_rpn Scenario.engine0 (py "fox")) as [Hrpn Heval].
  - split; reflexivity.
  - split; [exact Hrpn |]. apply Heval. vm_compute. reflexivity.
Defined.

(** On the corpus of the scenarios the query [! ! fox] is lexed into the
    tokens [!], [!], [fox] and returns {1, 3}, the complement of the
    documents {0, 2} of [fox]. *)
Example double_negation_on_corpus :
  search._tokenize (py "! ! fox") = [py "!"; py "!"; py "fox"]
  ∧ Scenario.search (py "! ! fox") = Ok {[1; 3]}
  ∧ Scenario.search (py "fox") = Ok {[0; 2]}.
Proof. repeat split; vm_compute; reflexivity. Qed.

(** ** Opening an index: magic and version *)

Section Headers.
Import search.





Lemma read_after (n p : nat) (before rest : bytes) :
  p = length before →
  read n (File (before ++ rest) p)
  = (take n rest, File (before ++ rest) (p + length (take n rest))).
Proof.
  intros ->. unfold read. cbn [cursor content]. now rewrite drop_app_length.
Qed.

Lemma read_start (n : nat) (c : bytes) :
  read n (open_rb c) = (take n c, File c (length (take n c))).
Proof. exact (read_after n 0 [] c eq_refl). Qed.

Lemma load_dict_header (vb payload : bytes) :
  length vb = 2%nat →
  _load_dict (MAGIC_DICT ++ vb ++ payload)
  = (count ← unpack 4 (take 4 payload);
     read_dict_entries (Z.to_nat count)
       (File (MAGIC_DICT ++ vb ++ payload) (6 + length (take 4 payload))) ∅).
Proof.
  intros Hvb. unfold _load_dict. rewrite read_start.
  rewrite take_app_length' by reflexivity.
  rewrite bool_decide_eq_true_2 by reflexivity. cbn [negb].
  change (length MAGIC_DICT) with 4%nat.
  rewrite (read_after 2 4 MAGIC_DICT (vb ++ payload)) by reflexivity.
  rewrite take_app_length' by (now rewrite Hvb).
  assert (unpack 2 vb = Ok (le_value vb)) as ->
    by (unfold unpack; now rewrite Hvb).
  cbn [mbind result_bind]. rewrite Hvb. change (4 + 2)%nat with 6%nat.
  rewrite (app_assoc MAGIC_DICT vb payload).
  rewrite (read_after 4 6 (MAGIC_DICT ++ vb) payload)
    by (rewrite length_app, Hvb; reflexivity).
  reflexivity.
Qed.



End Headers.

(** ** The tokenizer client *)

Section Tokenizer.
Import tokenizer_wrapper.

(** Encoding raises nothing but [UnicodeEncodeError]. *)
Lemma encode_utf8_raises (s : str) (e : exn) :
  encode_utf8 s = Raise e → e = UnicodeEncodeError.
Proof.
  induction s as [| c rest IH]; [discriminate |]. cbn [encode_utf8].
  destruct (utf8_char c) as [b |] eqn:Hc.
  - cbn [mbind result_bind]. destruct (encode_utf8 rest); [discriminate |].
    cbn [mbind result_bind]. intros [= <-]. now apply IH.
  - cbn [mbind result_bind]. intros [= <-]. unfold utf8_char in Hc.
    repeat match type of Hc with
           | (if ?b then _ else _) = _ => destruct b
           end; congruence.
Qed.

(** The line that is written can be encoded exactly when the text can. *)
Lemma encode_request (text : str) :
  match encode_utf8 text with
  | Ok _ => ∃ data, encode_utf8 (replace_char 10 32 text ++ [10]) = Ok data
  | Raise e => encode_utf8 (replace_char 10 32 text ++ [10]) = Raise e
  end.
Proof.
  induction text as [| c rest IH]; [cbn; eauto |].
  unfold replace_char in *. cbn [map app encode_utf8] in *.
  destruct (Z.eqb_spec c 10) as [-> | Hc].
  - change (utf8_char 10) with (Ok [10] : result bytes).
    change (utf8_char 32) with (Ok [32] : result bytes).
    cbn [mbind result_bind].
    destruct (encode_utf8 rest) as [d |].
    + destruct IH as [data ->]. cbn. eauto.
    + rewrite IH. reflexivity.
  - destruct (utf8_char c) as [b |]; [| reflexivity].
    cbn [mbind result_bind].
    destruct (encode_utf8 rest) as [d |].
    + destruct IH as [data ->]. cbn. eauto.
    + rewrite IH. reflexivity.
Qed.

(** The loop over lines that hold no sentinel: their tokens are collected,
    and the loop goes on with what follows them. *)
Lemma read_tokens_lines (alive : bool) (ls : list str) :
  ∀ (rest : list reading) (tokens : list str),
    [] ∉ ls → END_DOC ∉ strip <$> ls →
    read_tokens alive ((Line <$> ls) ++ rest) tokens
    = read_tokens alive rest
        (tokens ++ filter (λ t, t ≠ []) (strip <$> ls)).
Proof.
  induction ls as [| l ls IH]; intros rest tokens Hne Hno.
  - cbn. now rewrite app_nil_r.
  - rewrite not_elem_of_cons in Hne. destruct Hne as [Hl Hne].
    cbn [fmap list_fmap] in *.
    rewrite not_elem_of_cons in Hno. destruct Hno as [Hs Hno].
    cbn [app read_tokens].
    rewrite (bool_decide_eq_false_2 (l = [])) by congruence.
    rewrite bool_decide_eq_false_2 by congruence.
    rewrite filter_cons. destruct (decide (strip l ≠ [])) as [Ht | Ht].
    + rewrite bool_decide_eq_false_2 by assumption.
      rewrite IH by assumption. now rewrite <- app_assoc.
    + rewrite bool_decide_eq_true_2
        by (destruct (decide (strip l = [])); tauto).
      now apply IH.
Qed.

(** What [tokenize] does once the line is written: the loop runs over the
    output that was left and the output of the child. *)
Lemma tokenize_written (self : Popen) (text : str) (data : bytes)
    (printed : list reading) (alive : bool) :
  text ≠ [] → encode_utf8 text = Ok data → running self = true →
  respond self (replace_char 10 32 text ++ [10]) = (printed, alive) →
  tokenize self text
  = match read_tokens alive (stdout self ++ printed) [] with
    | Some (r, out') =>
        Some (r, {| respond := respond self; running := alive;
                    stdout := out' |})
    | None => None
    end.
Proof.
  intros Htext Henc Hrun Hresp. unfold tokenize.
  rewrite bool_decide_eq_false_2 by assumption.
  pose proof (encode_request text) as Hreq. rewrite Henc in Hreq.
  destruct Hreq as [line ->]. rewrite Hrun, Hresp. reflexivity.
Qed.

(** C9, as the code has it. When the child has exited and the pipe to it is
    broken, [tokenize] returns the empty list for a text that can be
    encoded; a text that cannot be encoded raises [UnicodeEncodeError],
    whatever the state of the child, because the text is encoded before the
    pipe is written. When the child reads the line and exits before it has
    printed a sentinel line, [tokenize] returns the tokens read up to the
    end of the output: the stripped, non-empty lines, in order; this is the
    empty list only if there is no such line. That holds when all of the
    output is text; when [readline] meets bytes that are not, it raises
    [UnicodeDecodeError], and the lines read before are lost. The lines
    [ls] are those that [readline] returns before the end of the file, none
    of which is empty. *)
Theorem tokenize_of_dead_child (self : Popen) (text : str) :
  (∀ data, running self = false → encode_utf8 text = Ok data →
     tokenize self text = Some (Ok [], self))
  ∧ (∀ e, text ≠ [] → encode_utf8 text = Raise e →
       e = UnicodeEncodeError ∧ tokenize self text = Some (Raise e, self))
  ∧ (∀ data printed ls, text ≠ [] → encode_utf8 text = Ok data →
       running self = true →
       respond self (replace_char 10 32 text ++ [10]) = (printed, false) →
       [] ∉ ls → END_DOC ∉ strip <$> ls →
       (stdout self ++ printed = Line <$> ls →
          tokenize self text
          = Some (Ok (filter (λ t, t ≠ []) (strip <$> ls)),
                  {| respond := respond self; running := false;
                     stdout := [] |}))
       ∧ (∀ rest, stdout self ++ printed = (Line <$> ls) ++ Undecodable :: rest →
            tokenize self text
            = Some (Raise UnicodeDecodeError,
                    {| respond := respond self; running := false;
                       stdout := rest |}))).
Proof.
  split; [| split].
  - intros data Hdead Henc. unfold tokenize.
    destruct (bool_decide (text = [])); [reflexivity |].
    pose proof (encode_request text) as Hreq. rewrite Henc in Hreq.
    destruct Hreq as [line ->]. now rewrite Hdead.
  - intros e Htext Henc. split; [now apply (encode_utf8_raises text) |].
    unfold tokenize. rewrite bool_decide_eq_false_2 by assumption.
    pose proof (encode_request text) as Hreq. rewrite Henc in Hreq.
    now rewrite Hreq.
  - intros data printed ls Htext Henc Hrun Hresp Hne Hno. split.
    + intros Hout.
      rewrite (tokenize_written self text data printed false) by assumption.
      rewrite Hout, <- (app_nil_r (Line <$> ls)).
      rewrite read_tokens_lines by assumption. reflexivity.
    + intros rest Hout.
      rewrite (tokenize_written self text data printed false) by assumption.
      rewrite Hout, read_tokens_lines by assumption. reflexivity.
Qed.

Lemma tokenize_of_dead_child_witness :
  tokenize dead_child (py "some text") = Some (Ok [], dead_child)
  ∧ tokenize dead_child [0xD800]
    = Some (Raise UnicodeEncodeError, dead_child)
  ∧ tokenize dying_child (py "some text")
    = Some (Ok [py "foo"],
            {| respond := respond dying_child; running := false;
               stdout := [] |}).
Proof.
  split; [| split].
  - apply (proj1 (tokenize_of_dead_child dead_child (py "some text"))
             (py "some text")); reflexivity.
  - apply (proj1 (proj2 (tokenize_of_dead_child dead_child [0xD800]))
             UnicodeEncodeError); [discriminate | reflexivity].
  - apply (proj2 (proj2 (tokenize_of_dead_child dying_child (py "some text")))
             (py "some text") [Line (py "foo" ++ [10])] [py "foo" ++ [10]]).
    + discriminate.
    + reflexivity.
    + reflexivity.
    + reflexivity.
    + refine (bool_decide_unpack _ _). vm_compute. exact I.
    + refine (bool_decide_unpack _ _). vm_compute. exact I.
    + reflexivity.
Defined.

(** The claim fails: the child printed [foo] and exited before the
    sentinel; the output ends without a sentinel line, and [tokenize]
    returns that token, not the empty list. *)
Lemma partial_reply_is_returned :
  running dying_child = true
  ∧ respond dying_child (py "some text" ++ [10])
    = ([Line (py "foo" ++ [10])], false)
  ∧ tokenize dying_child (py "some text")
    = Some (Ok [py "foo"],
            {| respond := respond dying_child; running := false;
               stdout := [] |})
  ∧ ∀ self', tokenize dying_child (py "some text") ≠ Some (Ok [], self').
Proof.
  split; [reflexivity |]. split; [reflexivity |].
  split; [vm_compute; reflexivity |].
  intros self' Heq.
  assert (Hret : tokenize dying_child (py "some text")
                 = Some (Ok [py "foo"],
                         {| respond := respond dying_child; running := false;
                            stdout := [] |}))
    by (vm_compute; reflexivity).
  rewrite Hret in Heq. discriminate.
Qed.

(** A live child that obeys the protocol: the client is then the function
    it runs, and the pipe is left empty for the next request. *)
Example tokenize_live_child :
  tokenize (live Scenario.identity_tokenizer) (py "The quick  Brown")
  = Some (Ok [py "the"; py "quick"; py "brown"],
          {| respond := respond (live Scenario.identity_tokenizer);
             running := true; stdout := [] |}).
Proof. vm_compute. reflexivity. Qed.

End Tokenizer.

(** ** The end-to-end scenarios *)

Section Scenarios.
Import Scenario.

(** The index of the corpus is built and opened without error; it holds the
    four documents and the eight terms. *)
Example corpus_index :
  ∃ e, engine = Ok e
       ∧ search.all_docs e = {[0; 1; 2; 3]}
       ∧ dom (search.term_dict (search.reader e))
         = list_to_set (py <$> ["the"; "quick"; "brown"; "fox"; "lazy"; "dog";
                                "bear"; "sleeps"]%string).
Proof.
  exists engine0. split; [| split; vm_compute; reflexivity].
  assert (Hok : match engine with Ok _ => true | Raise _ => false end = true)
    by (vm_compute; reflexivity).
  unfold engine0. destruct engine; [reflexivity | discriminate].
Qed.

(** C3, as the code has it. Over the four documents, with the identity
    tokenizer, [brown && !fox] returns {1, 3}, the phrase [quick fox]
    returns {2}, the phrase [brown dog] returns {1} and the phrase
    [the fox] within distance 3 returns {0}. *)
Theorem scenario_queries :
  search (py "brown && !fox") = Ok {[1; 3]}
  ∧ search (quoted "quick fox") = Ok {[2]}
  ∧ search (quoted "brown dog") = Ok {[1]}
  ∧ search (quoted "the fox" ++ py " / 3") = Ok {[0]}.
Proof. repeat split; vm_compute; reflexivity. Qed.

(** The claim fails on the phrase [quick fox]: in document 0 the two words
    are at positions 1 and 3, not adjacent, and the document is not
    returned. *)
Lemma quick_fox_not_in_first_document :
  search.get_postings (search.reader engine0) (py "quick")
  = Ok {[0 := [1]; 2 := [0; 2]]}
  ∧ search.get_postings (search.reader engine0) (py "fox")
    = Ok {[0 := [3]; 2 := [1; 3]]}
  ∧ search (quoted "quick fox") ≠ Ok {[0; 2]}.
Proof.
  split; [vm_compute; reflexivity |]. split; [vm_compute; reflexivity |].
  assert (search (quoted "quick fox") = Ok {[2]}) as ->
    by (vm_compute; reflexivity).
  intros Heq.
  pose proof (f_equal (λ r, match r with Ok s => s | Raise _ => ∅ end) Heq)
    as Hsets.
  cbn beta iota in Hsets.
  assert (H0 : 0 ∈ ({[2]} : gset Z)) by (rewrite Hsets; set_solver).
  set_solver.
Qed.

End Scenarios.

(** ** The order of strings and of their UTF-8 encodings *)

Section StringOrder.

Lemma str_ltb_irrefl (s : list Z) : str_ltb s s = false.
Proof.
  induction s as [| c s IH]; [reflexivity |].
  cbn [str_ltb]. now rewrite Z.ltb_irrefl.
Qed.

Lemma str_ltb_cons (c1 c2 : Z) (r1 r2 : list Z) :
  str_ltb (c1 :: r1) (c2 :: r2) = true
  ↔ c1 < c2 ∨ (c1 = c2 ∧ str_ltb r1 r2 = true).
Proof.
  cbn [str_ltb].
  destruct (Z.ltb_spec c1 c2); [intuition lia |].
  destruct (Z.ltb_spec c2 c1); [intuition (lia || discriminate) |].
  intuition lia.
Qed.

Lemma str_ltb_trans (s1 : list Z) :
  ∀ s2 s3, str_ltb s1 s2 = true → str_ltb s2 s3 = true →
           str_ltb s1 s3 = true.
Proof.
  induction s1 as [| c1 r1 IH]; intros [| c2 r2] [| c3 r3] H12 H23;
    try discriminate; try reflexivity.
  apply str_ltb_cons in H12, H23. apply str_ltb_cons.
  destruct H12 as [? | [-> ?]], H23 as [? | [-> ?]]; eauto with lia.
Qed.

Lemma str_ltb_total (s1 : list Z) :
  ∀ s2, str_ltb s1 s2 = false → str_ltb s2 s1 = false → s1 = s2.
Proof.
  induction s1 as [| c1 r1 IH]; intros [| c2 r2] H12 H21;
    try discriminate; [reflexivity |].
  cbn [str_ltb] in *.
  destruct (Z.ltb_spec c1 c2); [discriminate |].
  destruct (Z.ltb_spec c2 c1); [discriminate |].
  assert (c1 = c2) as -> by lia. f_equal. now apply IH.
Qed.

Lemma str_ltb_asym (s1 s2 : list Z) :
  str_ltb s1 s2 = true → str_ltb s2 s1 = false.
Proof.
  intros H12. destruct (str_ltb s2 s1) eqn:H21; [| reflexivity].
  pose proof (str_ltb_trans _ _ _ H12 H21) as Hcyc.
  now rewrite str_ltb_irrefl in Hcyc.
Qed.

#[global] Instance str_le_total : Total str_le.
Proof.
  intros s1 s2. unfold str_le.
  destruct (str_ltb s2 s1) eqn:H21; [right; now apply str_ltb_asym | now left].
Qed.

#[global] Instance str_le_trans : Transitive str_le.
Proof.
  intros s1 s2 s3. unfold str_le. intros H12 H23.
  destruct (str_ltb s3 s1) eqn:H31; [| reflexivity].
  destruct (str_ltb s2 s3) eqn:Hlt.
  - now rewrite (str_ltb_trans _ _ _ Hlt H31) in H12.
  - rewrite <- (str_ltb_total _ _ Hlt H23) in H31. congruence.
Qed.

#[global] Instance str_lt_trans : Transitive str_lt.
Proof. intros s1 s2 s3. apply str_ltb_trans. Qed.

Lemma str_le_lt (s1 s2 : list Z) : str_le s1 s2 → s1 ≠ s2 → str_lt s1 s2.
Proof.
  unfold str_le, str_lt. intros Hle Hne.
  destruct (str_ltb s1 s2) eqn:Hlt; [reflexivity |].
  now destruct Hne; apply str_ltb_total.
Qed.

Lemma str_lt_le (s1 s2 : list Z) : str_lt s1 s2 → str_le s1 s2.
Proof. apply str_ltb_asym. Qed.

Lemma str_lt_ne (s1 s2 : list Z) : str_lt s1 s2 → s1 ≠ s2.
Proof. intros Hlt ->. unfold str_lt in Hlt. now rewrite str_ltb_irrefl in Hlt. Qed.

Lemma str_lt_le_trans (s1 s2 s3 : list Z) :
  str_lt s1 s2 → str_le s2 s3 → str_lt s1 s3.
Proof.
  intros H12 H23. destruct (decide (s2 = s3)) as [<- | Hne]; [assumption |].
  etrans; [exact H12 | now apply str_le_lt].
Qed.

(** A common prefix does not change the order. *)
Lemma str_ltb_app (p s1 s2 : list Z) :
  str_ltb (p ++ s1) (p ++ s2) = str_ltb s1 s2.
Proof.
  induction p as [| c p IH]; [reflexivity |].
  cbn [app str_ltb]. now rewrite Z.ltb_irrefl.
Qed.

(** Truncation keeps the weak order. *)
Lemma str_le_take (n : nat) :
  ∀ s1 s2, str_le s1 s2 → str_le (take n s1) (take n s2).
Proof.
  unfold str_le.
  induction n as [| n IH]; intros s1 s2 Hle; [now rewrite !take_0 |].
  destruct s1 as [| c1 r1]; [now destruct (take (S n) s2) |].
  destruct s2 as [| c2 r2]; [discriminate |].
  cbn [take str_ltb] in *.
  destruct (c2 <? c1); [discriminate |].
  destruct (c1 <? c2); [reflexivity |]. now apply IH.
Qed.

End StringOrder.

Section Utf8Order.

(** Case analysis on the range tests of [utf8_char] in the goal. *)
Ltac split_ranges :=
  repeat (match goal with
          | |- context [?x <? ?y] => destruct (Z.ltb_spec x y)
          | |- context [?x <=? ?y] => destruct (Z.leb_spec x y)
          end; cbn [andb]).

Lemma utf8_char_nonempty (c : Z) (b : bytes) : utf8_char c = Ok b → b ≠ [].
Proof.
  unfold utf8_char. split_ranges; intros Henc; try discriminate Henc;
    injection Henc as <-; discriminate.
Qed.

(** The encoding of a smaller code point is smaller, whatever follows. *)
Lemma utf8_char_lt (c1 c2 : Z) (b1 b2 t1 t2 : bytes) :
  c1 < c2 → utf8_char c1 = Ok b1 → utf8_char c2 = Ok b2 →
  str_ltb (b1 ++ t1) (b2 ++ t2) = true.
Proof.
  intros Hlt Henc1 Henc2. revert Henc1 Henc2. unfold utf8_char.
  split_ranges; intros Henc1 Henc2;
    try discriminate Henc1; try discriminate Henc2;
    try lia; injection Henc1 as <-; injection Henc2 as <-;
    cbn [app str_ltb];
    repeat match goal with
           | |- (if ?x <? ?y then _ else _) = true =>
               destruct (Z.ltb_spec x y); [try reflexivity |]
           end;
    try reflexivity; exfalso; Z.div_mod_to_equations; lia.
Qed.

Lemma encode_utf8_lt (s1 : str) :
  ∀ s2 b1 b2,
    str_ltb s1 s2 = true → encode_utf8 s1 = Ok b1 → encode_utf8 s2 = Ok b2 →
    str_ltb b1 b2 = true.
Proof.
  induction s1 as [| c1 r1 IH]; intros [| c2 r2] b1 b2 Hlt H1 H2;
    try discriminate.
  - cbn in H1. injection H1 as <-. cbn [encode_utf8] in H2.
    destruct (utf8_char c2) as [e2 |] eqn:He2; [| discriminate].
    destruct (encode_utf8 r2) as [t2 |]; [| discriminate].
    cbn in H2. injection H2 as <-.
    apply utf8_char_nonempty in He2. now destruct e2.
  - cbn [encode_utf8] in H1, H2.
    destruct (utf8_char c1) as [e1 |] eqn:He1; [| discriminate].
    destruct (encode_utf8 r1) as [t1 |] eqn:Ht1; [| discriminate].
    destruct (utf8_char c2) as [e2 |] eqn:He2; [| discriminate].
    destruct (encode_utf8 r2) as [t2 |] eqn:Ht2; [| discriminate].
    cbn in H1, H2. injection H1 as <-. injection H2 as <-.
    apply str_ltb_cons in Hlt. destruct Hlt as [Hc | [-> Hr]].
    + now apply (utf8_char_lt c1 c2).
    + assert (e1 = e2) as -> by congruence.
      rewrite str_ltb_app. now apply (IH r2).
Qed.

End Utf8Order.

(** ** heapq.merge *)

Section Heapq.
Import indexer.
Context {A : Type} (key : A → list Z).

Lemma least_head_None (iterators : list (list A)) :
  least_head key iterators = None → ∀ it, it ∈ iterators → it = [].
Proof.
  induction iterators as [| it others IH]; intros Hnone it' Hin.
  - now apply elem_of_nil in Hin.
  - cbn [least_head] in Hnone. destruct it as [| x tl].
    + destruct (least_head key others); [discriminate |].
      apply elem_of_cons in Hin as [-> | Hin]; auto.
    + destruct (least_head key others) as [[j y] |]; cbn in Hnone;
        [destruct (str_ltb (key y) (key x)) |]; discriminate.
Qed.

(** The iterator chosen is not exhausted, and its head is not above the head
    of any other. *)
Lemma least_head_Some (iterators : list (list A)) :
  ∀ i x, least_head key iterators = Some (i, x) →
    (∃ tl, iterators !! i = Some (x :: tl))
    ∧ ∀ j y tl, iterators !! j = Some (y :: tl) → (by_key key) x y.
Proof.
  induction iterators as [| it others IH]; intros i x Hleast; [discriminate |].
  cbn [least_head] in Hleast.
  destruct (least_head key others) as [[j0 y0] |] eqn:Hothers.
  - destruct (IH j0 y0 eq_refl) as [[tl0 Hat] Hmin]. cbn in Hleast.
    destruct it as [| x0 tlx].
    + injection Hleast as <- <-. split; [eauto |].
      intros [| j] y tl Hj; [discriminate | eauto].
    + destruct (str_ltb (key y0) (key x0)) eqn:Hcmp; injection Hleast as <- <-.
      * split; [eauto |]. intros [| j] y tl Hj; [| eauto].
        injection Hj as <- <-. now apply str_lt_le.
      * split; [cbn; eauto |]. intros [| j] y tl Hj.
        -- injection Hj as <- <-. unfold by_key, str_le. apply str_ltb_irrefl.
        -- unfold by_key. etrans; [exact Hcmp | exact (Hmin _ _ _ Hj)].
  - cbn in Hleast. destruct it as [| x0 tlx]; [discriminate |].
    injection Hleast as <- <-. split; [cbn; eauto |].
    intros [| j] y tl Hj.
    + injection Hj as <- <-. unfold by_key, str_le. apply str_ltb_irrefl.
    + cbn in Hj. apply list_elem_of_lookup_2 in Hj.
      now apply (least_head_None _ Hothers) in Hj.
Qed.

Lemma alter_drop_middle (iterators : list (list A)) (i : nat) (x : A) tl :
  iterators !! i = Some (x :: tl) →
  ∃ before after,
    iterators = before ++ (x :: tl) :: after
    ∧ alter (drop 1) i iterators = before ++ tl :: after.
Proof.
  intros Hat. exists (take i iterators), (drop (S i) iterators).
  pose proof (take_drop_middle _ _ _ Hat) as Hsplit.
  split; [now symmetry |].
  rewrite <- Hsplit at 1.
  assert (Hlen : length (take i iterators) = i).
  { apply length_take_le. apply lookup_lt_Some in Hat. lia. }
  rewrite <- Hlen at 1. rewrite <- (Nat.add_0_r (length _)).
  now rewrite alter_app_r.
Qed.

(** The merge yields every item of every iterator, once. *)
Lemma merge_loop_Permutation (fuel : nat) :
  ∀ iterators, (length (concat iterators) ≤ fuel)%nat →
    merge_loop key fuel iterators ≡ₚ concat iterators.
Proof.
  induction fuel as [| fuel IH]; intros iterators Hfuel.
  - destruct (concat iterators); [reflexivity | cbn in Hfuel; lia].
  - cbn [merge_loop].
    destruct (least_head key iterators) as [[i x] |] eqn:Hleast.
    + destruct (least_head_Some _ _ _ Hleast) as [[tl Hat] _].
      destruct (alter_drop_middle _ _ _ _ Hat) as (before & after & Hsplit & ->).
      clear Hleast Hat. subst iterators.
      rewrite concat_app, concat_cons, !length_app in Hfuel.
      cbn [app length] in Hfuel.
      rewrite IH by (rewrite concat_app, concat_cons, !length_app; lia).
      rewrite !concat_app, !concat_cons. cbn [app].
      now rewrite <- Permutation_middle.
    + assert (Hall : Forall (λ it, it = []) iterators)
        by (apply Forall_forall; now apply least_head_None).
      clear -Hall. induction Hall as [| it its -> _ IHa]; [reflexivity |].
      exact IHa.
Qed.

(** Every item of the merged stream comes from one of the iterators. *)
Lemma merge_loop_elem_of (fuel : nat) :
  ∀ iterators y, y ∈ merge_loop key fuel iterators →
    ∃ it, it ∈ iterators ∧ y ∈ it.
Proof.
  induction fuel as [| fuel IH]; intros iterators y Hy;
    [now apply elem_of_nil in Hy |].
  cbn [merge_loop] in Hy.
  destruct (least_head key iterators) as [[i x] |] eqn:Hleast;
    [| now apply elem_of_nil in Hy].
  destruct (least_head_Some _ _ _ Hleast) as [[tl Hat] _].
  apply elem_of_cons in Hy as [-> | Hy].
  - exists (x :: tl). split; [eapply list_elem_of_lookup_2; eauto | left].
  - destruct (IH _ _ Hy) as (it & Hit & Hyit).
    apply list_elem_of_lookup in Hit as [j Hj].
    rewrite list_lookup_alter in Hj. destruct (decide (i = j)) as [<- | Hne].
    + rewrite Hat in Hj. cbn in Hj. injection Hj as <-. rewrite drop_0 in Hyit.
      exists (x :: tl). split; [eapply list_elem_of_lookup_2; eauto | now right].
    + exists it. split; [eapply list_elem_of_lookup_2; eauto | assumption].
Qed.

(** Merging sorted iterators yields a sorted stream. *)
Lemma merge_loop_sorted (fuel : nat) :
  ∀ iterators, Forall (StronglySorted (by_key key)) iterators →
    StronglySorted (by_key key) (merge_loop key fuel iterators).
Proof.
  induction fuel as [| fuel IH]; intros iterators Hsorted; [constructor |].
  cbn [merge_loop].
  destruct (least_head key iterators) as [[i x] |] eqn:Hleast; [| constructor].
  destruct (least_head_Some _ _ _ Hleast) as [[tl Hat] Hmin].
  destruct (alter_drop_middle _ _ _ _ Hat) as (before & after & Hsplit & Halter).
  assert (Hsorted' : Forall (StronglySorted (by_key key)) (alter (drop 1) i iterators)).
  { rewrite Halter. pose proof Hsorted as Hparts. rewrite Hsplit in Hparts.
    apply Forall_app in Hparts as [Hbefore Hafter].
    apply Forall_cons in Hafter as [Hit Hafter].
    apply Forall_app. split; [assumption |].
    apply Forall_cons. split; [| assumption].
    now apply StronglySorted_inv in Hit as [? _]. }
  constructor; [now apply IH |].
  apply Forall_forall. intros y Hy.
  destruct (merge_loop_elem_of _ _ _ Hy) as (it & Hit & Hyit).
  apply list_elem_of_lookup in Hit as [j Hj].
  rewrite list_lookup_alter in Hj. destruct (decide (i = j)) as [<- | Hne].
  - rewrite Hat in Hj. cbn in Hj. injection Hj as <-. rewrite drop_0 in Hyit.
    pose proof (proj1 (Forall_lookup _ _) Hsorted _ _ Hat) as Hs.
    apply StronglySorted_inv in Hs as [_ Hhd].
    exact (proj1 (Forall_forall _ _) Hhd _ Hyit).
  - pose proof (proj1 (Forall_lookup _ _) Hsorted _ _ Hj) as Hs.
    destruct it as [| h tlh]; [now apply elem_of_nil in Hyit |].
    pose proof (Hmin _ _ _ Hj) as Hxh.
    apply elem_of_cons in Hyit as [-> | Hyit]; [assumption |].
    apply StronglySorted_inv in Hs as [_ Hhd].
    unfold by_key in *. etrans; [exact Hxh |].
    exact (proj1 (Forall_forall _ _) Hhd _ Hyit).
Qed.

Lemma heapq_merge_sorted (iterators : list (list A)) :
  Forall (StronglySorted (by_key key)) iterators →
  StronglySorted (by_key key) (heapq_merge key iterators).
Proof. apply merge_loop_sorted. Qed.

Lemma heapq_merge_Permutation (iterators : list (list A)) :
  heapq_merge key iterators ≡ₚ concat iterators.
Proof. now apply merge_loop_Permutation. Qed.

End Heapq.

(** ** The dictionary written by a build *)

Section Files.

Lemma write_at_end (data : bytes) (f : file) :
  at_end f →
  content (write data f) = content f ++ data ∧ at_end (write data f).
Proof.
  unfold at_end, write. intros ->. cbn [content cursor].
  rewrite take_ge by lia. rewrite Nat.sub_diag. cbn [replicate app].
  rewrite drop_ge by lia. rewrite app_nil_r.
  split; [reflexivity | now rewrite length_app].
Qed.

Lemma pack_Ok (size : nat) (v : Z) (b : bytes) :
  pack size v = Ok b → b = le_bytes size v ∧ 0 <= v < 256 ^ Z.of_nat size.
Proof.
  unfold pack. destruct (Z.leb_spec 0 v); [| discriminate].
  destruct (Z.ltb_spec v (256 ^ Z.of_nat size)); [| discriminate].
  cbn. intros [= <-]. auto.
Qed.

Lemma le_bytes_1 (v : Z) : 0 <= v < 256 → le_bytes 1 v = [v].
Proof. intros Hv. cbn. now rewrite Z.mod_small. Qed.

End Files.

Section MergeStream.
Import indexer.

(** [write_term_entry] appends one entry to the dictionary. *)
Lemma write_term_entry_dict (term : str) (doc_map : gmap Z (list Z))
    (fd fp fd' fp' : file) :
  at_end fd →
  write_term_entry term doc_map fd fp = Ok (fd', fp') →
  ∃ e, serialized term (entry_term e)
       ∧ content fd' = content fd ++ entry_bytes e ∧ at_end fd'.
Proof.
  intros Hend. unfold write_term_entry.
  destruct (compression.encode_varbyte _) as [b0 |]; [| discriminate].
  cbn [mbind result_bind].
  destruct (write_doc_entries _ _ _) as [fp1 |]; [| discriminate].
  cbn [mbind result_bind].
  destruct (encode_utf8 term) as [encoded |] eqn:Henc; [| discriminate].
  cbn [mbind result_bind].
  destruct (pack 1 _) as [b1 |] eqn:Hb1; [| discriminate].
  cbn [mbind result_bind].
  destruct (pack 8 _) as [b8 |] eqn:Hb8; [| discriminate].
  cbn [mbind result_bind].
  destruct (pack 4 _) as [b4 |] eqn:Hb4; [| discriminate].
  cbn [mbind result_bind mret result_ret]. intros [= <- <-].
  apply pack_Ok in Hb1 as [-> Hr1], Hb8 as [-> _], Hb4 as [-> _].
  rewrite le_bytes_1 by exact Hr1.
  destruct (write_at_end [Z.of_nat (length (slice_to 255 encoded))] fd Hend)
    as [Hc1 He1].
  destruct (write_at_end (slice_to 255 encoded) _ He1) as [Hc2 He2].
  destruct (write_at_end (le_bytes 8 (Z.of_nat (tell fp))) _ He2) as [Hc3 He3].
  destruct (write_at_end
              (le_bytes 4 (Z.of_nat (length (sorted_int (keys doc_map)))))
              _ He3) as [Hc4 He4].
  exists (slice_to 255 encoded, Z.of_nat (tell fp),
          Z.of_nat (length (sorted_int (keys doc_map)))).
  split; [exists encoded; auto |]. split; [| exact He4].
  rewrite Hc4, Hc3, Hc2, Hc1. cbn [entry_bytes]. now rewrite <- !app_assoc.
Qed.

(** The loop of [merge_blocks] and the flush after it make one call of
    [write_term_entry] per run of equal terms. *)
Lemma merge_stream_groups (rest : list (list Z * gmap Z (list Z))) :
  ∀ t d n fd fp,
    (s ← merge_stream rest (MergeState (Some t) d n fd fp); flush_term s)
    = write_entries (groups t d rest) fd fp n.
Proof.
  induction rest as [| [t' d'] rest IH]; intros t d n fd fp.
  - cbn. destruct (write_term_entry t d fd fp) as [[fd' fp'] |]; reflexivity.
  - cbn [merge_stream groups current_term current_docs term_count dict_file
         post_file].
    destruct (bool_decide (Some t = Some t')); [apply IH |].
    cbn [flush_term write_entries current_term current_docs term_count
         dict_file post_file].
    destruct (write_term_entry t d fd fp) as [[fd' fp'] |]; [| reflexivity].
    cbn [mbind result_bind mret result_ret]. apply IH.
Qed.

Lemma merge_stream_all_groups (stream : list (list Z * gmap Z (list Z)))
    (n : Z) (fd fp : file) :
  (s ← merge_stream stream (MergeState None ∅ n fd fp); flush_term s)
  = write_entries (all_groups stream) fd fp n.
Proof.
  destruct stream as [| [t d] rest]; [reflexivity |].
  cbn [merge_stream all_groups current_term].
  rewrite bool_decide_eq_false_2 by discriminate.
  cbn [flush_term current_term dict_file post_file term_count mbind
       result_bind].
  apply merge_stream_groups.
Qed.

Lemma write_entries_dict (gs : list (list Z * gmap Z (list Z))) :
  ∀ fd fp n fd' fp' n',
    at_end fd →
    write_entries gs fd fp n = Ok (fd', fp', n') →
    ∃ entries,
      content fd' = content fd ++ concat (entry_bytes <$> entries)
      ∧ at_end fd' ∧ n' = n + Z.of_nat (length entries)
      ∧ Forall2 (λ g e, serialized g.1 (entry_term e)) gs entries.
Proof.
  induction gs as [| [t d] gs IH]; intros fd fp n fd' fp' n' Hend Hw.
  - cbn in Hw. injection Hw as <- <- <-. exists []. cbn.
    rewrite app_nil_r. repeat split; [assumption | lia | constructor].
  - cbn [write_entries] in Hw.
    destruct (write_term_entry t d fd fp) as [[fd1 fp1] |] eqn:Hone;
      [| discriminate].
    cbn [mbind result_bind] in Hw.
    destruct (write_term_entry_dict _ _ _ _ _ _ Hend Hone)
      as (e & Hser & Hc1 & Hend1).
    destruct (IH _ _ _ _ _ _ Hend1 Hw) as (entries & Hc & Hend' & Hn & Hall).
    exists (e :: entries). rewrite Hc, Hc1. cbn [fmap list_fmap concat length].
    rewrite <- app_assoc. repeat split; [assumption | lia |].
    constructor; assumption.
Qed.

(** The terms of the runs are those of the stream. *)
Lemma groups_terms (rest : list (list Z * gmap Z (list Z))) :
  ∀ t d k, k ∈ (groups t d rest).*1 ↔ k = t ∨ k ∈ rest.*1.
Proof.
  induction rest as [| [t' d'] rest IH]; intros t d k.
  - cbn. rewrite list_elem_of_singleton, elem_of_nil. tauto.
  - cbn [groups]. destruct (decide (t = t')) as [<- | Hne].
    + rewrite bool_decide_eq_true_2 by reflexivity. rewrite IH.
      cbn. rewrite elem_of_cons. tauto.
    + rewrite bool_decide_eq_false_2 by congruence.
      cbn. rewrite !elem_of_cons, IH. tauto.
Qed.

Lemma all_groups_terms (stream : list (list Z * gmap Z (list Z))) (k : str) :
  k ∈ (all_groups stream).*1 ↔ k ∈ stream.*1.
Proof.
  destruct stream as [| [t d] rest]; [reflexivity |].
  cbn [all_groups]. rewrite groups_terms. cbn. rewrite elem_of_cons. tauto.
Qed.

(** In a sorted stream the runs have strictly ascending terms. *)
Lemma groups_sorted (rest : list (list Z * gmap Z (list Z))) :
  ∀ t d, StronglySorted (by_key fst) ((t, d) :: rest) →
    StronglySorted str_lt (groups t d rest).*1.
Proof.
  induction rest as [| [t' d'] rest IH]; intros t d Hsorted.
  - cbn. repeat constructor.
  - apply StronglySorted_inv in Hsorted as [Hrest Hhd].
    apply Forall_cons in Hhd as [Htt' Hhd].
    cbn [groups]. destruct (decide (t = t')) as [<- | Hne].
    + rewrite bool_decide_eq_true_2 by reflexivity. apply IH.
      apply StronglySorted_inv in Hrest as [Hrest _].
      constructor; assumption.
    + rewrite bool_decide_eq_false_2 by congruence.
      cbn [fmap list_fmap fst]. constructor; [now apply IH |].
      apply Forall_forall. intros k Hk. apply groups_terms in Hk.
      assert (Hlt : str_lt t t') by (now apply str_le_lt).
      destruct Hk as [-> | Hk]; [assumption |].
      apply StronglySorted_inv in Hrest as [_ Hhd'].
      apply list_elem_of_fmap in Hk as ([k' dk] & -> & Hin).
      eapply str_lt_le_trans; [exact Hlt |].
      exact (proj1 (Forall_forall _ _) Hhd' _ Hin).
Qed.

Lemma all_groups_sorted (stream : list (list Z * gmap Z (list Z))) :
  StronglySorted (by_key fst) stream → StronglySorted str_lt (all_groups stream).*1.
Proof.
  destruct stream as [| [t d] rest]; [constructor | apply groups_sorted].
Qed.

End MergeStream.

Section MergeBlocks.
Import indexer.

Lemma bind_assoc {A B C} (m : result A) (f : A → result B) (g : B → result C) :
  (x ← m; y ← f x; g y) = (y ← (x ← m; f x); g y).
Proof. now destruct m. Qed.

Lemma patch_count (header count entries b : bytes) :
  length header = 6%nat → length count = 4%nat → length b = 4%nat →
  content (write b (seek 6 (File (header ++ count ++ entries)
                                 (length (header ++ count ++ entries)))))
  = header ++ b ++ entries.
Proof.
  intros Hh Hc Hb. unfold write, seek. cbn [content cursor].
  rewrite take_app_length' by (now rewrite Hh).
  rewrite !length_app, Hh, Hc, Hb.
  replace (6 - (6 + (4 + length entries)))%nat with 0%nat by lia.
  cbn [replicate app].
  rewrite drop_app_ge by lia. rewrite Hh.
  rewrite drop_app_length' by (now rewrite Hc). reflexivity.
Qed.

(** [merge_blocks] writes a dictionary file with one entry per run of equal
    terms of the merged stream. *)
Lemma merge_blocks_dict (temp_dir : list (list (list Z * gmap Z (list Z))))
    (num_blocks : nat) (dict post : bytes) :
  merge_blocks temp_dir num_blocks = Ok (dict, post) →
  ∃ entries,
    dict = dict_layout entries
    ∧ Forall2 (λ g e, serialized g.1 (entry_term e))
        (all_groups (heapq_merge fst (take num_blocks temp_dir))) entries.
Proof.
  unfold merge_blocks.
  assert (block_reader <$> take num_blocks temp_dir = take num_blocks temp_dir)
    as -> by apply list_fmap_id.
  change (pack 2 VERSION) with (Ok [3; 0]). change (pack 4 0) with (Ok [0; 0; 0; 0]).
  cbn [mbind result_bind].
  rewrite bind_assoc, merge_stream_all_groups.
  set (fd0 := write [0; 0; 0; 0] (write [3; 0] (write MAGIC_DICT open_wb))).
  assert (Hfd0 : content fd0 = (MAGIC_DICT ++ [3; 0]) ++ [0; 0; 0; 0] ∧ at_end fd0)
    by (split; reflexivity).
  destruct Hfd0 as [Hc0 Hend0].
  destruct (write_entries _ fd0 _ 0) as [[[fd' fp'] n'] |] eqn:Hw;
    [| discriminate].
  cbn [mbind result_bind].
  destruct (write_entries_dict _ _ _ _ _ _ _ Hend0 Hw)
    as (entries & Hc & Hend & Hn & Hall).
  destruct (pack 4 n') as [b |] eqn:Hb; [| discriminate].
  cbn [mbind result_bind mret result_ret]. intros Heq.
  assert (Hdict : dict = content (write b (seek 6 fd')))
    by (unfold mret, result_ret in Heq; congruence).
  clear Heq. apply pack_Ok in Hb as [-> _].
  exists entries. split; [| exact Hall].
  destruct fd' as [c' p']. unfold at_end in Hend.
  cbn [content cursor] in Hend, Hc. subst p' c' dict.
  rewrite Hc0. rewrite <- (app_assoc (MAGIC_DICT ++ [3; 0])).
  rewrite patch_count by reflexivity.
  unfold dict_layout. rewrite Hn, Z.add_0_l. now rewrite <- !app_assoc.
Qed.

End MergeBlocks.

Section Blocks.
Import indexer.

Lemma sorted_strict (l : list (list Z)) :
  StronglySorted str_le l → NoDup l → StronglySorted str_lt l.
Proof.
  induction 1 as [| x l Hl IH Hhd]; intros Hnd; [constructor |].
  apply NoDup_cons in Hnd as [Hx Hnd]. constructor; [now apply IH |].
  apply Forall_forall. intros y Hy.
  apply str_le_lt; [exact (proj1 (Forall_forall _ _) Hhd _ Hy) |].
  now intros ->.
Qed.

Lemma sorted_str_strict (l : list (list Z)) :
  NoDup l → StronglySorted str_lt (sorted_str l).
Proof.
  intros Hnd. apply sorted_strict.
  - apply StronglySorted_merge_sort; apply _.
  - unfold sorted_str. now rewrite merge_sort_Permutation.
Qed.

Lemma elem_of_sorted_str (l : list (list Z)) (k : list Z) :
  k ∈ sorted_str l ↔ k ∈ l.
Proof. unfold sorted_str. now rewrite merge_sort_Permutation. Qed.

Lemma elem_of_keys `{Countable K} {V} (d : gmap K V) (k : K) :
  k ∈ keys d ↔ is_Some (d !! k).
Proof.
  unfold keys. rewrite list_elem_of_fmap. split.
  - intros ([k' v] & -> & Hin). apply elem_of_map_to_list in Hin. eauto.
  - intros [v Hv]. exists (k, v). split; [reflexivity |].
    now apply elem_of_map_to_list.
Qed.

Lemma save_temp_block_terms (index : gmap (list Z) (gmap Z (list Z))) :
  (save_temp_block index).*1 = sorted_str (keys index).
Proof.
  unfold save_temp_block. rewrite <- list_fmap_compose.
  now rewrite list_fmap_id.
Qed.

Lemma save_temp_block_sorted (index : gmap (list Z) (gmap Z (list Z))) :
  StronglySorted str_lt (save_temp_block index).*1.
Proof.
  rewrite save_temp_block_terms. apply sorted_str_strict.
  apply NoDup_fst_map_to_list.
Qed.

Lemma elem_of_save_temp_block (index : gmap (list Z) (gmap Z (list Z))) k :
  k ∈ (save_temp_block index).*1 ↔ is_Some (index !! k).
Proof.
  now rewrite save_temp_block_terms, elem_of_sorted_str, elem_of_keys.
Qed.

Lemma add_tokens_terms (tokens : list (list Z)) :
  ∀ doc_id pos (index : gmap (list Z) (gmap Z (list Z))) k,
    is_Some (add_tokens doc_id pos tokens index !! k)
    ↔ is_Some (index !! k) ∨ k ∈ tokens.
Proof.
  induction tokens as [| token rest IH]; intros doc_id pos index k.
  - cbn. rewrite elem_of_nil. tauto.
  - cbn [add_tokens]. rewrite IH, elem_of_cons.
    rewrite lookup_insert_is_Some.
    destruct (decide (token = k)) as [-> | Hne]; intuition congruence.
Qed.

Variable tokenize : str → list str.
Variable block_size : Z.

Lemma emitted_snoc (docs : list document) (doc : document) (k : str) :
  emitted tokenize (docs ++ [doc]) k
  ↔ emitted tokenize docs k ∨ k ∈ tokenize (parsed_text doc).
Proof.
  unfold emitted. split.
  - intros (d & Hd & Hk). apply elem_of_app in Hd as [Hd | Hd]; [eauto |].
    apply list_elem_of_singleton in Hd as ->. auto.
  - intros [(d & Hd & Hk) | Hk].
    + exists d. rewrite elem_of_app. auto.
    + exists doc. rewrite elem_of_app, list_elem_of_singleton. auto.
Qed.

Lemma build_step_ok (docs : list document) (s : build_state) (doc : document) :
  blocks_ok tokenize docs s → blocks_ok tokenize (docs ++ [doc]) (build_step tokenize block_size s doc).
Proof.
  intros (Hsorted & Hid & Hterms). unfold build_step.
  destruct (_ =? 0); unfold blocks_ok;
    cbn [temp_dir block_id local_index].
  - split; [| split].
    + apply Forall_app. split; [assumption |].
      apply Forall_singleton, save_temp_block_sorted.
    + rewrite length_app. cbn. lia.
    + intros k. rewrite emitted_snoc, <- Hterms. rewrite lookup_empty.
      split.
      * intros [[? [=]] | (b & Hb & Hk)].
        apply elem_of_app in Hb as [Hb | Hb]; [eauto |].
        apply list_elem_of_singleton in Hb as ->.
        apply elem_of_save_temp_block, add_tokens_terms in Hk. tauto.
      * intros [[Hk | (b & Hb & Hk)] | Hk]; right.
        -- exists (save_temp_block
                     (add_tokens (docs_processed s) 0
                        (tokenize (parsed_text doc)) (local_index s))).
           rewrite elem_of_app, list_elem_of_singleton.
           rewrite elem_of_save_temp_block, add_tokens_terms. auto.
        -- exists b. rewrite elem_of_app. auto.
        -- exists (save_temp_block
                     (add_tokens (docs_processed s) 0
                        (tokenize (parsed_text doc)) (local_index s))).
           rewrite elem_of_app, list_elem_of_singleton.
           rewrite elem_of_save_temp_block, add_tokens_terms. auto.
  - split; [assumption | split; [assumption |]].
    intros k. rewrite emitted_snoc, <- Hterms, add_tokens_terms. tauto.
Qed.

Lemma foldl_build_step_ok (cursor : list document) :
  ∀ docs s, blocks_ok tokenize docs s →
    blocks_ok tokenize (docs ++ cursor) (foldl (build_step tokenize block_size) s cursor).
Proof.
  induction cursor as [| doc cursor IH]; intros docs s Hok.
  - now rewrite app_nil_r.
  - cbn [foldl]. rewrite (cons_middle doc docs cursor), app_assoc.
    apply IH. now apply build_step_ok.
Qed.

(** After [build_blocks] every block is strictly sorted, all blocks are
    numbered, and their terms are the terms the tokenizer emitted. *)
Lemma build_blocks_ok (cursor : list document) :
  let s := build_blocks tokenize block_size cursor in
  Forall (λ b : list (list Z * gmap Z (list Z)), StronglySorted str_lt b.*1)
         (temp_dir s)
  ∧ block_id s = length (temp_dir s)
  ∧ ∀ k, (∃ b, b ∈ temp_dir s ∧ k ∈ b.*1) ↔ emitted tokenize cursor k.
Proof.
  unfold build_blocks.
  assert (Hinit : blocks_ok tokenize [] (BuildState [] ∅ 0 O [])).
  { split; [constructor | split; [reflexivity |]]. intros k. cbn.
    rewrite lookup_empty. unfold emitted. split.
    - intros [[? [=]] | (b & Hb & _)]. now apply elem_of_nil in Hb.
    - intros (d & Hd & _). now apply elem_of_nil in Hd. }
  pose proof (foldl_build_step_ok cursor [] _ Hinit) as (Hsorted & Hid & Hterms).
  cbn [app] in Hterms.
  set (s := foldl _ _ cursor) in *.
  destruct (decide (local_index s = ∅)) as [Hempty | Hne].
  - rewrite bool_decide_eq_true_2 by assumption.
    split; [assumption | split; [assumption |]].
    intros k. rewrite <- Hterms, Hempty, lookup_empty.
    split; [auto | intros [[? [=]] | ?]; assumption].
  - rewrite bool_decide_eq_false_2 by assumption.
    cbn [temp_dir block_id]. split; [| split].
    + apply Forall_app. split; [assumption |].
      apply Forall_singleton, save_temp_block_sorted.
    + rewrite length_app. cbn. lia.
    + intros k. rewrite <- Hterms. split.
      * intros (b & Hb & Hk). apply elem_of_app in Hb as [Hb | Hb]; [eauto |].
        apply list_elem_of_singleton in Hb as ->.
        apply elem_of_save_temp_block in Hk. auto.
      * intros [Hk | (b & Hb & Hk)].
        -- exists (save_temp_block (local_index s)).
           rewrite elem_of_app, list_elem_of_singleton, elem_of_save_temp_block.
           auto.
        -- exists b. rewrite elem_of_app. auto.
Qed.

End Blocks.

Section DictionaryOrder.
Import indexer.

Lemma serialized_le (t1 t2 : str) (b1 b2 : bytes) :
  str_lt t1 t2 → serialized t1 b1 → serialized t2 b2 → str_le b1 b2.
Proof.
  intros Hlt (e1 & He1 & ->) (e2 & He2 & ->).
  apply str_le_take, str_lt_le. exact (encode_utf8_lt _ _ _ _ Hlt He1 He2).
Qed.

Lemma serialized_lt (t1 t2 : str) (b1 b2 : bytes) :
  (∀ e, encode_utf8 t1 = Ok e → (length e ≤ 255)%nat) →
  (∀ e, encode_utf8 t2 = Ok e → (length e ≤ 255)%nat) →
  str_lt t1 t2 → serialized t1 b1 → serialized t2 b2 → str_lt b1 b2.
Proof.
  intros Hshort1 Hshort2 Hlt (e1 & He1 & ->) (e2 & He2 & ->).
  unfold slice_to.
  rewrite !take_ge by (change (Z.to_nat 255) with 255%nat; auto).
  exact (encode_utf8_lt _ _ _ _ Hlt He1 He2).
Qed.

Lemma elem_of_concat {A} (x : A) (ls : list (list A)) :
  x ∈ concat ls ↔ ∃ l, x ∈ l ∧ l ∈ ls.
Proof.
  induction ls as [| l ls IH]; cbn [concat].
  - rewrite elem_of_nil. split; [tauto | intros (l & _ & Hl)].
    now apply elem_of_nil in Hl.
  - rewrite elem_of_app, IH. split.
    + intros [Hx | (l' & Hx & Hl')]; [exists l | exists l'];
        rewrite elem_of_cons; auto.
    + intros (l' & Hx & Hl'). apply elem_of_cons in Hl' as [-> | Hl']; eauto.
Qed.

(** A sorted list stays sorted through an order-preserving relation. *)
Lemma StronglySorted_Forall2 {A B} (R : relation A) (R' : relation B)
    (P : A → B → Prop) (l : list A) (l' : list B) :
  (∀ x y x' y', x ∈ l → y ∈ l → R x y → P x x' → P y y' → R' x' y') →
  StronglySorted R l → Forall2 P l l' → StronglySorted R' l'.
Proof.
  intros Hmono Hsorted Hall. revert Hmono Hsorted.
  induction Hall as [| x x' l l' Hxx' Hall IH]; intros Hmono Hsorted;
    [constructor |].
  apply StronglySorted_inv in Hsorted as [Hsorted Hhd]. constructor.
  - apply IH; [| assumption]. intros a b a' b' Ha Hb.
    apply Hmono; now right.
  - apply Forall_forall. intros y' Hy'.
    apply list_elem_of_lookup in Hy' as [i Hi].
    destruct (Forall2_lookup_r _ _ _ _ _ Hall Hi) as (y & Hy & Hyy').
    apply list_elem_of_lookup_2 in Hy.
    apply (Hmono x y); [left | now right | | assumption..].
    exact (proj1 (Forall_forall _ _) Hhd _ Hy).
Qed.

(** C6, as the code has it. The dictionary file of a build has the layout
    magic, version, count, entries; its entries stand for the distinct terms
    the tokenizer emitted, in strictly ascending order of the terms, one
    entry per term; the serialized term of an entry is the UTF-8 encoding of
    the term cut after 255 bytes. The serialized terms of consecutive
    entries are in ascending bytewise order, and in strictly ascending order
    when no term is longer than 255 bytes. *)
Theorem dictionary_order (tokenize : str → list str) (block_size : Z)
    (collection : list document) (limit : Z) (files : index_files) :
  0 < block_size →
  build_index_sized tokenize block_size collection limit = Ok files →
  ∃ terms entries,
    index_dict files = dict_layout entries
    ∧ StronglySorted str_lt terms
    ∧ (∀ t, t ∈ terms ↔ emitted tokenize (find collection limit) t)
    ∧ Forall2 serialized terms (entry_term <$> entries)
    ∧ StronglySorted str_le (entry_term <$> entries)
    ∧ ((∀ t e, emitted tokenize (find collection limit) t →
               encode_utf8 t = Ok e → (length e ≤ 255)%nat) →
       StronglySorted str_lt (entry_term <$> entries)).
Proof.
  unfold build_index_sized. intros _ Hbuild.
  destruct (write_docs_index _) as [docs |]; [| discriminate].
  cbn [mbind result_bind] in Hbuild.
  destruct (merge_blocks _ _) as [[dict post] |] eqn:Hmerge; [| discriminate].
  cbn [mbind result_bind mret result_ret] in Hbuild.
  injection Hbuild as <-. cbn [index_dict].
  destruct (build_blocks_ok tokenize block_size (find collection limit))
    as (Hsorted & Hid & Hterms).
  set (s := build_blocks tokenize block_size (find collection limit)) in *.
  destruct (merge_blocks_dict _ _ _ _ Hmerge) as (entries & -> & Hall).
  rewrite Hid, firstn_all in Hall.
  set (stream := heapq_merge fst (temp_dir s)) in *.
  assert (Hstream : StronglySorted (by_key fst) stream).
  { apply heapq_merge_sorted. eapply Forall_impl; [exact Hsorted |].
    intros b Hb. cbn beta in Hb.
    induction b as [| x b IHb]; [constructor |].
    cbn [fmap list_fmap] in Hb.
    apply StronglySorted_inv in Hb as [Hb Hhd]. constructor; [auto |].
    rewrite Forall_fmap in Hhd. eapply Forall_impl; [exact Hhd |].
    intros y Hy. now apply str_lt_le. }
  assert (Hgroups : StronglySorted str_lt (all_groups stream).*1)
    by now apply all_groups_sorted.
  assert (Hser : Forall2 serialized (all_groups stream).*1 (entry_term <$> entries))
    by (apply Forall2_fmap; exact Hall).
  exists (all_groups stream).*1, entries.
  split; [reflexivity |]. split; [assumption |]. split; [| split; [assumption |]].
  - intros t. rewrite all_groups_terms, <- Hterms. unfold stream.
    rewrite heapq_merge_Permutation. rewrite list_elem_of_fmap. split.
    + intros ([t' d] & -> & Hin). apply elem_of_concat in Hin as (b & Hin & Hb).
      exists b. split; [assumption |]. apply list_elem_of_fmap.
      exists (t', d). auto.
    + intros (b & Hb & Hin). apply list_elem_of_fmap in Hin as (x & -> & Hx).
      exists x. split; [reflexivity |]. apply elem_of_concat. eauto.
  - assert (Hemitted : ∀ t, t ∈ (all_groups stream).*1 →
                            emitted tokenize (find collection limit) t).
    { intros t Ht. apply Hterms. rewrite all_groups_terms in Ht.
      unfold stream in Ht. rewrite heapq_merge_Permutation in Ht.
      apply list_elem_of_fmap in Ht as ([t' d] & -> & Hin).
      apply elem_of_concat in Hin as (b & Hin & Hb).
      exists b. split; [assumption |]. apply list_elem_of_fmap.
      exists (t', d). auto. }
    split.
    + eapply StronglySorted_Forall2; [| exact Hgroups | exact Hser].
      intros x y x' y' _ _. apply serialized_le.
    + intros Hshort.
      eapply StronglySorted_Forall2; [| exact Hgroups | exact Hser].
      intros x y x' y' Hx Hy. apply serialized_lt; eauto.
Qed.

End DictionaryOrder.

Lemma dictionary_order_witness :
  ∃ files terms entries,
    indexer.build_index Scenario.tokenize Scenario.corpus 0 = Ok files
    ∧ indexer.index_dict files = dict_layout entries
    ∧ StronglySorted str_lt terms
    ∧ (∀ t, t ∈ terms ↔ emitted Scenario.tokenize Scenario.corpus t)
    ∧ Forall2 serialized terms (entry_term <$> entries)
    ∧ StronglySorted str_lt (entry_term <$> entries).
Proof.
  assert (Hbuild : ∃ files,
            indexer.build_index_sized Scenario.tokenize indexer.BLOCK_SIZE
              Scenario.corpus 0 = Ok files)
    by (eexists; vm_compute; reflexivity).
  destruct Hbuild as [files Hbuild].
  destruct (dictionary_order Scenario.tokenize indexer.BLOCK_SIZE
              Scenario.corpus 0 files ltac:(reflexivity) Hbuild)
    as (terms & entries & Hlayout & Hsorted & Hterms & Hser & _ & Hstrict).
  exists files, terms, entries.
  split; [exact Hbuild |]. split; [exact Hlayout |]. split; [exact Hsorted |].
  split; [exact Hterms |]. split; [exact Hser |].
  apply Hstrict. intros t e (doc & Hdoc & Ht) He.
  assert (Hcheck :
    Forall (λ doc, Forall (λ t, match encode_utf8 t with
                                | Ok e => (length e <=? 255)%nat
                                | Raise _ => true
                                end = true)
                     (Scenario.tokenize (indexer.parsed_text doc)))
           Scenario.corpus)
    by (refine (bool_decide_unpack _ _); vm_compute; exact I).
  pose proof (proj1 (Forall_forall _ _) Hcheck doc Hdoc) as Hdoc_ok.
  pose proof (proj1 (Forall_forall _ _) Hdoc_ok t Ht) as Ht_ok.
  cbn beta in Ht_ok. rewrite He in Ht_ok. now apply Nat.leb_le in Ht_ok.
Defined.

(** The claim fails for terms longer than 255 bytes: two distinct terms that
    agree on their first 255 bytes get two entries with the same serialized
    term. *)
Lemma long_terms_collide :
  long_term "b" ≠ long_term "c"
  ∧ ∃ files,
      indexer.build_index Scenario.tokenize long_corpus 0 = Ok files
      ∧ indexer.index_dict files
        = dict_layout [(replicate 255 97, 6, 1); (replicate 255 97, 10, 1)]
      ∧ ¬ StronglySorted str_lt
            (entry_term <$> [(replicate 255 97, 6, 1); (replicate 255 97, 10, 1)]).
Proof.
  split; [vm_compute; discriminate |].
  eexists. split; [vm_compute; reflexivity |]. split; [vm_compute; reflexivity |].
  intros Hsorted. apply StronglySorted_inv in Hsorted as [_ Hhd].
  apply Forall_cons in Hhd as [Hlt _].
  unfold str_lt in Hlt. cbn [entry_term fst] in Hlt.
  now rewrite str_ltb_irrefl in Hlt.
Qed.

(** ** The postings round trip *)

Section PostingsWritten.
Import compression indexer.

Lemma encode_varbyte_Ok (n : Z) (b : bytes) :
  encode_varbyte n = Ok b → b = varbyte n ∧ 0 <= n.
Proof.
  intros Henc. split; [unfold varbyte; now rewrite Henc |].
  unfold encode_varbyte in Henc. destruct (Z.ltb_spec n 0); [discriminate | lia].
Qed.

(** The bytes of a non-negative number decode to it. *)
Lemma varbyte_decode (n : Z) (rest : bytes) (off : nat) :
  0 <= n →
  decode_loop (varbyte n ++ rest) 0 0 off = Ok (n, (off + length (varbyte n))%nat)
  ∧ Z.of_nat (length (varbyte n)) = varbyte_len n.
Proof.
  intros Hn. destruct (encode_varbyte_decode n Hn) as (bs & Henc & Hlen & Hdec).
  unfold varbyte. rewrite Henc. split; [| exact Hlen].
  rewrite Hdec by lia. now rewrite Z.shiftl_0_r, Z.lor_0_l.
Qed.

Lemma varbyte_len_bound (n k : Z) :
  1 <= k → 0 <= n < 2 ^ (7 * k) → varbyte_len n <= k.
Proof.
  intros Hk Hn. unfold varbyte_len, bit_length.
  destruct (Z.eqb_spec n 0) as [-> | Hne];
    [change ((0 + 6) / 7) with 0; lia |].
  assert (Z.log2 n < 7 * k) by (apply Z.log2_lt_pow2; lia).
  pose proof (Z.log2_nonneg n).
  assert ((Z.log2 n + 1 + 6) / 7 < k + 1)
    by (apply Z.div_lt_upper_bound; lia).
  lia.
Qed.

Lemma varbyte_length_le (n : Z) (k : nat) :
  (1 ≤ k)%nat → 0 <= n < 2 ^ (7 * Z.of_nat k) → (length (varbyte n) ≤ k)%nat.
Proof.
  intros Hk Hn. destruct (varbyte_decode n [] 0) as [_ Hlen]; [lia |].
  pose proof (varbyte_len_bound n (Z.of_nat k)). lia.
Qed.

Lemma write_varbytes_content (numbers : list Z) :
  ∀ f f', at_end f → write_varbytes numbers f = Ok f' →
    content f' = content f ++ concat (varbyte <$> numbers) ∧ at_end f'.
Proof.
  induction numbers as [| n rest IH]; intros f f' Hend Hw.
  - cbn in Hw. injection Hw as <-. cbn. now rewrite app_nil_r.
  - cbn [write_varbytes] in Hw.
    destruct (encode_varbyte n) as [b |] eqn:Hb; [| discriminate].
    cbn [mbind result_bind] in Hw. apply encode_varbyte_Ok in Hb as [-> _].
    destruct (write_at_end (varbyte n) f Hend) as [Hc Hend1].
    destruct (IH _ _ Hend1 Hw) as [Hc' Hend'].
    split; [| assumption]. rewrite Hc', Hc. cbn. now rewrite <- app_assoc.
Qed.

Lemma write_doc_entries_content (doc_map : gmap Z (list Z))
    (entries : list (Z * Z)) :
  ∀ f f', at_end f → write_doc_entries doc_map entries f = Ok f' →
    content f'
    = content f
      ++ concat ((λ e : Z * Z,
                    posting_bytes
                      (e.2, sorted_int (default [] (doc_map !! e.1))))
                 <$> entries)
    ∧ at_end f'.
Proof.
  induction entries as [| [doc_id doc_delta] rest IH]; intros f f' Hend Hw.
  - cbn in Hw. injection Hw as <-. cbn. now rewrite app_nil_r.
  - cbn [write_doc_entries] in Hw.
    destruct (encode_varbyte doc_delta) as [b1 |] eqn:Hb1; [| discriminate].
    cbn [mbind result_bind] in Hw. apply encode_varbyte_Ok in Hb1 as [-> _].
    destruct (doc_map !! doc_id) as [unsorted |] eqn:Hlook; [| discriminate].
    destruct (encode_varbyte _) as [b2 |] eqn:Hb2; [| discriminate].
    cbn [mbind result_bind] in Hw. apply encode_varbyte_Ok in Hb2 as [-> _].
    destruct (write_varbytes _ _) as [f1 |] eqn:Hpos; [| discriminate].
    cbn [mbind result_bind] in Hw.
    destruct (write_at_end (varbyte doc_delta) f Hend) as [Hc1 Hend1].
    destruct (write_at_end (varbyte (Z.of_nat (length (sorted_int unsorted))))
                _ Hend1) as [Hc2 Hend2].
    destruct (write_varbytes_content _ _ _ Hend2 Hpos) as [Hc3 Hend3].
    destruct (IH _ _ Hend3 Hw) as [Hc' Hend']. split; [| assumption].
    rewrite Hc', Hc3, Hc2, Hc1. cbn [fmap list_fmap concat fst snd].
    rewrite Hlook. cbn [default]. unfold posting_bytes. cbn [fst snd].
    now rewrite <- !app_assoc.
Qed.

Lemma zip_fmap_l {A B C} (f : A → B) (l : list A) (k : list C) :
  length k = length l →
  (λ e : A * C, (e.2, f e.1)) <$> zip l k = zip k (f <$> l).
Proof.
  revert k. induction l as [| x l IH]; intros [| y k] Hlen;
    try discriminate; [reflexivity |].
  cbn. f_equal. apply IH. now injection Hlen.
Qed.

Lemma length_encode_delta (l : list Z) : length (encode_delta l) = length l.
Proof.
  destruct l as [| x l]; [reflexivity |]. cbn. f_equal.
  revert x. induction l as [| y l IH]; intros x; [reflexivity |].
  cbn. now rewrite IH.
Qed.

(** [write_term_entry] appends the postings block of the term to the
    postings file. *)
Lemma write_term_entry_postings (term : str) (doc_map : gmap Z (list Z))
    (fd fp fd' fp' : file) :
  at_end fp →
  write_term_entry term doc_map fd fp = Ok (fd', fp') →
  content fp' = content fp ++ postings_block doc_map.
Proof.
  intros Hend. unfold write_term_entry.
  destruct (encode_varbyte _) as [b0 |] eqn:Hb0; [| discriminate].
  cbn [mbind result_bind]. apply encode_varbyte_Ok in Hb0 as [-> _].
  destruct (write_doc_entries _ _ _) as [fp1 |] eqn:Hentries; [| discriminate].
  cbn [mbind result_bind].
  destruct (encode_utf8 term) as [encoded |]; [| discriminate].
  cbn [mbind result_bind].
  destruct (pack 1 _) as [b1 |]; [| discriminate]. cbn [mbind result_bind].
  destruct (pack 8 _) as [b8 |]; [| discriminate]. cbn [mbind result_bind].
  destruct (pack 4 _) as [b4 |]; [| discriminate].
  cbn [mbind result_bind mret result_ret]. intros Heq.
  assert (fp' = fp1) as ->
    by (unfold mret, result_ret in Heq; congruence).
  clear Heq.
  destruct (write_at_end
              (varbyte (Z.of_nat (length (sorted_int (keys doc_map))))) fp Hend)
    as [Hc0 Hend0].
  destruct (write_doc_entries_content _ _ _ _ Hend0 Hentries) as [Hc1 _].
  rewrite Hc1, Hc0. unfold postings_block, postings_of.
  rewrite <- (zip_fmap_l
                (λ doc_id : Z, sorted_int (default [] (doc_map !! doc_id)))
                (sorted_int (keys doc_map))
                (encode_delta (sorted_int (keys doc_map))))
    by apply length_encode_delta.
  rewrite <- list_fmap_compose. now rewrite <- app_assoc.
Qed.

End PostingsWritten.

Section SlidingBuffer.
Import compression search.
Variable buffer_size : nat.

Lemma app_eq_prefix {A} (l1 l2 k1 k2 : list A) :
  l1 ++ l2 = k1 ++ k2 → (length k1 ≤ length l1)%nat →
  ∃ r, l1 = k1 ++ r ∧ k2 = r ++ l2.
Proof.
  revert l1. induction k1 as [| x k1 IH]; intros l1 Heq Hlen.
  - exists l1. auto.
  - destruct l1 as [| y l1]; [cbn in Hlen; lia |].
    cbn in Heq. injection Heq as -> Heq.
    destruct (IH l1 Heq) as (r & -> & ->); [cbn in Hlen; lia |].
    exists r. auto.
Qed.

Lemma take_drop_length {A} (n : nat) (l : list A) :
  take n l ++ drop (length (take n l)) l = l.
Proof.
  destruct (decide (n ≤ length l)%nat).
  - rewrite length_take_le by assumption. apply take_drop.
  - rewrite take_ge by lia. rewrite drop_all. apply app_nil_r.
Qed.

(** Refilling keeps the stream, and leaves more than [margin] bytes in the
    buffer unless the file is exhausted. *)
Lemma refill_ready (margin : Z) (w : window) :
  0 <= margin < Z.of_nat buffer_size →
  (ptr w ≤ length (buffer w))%nat →
  stream_of (refill buffer_size margin w) = stream_of w
  ∧ ready (Z.to_nat (margin + 1)) (refill buffer_size margin w).
Proof.
  intros Hmargin Hptr. unfold refill, ready.
  destruct (Z.leb_spec (Z.of_nat (length (buffer w)) - margin)
                       (Z.of_nat (ptr w))) as [Hlow | Hhigh].
  - unfold read.
    set (rest := drop (cursor (handle w)) (content (handle w))).
    destruct (decide (take buffer_size rest = [])) as [Hempty | Hchunk].
    + rewrite bool_decide_eq_true_2 by assumption.
      rewrite Hempty. cbn [length ptr buffer handle].
      unfold stream_of, unread. cbn [ptr buffer handle cursor content].
      rewrite Nat.add_0_r. fold rest.
      assert (rest = []) as Hrest.
      { destruct rest; [reflexivity |].
        destruct buffer_size; [lia | discriminate]. }
      rewrite Hrest. auto.
    + rewrite bool_decide_eq_false_2 by assumption.
      unfold stream_of, unread. cbn [ptr buffer handle cursor content].
      rewrite drop_0. split.
      * rewrite <- app_assoc. f_equal.
        rewrite <- drop_drop. fold rest. apply take_drop_length.
      * split; [lia |].
        destruct (decide (buffer_size ≤ length rest)%nat) as [Hfull | Hshort].
        -- left. rewrite length_app, length_take_le by assumption. lia.
        -- right. rewrite <- drop_drop. fold rest.
           rewrite take_ge by lia. apply drop_all.
  - split; [reflexivity |]. split; [assumption | left; lia].
Qed.

(** Decoding a number that the buffer holds entirely. *)
Lemma decode_next_ready (w : window) (n : Z) (rest : bytes) (k : nat) :
  0 <= n → stream_of w = varbyte n ++ rest →
  ready k w → (length (varbyte n) ≤ k)%nat →
  ∃ w', decode_next w = Ok (n, w')
        ∧ stream_of w' = rest
        ∧ ready (k - length (varbyte n)) w'.
Proof.
  intros Hn Hstream [Hptr Hready] Hfits.
  assert (Hbuf : ∃ r, drop (ptr w) (buffer w) = varbyte n ++ r
                      ∧ rest = r ++ unread (handle w)).
  { destruct Hready as [Havail | Hdone].
    - apply app_eq_prefix; [exact Hstream |]. rewrite length_drop. lia.
    - exists rest. unfold stream_of in Hstream.
      rewrite Hdone, app_nil_r in *. auto. }
  destruct Hbuf as (r & Hbuf & ->).
  exists (Window (buffer w) (ptr w + length (varbyte n)) (handle w)).
  unfold decode_next, decode_varbyte_stream. rewrite Hbuf.
  destruct (varbyte_decode n r (ptr w) Hn) as [-> _].
  cbn [mbind result_bind mret result_ret].
  assert (Hlen : (length (varbyte n) + length r = length (buffer w) - ptr w)%nat)
    by (rewrite <- length_app, <- Hbuf; apply length_drop).
  split; [reflexivity |]. split.
  - unfold stream_of. cbn [ptr buffer handle]. f_equal.
    rewrite <- drop_drop, Hbuf. apply drop_app_length.
  - unfold ready. cbn [ptr buffer handle].
    split; [lia |]. destruct Hready as [Havail | Hdone]; [left; lia | now right].
Qed.

Lemma decode_encode_delta_from (l : list Z) :
  ∀ c, decode_delta_from c (encode_delta_from c l) = l.
Proof.
  induction l as [| x l IH]; intros c; [reflexivity |].
  cbn. replace (c + (x - c)) with x by lia. now rewrite IH.
Qed.

Lemma decode_encode_delta (l : list Z) :
  decode_delta_from 0 (encode_delta l) = l.
Proof.
  destruct l as [| x l]; [reflexivity |].
  cbn. now rewrite decode_encode_delta_from.
Qed.

Hypothesis buffer_size_margin : (11 ≤ buffer_size)%nat.

(** The loop over the positions of one document. *)
Lemma read_positions_spec (deltas : list Z) :
  ∀ (w : window) (curr_pos : Z) (positions rest : list Z),
    Forall (λ d, 0 <= d ∧ (length (varbyte d) ≤ 6)%nat) deltas →
    (ptr w ≤ length (buffer w))%nat →
    stream_of w = concat (varbyte <$> deltas) ++ rest →
    ∃ w', read_positions buffer_size (length deltas) w curr_pos positions
          = Ok (positions ++ decode_delta_from curr_pos deltas, w')
          ∧ stream_of w' = rest ∧ (ptr w' ≤ length (buffer w'))%nat.
Proof.
  induction deltas as [| d deltas IH];
    intros w curr_pos positions rest Hbounds Hptr Hstream.
  - exists w. cbn in *. rewrite app_nil_r. auto.
  - apply Forall_cons in Hbounds as [[Hd Hlen] Hbounds].
    cbn [length read_positions].
    destruct (refill_ready 5 w) as [Hsame Hready]; [lia | assumption |].
    cbn [fmap list_fmap concat] in Hstream. rewrite <- app_assoc in Hstream.
    rewrite <- Hsame in Hstream.
    destruct (decode_next_ready _ _ _ _ Hd Hstream Hready)
      as (w1 & -> & Hstream1 & [Hptr1 _]); [exact Hlen |].
    cbn [mbind result_bind].
    destruct (IH w1 (curr_pos + d) (positions ++ [curr_pos + d]) rest
                 Hbounds Hptr1 Hstream1) as (w' & -> & Hrest & Hptr').
    exists w'. cbn [decode_delta_from]. rewrite <- app_assoc. auto.
Qed.

(** The loop over the documents of a term. *)
Lemma read_entries_spec (ps : list (Z * list Z)) :
  ∀ (w : window) (curr_doc_id : Z) (result : gmap Z (list Z)) (rest : bytes),
    Forall fits ps →
    (ptr w ≤ length (buffer w))%nat →
    stream_of w = concat (posting_bytes <$> ps) ++ rest →
    read_entries buffer_size (length ps) w curr_doc_id result
    = Ok (insert_postings curr_doc_id ps result).
Proof.
  induction ps as [| [doc_delta positions] ps IH];
    intros w curr_doc_id result rest Hfits Hptr Hstream; [reflexivity |].
  apply Forall_cons in Hfits as [(Hdelta & Hlen1 & Hlen2 & Hpos) Hfits].
  cbn [fst snd] in *. cbn [length read_entries insert_postings].
  destruct (refill_ready 10 w) as [Hsame Hready]; [lia | assumption |].
  cbn [fmap list_fmap concat] in Hstream. unfold posting_bytes in Hstream.
  cbn [fst snd] in Hstream. rewrite <- !app_assoc in Hstream.
  rewrite <- Hsame in Hstream.
  destruct (decode_next_ready _ _ _ _ Hdelta Hstream Hready)
    as (w1 & -> & Hstream1 & Hready1);
    [change (Z.to_nat (10 + 1)) with 11%nat; lia |].
  cbn [mbind result_bind].
  destruct (decode_next_ready _ _ _ _ (Nat2Z.is_nonneg _) Hstream1 Hready1)
    as (w2 & -> & Hstream2 & [Hptr2 _]);
    [change (Z.to_nat (10 + 1)) with 11%nat; lia |].
  cbn [mbind result_bind]. rewrite Nat2Z.id.
  rewrite <- (length_encode_delta positions).
  destruct (read_positions_spec _ w2 0 [] _ Hpos Hptr2 Hstream2)
    as (w3 & -> & Hstream3 & Hptr3).
  cbn [mbind result_bind app]. rewrite decode_encode_delta.
  exact (IH w3 _ _ rest Hfits Hptr3 Hstream3).
Qed.

End SlidingBuffer.

Section PostingsFit.
Import compression indexer.

Lemma encode_delta_from_bounds (B : Z) (l : list Z) :
  ∀ prev, 0 <= prev → StronglySorted Z.le (prev :: l) →
    Forall (λ x, x < B) l →
    Forall (λ d, 0 <= d < B) (encode_delta_from prev l).
Proof.
  induction l as [| x l IH]; intros prev Hprev Hsorted Hbound; [constructor |].
  apply StronglySorted_inv in Hsorted as [Hsorted Hhd].
  apply Forall_cons in Hhd as [Hpx _].
  apply Forall_cons in Hbound as [Hx Hbound].
  cbn [encode_delta_from]. constructor; [lia |].
  apply IH; [lia | assumption..].
Qed.

Lemma encode_delta_bounds (B : Z) (l : list Z) :
  StronglySorted Z.le l → Forall (λ x, 0 <= x < B) l →
  Forall (λ d, 0 <= d < B) (encode_delta l).
Proof.
  destruct l as [| x l]; intros Hsorted Hbound; [constructor |].
  apply Forall_cons in Hbound as [Hx Hbound]. cbn [encode_delta].
  constructor; [assumption |].
  apply encode_delta_from_bounds; [lia | assumption |].
  eapply Forall_impl; [exact Hbound | cbn; lia].
Qed.

Lemma sorted_int_sorted (l : list Z) : StronglySorted Z.le (sorted_int l).
Proof. apply StronglySorted_merge_sort; apply _. Qed.

Lemma elem_of_sorted_int (l : list Z) (x : Z) : x ∈ sorted_int l ↔ x ∈ l.
Proof. unfold sorted_int. now rewrite merge_sort_Permutation. Qed.

Lemma length_sorted_int (l : list Z) : length (sorted_int l) = length l.
Proof. unfold sorted_int. now rewrite merge_sort_Permutation. Qed.

Lemma sorted_int_id (l : list Z) : StronglySorted Z.le l → sorted_int l = l.
Proof.
  intros Hsorted. apply (Sorted_unique Z.le).
  - apply StronglySorted_Sorted, sorted_int_sorted.
  - now apply StronglySorted_Sorted.
  - apply merge_sort_Permutation.
Qed.

(** A strictly ascending list of integers of [[lo, hi)] has at most
    [hi - lo] items. *)
Lemma strictly_sorted_length (l : list Z) :
  ∀ lo hi, lo <= hi → StronglySorted Z.lt l → Forall (λ x, lo <= x < hi) l →
    Z.of_nat (length l) <= hi - lo.
Proof.
  induction l as [| x l IH]; intros lo hi Hlohi Hsorted Hbound; [cbn; lia |].
  apply StronglySorted_inv in Hsorted as [Hsorted Hhd].
  apply Forall_cons in Hbound as [Hx Hbound].
  assert (Z.of_nat (length l) <= hi - (x + 1)); [| cbn [length]; lia].
  apply IH; [lia | assumption |].
  apply Forall_forall. intros y Hy.
  pose proof (proj1 (Forall_forall _ _) Hhd _ Hy).
  pose proof (proj1 (Forall_forall _ _) Hbound _ Hy). cbn in *. lia.
Qed.

Lemma Forall_zip {A B} (P : A → Prop) (Q : B → Prop) (l : list A) (k : list B) :
  Forall P l → Forall Q k → Forall (λ p, P p.1 ∧ Q p.2) (zip l k).
Proof.
  intros Hl. revert k. induction Hl as [| x l Hx Hl IH]; intros k Hk;
    [constructor |].
  destruct Hk as [| y k Hy Hk]; [constructor |].
  cbn. constructor; [auto | now apply IH].
Qed.

Variable doc_map : gmap Z (list Z).
Hypothesis doc_map_bounded : bounded doc_map.

Lemma doc_ids_bounded :
  Forall (λ x, 0 <= x < 2 ^ 35) (sorted_int (keys doc_map)).
Proof.
  apply Forall_forall. intros x Hx.
  rewrite elem_of_sorted_int, elem_of_keys in Hx. destruct Hx as [ps Hps].
  now destruct (doc_map_bounded _ _ Hps).
Qed.

Lemma doc_count_bounded :
  Z.of_nat (length (sorted_int (keys doc_map))) <= 2 ^ 35.
Proof.
  rewrite <- (Z.sub_0_r (2 ^ 35)).
  apply strictly_sorted_length; [lia | | apply doc_ids_bounded].
  assert (Hnd : NoDup (sorted_int (keys doc_map))).
  { unfold sorted_int. rewrite merge_sort_Permutation.
    apply NoDup_fst_map_to_list. }
  pose proof (sorted_int_sorted (keys doc_map)) as Hsorted.
  induction Hsorted as [| x l Hl IH Hhd]; [constructor |].
  apply NoDup_cons in Hnd as [Hx Hnd]. constructor; [auto |].
  apply Forall_forall. intros y Hy.
  pose proof (proj1 (Forall_forall _ _) Hhd _ Hy).
  assert (x ≠ y) by (intros ->; contradiction). lia.
Qed.

(** Within the bounds, every posting of the block is short enough for the
    margins of the buffer. *)
Lemma postings_fit : Forall fits (postings_of doc_map).
Proof.
  unfold postings_of.
  eapply Forall_impl.
  - apply (Forall_zip
             (λ d, 0 <= d < 2 ^ 35)
             (λ ps : list Z,
                (length (varbyte (Z.of_nat (length ps))) ≤ 6)%nat
                ∧ Forall (λ d, 0 <= d ∧ (length (varbyte d) ≤ 6)%nat)
                         (encode_delta ps))).
    + apply encode_delta_bounds; [apply sorted_int_sorted | apply doc_ids_bounded].
    + apply Forall_fmap, Forall_forall. intros doc_id Hid. unfold compose.
      rewrite elem_of_sorted_int, elem_of_keys in Hid. destruct Hid as [ps Hps].
      rewrite Hps. change (default [] (Some ps)) with ps.
      destruct (doc_map_bounded _ _ Hps) as (_ & Hfreq & Hpos). split.
      * apply varbyte_length_le; [lia |]. rewrite length_sorted_int.
        change (7 * Z.of_nat 6) with 42. lia.
      * eapply Forall_impl.
        -- apply (encode_delta_bounds (2 ^ 42)); [apply sorted_int_sorted |].
           apply Forall_forall. intros p Hp. rewrite elem_of_sorted_int in Hp.
           exact (proj1 (Forall_forall _ _) Hpos _ Hp).
        -- intros d Hd. cbn in *. split; [lia |].
           apply varbyte_length_le; [lia |]. change (7 * Z.of_nat 6) with 42. lia.
  - intros [d ps] [Hd [Hfreq Hpos]]. unfold fits. cbn [fst snd] in *.
    split; [lia |]. split; [| split; assumption].
    apply varbyte_length_le; [lia |]. change (7 * Z.of_nat 5) with 35. lia.
Qed.

Lemma insert_postings_from (f : Z → list Z) (ids : list Z) :
  ∀ curr result,
    insert_postings curr (zip (encode_delta_from curr ids) (f <$> ids)) result
    = foldl (λ m id, <[id := f id]> m) result ids.
Proof.
  induction ids as [| x ids IH]; intros curr result; [reflexivity |].
  cbn. replace (curr + (x - curr)) with x by lia. apply IH.
Qed.

Lemma foldl_insert_lookup (f : Z → list Z) (ids : list Z) :
  ∀ (result : gmap Z (list Z)) k,
    foldl (λ m id, <[id := f id]> m) result ids !! k
    = if decide (k ∈ ids) then Some (f k) else result !! k.
Proof.
  induction ids as [| x ids IH]; intros result k.
  - cbn. destruct (decide (k ∈ [])) as [Hin | _]; [| reflexivity].
    now apply elem_of_nil in Hin.
  - cbn [foldl]. rewrite IH.
    destruct (decide (k ∈ ids)) as [Hin | Hout].
    + rewrite decide_True by (now right). reflexivity.
    + destruct (decide (k = x)) as [-> | Hne].
      * rewrite decide_True by left. now rewrite lookup_insert_eq.
      * rewrite decide_False by (rewrite elem_of_cons; tauto).
        now rewrite lookup_insert_ne.
Qed.

(** Reading the postings of the block back gives the map that was written,
    with the positions of every document sorted. *)
Lemma insert_postings_of :
  insert_postings 0 (postings_of doc_map) ∅ = sorted_int <$> doc_map.
Proof.
  unfold postings_of.
  set (f := λ doc_id, sorted_int (default [] (doc_map !! doc_id))).
  assert (Hfold : insert_postings 0
                    (zip (encode_delta (sorted_int (keys doc_map)))
                         (f <$> sorted_int (keys doc_map))) ∅
                  = foldl (λ m id, <[id := f id]> m) ∅ (sorted_int (keys doc_map))).
  { destruct (sorted_int (keys doc_map)) as [| x ids]; [reflexivity |].
    cbn. rewrite Z.add_0_l. apply insert_postings_from. }
  rewrite Hfold. apply map_eq. intros k.
  rewrite foldl_insert_lookup, lookup_fmap.
  destruct (decide (k ∈ sorted_int (keys doc_map))) as [Hin | Hout].
  - rewrite elem_of_sorted_int, elem_of_keys in Hin. destruct Hin as [ps Hps].
    unfold f. now rewrite Hps.
  - rewrite lookup_empty. destruct (doc_map !! k) as [ps |] eqn:Hps;
      [| reflexivity].
    destruct Hout. apply elem_of_sorted_int, elem_of_keys. eauto.
Qed.

End PostingsFit.

Section RoundTrip.
Import compression indexer search.

Lemma varbyte_nonempty (n : Z) : 0 <= n → varbyte n ≠ [].
Proof.
  intros Hn Hempty. destruct (varbyte_decode n [] 0 Hn) as [_ Hlen].
  rewrite Hempty in Hlen. unfold varbyte_len in Hlen. cbn [length] in Hlen. lia.
Qed.

Lemma length_postings_of (doc_map : gmap Z (list Z)) :
  length (postings_of doc_map) = length (sorted_int (keys doc_map)).
Proof.
  unfold postings_of. rewrite length_zip, length_encode_delta, length_fmap. lia.
Qed.

(** With any buffer of at least eleven bytes, the reader decodes a postings
    block found at the offset of the dictionary, whatever precedes and
    follows it in the file. *)
Lemma get_postings_sized_block (chunk : nat) (self : CompressedIndexReader)
    (key : str) (offset doc_count : Z) (doc_map : gmap Z (list Z))
    (before later : bytes) :
  (11 ≤ chunk)%nat → bounded doc_map →
  term_dict self !! key = Some (offset, doc_count) →
  offset = Z.of_nat (length before) →
  post_file self = before ++ postings_block doc_map ++ later →
  get_postings_sized chunk self key = Ok (sorted_int <$> doc_map).
Proof.
  intros Hchunk Hbounded Hkey -> Hfile. unfold get_postings_sized.
  rewrite Hkey, Hfile, Nat2Z.id. unfold read, seek, open_rb.
  cbn [cursor content]. rewrite drop_app_length.
  set (stream := postings_block doc_map ++ later).
  set (count := Z.of_nat (length (sorted_int (keys doc_map)))).
  assert (Hcount : 0 <= count) by apply Nat2Z.is_nonneg.
  assert (Hstream : stream
                    = varbyte count
                      ++ concat (posting_bytes <$> postings_of doc_map) ++ later)
    by (unfold stream, postings_block; now rewrite <- app_assoc).
  assert (Hbuffer : take chunk stream ≠ []).
  { rewrite Hstream. pose proof (varbyte_nonempty count Hcount).
    destruct (varbyte count); [contradiction |].
    destruct chunk; [lia | discriminate]. }
  rewrite bool_decide_eq_false_2 by assumption.
  set (w := Window (take chunk stream) 0
                   (File (before ++ stream)
                         (length before + length (take chunk stream)))).
  assert (Hw : stream_of w = stream).
  { unfold stream_of, unread, w. cbn [ptr buffer handle cursor content].
    rewrite drop_0, <- drop_drop, drop_app_length. apply take_drop_length. }
  assert (Hready : ready 11 w).
  { unfold ready, unread, w. cbn [ptr buffer handle cursor content].
    split; [lia |]. rewrite <- drop_drop, drop_app_length.
    destruct (decide (chunk ≤ length stream)%nat).
    - left. rewrite length_take_le by assumption. lia.
    - right. rewrite take_ge by lia. apply drop_all. }
  rewrite Hstream in Hw.
  destruct (decode_next_ready w count _ 11 Hcount Hw Hready)
    as (w1 & -> & Hw1 & [Hptr1 _]).
  { apply varbyte_length_le; [lia |]. change (7 * Z.of_nat 11) with 77.
    pose proof (doc_count_bounded doc_map Hbounded). fold count in H. lia. }
  cbn [mbind result_bind]. unfold count. rewrite Nat2Z.id.
  rewrite <- length_postings_of.
  rewrite (read_entries_spec chunk Hchunk (postings_of doc_map) w1 0 ∅ later
             (postings_fit doc_map Hbounded) Hptr1 Hw1).
  now rewrite insert_postings_of.
Qed.

(** One call of [write_term_entry], read back. A term's postings, as
    [write_term_entry] appended them to the
    postings file, are read back by [get_postings] from the offset recorded
    in the dictionary: the result is the map of the documents of the term,
    each with its positions in ascending order. This holds for the buffer of
    1 MiB and for every buffer of at least eleven bytes, so wherever the
    chunk boundaries fall in the block, and whatever is written to the file
    afterwards. The document ids are below [2 ^ 35], and every document has
    fewer than [2 ^ 42] positions, each below [2 ^ 42]. *)
Lemma written_postings_read_back (self : CompressedIndexReader) (key term : str)
    (doc_map : gmap Z (list Z)) (fd fp fd' fp' : file) (later : bytes)
    (doc_count : Z) :
  bounded doc_map →
  at_end fp →
  write_term_entry term doc_map fd fp = Ok (fd', fp') →
  term_dict self !! key = Some (Z.of_nat (tell fp), doc_count) →
  post_file self = content fp' ++ later →
  get_postings self key = Ok (sorted_int <$> doc_map)
  ∧ (∀ chunk, (11 ≤ chunk)%nat →
       get_postings_sized chunk self key = Ok (sorted_int <$> doc_map))
  ∧ dom (sorted_int <$> doc_map) = dom doc_map
  ∧ ((∀ doc_id positions, doc_map !! doc_id = Some positions →
        StronglySorted Z.le positions) →
     get_postings self key = Ok doc_map).
Proof.
  intros Hbounded Hend Hwrite Hkey Hfile.
  pose proof (write_term_entry_postings _ _ _ _ _ _ Hend Hwrite) as Hcontent.
  rewrite Hcontent, <- app_assoc in Hfile.
  assert (Hany : ∀ chunk, (11 ≤ chunk)%nat →
            get_postings_sized chunk self key = Ok (sorted_int <$> doc_map)).
  { intros chunk Hchunk.
    apply (get_postings_sized_block chunk self key (Z.of_nat (tell fp))
             doc_count doc_map (content fp) later); try assumption.
    unfold tell. now rewrite Hend. }
  assert (Hmib : get_postings self key = Ok (sorted_int <$> doc_map)).
  { apply Hany. unfold buffer_size. lia. }
  split; [exact Hmib |]. split; [exact Hany |]. split; [apply dom_fmap_L |].
  intros Hascending. rewrite Hmib. f_equal. apply map_eq. intros k.
  rewrite lookup_fmap. destruct (doc_map !! k) as [ps |] eqn:Hps; [| reflexivity].
  cbn. f_equal. apply sorted_int_id. eauto.
Qed.

End RoundTrip.

Lemma bounded_map_Forall (doc_map : gmap Z (list Z)) :
  map_Forall (λ doc_id positions,
                0 <= doc_id < 2 ^ 35
                ∧ Z.of_nat (length positions) < 2 ^ 42
                ∧ Forall (λ p, 0 <= p < 2 ^ 42) positions) doc_map →
  bounded doc_map.
Proof. intros Hall doc_id positions Hlook. exact (Hall _ _ Hlook). Qed.

Example written_postings_read_back_example :
  ∃ fd' fp',
    indexer.write_term_entry (py "w") twenty_docs
      (File (py "DICT" ++ [3; 0; 0; 0; 0; 0]) 10) (File (py "POST" ++ [3; 0]) 6)
    = Ok (fd', fp')
    ∧ let self := reader_at (py "w") 6 20 (content fp' ++ [1; 2; 3]) in
      search.get_postings self (py "w") = Ok (sorted_int <$> twenty_docs)
      ∧ (∀ chunk, (11 ≤ chunk)%nat →
           search.get_postings_sized chunk self (py "w")
           = Ok (sorted_int <$> twenty_docs))
      ∧ dom (sorted_int <$> twenty_docs) = dom twenty_docs.
Proof.
  destruct (indexer.write_term_entry (py "w") twenty_docs
              (File (py "DICT" ++ [3; 0; 0; 0; 0; 0]) 10)
              (File (py "POST" ++ [3; 0]) 6)) as [[fd' fp'] |] eqn:Hwrite;
    [| vm_compute in Hwrite; discriminate].
  exists fd', fp'. split; [reflexivity |]. intros self.
  destruct (written_postings_read_back self (py "w") (py "w") twenty_docs
              (File (py "DICT" ++ [3; 0; 0; 0; 0; 0]) 10)
              (File (py "POST" ++ [3; 0]) 6) fd' fp' [1; 2; 3] 20)
    as (Hmib & Hany & Hdom & _).
  - apply bounded_map_Forall. refine (bool_decide_unpack _ _).
    vm_compute. exact I.
  - reflexivity.
  - exact Hwrite.
  - reflexivity.
  - reflexivity.
  - auto.
Defined.

(** The block of [twenty_docs] is 120 bytes long; with a buffer of eleven
    bytes it is read in a dozen chunks, and the same map comes back. With a
    buffer of one byte a two-byte number straddles the boundary and the
    decoder raises. *)
Example small_buffers :
  length (postings_block twenty_docs) = 120%nat
  ∧ search.get_postings_sized 11
      (reader_at (py "w") 6 20 (py "POST" ++ [3; 0] ++ postings_block twenty_docs))
      (py "w") = Ok (sorted_int <$> twenty_docs)
  ∧ search.get_postings_sized 1
      (reader_at (py "w") 6 20 (py "POST" ++ [3; 0] ++ postings_block twenty_docs))
      (py "w") = Raise (IndexError "Unexpected end of byte stream").
Proof. repeat split; vm_compute; reflexivity. Qed.

(** ** Reading the dictionary back *)

Section Utf8RoundTrip.

(** Decide the next range test of the goal by linear arithmetic, or split
    on it. *)
Ltac decide_test :=
  match goal with
  | |- context [?x =? ?y] => destruct (Z.eqb_spec x y)
  | |- context [?x <? ?y] => destruct (Z.ltb_spec x y)
  | |- context [?x <=? ?y] => destruct (Z.leb_spec x y)
  end; try (exfalso; lia); cbn [andb negb].

Lemma sextets (c : Z) :
  0 <= c →
  c = 64 * (c / 64) + c mod 64
  ∧ c / 64 = 64 * (c / 4096) + (c / 64) mod 64
  ∧ c / 4096 = 64 * (c / 262144) + (c / 4096) mod 64
  ∧ 0 <= c mod 64 < 64 ∧ 0 <= (c / 64) mod 64 < 64
  ∧ 0 <= (c / 4096) mod 64 < 64 ∧ 0 <= c / 262144.
Proof.
  intros Hc.
  assert (c / 4096 = c / 64 / 64) as Hq2 by (rewrite Z.div_div by lia; reflexivity).
  assert (c / 262144 = c / 4096 / 64) as Hq3 by (rewrite Z.div_div by lia; reflexivity).
  pose proof (Z.div_mod c 64 ltac:(lia)).
  pose proof (Z.div_mod (c / 64) 64 ltac:(lia)).
  pose proof (Z.div_mod (c / 4096) 64 ltac:(lia)).
  pose proof (Z.mod_pos_bound c 64 ltac:(lia)).
  pose proof (Z.mod_pos_bound (c / 64) 64 ltac:(lia)).
  pose proof (Z.mod_pos_bound (c / 4096) 64 ltac:(lia)).
  assert (0 <= c / 262144) by (apply Z.div_pos; lia).
  rewrite Hq2 at 1. rewrite Hq3 at 1. repeat split; lia.
Qed.

Lemma decode_utf8_char (c : Z) (b rest : bytes) :
  utf8_char c = Ok b →
  decode_utf8 (b ++ rest) = (s ← decode_utf8 rest; mret (c :: s)).
Proof.
  unfold utf8_char. destruct (Z.ltb_spec c 0); [discriminate |].
  destruct (sextets c) as (Hc & Hq1 & Hq2 & Hr & Hs1 & Hs2 & Hq3); [lia |].
  revert Hc Hq1 Hq2 Hr Hs1 Hs2 Hq3.
  generalize (c mod 64) ((c / 64) mod 64) ((c / 4096) mod 64).
  generalize (c / 262144). generalize (c / 4096). generalize (c / 64).
  intros q1 q2 q3 r s1 s2 Hc Hq1 Hq2 Hr Hs1 Hs2 Hq3.
  repeat decide_test; intros Henc; try discriminate Henc;
    injection Henc as <-; cbn [app decode_utf8]; unfold between, is_cont;
    repeat decide_test;
    (destruct (decode_utf8 rest) as [s |]; [| reflexivity]);
    cbn [mbind result_bind mret result_ret]; do 2 f_equal; lia.
Qed.

Lemma decode_encode_utf8 (s : str) (b : bytes) :
  encode_utf8 s = Ok b → decode_utf8 b = Ok s.
Proof.
  revert b. induction s as [| c s IH]; intros b Henc.
  - cbn in Henc. now injection Henc as <-.
  - cbn [encode_utf8] in Henc.
    destruct (utf8_char c) as [bc |] eqn:Hc; [| discriminate].
    destruct (encode_utf8 s) as [bs |]; [| discriminate].
    cbn in Henc. injection Henc as <-.
    rewrite (decode_utf8_char c bc bs Hc), (IH bs eq_refl). reflexivity.
Qed.

End Utf8RoundTrip.

Section EntriesWritten.
Import compression indexer.

Lemma write_varbytes_end (numbers : list Z) (f f' : file) :
  at_end f → write_varbytes numbers f = Ok f' → at_end f'.
Proof. intros Hend Hw. now destruct (write_varbytes_content _ _ _ Hend Hw). Qed.

(** One call of [write_term_entry]: the dictionary gets the entry of the
    term, the postings file gets its block, at the offset of the entry. *)
Lemma write_term_entry_spec (term : str) (doc_map : gmap Z (list Z))
    (fd fp fd' fp' : file) :
  at_end fd → at_end fp →
  write_term_entry term doc_map fd fp = Ok (fd', fp') →
  ∃ e, content fd' = content fd ++ entry_bytes e ∧ at_end fd'
       ∧ content fp' = content fp ++ postings_block doc_map ∧ at_end fp'
       ∧ written_entry (content fp ++ postings_block doc_map) (term, doc_map) e.
Proof.
  intros Hendd Hendp Hwrite.
  pose proof (write_term_entry_postings _ _ _ _ _ _ Hendp Hwrite) as Hpost.
  revert Hwrite. unfold write_term_entry.
  destruct (encode_varbyte _) as [b0 |] eqn:Hb0; [| discriminate].
  cbn [mbind result_bind]. apply encode_varbyte_Ok in Hb0 as [-> _].
  destruct (write_doc_entries _ _ _) as [fp1 |] eqn:Hentries; [| discriminate].
  cbn [mbind result_bind].
  destruct (encode_utf8 term) as [encoded |] eqn:Henc; [| discriminate].
  cbn [mbind result_bind].
  destruct (pack 1 _) as [b1 |] eqn:Hb1; [| discriminate]. cbn [mbind result_bind].
  destruct (pack 8 _) as [b8 |] eqn:Hb8; [| discriminate]. cbn [mbind result_bind].
  destruct (pack 4 _) as [b4 |] eqn:Hb4; [| discriminate].
  cbn [mbind result_bind]. unfold mret, result_ret. intros Heq.
  assert (Hfd : fd' = write b4 (write b8 (write (slice_to 255 encoded)
                                            (write b1 fd)))) by congruence.
  assert (Hfp : fp' = fp1) by congruence. clear Heq. subst fp'.
  apply pack_Ok in Hb1 as [-> Hr1], Hb8 as [-> Hr8], Hb4 as [-> Hr4].
  rewrite le_bytes_1 in Hfd by exact Hr1.
  destruct (write_at_end [Z.of_nat (length (slice_to 255 encoded))] fd Hendd)
    as [Hc1 He1].
  destruct (write_at_end (slice_to 255 encoded) _ He1) as [Hc2 He2].
  destruct (write_at_end (le_bytes 8 (Z.of_nat (tell fp))) _ He2) as [Hc3 He3].
  destruct (write_at_end
              (le_bytes 4 (Z.of_nat (length (sorted_int (keys doc_map)))))
              _ He3) as [Hc4 He4].
  destruct (write_at_end
              (varbyte (Z.of_nat (length (sorted_int (keys doc_map))))) fp Hendp)
    as [_ Hend0].
  destruct (write_doc_entries_content _ _ _ _ Hend0 Hentries) as [_ Hendp'].
  exists (slice_to 255 encoded, Z.of_nat (tell fp),
          Z.of_nat (length (sorted_int (keys doc_map)))).
  subst fd'. split; [| split; [exact He4 | split; [exact Hpost | split;
                                                    [exact Hendp' |]]]].
  - rewrite Hc4, Hc3, Hc2, Hc1. cbn [entry_bytes]. now rewrite <- !app_assoc.
  - unfold written_entry. cbn [entry_term fst snd].
    split; [exists encoded; auto |]. split; [| split; [| split; [| split]]].
    + change (256 ^ Z.of_nat 1) with 256 in Hr1. lia.
    + exact Hr8.
    + exact Hr4.
    + rewrite length_sorted_int. unfold keys.
      now rewrite length_fmap, length_map_to_list.
    + exists (content fp), []. rewrite app_nil_r. split; [reflexivity |].
      unfold tell. now rewrite Hendp.
Qed.

Lemma written_entry_later (post tail : bytes) g e :
  written_entry post g e → written_entry (post ++ tail) g e.
Proof.
  intros (Hser & Hlen & Hoff & Hcnt & Hsize & before & later & -> & Hbefore).
  split; [assumption |]. split; [assumption |]. split; [assumption |].
  split; [assumption |]. split; [assumption |]. exists before, (later ++ tail).
  split; [| assumption]. now rewrite <- !app_assoc.
Qed.

(** All the calls of [write_term_entry] of a merge. *)
Lemma write_entries_index (gs : list (list Z * gmap Z (list Z))) :
  ∀ fd fp n fd' fp' n',
    at_end fd → at_end fp →
    write_entries gs fd fp n = Ok (fd', fp', n') →
    ∃ entries tail,
      content fd' = content fd ++ concat (entry_bytes <$> entries)
      ∧ at_end fd' ∧ n' = n + Z.of_nat (length entries)
      ∧ content fp' = content fp ++ tail
      ∧ Forall2 (written_entry (content fp')) gs entries.
Proof.
  induction gs as [| [t d] gs IH]; intros fd fp n fd' fp' n' Hendd Hendp Hw.
  - cbn in Hw. injection Hw as <- <- <-. exists [], []. cbn.
    rewrite !app_nil_r. repeat split; [assumption | lia | constructor].
  - cbn [write_entries] in Hw.
    destruct (write_term_entry t d fd fp) as [[fd1 fp1] |] eqn:Hone;
      [| discriminate].
    cbn [mbind result_bind] in Hw.
    destruct (write_term_entry_spec _ _ _ _ _ _ Hendd Hendp Hone)
      as (e & Hd1 & Hendd1 & Hp1 & Hendp1 & Hentry).
    destruct (IH _ _ _ _ _ _ Hendd1 Hendp1 Hw)
      as (entries & tail & Hd & Hendd' & Hn & Hp & Hall).
    exists (e :: entries), (postings_block d ++ tail).
    split; [| split; [assumption | split; [| split]]].
    + rewrite Hd, Hd1. cbn [fmap list_fmap concat]. now rewrite <- app_assoc.
    + cbn [length]. lia.
    + rewrite Hp, Hp1. now rewrite <- app_assoc.
    + constructor; [| assumption]. rewrite Hp, Hp1.
      now apply written_entry_later.
Qed.

End EntriesWritten.

Section MergeIndex.
Import indexer.

(** [merge_blocks] writes the dictionary and the postings of the runs of
    the merged stream. *)
Lemma merge_blocks_index (temp_dir : list (list (list Z * gmap Z (list Z))))
    (num_blocks : nat) (dict post : bytes) :
  merge_blocks temp_dir num_blocks = Ok (dict, post) →
  ∃ entries,
    dict = dict_layout entries
    ∧ Z.of_nat (length entries) < 2 ^ 32
    ∧ Forall2 (written_entry post)
        (all_groups (heapq_merge fst (take num_blocks temp_dir))) entries.
Proof.
  unfold merge_blocks.
  assert (block_reader <$> take num_blocks temp_dir = take num_blocks temp_dir)
    as -> by apply list_fmap_id.
  change (pack 2 VERSION) with (Ok [3; 0]). change (pack 4 0) with (Ok [0; 0; 0; 0]).
  cbn [mbind result_bind].
  rewrite bind_assoc, merge_stream_all_groups.
  set (fd0 := write [0; 0; 0; 0] (write [3; 0] (write MAGIC_DICT open_wb))).
  set (fp0 := write [3; 0] (write MAGIC_POST open_wb)).
  assert (Hc0 : content fd0 = (MAGIC_DICT ++ [3; 0]) ++ [0; 0; 0; 0]) by reflexivity.
  assert (Hendd0 : at_end fd0) by reflexivity.
  assert (Hendp0 : at_end fp0) by reflexivity.
  destruct (write_entries _ fd0 fp0 0) as [[[fd' fp'] n'] |] eqn:Hw;
    [| discriminate].
  cbn [mbind result_bind].
  destruct (write_entries_index _ _ _ _ _ _ _ Hendd0 Hendp0 Hw)
    as (entries & tail & Hc & Hend & Hn & _ & Hall).
  destruct (pack 4 n') as [b |] eqn:Hb; [| discriminate].
  cbn [mbind result_bind]. unfold mret, result_ret. intros Heq.
  assert (Hdict : dict = content (write b (seek 6 fd'))) by congruence.
  assert (Hpost : post = content fp') by congruence.
  clear Heq. apply pack_Ok in Hb as [-> Hrange].
  exists entries. subst post. split; [| split; [| exact Hall]].
  - destruct fd' as [c' p']. unfold at_end in Hend.
    cbn [content cursor] in Hend, Hc. subst p' c' dict.
    rewrite Hc0. rewrite <- (app_assoc (MAGIC_DICT ++ [3; 0])).
    rewrite patch_count by reflexivity.
    unfold dict_layout. rewrite Hn, Z.add_0_l. now rewrite <- !app_assoc.
  - change (256 ^ Z.of_nat 4) with (2 ^ 32) in Hrange. lia.
Qed.

End MergeIndex.

Section LoadDict.
Import search.

Lemma le_value_le_bytes (size : nat) :
  ∀ v, 0 <= v < 256 ^ Z.of_nat size →
    le_value (le_bytes size v) = v ∧ length (le_bytes size v) = size.
Proof.
  induction size as [| size IH]; intros v Hv.
  - change (256 ^ Z.of_nat 0) with 1 in Hv. cbn. split; [lia | reflexivity].
  - cbn [le_bytes le_value length].
    assert (Hpow : 256 ^ Z.of_nat (S size) = 256 * 256 ^ Z.of_nat size)
      by (rewrite Nat2Z.inj_succ, Z.pow_succ_r by lia; reflexivity).
    destruct (IH (v / 256)) as [-> ->].
    + split; [apply Z.div_pos; lia |]. apply Z.div_lt_upper_bound; lia.
    + pose proof (Z.div_mod v 256 ltac:(lia)). split; [lia | reflexivity].
Qed.

Lemma unpack_le_bytes (size : nat) (v : Z) :
  0 <= v < 256 ^ Z.of_nat size → unpack size (le_bytes size v) = Ok v.
Proof.
  intros Hv. destruct (le_value_le_bytes size v Hv) as [Hval Hlen].
  unfold unpack. now rewrite Hlen, Nat.eqb_refl, Hval.
Qed.

(** Reading exactly the next chunk of a file. *)
Lemma read_chunk (c before chunk rest : bytes) (n p : nat) :
  c = before ++ chunk ++ rest → p = length before → n = length chunk →
  read n (File c p) = (chunk, File c (length (before ++ chunk))).
Proof.
  intros -> -> ->. unfold read. cbn [cursor content].
  rewrite drop_app_length, take_app_length, length_app. reflexivity.
Qed.

(** One turn of the loop of [_load_dict] over a well-formed entry. *)
Lemma read_dict_entry (c before rest : bytes) (e : bytes * Z * Z) (t : str)
    (count : nat) (term_dict : gmap (list Z) (Z * Z)) :
  c = before ++ entry_bytes e ++ rest →
  decode_utf8 (entry_term e) = Ok t →
  (length (entry_term e) ≤ 255)%nat →
  0 <= e.1.2 < 2 ^ 64 → 0 <= e.2 < 2 ^ 32 →
  read_dict_entries (S count) (File c (length before)) term_dict
  = read_dict_entries count (File c (length (before ++ entry_bytes e)))
      (<[t := (e.1.2, e.2)]> term_dict).
Proof.
  destruct e as [[tb off] cnt]. cbn [entry_term fst snd entry_bytes].
  intros Hc Hdec Hlen Hoff Hcnt. cbn [read_dict_entries].
  destruct (le_value_le_bytes 8 off Hoff) as [_ Hlen8].
  destruct (le_value_le_bytes 4 cnt Hcnt) as [_ Hlen4].
  rewrite (read_chunk c before [Z.of_nat (length tb)]
             (tb ++ le_bytes 8 off ++ le_bytes 4 cnt ++ rest) 1 (length before))
    by (rewrite ?Hc, <- ?app_assoc; reflexivity).
  assert (unpack 1 [Z.of_nat (length tb)] = Ok (Z.of_nat (length tb))) as ->.
  { unfold unpack. cbn [length Nat.eqb le_value]. f_equal. lia. }
  cbn [mbind result_bind]. rewrite Nat2Z.id.
  rewrite (read_chunk c (before ++ [Z.of_nat (length tb)]) tb
             (le_bytes 8 off ++ le_bytes 4 cnt ++ rest))
    by (rewrite ?Hc, <- ?app_assoc; reflexivity).
  rewrite Hdec. cbn [mbind result_bind].
  rewrite (read_chunk c ((before ++ [Z.of_nat (length tb)]) ++ tb)
             (le_bytes 8 off) (le_bytes 4 cnt ++ rest))
    by (rewrite ?Hc, <- ?app_assoc, ?Hlen8; reflexivity).
  rewrite unpack_le_bytes by exact Hoff. cbn [mbind result_bind].
  rewrite (read_chunk c (((before ++ [Z.of_nat (length tb)]) ++ tb)
                         ++ le_bytes 8 off)
             (le_bytes 4 cnt) rest)
    by (rewrite ?Hc, <- ?app_assoc, ?Hlen4; reflexivity).
  rewrite unpack_le_bytes by exact Hcnt. cbn [mbind result_bind].
  now rewrite <- !app_assoc.
Qed.

(** The loop of [_load_dict] over the entries of a dictionary file. *)
Lemma read_dict_entries_layout (entries : list (bytes * Z * Z)) :
  ∀ (terms : list str) (c before rest : bytes) (term_dict : gmap (list Z) (Z * Z)),
    c = before ++ concat (entry_bytes <$> entries) ++ rest →
    Forall2 (λ t e, decode_utf8 (entry_term e) = Ok t
                    ∧ (length (entry_term e) ≤ 255)%nat
                    ∧ 0 <= e.1.2 < 2 ^ 64 ∧ 0 <= e.2 < 2 ^ 32) terms entries →
    read_dict_entries (length entries) (File c (length before)) term_dict
    = Ok (foldl (λ m te, <[te.1 := (te.2.1.2, te.2.2)]> m) term_dict
                (zip terms entries)).
Proof.
  induction entries as [| e entries IH];
    intros terms c before rest term_dict Hc Hall.
  - apply Forall2_nil_inv_r in Hall as ->. reflexivity.
  - apply Forall2_cons_inv_r in Hall
      as (t & terms' & (Hdec & Hlen & Hoff & Hcnt) & Hall & ->).
    cbn [length fmap list_fmap concat] in *.
    rewrite (read_dict_entry c before (concat (entry_bytes <$> entries) ++ rest)
               e t) by (rewrite ?Hc, <- ?app_assoc; auto).
    rewrite (IH terms' c (before ++ entry_bytes e) rest)
      by (rewrite ?Hc, <- ?app_assoc; auto).
    reflexivity.
Qed.

(** [_load_dict] reads a dictionary file of the layout back into the map of
    its entries. *)
Lemma load_dict_layout (entries : list (bytes * Z * Z)) (terms : list str) :
  Z.of_nat (length entries) < 2 ^ 32 →
  Forall2 (λ t e, decode_utf8 (entry_term e) = Ok t
                  ∧ (length (entry_term e) ≤ 255)%nat
                  ∧ 0 <= e.1.2 < 2 ^ 64 ∧ 0 <= e.2 < 2 ^ 32) terms entries →
  _load_dict (dict_layout entries)
  = Ok (foldl (λ m te, <[te.1 := (te.2.1.2, te.2.2)]> m) ∅ (zip terms entries)).
Proof.
  intros Hcount Hall. unfold dict_layout.
  change indexer.MAGIC_DICT with MAGIC_DICT.
  rewrite load_dict_header by reflexivity.
  assert (Hrange : 0 <= Z.of_nat (length entries) < 256 ^ Z.of_nat 4)
    by (change (256 ^ Z.of_nat 4) with (2 ^ 32); lia).
  destruct (le_value_le_bytes 4 _ Hrange) as [_ Hlen4].
  rewrite take_app_length' by (now rewrite Hlen4).
  rewrite unpack_le_bytes by exact Hrange. cbn [mbind result_bind].
  rewrite Nat2Z.id, Hlen4.
  rewrite (read_dict_entries_layout entries terms _
             (MAGIC_DICT ++ le_bytes 2 3 ++ le_bytes 4 (Z.of_nat (length entries)))
             []); [reflexivity | | exact Hall].
  now rewrite app_nil_r, <- !app_assoc.
Qed.

Lemma foldl_insert_pairs {V} (l : list (list Z * V)) (f : list Z * V → Z * Z) :
  ∀ (m : gmap (list Z) (Z * Z)) k,
    NoDup l.*1 →
    foldl (λ m te, <[te.1 := f te]> m) m l !! k
    = match list_find (λ te, te.1 = k) l with
      | Some (_, te) => Some (f te)
      | None => m !! k
      end.
Proof.
  induction l as [| [k' v] l IH]; intros m k Hnd; [reflexivity |].
  cbn [fmap list_fmap fst] in Hnd. apply NoDup_cons in Hnd as [Hk' Hnd].
  cbn [foldl fst]. rewrite IH by assumption. cbn [list_find fst].
  destruct (decide (k' = k)) as [-> | Hne].
  - destruct (list_find _ l) as [[i [k2 v2]] |] eqn:Hfind.
    + apply list_find_Some in Hfind as (Hi & Hk2 & _). cbn in Hk2. subst k2.
      destruct Hk'. apply list_elem_of_fmap. exists (k, v2).
      split; [reflexivity |]. eapply list_elem_of_lookup_2; eauto.
    + cbn. now rewrite lookup_insert_eq.
  - destruct (list_find _ l) as [[i te] |]; [reflexivity |].
    cbn. now rewrite lookup_insert_ne.
Qed.

End LoadDict.

(** ** The index round trip *)

Section Observed.
Import indexer.

Lemma at2_insert (index : gmap (list Z) (gmap Z (list Z))) (token term : str)
    (doc_id doc_id' : Z) (positions : list Z) :
  at2 (<[token := <[doc_id := positions]> (default ∅ (index !! token))]> index)
      term doc_id'
  = if bool_decide (token = term ∧ doc_id = doc_id') then Some positions
    else at2 index term doc_id'.
Proof.
  unfold at2. destruct (decide (token = term)) as [-> | Hne].
  - rewrite lookup_insert_eq. cbn [mbind option_bind].
    destruct (decide (doc_id = doc_id')) as [-> | Hne].
    + rewrite lookup_insert_eq. now rewrite bool_decide_eq_true_2.
    + rewrite lookup_insert_ne by assumption.
      rewrite bool_decide_eq_false_2 by tauto.
      destruct (index !! term); [reflexivity | apply lookup_empty].
  - rewrite lookup_insert_ne by assumption.
    now rewrite bool_decide_eq_false_2 by tauto.
Qed.

(** The positions [add_tokens] appends for a document. *)
Lemma add_tokens_at2 (tokens : list str) :
  ∀ (doc_id pos : Z) (index : gmap (list Z) (gmap Z (list Z)))
    (term : str) (doc_id' : Z),
    at2 (add_tokens doc_id pos tokens index) term doc_id'
    = if bool_decide (doc_id = doc_id')
      then match at2 index term doc_id, positions_in term pos tokens with
           | None, [] => None
           | old, new => Some (default [] old ++ new)
           end
      else at2 index term doc_id'.
Proof.
  induction tokens as [| token rest IH]; intros doc_id pos index term doc_id'.
  - cbn [add_tokens positions_in]. destruct (bool_decide _) eqn:Hid;
      [| reflexivity].
    apply bool_decide_eq_true in Hid as <-.
    destruct (at2 index term doc_id); [| reflexivity].
    cbn. now rewrite app_nil_r.
  - cbn [add_tokens positions_in]. rewrite IH.
    destruct (bool_decide (doc_id = doc_id')) eqn:Hid.
    + rewrite at2_insert.
      assert (Hold : default [] (default ∅ (index !! token) !! doc_id)
                     = default [] (at2 index token doc_id)).
      { unfold at2. destruct (index !! token); [reflexivity |].
        cbn. now rewrite lookup_empty. }
      destruct (decide (token = term)) as [-> | Hne].
      * rewrite !bool_decide_eq_true_2 by tauto. rewrite Hold.
        destruct (at2 index term doc_id); cbn [from_option]; unfold id;
          rewrite <- ?app_assoc; reflexivity.
      * rewrite !bool_decide_eq_false_2 by tauto. reflexivity.
    + rewrite at2_insert. rewrite bool_decide_eq_false_2; [reflexivity |].
      apply bool_decide_eq_false in Hid. tauto.
Qed.

Lemma observed_at_snoc (tokenize : str → list str) (docs : list document)
    (doc : document) (term : str) (doc_id : Z) :
  observed_at tokenize (docs ++ [doc]) term doc_id
  = if bool_decide (Z.of_nat (length docs) = doc_id)
    then match positions_in term 0 (tokenize (parsed_text doc)) with
         | [] => None
         | new => Some new
         end
    else observed_at tokenize docs term doc_id.
Proof.
  unfold observed_at. destruct (doc_id <? 0) eqn:Hneg.
  - apply Z.ltb_lt in Hneg. now rewrite bool_decide_eq_false_2 by lia.
  - apply Z.ltb_ge in Hneg.
    destruct (decide (Z.of_nat (length docs) = doc_id)) as [Heq | Hne].
    + rewrite bool_decide_eq_true_2 by assumption.
      rewrite <- Heq, Nat2Z.id, list_lookup_middle by reflexivity.
      destruct (positions_in _ _ _); [reflexivity |].
      now rewrite bool_decide_eq_false_2.
    + rewrite bool_decide_eq_false_2 by assumption.
      destruct (decide (Z.to_nat doc_id < length docs)%nat).
      * now rewrite lookup_app_l.
      * rewrite !(lookup_ge_None_2 _ (Z.to_nat doc_id));
          [reflexivity | lia | rewrite length_app; cbn; lia].
Qed.

Lemma observed_at_fresh (tokenize : str → list str) (docs : list document)
    (term : str) :
  observed_at tokenize docs term (Z.of_nat (length docs)) = None.
Proof.
  unfold observed_at. destruct (_ <? 0); [reflexivity |].
  now rewrite Nat2Z.id, lookup_ge_None_2.
Qed.

Lemma in_stream_save_temp_block (index : gmap (list Z) (gmap Z (list Z)))
    (term : str) (doc_id : Z) (positions : list Z) :
  in_stream (save_temp_block index) term doc_id positions
  ↔ at2 index term doc_id = Some positions.
Proof.
  unfold in_stream, at2, save_temp_block. split.
  - intros (doc_map & Hin & Hdoc).
    apply list_elem_of_fmap in Hin as (t & [= -> ->] & Ht).
    apply elem_of_sorted_str, elem_of_keys in Ht as [d Hd].
    rewrite Hd in *. exact Hdoc.
  - destruct (index !! term) as [d |] eqn:Hd; [| discriminate].
    cbn. intros Hdoc. exists d. split; [| assumption].
    apply list_elem_of_fmap. exists term. rewrite Hd. split; [reflexivity |].
    apply elem_of_sorted_str, elem_of_keys. eauto.
Qed.

Lemma in_blocks_snoc (blocks : list (list (list Z * gmap Z (list Z)))) b
    (term : str) (doc_id : Z) (positions : list Z) :
  in_blocks (blocks ++ [b]) term doc_id positions
  ↔ in_blocks blocks term doc_id positions ∨ in_stream b term doc_id positions.
Proof.
  unfold in_blocks. split.
  - intros (b' & Hb' & Hin). apply elem_of_app in Hb' as [Hb' | Hb'].
    + left. eauto.
    + apply list_elem_of_singleton in Hb' as ->. now right.
  - intros [(b' & Hb' & Hin) | Hin].
    + exists b'. rewrite elem_of_app. auto.
    + exists b. rewrite elem_of_app, list_elem_of_singleton. auto.
Qed.

Variable tokenize : str → list str.
Variable block_size : Z.

Lemma build_step_index (docs : list document) (s : build_state)
    (doc : document) :
  index_ok tokenize docs s →
  index_ok tokenize (docs ++ [doc]) (build_step tokenize block_size s doc).
Proof.
  intros (Hcount & Hinfos & Hheld).
  assert (Hstep : ∀ term doc_id positions,
            (at2 (add_tokens (docs_processed s) 0
                    (tokenize (parsed_text doc)) (local_index s)) term doc_id
             = Some positions
             ∨ in_blocks (temp_dir s) term doc_id positions)
            ↔ observed_at tokenize (docs ++ [doc]) term doc_id = Some positions).
  { intros term doc_id positions.
    rewrite add_tokens_at2, observed_at_snoc, Hcount.
    assert (Hfresh : ∀ t, at2 (local_index s) t (Z.of_nat (length docs)) = None).
    { intros t. destruct (at2 _ t _) as [p |] eqn:Hp; [| reflexivity].
      assert (Hobs : observed_at tokenize docs t (Z.of_nat (length docs))
                     = Some p) by (apply Hheld; auto).
      now rewrite observed_at_fresh in Hobs. }
    destruct (decide (Z.of_nat (length docs) = doc_id)) as [<- | Hne].
    - rewrite !bool_decide_eq_true_2 by reflexivity. rewrite Hfresh.
      cbn [default app]. split; [| auto].
      intros [Hnew | Hblock]; [destruct (positions_in _ _ _); assumption |].
      assert (Hobs : observed_at tokenize docs term (Z.of_nat (length docs))
                     = Some positions) by (apply Hheld; auto).
      now rewrite observed_at_fresh in Hobs.
    - rewrite !bool_decide_eq_false_2 by assumption. apply Hheld. }
  unfold build_step. destruct (_ =? 0); unfold index_ok;
    cbn [docs_processed doc_infos local_index temp_dir];
    rewrite !length_app; cbn [length];
    (split; [lia | split; [lia |]]); intros term doc_id positions;
    rewrite <- Hstep.
  - rewrite in_blocks_snoc, in_stream_save_temp_block. unfold at2 at 1.
    rewrite lookup_empty. cbn. intuition discriminate.
  - reflexivity.
Qed.

Lemma foldl_build_step_index (cursor : list document) :
  ∀ docs s, index_ok tokenize docs s →
    index_ok tokenize (docs ++ cursor)
      (foldl (build_step tokenize block_size) s cursor).
Proof.
  induction cursor as [| doc cursor IH]; intros docs s Hok.
  - now rewrite app_nil_r.
  - cbn [foldl]. rewrite (cons_middle doc docs cursor), app_assoc.
    apply IH. now apply build_step_index.
Qed.

(** After [build_blocks] the blocks hold, for every term and document, the
    positions observed at tokenization; one document record was kept per
    document. *)
Lemma build_blocks_index (cursor : list document) :
  let s := build_blocks tokenize block_size cursor in
  length (doc_infos s) = length cursor
  ∧ ∀ term doc_id positions,
      in_blocks (temp_dir s) term doc_id positions
      ↔ observed_at tokenize cursor term doc_id = Some positions.
Proof.
  unfold build_blocks.
  assert (Hinit : index_ok tokenize [] (BuildState [] ∅ 0 O [])).
  { split; [reflexivity | split; [reflexivity |]]. intros term doc_id positions.
    unfold observed_at. cbn. destruct (doc_id <? 0); split; try discriminate.
    - intros [[=] | (b & Hb & _)]. now apply elem_of_nil in Hb.
    - intros [[=] | (b & Hb & _)]. now apply elem_of_nil in Hb. }
  pose proof (foldl_build_step_index cursor [] _ Hinit) as (_ & Hinfos & Hheld).
  rewrite app_nil_l in Hinfos, Hheld.
  set (s := foldl _ _ cursor) in *.
  destruct (bool_decide (local_index s = ∅)) eqn:Hempty;
    cbn [doc_infos temp_dir]; (split; [assumption |]);
    intros term doc_id positions; rewrite <- Hheld.
  - apply bool_decide_eq_true in Hempty. rewrite Hempty. unfold at2 at 1.
    rewrite lookup_empty. cbn. intuition discriminate.
  - rewrite in_blocks_snoc, in_stream_save_temp_block. tauto.
Qed.

End Observed.

Section Runs.

(** Every posting of a run of the merged stream comes from the stream. *)
Lemma groups_sound (rest : list (list Z * gmap Z (list Z))) :
  ∀ term docs g doc_id positions,
    g ∈ groups term docs rest → g.2 !! doc_id = Some positions →
    in_stream ((term, docs) :: rest) g.1 doc_id positions.
Proof.
  induction rest as [| [t d] rest IH]; intros term docs g doc_id positions.
  - cbn [groups]. intros ->%list_elem_of_singleton Hdoc.
    exists docs. split; [left | assumption].
  - cbn [groups]. destruct (bool_decide _) eqn:Hsame.
    + apply bool_decide_eq_true in Hsame. injection Hsame as <-.
      intros Hg Hdoc. destruct (IH _ _ _ _ _ Hg Hdoc) as (m & Hm & Hpos).
      apply elem_of_cons in Hm as [[= Hterm ->] | Hm].
      * apply lookup_union_Some_raw in Hpos as [Hpos | [_ Hpos]].
        -- exists d. rewrite Hterm. split; [right; left | assumption].
        -- exists docs. rewrite Hterm. split; [left | assumption].
      * exists m. split; [right; right |]; assumption.
    + intros Hg Hdoc. apply elem_of_cons in Hg as [-> | Hg].
      * exists docs. split; [left | assumption].
      * destruct (IH _ _ _ _ _ Hg Hdoc) as (m & Hm & Hpos).
        exists m. split; [right |]; assumption.
Qed.

(** Every posting of the stream is in a run of its term. *)
Lemma groups_complete (rest : list (list Z * gmap Z (list Z))) :
  ∀ term docs t doc_id positions,
    in_stream ((term, docs) :: rest) t doc_id positions →
    ∃ g, g ∈ groups term docs rest ∧ g.1 = t ∧ is_Some (g.2 !! doc_id).
Proof.
  induction rest as [| [t' d'] rest IH]; intros term docs t doc_id positions.
  - intros (m & Hm & Hpos). apply list_elem_of_singleton in Hm as [= -> ->].
    exists (term, docs). cbn [groups]. split; [left | eauto].
  - intros (m & Hm & Hpos). cbn [groups]. destruct (bool_decide _) eqn:Hsame.
    + apply bool_decide_eq_true in Hsame. injection Hsame as <-.
      apply elem_of_cons in Hm as [[= -> ->] | Hm].
      * destruct (d' !! doc_id) as [p' |] eqn:Hd'.
        -- apply (IH term (d' ∪ docs) term doc_id p').
           exists (d' ∪ docs). split; [left |].
           now rewrite lookup_union, Hd', Hpos.
        -- apply (IH term (d' ∪ docs) term doc_id positions).
           exists (d' ∪ docs). split; [left |].
           now rewrite lookup_union, Hd', Hpos.
      * apply elem_of_cons in Hm as [[= -> ->] | Hm].
        -- apply (IH term (d' ∪ docs) term doc_id positions).
           exists (d' ∪ docs). split; [left |].
           rewrite lookup_union, Hpos. now destruct (docs !! doc_id).
        -- apply (IH term (d' ∪ docs) t doc_id positions).
           exists m. split; [right |]; assumption.
    + apply elem_of_cons in Hm as [[= -> ->] | Hm].
      * exists (term, docs). split; [left | eauto].
      * destruct (IH t' d' t doc_id positions) as (g & Hg & Hterm & Hsome).
        { exists m. split; assumption. }
        exists g. split; [right |]; auto.
Qed.

Lemma all_groups_sound (stream : list (list Z * gmap Z (list Z))) g doc_id
    positions :
  g ∈ all_groups stream → g.2 !! doc_id = Some positions →
  in_stream stream g.1 doc_id positions.
Proof.
  destruct stream as [| [t d] rest]; [intros []%elem_of_nil |].
  apply groups_sound.
Qed.

Lemma all_groups_complete (stream : list (list Z * gmap Z (list Z))) t doc_id
    positions :
  in_stream stream t doc_id positions →
  ∃ g, g ∈ all_groups stream ∧ g.1 = t ∧ is_Some (g.2 !! doc_id).
Proof.
  destruct stream as [| [t' d] rest]; [| apply groups_complete].
  intros (m & []%elem_of_nil & _).
Qed.

End Runs.

Section Positions.
Import indexer.

Lemma positions_in_bounds (term : str) (tokens : list str) :
  ∀ pos, Forall (λ p, pos <= p < pos + Z.of_nat (length tokens))
                (positions_in term pos tokens).
Proof.
  induction tokens as [| token rest IH]; intros pos; [constructor |].
  cbn [positions_in length]. specialize (IH (pos + 1)).
  assert (Hrest : Forall (λ p, pos <= p < pos + Z.of_nat (S (length rest)))
                         (positions_in term (pos + 1) rest))
    by (eapply Forall_impl; [exact IH |]; cbn beta; intros; lia).
  destruct (bool_decide _); [constructor; [lia |] |]; exact Hrest.
Qed.

Lemma positions_in_ascending (term : str) (tokens : list str) :
  ∀ pos, StronglySorted Z.lt (positions_in term pos tokens).
Proof.
  induction tokens as [| token rest IH]; intros pos; [constructor |].
  cbn [positions_in]. destruct (bool_decide _); [| apply IH].
  constructor; [apply IH |].
  eapply Forall_impl; [apply positions_in_bounds |]. cbn beta. intros; lia.
Qed.

Lemma positions_in_ascending_le (term : str) (tokens : list str) (pos : Z) :
  StronglySorted Z.le (positions_in term pos tokens).
Proof.
  pose proof (positions_in_ascending term tokens pos) as Hlt.
  induction Hlt as [| x l Hl IH Hhd]; constructor; [assumption |].
  eapply Forall_impl; [exact Hhd |]. cbn beta. intros; lia.
Qed.

Lemma positions_in_length (term : str) (tokens : list str) :
  ∀ pos, (length (positions_in term pos tokens) ≤ length tokens)%nat.
Proof.
  induction tokens as [| token rest IH]; intros pos; [reflexivity |].
  cbn [positions_in length]. specialize (IH (pos + 1)).
  destruct (bool_decide _); cbn [length]; lia.
Qed.

Lemma positions_in_nonempty (term : str) (tokens : list str) :
  ∀ pos, positions_in term pos tokens ≠ [] ↔ term ∈ tokens.
Proof.
  induction tokens as [| token rest IH]; intros pos.
  - cbn. rewrite elem_of_nil. tauto.
  - cbn [positions_in]. rewrite elem_of_cons.
    destruct (bool_decide _) eqn:Hsame.
    + apply bool_decide_eq_true in Hsame. split; [auto | discriminate].
    + apply bool_decide_eq_false in Hsame. rewrite IH.
      split; [auto | intros [-> | ?]; [contradiction | assumption]].
Qed.

(** What an observation says: the document is in the cursor, and the
    positions are those of the term among its tokens. *)
Lemma observed_at_Some (tokenize : str → list str) (cursor : list document)
    (term : str) (doc_id : Z) (positions : list Z) :
  observed_at tokenize cursor term doc_id = Some positions →
  ∃ doc, cursor !! Z.to_nat doc_id = Some doc
    ∧ 0 <= doc_id < Z.of_nat (length cursor)
    ∧ positions = positions_in term 0 (tokenize (parsed_text doc))
    ∧ term ∈ tokenize (parsed_text doc).
Proof.
  unfold observed_at. destruct (Z.ltb_spec doc_id 0); [discriminate |].
  destruct (cursor !! Z.to_nat doc_id) as [doc |] eqn:Hdoc; [| discriminate].
  destruct (bool_decide _) eqn:Hnil; [discriminate |]. intros [= <-].
  apply bool_decide_eq_false in Hnil. exists doc.
  apply lookup_lt_Some in Hdoc as Hlt.
  split; [reflexivity |]. split; [lia |]. split; [reflexivity |].
  now apply positions_in_nonempty in Hnil.
Qed.

Lemma write_docs_index_count (infos : list (str * str)) (docs : bytes) :
  write_docs_index infos = Ok docs → Z.of_nat (length infos) < 2 ^ 32.
Proof.
  unfold write_docs_index.
  destruct (write_doc_records _ _ _) as [[data offsets] |]; [| discriminate].
  cbn [mbind result_bind]. change (pack 2 VERSION) with (Ok [3; 0]).
  cbn [mbind result_bind].
  destruct (pack 4 _) as [b |] eqn:Hb; [| discriminate]. intros _.
  apply pack_Ok in Hb as [_ Hrange].
  change (256 ^ Z.of_nat 4) with (2 ^ 32) in Hrange. lia.
Qed.

Lemma Forall2_impl_elem {A B} (P Q : A → B → Prop) (l : list A) (k : list B) :
  (∀ x y, x ∈ l → P x y → Q x y) → Forall2 P l k → Forall2 Q l k.
Proof.
  intros Himpl Hall. revert Himpl.
  induction Hall as [| x y l k Hxy Hall IH]; intros Himpl; constructor.
  - apply Himpl; [left | assumption].
  - apply IH. intros x' y' Hx'. apply Himpl. now right.
Qed.

Lemma NoDup_fst_eq {A B} (l : list (A * B)) (x y : A * B) :
  NoDup l.*1 → x ∈ l → y ∈ l → x.1 = y.1 → x = y.
Proof.
  intros Hnd [i Hi]%list_elem_of_lookup [j Hj]%list_elem_of_lookup Heq.
  assert (i = j) as ->; [| congruence].
  apply (NoDup_lookup _ _ _ x.1 Hnd); rewrite list_lookup_fmap.
  - now rewrite Hi.
  - rewrite Hj. cbn. now rewrite Heq.
Qed.

End Positions.

Section BuiltIndex.
Import indexer search.

Variable tokenize : str → list str.
Variable block_size : Z.
Variable collection : list document.
Variable limit : Z.

(** The terms the tokenizer emits take at most 255 bytes in UTF-8. *)
Hypothesis short_terms :
  ∀ term encoded, emitted tokenize (find collection limit) term →
    encode_utf8 term = Ok encoded → (length encoded ≤ 255)%nat.

(** The dictionary a reader loads from the files of a build: an entry for
    every run of the merged stream, found under the term of the run; the
    runs hold the positions observed at tokenization. *)
Lemma built_dictionary (files : index_files) (self : CompressedIndexReader) :
  build_index_sized tokenize block_size collection limit = Ok files →
  open_reader files = Ok self →
  ∃ stream,
    (∀ t doc_id positions,
       in_stream stream t doc_id positions
       ↔ observed_at tokenize (find collection limit) t doc_id = Some positions)
    ∧ NoDup (all_groups stream).*1
    ∧ (∀ t, t ∈ (all_groups stream).*1
            ↔ emitted tokenize (find collection limit) t)
    ∧ Z.of_nat (length (find collection limit)) < 2 ^ 32
    ∧ ∀ term,
        match term_dict self !! term with
        | Some (offset, doc_count) =>
            ∃ g e, g ∈ all_groups stream ∧ g.1 = term
                   ∧ written_entry (post_file self) g e
                   ∧ offset = e.1.2 ∧ doc_count = e.2
        | None => term ∉ (all_groups stream).*1
        end.
Proof.
  unfold build_index_sized. intros Hbuild Hopen.
  destruct (write_docs_index _) as [docs |] eqn:Hdocs; [| discriminate].
  cbn [mbind result_bind] in Hbuild.
  destruct (merge_blocks _ _) as [[dict post] |] eqn:Hmerge; [| discriminate].
  cbn [mbind result_bind mret result_ret] in Hbuild.
  injection Hbuild as <-. unfold open_reader in Hopen.
  cbn [index_docs index_dict index_postings] in Hopen.
  destruct (_load_docs docs) as [infos |]; [| discriminate].
  cbn [mbind result_bind] in Hopen.
  destruct (_load_dict dict) as [td |] eqn:Hdict; [| discriminate].
  cbn [mbind result_bind mret result_ret] in Hopen.
  injection Hopen as <-. cbn [term_dict search.post_file].
  destruct (build_blocks_ok tokenize block_size (find collection limit))
    as (Hsorted & Hid & Hterms).
  destruct (build_blocks_index tokenize block_size (find collection limit))
    as (Hinfos & Hheld).
  set (s := build_blocks tokenize block_size (find collection limit)) in *.
  destruct (merge_blocks_index _ _ _ _ Hmerge) as (entries & -> & Hcount & Hall).
  rewrite Hid, firstn_all in Hall.
  set (stream := heapq_merge fst (temp_dir s)) in *.
  assert (Hstream : StronglySorted (by_key fst) stream).
  { apply heapq_merge_sorted. eapply Forall_impl; [exact Hsorted |].
    intros b Hb. cbn beta in Hb.
    induction b as [| x b IHb]; [constructor |].
    cbn [fmap list_fmap] in Hb.
    apply StronglySorted_inv in Hb as [Hb Hhd]. constructor; [auto |].
    rewrite Forall_fmap in Hhd. eapply Forall_impl; [exact Hhd |].
    intros y Hy. now apply str_lt_le. }
  assert (Hnd : NoDup (all_groups stream).*1).
  { apply all_groups_sorted in Hstream. revert Hstream.
    generalize ((all_groups stream).*1). intros l Hl.
    induction Hl as [| x l Hl IH Hhd]; constructor; [| assumption].
    intros Hx. apply (proj1 (Forall_forall _ _) Hhd) in Hx.
    now apply str_lt_ne in Hx. }
  assert (Hin : ∀ x, x ∈ stream ↔ ∃ b, b ∈ temp_dir s ∧ x ∈ b).
  { intros x. unfold stream. rewrite heapq_merge_Permutation, elem_of_concat.
    split; intros (b & ? & ?); eauto. }
  assert (Hemitted : ∀ t, t ∈ (all_groups stream).*1
                          ↔ emitted tokenize (find collection limit) t).
  { intros t. rewrite all_groups_terms, <- Hterms, list_elem_of_fmap. split.
    - intros (x & -> & Hx). apply Hin in Hx as (b & Hb & Hx).
      exists b. split; [assumption |]. apply list_elem_of_fmap. eauto.
    - intros (b & Hb & Hx). apply list_elem_of_fmap in Hx as (x & -> & Hx).
      exists x. split; [reflexivity |]. apply Hin. eauto. }
  exists stream. split; [| split; [exact Hnd | split; [exact Hemitted | split]]].
  - intros t doc_id positions. rewrite <- Hheld. unfold in_stream, in_blocks.
    split.
    + intros (m & Hm & Hpos). apply Hin in Hm as (b & Hb & Hm).
      exists b. split; [assumption |]. exists m. auto.
    + intros (b & Hb & m & Hm & Hpos). exists m. split; [| assumption].
      apply Hin. eauto.
  - rewrite <- Hinfos. eapply write_docs_index_count, Hdocs.
  - assert (Hread : Forall2
                      (λ t e, decode_utf8 (entry_term e) = Ok t
                              ∧ (length (entry_term e) ≤ 255)%nat
                              ∧ 0 <= e.1.2 < 2 ^ 64 ∧ 0 <= e.2 < 2 ^ 32)
                      (all_groups stream).*1 entries).
    { apply Forall2_fmap_l.
      eapply Forall2_impl_elem; [| exact Hall]. cbn beta.
      intros g e Hg ((encoded & Henc & Hcut) & Hlen & Hoff & Hcnt & _).
      split; [| auto]. rewrite Hcut.
      assert (Hshort : (length encoded ≤ 255)%nat).
      { apply (short_terms g.1); [| assumption]. apply Hemitted.
        apply list_elem_of_fmap. eauto. }
      unfold slice_to. rewrite take_ge by lia.
      now apply decode_encode_utf8. }
    rewrite (load_dict_layout entries _ Hcount Hread) in Hdict.
    injection Hdict as <-. intros term.
    pose proof (Forall2_length _ _ _ Hall) as Hlength.
    rewrite (foldl_insert_pairs _ (λ te, (te.2.1.2, te.2.2)))
      by (rewrite fst_zip; [assumption | rewrite length_fmap; lia]).
    rewrite lookup_empty.
    destruct (list_find _ _) as [[i [t e]] |] eqn:Hfind.
    + apply list_find_Some in Hfind as (Hi & Ht & _). cbn [fst] in Ht. subst t.
      apply lookup_zip_with_Some in Hi as (t & e' & [= <- <-] & Hterm & He).
      rewrite list_lookup_fmap in Hterm.
      destruct (all_groups stream !! i) as [g |] eqn:Hg; [| discriminate].
      injection Hterm as Hterm. exists g, e.
      split; [eapply list_elem_of_lookup_2; eassumption |].
      split; [assumption |].
      split; [exact (Forall2_lookup_lr _ _ _ _ _ _ Hall Hg He) |]. auto.
    + intros Hterm. apply list_elem_of_lookup in Hterm as [i Hi].
      destruct (lookup_lt_is_Some_2 entries i) as [e He].
      { rewrite <- Hlength. apply lookup_lt_Some in Hi.
        now rewrite length_fmap in Hi. }
      apply list_find_None in Hfind.
      assert (Hpair : (term, e) ∈ zip (all_groups stream).*1 entries).
      { apply list_elem_of_lookup. exists i. apply lookup_zip_with_Some.
        exists term, e. auto. }
      apply (proj1 (Forall_forall _ _) Hfind) in Hpair. now apply Hpair.
Qed.

End BuiltIndex.

Section RoundTrip.
Import indexer search.

(** C1, as the code has it. The round trip holds for a build over terms of
    at most 255 bytes in UTF-8 and documents of fewer than [2 ^ 42] tokens.
    For the files of such a build, opened by a reader: [get_postings]
    returns, for every term, the map that sends each document to the
    ascending positions at which the tokenizer emitted the term in it, and
    nothing else; the terms of the dictionary are the terms emitted, each
    with the number of its documents. The result is the same for the 1 MiB
    buffer and for every buffer of at least eleven bytes, wherever the chunk
    boundaries fall. *)
Theorem index_roundtrip (tokenize : str → list str) (block_size : Z)
    (collection : list document) (limit : Z) (files : index_files)
    (self : CompressedIndexReader) :
  0 < block_size →
  build_index_sized tokenize block_size collection limit = Ok files →
  open_reader files = Ok self →
  (∀ term encoded, emitted tokenize (find collection limit) term →
     encode_utf8 term = Ok encoded → (length encoded ≤ 255)%nat) →
  (∀ doc, doc ∈ find collection limit →
     Z.of_nat (length (tokenize (parsed_text doc))) < 2 ^ 42) →
  ∀ term, ∃ postings,
    get_postings self term = Ok postings
    ∧ (∀ chunk, (11 ≤ chunk)%nat →
         get_postings_sized chunk self term = Ok postings)
    ∧ (∀ doc_id, postings !! doc_id
                 = observed_at tokenize (find collection limit) term doc_id)
    ∧ (∀ doc_id positions, postings !! doc_id = Some positions →
         StronglySorted Z.lt positions)
    ∧ (is_Some (term_dict self !! term)
       ↔ emitted tokenize (find collection limit) term)
    ∧ (∀ offset doc_count, term_dict self !! term = Some (offset, doc_count) →
         doc_count = Z.of_nat (size postings)).
Proof.
  intros _ Hbuild Hopen Hshort Htokens term.
  destruct (built_dictionary tokenize block_size collection limit Hshort
              files self Hbuild Hopen)
    as (stream & Hstream & Hnd & Hemitted & Hcount & Hdict).
  specialize (Hdict term).
  assert (Hsorted : ∀ postings : gmap Z (list Z),
            (∀ doc_id, postings !! doc_id
                       = observed_at tokenize (find collection limit) term doc_id) →
            ∀ doc_id positions, postings !! doc_id = Some positions →
              StronglySorted Z.lt positions).
  { intros postings Hobs doc_id positions Hpos. rewrite Hobs in Hpos.
    apply observed_at_Some in Hpos as (doc & _ & _ & -> & _).
    apply positions_in_ascending. }
  destruct (term_dict self !! term) as [[offset doc_count] |] eqn:Hterm.
  - destruct Hdict as (g & e & Hg & Hg1 & Hentry & -> & ->).
    destruct Hentry
      as (_ & _ & _ & _ & Hsize & before & later & Hfile & Hoffset).
    assert (Hsound : ∀ doc_id positions, g.2 !! doc_id = Some positions →
              observed_at tokenize (find collection limit) term doc_id
              = Some positions).
    { intros doc_id positions Hpos. apply Hstream. rewrite <- Hg1.
      eapply all_groups_sound; eassumption. }
    assert (Hbounded : bounded g.2).
    { intros doc_id positions Hpos. apply Hsound in Hpos.
      apply observed_at_Some in Hpos as (doc & Hdoc & Hid & -> & _).
      pose proof (Htokens doc (list_elem_of_lookup_2 _ _ _ Hdoc)) as Hlen.
      split; [lia |]. split.
      - pose proof (positions_in_length term (tokenize (parsed_text doc)) 0).
        lia.
      - eapply Forall_impl; [apply positions_in_bounds |].
        cbn beta. intros; lia. }
    assert (Hany : ∀ chunk, (11 ≤ chunk)%nat →
              get_postings_sized chunk self term = Ok (sorted_int <$> g.2)).
    { intros chunk Hchunk.
      exact (get_postings_sized_block chunk self term e.1.2 e.2 g.2 before
               later Hchunk Hbounded Hterm Hoffset Hfile). }
    assert (Hobs : ∀ doc_id, (sorted_int <$> g.2) !! doc_id
                = observed_at tokenize (find collection limit) term doc_id).
    { intros doc_id. rewrite lookup_fmap.
      destruct (g.2 !! doc_id) as [positions |] eqn:Hpos.
      - cbn. rewrite (Hsound _ _ Hpos). f_equal. apply sorted_int_id.
        apply Hsound in Hpos.
        apply observed_at_Some in Hpos as (doc & _ & _ & -> & _).
        apply positions_in_ascending_le.
      - cbn. destruct (observed_at _ _ _ _) as [positions |] eqn:Hseen;
          [| reflexivity].
        apply Hstream in Hseen.
        apply all_groups_complete in Hseen as (g' & Hg' & Hg'1 & Hsome).
        assert (g' = g) by (apply (NoDup_fst_eq _ _ _ Hnd); congruence).
        subst g'. rewrite Hpos in Hsome. now destruct Hsome. }
    exists (sorted_int <$> g.2).
    split; [apply Hany; unfold buffer_size; lia |]. split; [exact Hany |].
    split; [exact Hobs |]. split; [exact (Hsorted _ Hobs) |]. split.
    + split; [intros _ | eauto]. apply Hemitted. rewrite <- Hg1.
      apply list_elem_of_fmap. eauto.
    + intros o c [= <- <-]. now rewrite map_size_fmap.
  - assert (Hany : ∀ chunk, get_postings_sized chunk self term = Ok ∅)
      by (intros chunk; unfold get_postings_sized; now rewrite Hterm).
    assert (Hobs : ∀ doc_id, (∅ : gmap Z (list Z)) !! doc_id
                = observed_at tokenize (find collection limit) term doc_id).
    { intros doc_id. rewrite lookup_empty.
      destruct (observed_at _ _ _ _) as [positions |] eqn:Hseen;
        [| reflexivity].
      apply Hstream in Hseen.
      apply all_groups_complete in Hseen as (g & Hg & Hg1 & _).
      destruct Hdict. rewrite <- Hg1. apply list_elem_of_fmap. eauto. }
    exists ∅. split; [apply Hany |]. split; [intros; apply Hany |].
    split; [exact Hobs |]. split; [exact (Hsorted _ Hobs) |]. split.
    + split; [intros [? [=]] |]. intros Hem. now apply Hemitted in Hem.
    + intros ? ? [=].
Qed.

End RoundTrip.

Lemma index_roundtrip_witness :
  ∃ files self postings,
    indexer.build_index_sized Scenario.tokenize 2 Scenario.corpus 0 = Ok files
    ∧ search.open_reader files = Ok self
    ∧ search.get_postings self (py "fox") = Ok postings
    ∧ (∀ chunk, (11 ≤ chunk)%nat →
         search.get_postings_sized chunk self (py "fox") = Ok postings)
    ∧ ∀ doc_id, postings !! doc_id
                = observed_at Scenario.tokenize Scenario.corpus (py "fox") doc_id.
Proof.
  assert (Hbuild : ∃ files,
            indexer.build_index_sized Scenario.tokenize 2 Scenario.corpus 0
            = Ok files ∧ ∃ self, search.open_reader files = Ok self).
  { eexists. split; [vm_compute; reflexivity |].
    eexists. vm_compute. reflexivity. }
  destruct Hbuild as (files & Hbuild & self & Hopen).
  destruct (index_roundtrip Scenario.tokenize 2 Scenario.corpus 0 files self)
    with (term := py "fox") as (postings & Hget & Hany & Hobs & _).
  - lia.
  - exact Hbuild.
  - exact Hopen.
  - intros t e (doc & Hdoc & Ht) He.
    assert (Hcheck :
      Forall (λ doc, Forall (λ t, match encode_utf8 t with
                                  | Ok e => (length e <=? 255)%nat
                                  | Raise _ => true
                                  end = true)
                       (Scenario.tokenize (indexer.parsed_text doc)))
             Scenario.corpus)
      by (refine (bool_decide_unpack _ _); vm_compute; exact I).
    pose proof (proj1 (Forall_forall _ _) Hcheck doc Hdoc) as Hdoc_ok.
    pose proof (proj1 (Forall_forall _ _) Hdoc_ok t Ht) as Ht_ok.
    cbn beta in Ht_ok. rewrite He in Ht_ok. now apply Nat.leb_le in Ht_ok.
  - intros doc Hdoc.
    assert (Hcheck :
      Forall (λ doc, Z.of_nat (length (Scenario.tokenize
                                         (indexer.parsed_text doc))) < 2 ^ 42)
             Scenario.corpus)
      by (refine (bool_decide_unpack _ _); vm_compute; exact I).
    exact (proj1 (Forall_forall _ _) Hcheck doc Hdoc).
  - exists files, self, postings. auto.
Defined.

(** The claim fails for a build with terms longer than 255 bytes. Of two
    terms of 256 bytes that agree on their first 255, the dictionary keeps
    the 255 bytes twice. The term [long_term "b"] was emitted by the
    tokenizer, at position 0 of document 0, and the reader finds nothing
    under it. The term cut short is present in the dictionary of the reader,
    the tokenizer never emitted it, and under it the reader returns the
    postings of the term written last. *)
Lemma long_terms_are_not_found :
  observed_at Scenario.tokenize long_corpus (long_term "b") 0 = Some [0]
  ∧ (self ← long_index; search.get_postings self (long_term "b")) = Ok ∅
  ∧ observed_at Scenario.tokenize long_corpus (replicate 255 97) 0 = None
  ∧ (self ← long_index; mret (search.term_dict self !! replicate 255 97))
    = Ok (Some (10, 1))
  ∧ (self ← long_index; search.get_postings self (replicate 255 97))
    = Ok {[0 := [1]]}.
Proof.
  split; [vm_compute; reflexivity |]. split; [vm_compute; reflexivity |].
  split; [vm_compute; reflexivity |]. split; vm_compute; reflexivity.
Qed.

Import Sem.

(** * Further properties of the code *)

(** ** compression.py: the shape of a varbyte block *)

Section VarbyteShape.
Import compression.

Lemma continuation_byte_range (n : Z) :
  128 <= Z.lor (Z.land n 0x7F) 0x80 < 256.
Proof.
  assert (Hlow : 0 <= Z.land n 0x7F < 128).
  { change 0x7F with (Z.ones 7). rewrite Z.land_ones by lia.
    apply Z.mod_pos_bound. lia. }
  destruct (final_byte (Z.land n 0x7F) Hlow) as [_ Hhigh].
  pose proof (Z.add_lor_land (Z.land n 0x7F) 0x80) as Hadd.
  rewrite Hhigh in Hadd. lia.
Qed.

Lemma encode_loop_shape (fuel : nat) :
  ∀ (n : Z) (out bs : bytes),
    0 <= n → encode_loop fuel n out = Some bs →
    ∃ init final, bs = out ++ init ++ [final]
      ∧ Forall (λ b, 128 <= b < 256) init ∧ 0 <= final < 128.
Proof.
  induction fuel as [| fuel IH]; intros n out bs Hn; [discriminate |].
  cbn [encode_loop]. destruct (Z.leb_spec 128 n) as [Hbig | Hsmall].
  - intros Henc. apply IH in Henc as (init & final & -> & Hinit & Hfinal).
    + exists (Z.lor (Z.land n 0x7F) 0x80 :: init), final.
      split; [now rewrite <- app_assoc |]. split; [| assumption].
      constructor; [apply continuation_byte_range | assumption].
    + apply Z.shiftr_nonneg. lia.
  - intros [= <-]. exists [], n. split; [reflexivity |].
    split; [constructor | lia].
Qed.

(** X1. A varbyte block is never empty: it is a run of continuation bytes,
    each in [128, 256), closed by one final byte below 128. *)
Theorem varbyte_shape (n : Z) (bs : bytes) :
  encode_varbyte n = Ok bs →
  ∃ init final, bs = init ++ [final]
    ∧ Forall (λ b, 128 <= b < 256) init ∧ 0 <= final < 128.
Proof.
  unfold encode_varbyte. destruct (Z.ltb_spec n 0); [discriminate |].
  destruct (Z.eqb_spec n 0) as [-> | Hne].
  - intros [= <-]. exists [], 0. split; [reflexivity |].
    split; [constructor | lia].
  - destruct (encode_loop _ _ _) as [out |] eqn:Henc; [| discriminate].
    intros [= <-]. apply encode_loop_shape in Henc; [| lia].
    destruct Henc as (init & final & -> & ? & ?). eauto.
Qed.

(** X2. A block is decoded wherever it stands in a buffer: at the offset of
    the block of [n], [decode_varbyte_stream] returns [n] and the offset
    just after the block, whatever precedes and follows. *)
Theorem varbyte_in_stream (n : Z) (bs before after : bytes) :
  encode_varbyte n = Ok bs →
  decode_varbyte_stream (before ++ bs ++ after) (length before)
  = Ok (n, (length before + length bs)%nat).
Proof.
  intros Henc. pose proof (encode_varbyte_Ok _ _ Henc) as [_ Hn].
  destruct (encode_varbyte_decode n Hn) as (bs' & Henc' & _ & Hdec).
  assert (bs' = bs) as -> by congruence.
  unfold decode_varbyte_stream. rewrite drop_app_length, Hdec by lia.
  now rewrite Z.shiftl_0_r, Z.lor_0_l.
Qed.

(** X3. The code is uniquely decodable: when a buffer starts with the block
    of [a] and also with the block of [b], then [a = b], and the rest of
    the buffer is the same. *)
Theorem varbyte_prefix_free (a b : Z) (ba bb ra rb : bytes) :
  encode_varbyte a = Ok ba → encode_varbyte b = Ok bb →
  ba ++ ra = bb ++ rb →
  a = b ∧ ba = bb ∧ ra = rb.
Proof.
  intros Ha Hb Heq.
  pose proof (varbyte_in_stream a ba [] ra Ha) as Hda.
  pose proof (varbyte_in_stream b bb [] rb Hb) as Hdb.
  cbn [app length] in Hda, Hdb. rewrite Heq, Hdb in Hda.
  injection Hda as Hab _. subst b.
  assert (ba = bb) as -> by congruence.
  split; [reflexivity |]. split; [reflexivity |].
  now apply app_inv_head in Heq.
Qed.



End VarbyteShape.

Lemma varbyte_shape_witness :
  ∃ init final, [0xAC; 0x02] = init ++ [final]
    ∧ Forall (λ b, 128 <= b < 256) init ∧ 0 <= final < 128.
Proof. apply (varbyte_shape 300). reflexivity. Defined.

Lemma varbyte_in_stream_witness :
  compression.decode_varbyte_stream ([7; 7] ++ [0xAC; 0x02] ++ [9]) 2
  = Ok (300, 4%nat).
Proof. apply (varbyte_in_stream 300 [0xAC; 0x02] [7; 7] [9]). reflexivity. Defined.

Lemma varbyte_prefix_free_witness :
  300 = 300 ∧ [0xAC; 0x02] = [0xAC; 0x02] ∧ [5] = [5].
Proof.
  apply (varbyte_prefix_free 300 300 [0xAC; 0x02] [0xAC; 0x02] [5] [5]);
    reflexivity.
Defined.


(** ** compression.py: delta coding *)

Section Delta.
Import compression.

Lemma encode_decode_delta_from (deltas : list Z) :
  ∀ c, encode_delta_from c (decode_delta_from c deltas) = deltas.
Proof.
  induction deltas as [| d deltas IH]; intros c; [reflexivity |].
  cbn. rewrite IH. f_equal. lia.
Qed.

(** X5. Delta coding is a bijection on lists of integers: each of
    [encode_delta] and [decode_delta] undoes the other, for every list,
    sorted or not, and the length is kept. *)
Theorem delta_roundtrip (numbers : list Z) :
  decode_delta (encode_delta numbers) = numbers
  ∧ encode_delta (decode_delta numbers) = numbers
  ∧ length (encode_delta numbers) = length numbers
  ∧ length (decode_delta numbers) = length numbers.
Proof.
  destruct numbers as [| x rest]; [repeat split; reflexivity |].
  cbn [encode_delta decode_delta].
  rewrite decode_encode_delta_from, encode_decode_delta_from.
  split; [reflexivity |]. split; [reflexivity |].
  split; [exact (length_encode_delta (x :: rest)) |].
  cbn [length]. f_equal. clear. revert x.
  induction rest as [| d rest IH]; intros x; [reflexivity |].
  cbn. now rewrite IH.
Qed.

Lemma encode_delta_from_nonneg (numbers : list Z) :
  ∀ prev, Forall (λ d, 0 <= d) (encode_delta_from prev numbers)
          ↔ Sorted Z.le (prev :: numbers).
Proof.
  induction numbers as [| x rest IH]; intros prev.
  - cbn. split; [repeat constructor | constructor].
  - cbn [encode_delta_from]. rewrite Forall_cons, IH. split.
    + intros [Hd Hrest]. constructor; [assumption |]. constructor. lia.
    + intros Hsorted. apply Sorted_inv in Hsorted as [Hrest Hhd].
      apply HdRel_inv in Hhd. split; [lia | assumption].
Qed.

(** X6. The deltas of a list are all non-negative, so that every one of them
    can be written as a varbyte, exactly when the list is in ascending order
    and starts at a non-negative number. *)
Theorem delta_nonnegative (numbers : list Z) :
  Forall (λ d, 0 <= d) (encode_delta numbers)
  ↔ Sorted Z.le numbers ∧ Forall (λ x, 0 <= x) numbers.
Proof.
  destruct numbers as [| x rest]; [cbn; split; repeat constructor |].
  cbn [encode_delta]. rewrite Forall_cons, encode_delta_from_nonneg. split.
  - intros [Hx Hsorted]. split; [assumption |].
    constructor; [assumption |].
    apply Sorted_StronglySorted in Hsorted; [| intros a b c; lia].
    apply StronglySorted_inv in Hsorted as [_ Hhd].
    eapply Forall_impl; [exact Hhd |]. cbn beta. intros; lia.
  - intros [Hsorted Hall]. apply Forall_cons in Hall as [Hx _]. auto.
Qed.

End Delta.

Lemma delta_nonnegative_witness :
  Forall (λ d, 0 <= d) (compression.encode_delta [1; 3; 3])
  ↔ Sorted Z.le [1; 3; 3] ∧ Forall (λ x, 0 <= x) [1; 3; 3].
Proof. apply (delta_nonnegative [1; 3; 3]). Defined.

(** ** search.py: what [accepted] accepts *)

Section Sequence.
Import search.
Variable self : SearchEngine.

Lemma existsb_elem_of {A} (f : A → bool) (l : list A) :
  existsb f l = true ↔ ∃ x, x ∈ l ∧ f x = true.
Proof.
  rewrite existsb_exists. split; intros (x & Hx & Hf); exists x;
    (split; [| assumption]); now apply list_elem_of_In.
Qed.

(** The search from the second term on, in exact mode: the candidates are
    forced, one position after the other. *)
Lemma find_path_exact (max_dist first : Z) (rest : list (list Z)) :
  ∀ (idx : nat) (prev : Z),
    (0 < idx)%nat → prev = first + Z.of_nat idx - 1 →
    Z.of_nat idx + Z.of_nat (length rest) <= max_dist + 1 →
    path_from rest idx prev first max_dist true = true
    ↔ ∀ (j : nat) candidates, rest !! j = Some candidates →
        first + Z.of_nat idx + Z.of_nat j ∈ candidates.
Proof.
  induction rest as [| c rest IH]; intros idx prev Hidx Hprev Hlen.
  - cbn. split; [intros _ j ? [=] | reflexivity].
  - cbn [path_from length] in *. rewrite existsb_elem_of.
    destruct idx as [| idx']; [lia |]. cbn [Nat.eqb]. split.
    + intros (pos & Hpos & Hok).
      apply andb_true_iff in Hok as [Hok Hrest].
      apply andb_true_iff in Hok as [Hok _].
      apply andb_true_iff in Hok as [_ Hnext].
      cbn [andb] in Hnext. apply negb_true_iff, negb_false_iff in Hnext.
      apply Z.eqb_eq in Hnext.
      pose proof (proj1 (IH (S (S idx')) pos ltac:(lia) ltac:(lia) ltac:(lia))
                    Hrest) as Hall.
      clear Hrest. rename Hall into Hrest.
      intros [| j] candidates Hj.
      * injection Hj as <-. now replace (first + Z.of_nat (S idx') + Z.of_nat 0)
          with pos by lia.
      * specialize (Hrest j candidates Hj).
        now replace (first + Z.of_nat (S idx') + Z.of_nat (S j))
          with (first + Z.of_nat (S (S idx')) + Z.of_nat j) by lia.
    + intros Hall. exists (prev + 1). split.
      * specialize (Hall O c eq_refl).
        now replace (prev + 1) with (first + Z.of_nat (S idx') + Z.of_nat 0) by lia.
      * rewrite (proj2 (Z.ltb_lt _ _)) by lia. rewrite Z.eqb_refl. cbn [andb negb].
        rewrite (proj2 (Z.ltb_ge _ _)) by lia. cbn [andb negb].
        apply (proj2 (IH (S (S idx')) (prev + 1) ltac:(lia) ltac:(lia)
                        ltac:(lia))).
        intros j candidates Hj. specialize (Hall (S j) candidates Hj).
        now replace (first + Z.of_nat (S (S idx')) + Z.of_nat j)
          with (first + Z.of_nat (S idx') + Z.of_nat (S j)) by lia.
Qed.

(** The same search when the mode is not exact: any ascending choice of
    positions that stays within the distance. *)
Lemma find_path_loose (max_dist first : Z) (rest : list (list Z)) :
  ∀ (idx : nat) (prev : Z),
    (0 < idx)%nat →
    path_from rest idx prev first max_dist false = true
    ↔ ∃ ps, Forall2 (λ p candidates, p ∈ candidates) ps rest
            ∧ Sorted Z.lt (prev :: ps)
            ∧ Forall (λ p, p - first <= max_dist) ps.
Proof.
  induction rest as [| c rest IH]; intros idx prev Hidx.
  - cbn. split; [| reflexivity]. intros _. exists [].
    repeat constructor.
  - cbn [path_from]. rewrite existsb_elem_of.
    destruct idx as [| idx']; [lia |]. cbn [Nat.eqb andb negb]. split.
    + intros (pos & Hpos & Hok).
      apply andb_true_iff in Hok as [Hok Hrest].
      apply andb_true_iff in Hok as [Hlt Hdist].
      rewrite andb_true_r in Hlt. apply Z.ltb_lt in Hlt. apply negb_true_iff, Z.ltb_ge in Hdist.
      destruct (proj1 (IH (S (S idx')) pos ltac:(lia)) Hrest)
        as (ps & Hps & Hsorted & Hwithin).
      exists (pos :: ps). split; [now constructor |].
      split; [constructor; [assumption | now constructor] |].
      now constructor.
    + intros (ps & Hps & Hsorted & Hwithin).
      apply Forall2_cons_inv_r in Hps as (pos & ps' & Hpos & Hps & ->).
      apply Sorted_inv in Hsorted as [Hsorted Hhd]. apply HdRel_inv in Hhd.
      apply Forall_cons in Hwithin as [Hdist Hwithin].
      exists pos. split; [assumption |].
      rewrite (proj2 (Z.ltb_lt _ _)) by lia.
      rewrite (proj2 (Z.ltb_ge _ _)) by lia. cbn [andb negb].
      apply (proj2 (IH (S (S idx')) pos ltac:(lia))). eauto.
Qed.

(** The exact mode of [accepted]. *)
Lemma check_sequence_exact (positions_list : list (list Z)) :
  accepted positions_list (Z.of_nat (length positions_list)) = true
  ↔ ∃ p, ∀ (i : nat) candidates, positions_list !! i = Some candidates →
           p + Z.of_nat i ∈ candidates.
Proof.
  unfold accepted. rewrite Z.eqb_refl.
  destruct positions_list as [| c rest].
  - cbn. split; [| reflexivity]. intros _. exists 0. intros i ? [=].
  - cbn [path_from Nat.eqb length]. rewrite existsb_elem_of. split.
    + intros (pos & Hpos & Hrest).
      pose proof (proj1 (find_path_exact (Z.of_nat (S (length rest))) pos rest 1 pos ltac:(lia)
                           ltac:(lia) ltac:(lia)) Hrest) as Hall.
      clear Hrest. rename Hall into Hrest.
      exists pos. intros [| i] candidates Hi.
      * injection Hi as <-. now rewrite Z.add_0_r.
      * specialize (Hrest i candidates Hi).
        now replace (pos + Z.of_nat (S i)) with (pos + Z.of_nat 1 + Z.of_nat i) by lia.
    + intros (p & Hall). exists p. split.
      * specialize (Hall O c eq_refl). now rewrite Z.add_0_r in Hall.
      * apply (proj2 (find_path_exact (Z.of_nat (S (length rest))) p rest 1 p ltac:(lia) ltac:(lia)
                        ltac:(lia))).
        intros j candidates Hj. specialize (Hall (S j) candidates Hj).
        now replace (p + Z.of_nat 1 + Z.of_nat j) with (p + Z.of_nat (S j)) by lia.
Qed.

(** The other mode of [accepted]. *)
Lemma check_sequence_loose (positions_list : list (list Z))
    (max_dist : Z) :
  max_dist ≠ Z.of_nat (length positions_list) →
  accepted positions_list max_dist = true
  ↔ ∃ ps, Forall2 (λ p candidates, p ∈ candidates) ps positions_list
          ∧ Sorted Z.lt ps ∧ within max_dist ps.
Proof.
  intros Hdist. unfold accepted.
  rewrite (proj2 (Z.eqb_neq _ _) Hdist).
  destruct positions_list as [| c rest].
  - cbn. split; [| reflexivity]. intros _. exists []. repeat constructor.
  - cbn [path_from Nat.eqb]. rewrite existsb_elem_of. split.
    + intros (pos & Hpos & Hrest).
      destruct (proj1 (find_path_loose _ pos rest 1 pos ltac:(lia)) Hrest)
        as (ps & Hps & Hsorted & Hwithin).
      exists (pos :: ps). split; [now constructor |]. auto.
    + intros (ps & Hps & Hsorted & Hwithin).
      apply Forall2_cons_inv_r in Hps as (pos & ps' & Hpos & Hps & ->).
      exists pos. split; [assumption |].
      apply (proj2 (find_path_loose _ pos rest 1 pos ltac:(lia))). eauto.
Qed.

(** The loop over the candidates when no test raises. *)
Lemma first_found_Ok (test : Z → result bool) (f : Z → bool)
    (candidates : list Z) :
  (∀ pos, test pos = Ok (f pos)) →
  first_found test candidates = Ok (existsb f candidates).
Proof.
  intros Htest. induction candidates as [| pos later IH]; [reflexivity |].
  cbn [first_found existsb]. rewrite Htest. cbn [mbind result_bind].
  destruct (f pos); [reflexivity | exact IH].
Qed.

Lemma first_found_raises (test : Z → result bool) (candidates : list Z)
    (e : exn) :
  (∀ pos e', test pos = Raise e' → e' = RecursionError) →
  first_found test candidates = Raise e → e = RecursionError.
Proof.
  intros Htest. induction candidates as [| pos later IH]; [discriminate |].
  cbn [first_found]. destruct (test pos) as [[|] |] eqn:Hpos;
    cbn [mbind result_bind]; [discriminate | exact IH |].
  intros [= <-]. eauto.
Qed.

(** With more calls allowed than there are lists left, [_find_path] raises
    nothing and makes the search. *)
Lemma find_path_enough (rest : list (list Z)) :
  ∀ (depth idx : nat) (prev first max_dist : Z) (is_exact : bool),
    (length rest < depth)%nat →
    _find_path depth rest idx prev first max_dist is_exact
    = Ok (path_from rest idx prev first max_dist is_exact).
Proof.
  induction rest as [| c rest IH];
    intros depth idx prev first max_dist is_exact Hdepth;
    (destruct depth as [| depth]; [cbn in Hdepth; lia |]); [reflexivity |].
  cbn [_find_path path_from]. cbn [length] in Hdepth.
  apply first_found_Ok. intros pos.
  destruct (idx =? 0)%nat; [apply IH; lia |].
  destruct ((prev <? pos) && negb (is_exact && negb (pos =? prev + 1))
            && negb (max_dist <? pos - first)); [| reflexivity].
  cbn [andb]. apply IH. lia.
Qed.

(** [_find_path] raises nothing but [RecursionError]. *)
Lemma find_path_raises (depth : nat) :
  ∀ (rest : list (list Z)) (idx : nat) (prev first max_dist : Z)
    (is_exact : bool) (e : exn),
    _find_path depth rest idx prev first max_dist is_exact = Raise e →
    e = RecursionError.
Proof.
  induction depth as [| depth IH];
    intros rest idx prev first max_dist is_exact e; cbn [_find_path].
  - now intros [= <-].
  - destruct rest as [| c rest]; [discriminate |].
    apply first_found_raises. intros pos e'.
    destruct (idx =? 0)%nat; [apply IH |].
    destruct ((prev <? pos) && negb (is_exact && negb (pos =? prev + 1))
              && negb (max_dist <? pos - first)); [apply IH | discriminate].
Qed.

Lemma check_sequence_enough (positions_list : list (list Z)) (max_dist : Z) :
  (length positions_list < depth_left self)%nat →
  _check_sequence self positions_list max_dist
  = Ok (accepted positions_list max_dist).
Proof. intros Hdepth. now apply find_path_enough. Qed.

Lemma check_sequence_raises (positions_list : list (list Z)) (max_dist : Z)
    (e : exn) :
  _check_sequence self positions_list max_dist = Raise e →
  e = RecursionError ∧ (depth_left self ≤ length positions_list)%nat.
Proof.
  intros Hraise. split; [now apply find_path_raises in Hraise |].
  destruct (Nat.le_gt_cases (depth_left self) (length positions_list))
    as [Hle | Hlt]; [exact Hle |].
  rewrite check_sequence_enough in Hraise by exact Hlt. discriminate.
Qed.

(** X7. A phrase: with [max_dist] the number of terms, and with fewer terms
    than the interpreter allows nested calls, [_check_sequence] returns, and
    accepts exactly when the terms stand side by side, the term [i] at the
    position [p + i] for one [p]. It raises nothing but [RecursionError],
    and that only when the terms are at least as many as the calls
    allowed. *)
Theorem check_sequence_phrase (positions_list : list (list Z)) :
  ((length positions_list < depth_left self)%nat →
     ∃ found,
       _check_sequence self positions_list
         (Z.of_nat (length positions_list)) = Ok found
       ∧ (found = true
          ↔ ∃ p, ∀ (i : nat) candidates,
                   positions_list !! i = Some candidates →
                   p + Z.of_nat i ∈ candidates))
  ∧ ∀ e, _check_sequence self positions_list
           (Z.of_nat (length positions_list)) = Raise e →
         e = RecursionError
         ∧ (depth_left self ≤ length positions_list)%nat.
Proof.
  split; [| intros e; apply check_sequence_raises].
  intros Hdepth. exists (accepted positions_list (Z.of_nat (length positions_list))).
  split; [now apply check_sequence_enough | apply check_sequence_exact].
Qed.

(** X8. A proximity: with [max_dist] different from the number of terms,
    and with fewer terms than the interpreter allows nested calls,
    [_check_sequence] returns, and accepts exactly when one position can be
    chosen for every term, in strictly ascending order, every one at most
    [max_dist] after the first. It raises nothing but [RecursionError], and
    that only when the terms are at least as many as the calls allowed. *)
Theorem check_sequence_proximity (positions_list : list (list Z))
    (max_dist : Z) :
  max_dist ≠ Z.of_nat (length positions_list) →
  ((length positions_list < depth_left self)%nat →
     ∃ found,
       _check_sequence self positions_list max_dist = Ok found
       ∧ (found = true
          ↔ ∃ ps, Forall2 (λ p candidates, p ∈ candidates) ps positions_list
                  ∧ Sorted Z.lt ps ∧ within max_dist ps))
  ∧ ∀ e, _check_sequence self positions_list max_dist = Raise e →
         e = RecursionError
         ∧ (depth_left self ≤ length positions_list)%nat.
Proof.
  intros Hdist. split; [| intros e; apply check_sequence_raises].
  intros Hdepth. exists (accepted positions_list max_dist).
  split; [now apply check_sequence_enough | now apply check_sequence_loose].
Qed.

End Sequence.

Lemma check_sequence_phrase_witness :
  ∃ found,
    search._check_sequence Scenario.engine0 [[0; 4]; [5]] 2 = Ok found
    ∧ (found = true
       ↔ ∃ p, ∀ (i : nat) candidates, [[0; 4]; [5]] !! i = Some candidates →
                p + Z.of_nat i ∈ candidates).
Proof.
  apply (proj1 (check_sequence_phrase Scenario.engine0 [[0; 4]; [5]])).
  apply Nat.ltb_lt. vm_compute. reflexivity.
Defined.

Lemma check_sequence_proximity_witness :
  ∃ found,
    search._check_sequence Scenario.engine0 [[0; 9]; [3]] 3 = Ok found
    ∧ (found = true
       ↔ ∃ ps, Forall2 (λ p candidates, p ∈ candidates) ps [[0; 9]; [3]]
               ∧ Sorted Z.lt ps ∧ within 3 ps).
Proof.
  apply (proj1 (check_sequence_proximity Scenario.engine0 [[0; 9]; [3]] 3
                  ltac:(simpl; lia))).
  apply Nat.ltb_lt. vm_compute. reflexivity.
Defined.

(** The distance that equals the number of terms asks for a phrase: the
    positions 0 and 2 are accepted at the distance 3 and refused at the
    distance 2. A third term is one more than an interpreter that allows
    three nested calls can take. *)
Example proximity_of_two_terms :
  search._check_sequence Scenario.engine0 [[0]; [2]] 3 = Ok true
  ∧ search._check_sequence Scenario.engine0 [[0]; [2]] 2 = Ok false
  ∧ search._check_sequence
      (search.new_engine Scenario.empty_reader Scenario.tokenize 3)
      [[0]; [1]; [2]] 3 = Raise RecursionError.
Proof. repeat split; vm_compute; reflexivity. Qed.

(** ** search.py: what [_sequence_search] returns *)

Section SequenceSearch.
Import search.
Variable self : SearchEngine.

Lemma fetch_postings_spec (terms : list str) :
  ∀ (term_postings fetched : list (gmap Z (list Z))),
    Forall2 (λ t p, get_postings (reader self) t = Ok p) terms fetched →
    fetch_postings self terms term_postings
    = Ok (if bool_decide (Forall (λ p, p ≠ ∅) fetched)
          then Some (term_postings ++ fetched) else None).
Proof.
  induction terms as [| t terms IH]; intros term_postings fetched Hall.
  - apply Forall2_nil_inv_l in Hall as ->. cbn [fetch_postings].
    rewrite bool_decide_eq_true_2 by constructor. now rewrite app_nil_r.
  - apply Forall2_cons_inv_l in Hall as (p & fetched' & Hp & Hall & ->).
    cbn [fetch_postings]. rewrite Hp. cbn [mbind result_bind].
    destruct (decide (p = ∅)) as [-> | Hne].
    + rewrite bool_decide_eq_true_2 by reflexivity.
      rewrite bool_decide_eq_false_2; [reflexivity |].
      intros Hnone. now apply Forall_cons in Hnone as [? _].
    + rewrite bool_decide_eq_false_2 by assumption.
      rewrite (IH _ _ Hall), <- app_assoc. cbn [app].
      destruct (decide (Forall (λ p, p ≠ ∅) fetched')) as [Hrest | Hrest].
      * now rewrite !bool_decide_eq_true_2 by (try constructor; assumption).
      * rewrite !bool_decide_eq_false_2; [reflexivity | | assumption].
        intros Hnone. now apply Forall_cons in Hnone as [_ ?].
Qed.

Lemma elem_of_common_docs (term_postings : list (gmap Z (list Z))) :
  ∀ (docs : gset Z) (x : Z),
    x ∈ foldl (λ docs p, docs ∩ dom p) docs term_postings
    ↔ x ∈ docs ∧ Forall (λ p : gmap Z (list Z), is_Some (p !! x)) term_postings.
Proof.
  induction term_postings as [| p rest IH]; intros docs x; cbn [foldl].
  - split; [intros ?; split; [assumption | constructor] | now intros [? _]].
  - rewrite IH, elem_of_intersection, elem_of_dom, Forall_cons. tauto.
Qed.

Lemma positions_of_spec (doc_id : Z) (term_postings : list (gmap Z (list Z))) :
  Forall (λ p : gmap Z (list Z), is_Some (p !! doc_id)) term_postings →
  ∃ positions_list,
    positions_of doc_id term_postings = Ok positions_list
    ∧ Forall2 (λ (p : gmap Z (list Z)) ps, p !! doc_id = Some ps)
              term_postings positions_list.
Proof.
  induction 1 as [| p rest [ps Hps] _ (pl & Hpl & Hall)].
  - exists []. split; [reflexivity | constructor].
  - exists (ps :: pl). cbn [positions_of]. rewrite Hps, Hpl.
    split; [reflexivity | now constructor].
Qed.

Lemma positions_unique (doc_id : Z) (term_postings : list (gmap Z (list Z))) :
  ∀ pl pl',
    Forall2 (λ (p : gmap Z (list Z)) ps, p !! doc_id = Some ps)
            term_postings pl →
    Forall2 (λ (p : gmap Z (list Z)) ps, p !! doc_id = Some ps)
            term_postings pl' →
    pl = pl'.
Proof.
  induction term_postings as [| p rest IH]; intros pl pl' H1 H2.
  - apply Forall2_nil_inv_l in H1 as ->. now apply Forall2_nil_inv_l in H2 as ->.
  - apply Forall2_cons_inv_l in H1 as (ps & pl1 & Hps & H1 & ->).
    apply Forall2_cons_inv_l in H2 as (ps' & pl2 & Hps' & H2 & ->).
    f_equal; [congruence | now apply IH].
Qed.

Lemma positions_of_length (doc_id : Z)
    (term_postings : list (gmap Z (list Z))) (pl : list (list Z)) :
  Forall2 (λ (p : gmap Z (list Z)) ps, p !! doc_id = Some ps)
          term_postings pl →
  length pl = length term_postings.
Proof. intros Hpl. symmetry. exact (Forall2_length _ _ _ Hpl). Qed.

(** The loop over the documents when the depth suffices for the terms. *)
Lemma check_docs_spec (term_postings : list (gmap Z (list Z))) (max_dist : Z)
    (docs : list Z) :
  (length term_postings < depth_left self)%nat →
  ∀ result_docs : gset Z,
    Forall (λ d, Forall (λ p : gmap Z (list Z), is_Some (p !! d)) term_postings)
           docs →
    ∃ r, check_docs self docs term_postings max_dist result_docs = Ok r
         ∧ ∀ x, x ∈ r
                ↔ x ∈ result_docs
                  ∨ (x ∈ docs
                     ∧ ∃ pl, Forall2 (λ (p : gmap Z (list Z)) ps,
                                        p !! x = Some ps) term_postings pl
                             ∧ accepted pl max_dist = true).
Proof.
  intros Hdepth.
  induction docs as [| d docs IH]; intros result_docs Hall.
  - exists result_docs. split; [reflexivity |]. intros x.
    rewrite elem_of_nil. tauto.
  - apply Forall_cons in Hall as [Hd Hall]. cbn [check_docs].
    destruct (positions_of_spec d term_postings Hd) as (pl & -> & Hpl).
    cbn [mbind result_bind].
    rewrite check_sequence_enough
      by (rewrite (positions_of_length _ _ _ Hpl); exact Hdepth).
    cbn [mbind result_bind].
    destruct (IH (if accepted pl max_dist
                  then {[d]} ∪ result_docs else result_docs) Hall)
      as (r & -> & Hr).
    exists r. split; [reflexivity |]. intros x. rewrite Hr, elem_of_cons.
    destruct (accepted pl max_dist) eqn:Hcheck.
    + rewrite elem_of_union, elem_of_singleton. split.
      * intros [[-> | ?] | [? ?]]; eauto 7.
      * intros [? | [[-> | ?] ?]]; auto.
    + split; [intros [? | [? ?]]; auto |].
      intros [? | [[-> | ?] Hx]]; auto.
      destruct Hx as (pl' & Hpl' & Hyes).
      rewrite (positions_unique _ _ _ _ Hpl' Hpl) in Hyes. congruence.
Qed.

(** The loop over the documents at any depth: it returns documents of the
    list, or raises [RecursionError]. *)
Lemma check_docs_total (term_postings : list (gmap Z (list Z)))
    (max_dist : Z) (docs : list Z) :
  ∀ result_docs : gset Z,
    Forall (λ d, Forall (λ p : gmap Z (list Z), is_Some (p !! d)) term_postings)
           docs →
    (∃ r, check_docs self docs term_postings max_dist result_docs = Ok r
          ∧ ∀ x, x ∈ r → x ∈ result_docs ∨ x ∈ docs)
    ∨ check_docs self docs term_postings max_dist result_docs
      = Raise RecursionError.
Proof.
  induction docs as [| d docs IH]; intros result_docs Hall.
  - left. exists result_docs. split; [reflexivity | auto].
  - apply Forall_cons in Hall as [Hd Hall]. cbn [check_docs].
    destruct (positions_of_spec d term_postings Hd) as (pl & -> & Hpl).
    cbn [mbind result_bind].
    destruct (_check_sequence self pl max_dist) as [found | e] eqn:Hcheck.
    + cbn [mbind result_bind].
      destruct (IH (if found then {[d]} ∪ result_docs else result_docs) Hall)
        as [(r & -> & Hr) | ->]; [left | now right].
      exists r. split; [reflexivity |]. intros x Hx.
      rewrite elem_of_cons. destruct (Hr x Hx) as [Hin | Hin]; [| auto].
      destruct found; [| auto].
      apply elem_of_union in Hin as [->%elem_of_singleton | Hin]; auto.
    + right. apply check_sequence_raises in Hcheck as [-> _]. reflexivity.
Qed.

Lemma common_docs_fetched (p : gmap Z (list Z))
    (rest : list (gmap Z (list Z))) :
  Forall (λ d, Forall (λ q : gmap Z (list Z), is_Some (q !! d)) (p :: rest))
         (elements (foldl (λ docs q, docs ∩ dom q) (dom p) rest)).
Proof.
  apply Forall_forall. intros d Hd.
  apply elem_of_elements, elem_of_common_docs in Hd as [Hd Hrest].
  constructor; [now apply elem_of_dom | assumption].
Qed.

(** The documents [_sequence_search] returns when the depth suffices. *)
Lemma sequence_search_docs (terms : list str)
    (fetched : list (gmap Z (list Z))) (max_dist : Z) :
  (length terms < depth_left self)%nat →
  Forall2 (λ t p, get_postings (reader self) t = Ok p) terms fetched →
  ∃ r, _sequence_search self terms max_dist = Ok r
       ∧ ∀ doc_id, doc_id ∈ r
           ↔ terms ≠ []
             ∧ ∃ pl, Forall2 (λ (p : gmap Z (list Z)) ps,
                                p !! doc_id = Some ps) fetched pl
                     ∧ accepted pl max_dist = true.
Proof.
  intros Hdepth Hall. unfold _sequence_search.
  pose proof (Forall2_length _ _ _ Hall) as Hlength.
  destruct terms as [| t terms].
  - exists ∅. rewrite bool_decide_eq_true_2 by reflexivity.
    split; [reflexivity |]. intros doc_id. rewrite elem_of_empty. tauto.
  - rewrite bool_decide_eq_false_2 by discriminate.
    rewrite (fetch_postings_spec _ [] fetched Hall). cbn [mbind result_bind app].
    destruct (decide (Forall (λ p, p ≠ ∅) fetched)) as [Hfull | Hsome].
    + rewrite bool_decide_eq_true_2 by assumption.
      apply Forall2_cons_inv_l in Hall as (p & rest & _ & _ & ->).
      cbn [head from_option drop].
      destruct (check_docs_spec (p :: rest) max_dist
                  (elements (foldl (λ docs q, docs ∩ dom q) (dom p) rest))
                  ltac:(rewrite <- Hlength; exact Hdepth) ∅
                  (common_docs_fetched p rest))
        as (r & Hcheck & Hr).
      exists r. split; [exact Hcheck |]. intros doc_id.
      rewrite Hr, elem_of_empty, elem_of_elements, elem_of_common_docs.
      split.
      * intros [[] | [_ Hpl]]. split; [discriminate | assumption].
      * intros [_ (pl & Hpl & Hyes)]. right. split; [| eauto].
        apply Forall2_cons_inv_l in Hpl as Hsplit.
        destruct Hsplit as (ps & pl' & Hps & Hpl' & _).
        split; [apply elem_of_dom; eauto |].
        apply Forall_forall. intros q Hq.
        apply list_elem_of_lookup in Hq as [i Hi].
        destruct (Forall2_lookup_l _ _ _ _ _ Hpl' Hi) as (qs & _ & Hqs). eauto.
    + rewrite bool_decide_eq_false_2 by assumption.
      exists ∅. split; [reflexivity |]. intros doc_id. rewrite elem_of_empty.
      split; [tauto |]. intros [_ (pl & Hpl & _)]. apply Hsome.
      apply Forall_forall. intros q Hq.
      apply list_elem_of_lookup in Hq as [i Hi].
      destruct (Forall2_lookup_l _ _ _ _ _ Hpl Hi) as (qs & _ & Hqs).
      intros ->. now rewrite lookup_empty in Hqs.
Qed.

(** At any depth, [_sequence_search] returns documents that hold all the
    terms, or raises [RecursionError]. *)
Lemma sequence_search_total (terms : list str)
    (fetched : list (gmap Z (list Z))) (max_dist : Z) :
  Forall2 (λ t p, get_postings (reader self) t = Ok p) terms fetched →
  (∃ r, _sequence_search self terms max_dist = Ok r
        ∧ ∀ doc_id, doc_id ∈ r →
            terms ≠ []
            ∧ Forall (λ p : gmap Z (list Z), is_Some (p !! doc_id)) fetched)
  ∨ _sequence_search self terms max_dist = Raise RecursionError.
Proof.
  intros Hall. unfold _sequence_search.
  destruct terms as [| t terms].
  - left. exists ∅. rewrite bool_decide_eq_true_2 by reflexivity.
    split; [reflexivity |]. intros doc_id. now rewrite elem_of_empty.
  - rewrite bool_decide_eq_false_2 by discriminate.
    rewrite (fetch_postings_spec _ [] fetched Hall). cbn [mbind result_bind app].
    destruct (decide (Forall (λ p, p ≠ ∅) fetched)) as [Hfull | Hsome].
    + rewrite bool_decide_eq_true_2 by assumption.
      apply Forall2_cons_inv_l in Hall as (p & rest & _ & _ & ->).
      cbn [head from_option drop].
      destruct (check_docs_total (p :: rest) max_dist
                  (elements (foldl (λ docs q, docs ∩ dom q) (dom p) rest)) ∅
                  (common_docs_fetched p rest))
        as [(r & Hcheck & Hr) | Hraise]; [left | now right].
      exists r. split; [exact Hcheck |]. intros doc_id Hdoc.
      split; [discriminate |].
      destruct (Hr doc_id Hdoc) as [Hin | Hin]; [now apply elem_of_empty in Hin |].
      apply elem_of_elements, elem_of_common_docs in Hin as [Hd Hrest].
      constructor; [now apply elem_of_dom | assumption].
    + rewrite bool_decide_eq_false_2 by assumption.
      left. exists ∅. split; [reflexivity |]. intros doc_id.
      now rewrite elem_of_empty.
Qed.

(** X9. When the postings of all the terms can be read and the terms are
    fewer than the interpreter allows nested calls, [_sequence_search]
    raises nothing and returns exactly the documents that hold every term
    and whose position lists, taken in the order of the terms, are accepted
    by [_check_sequence]; for no terms at all it returns no document. *)
Theorem sequence_search_spec (terms : list str)
    (fetched : list (gmap Z (list Z))) (max_dist : Z) :
  (length terms < depth_left self)%nat →
  Forall2 (λ t p, get_postings (reader self) t = Ok p) terms fetched →
  ∃ r, _sequence_search self terms max_dist = Ok r
       ∧ ∀ doc_id, doc_id ∈ r
           ↔ terms ≠ []
             ∧ ∃ pl, Forall2 (λ (p : gmap Z (list Z)) ps,
                                p !! doc_id = Some ps) fetched pl
                     ∧ _check_sequence self pl max_dist = Ok true.
Proof.
  intros Hdepth Hall.
  destruct (sequence_search_docs terms fetched max_dist Hdepth Hall)
    as (r & Hr & Hdocs).
  exists r. split; [exact Hr |]. intros doc_id. rewrite Hdocs.
  pose proof (Forall2_length _ _ _ Hall) as Hlength.
  split; intros [Hne (pl & Hpl & Hyes)]; (split; [exact Hne |]); exists pl;
    (split; [exact Hpl |]);
    rewrite (check_sequence_enough self pl max_dist) in *
      by (rewrite <- (Forall2_length _ _ _ Hpl), <- Hlength; exact Hdepth);
    congruence.
Qed.

End SequenceSearch.

Lemma sequence_search_spec_witness :
  ∃ r, search._sequence_search Scenario.engine0 [py "quick"; py "fox"] 2 = Ok r
       ∧ ∀ doc_id, doc_id ∈ r
           ↔ [py "quick"; py "fox"] ≠ []
             ∧ ∃ pl, Forall2 (λ (p : gmap Z (list Z)) ps,
                                p !! doc_id = Some ps)
                             [ {[0 := [1]; 2 := [0; 2]]};
                               {[0 := [3]; 2 := [1; 3]]} ] pl
                     ∧ search._check_sequence Scenario.engine0 pl 2 = Ok true.
Proof.
  apply (sequence_search_spec Scenario.engine0).
  - apply Nat.ltb_lt. vm_compute. reflexivity.
  - repeat constructor; vm_compute; reflexivity.
Defined.

(** ** indexer.py and search.py: the documents file *)

Section DocsFile.
Import indexer search.

Lemma length_le_bytes (size : nat) : ∀ v, length (le_bytes size v) = size.
Proof. induction size as [| size IH]; intros v; cbn; [| rewrite IH]; reflexivity. Qed.

Lemma record_offsets_shift (records : list (bytes * bytes)) :
  ∀ base start,
    Z.add base <$> record_offsets start records
    = record_offsets (base + start) records.
Proof.
  induction records as [| r rest IH]; intros base start; [reflexivity |].
  cbn [record_offsets fmap list_fmap]. rewrite IH. do 2 f_equal. lia.
Qed.

Lemma length_record_offsets (records : list (bytes * bytes)) :
  ∀ start, length (record_offsets start records) = length records.
Proof.
  induction records as [| r rest IH]; intros start; cbn; [| rewrite IH];
    reflexivity.
Qed.

(** What one string of a record is: the encoding of the string of the
    document, which is read back as that string. *)
Lemma encoded_field (s : str) (encoded : bytes) (len : bytes) :
  utf8_within 65535 s → encode_utf8 s = Ok encoded →
  pack 2 (Z.of_nat (length (slice_to 65535 encoded))) = Ok len →
  slice_to 65535 encoded = encoded
  ∧ len = le_bytes 2 (Z.of_nat (length encoded))
  ∧ decode_utf8 encoded = Ok s
  ∧ 0 <= Z.of_nat (length encoded) < 256 ^ Z.of_nat 2.
Proof.
  unfold utf8_within. intros Hfit Henc Hpack. rewrite Henc in Hfit.
  assert (Hcut : slice_to 65535 encoded = encoded)
    by (unfold slice_to; apply take_ge; lia).
  rewrite Hcut in *. apply pack_Ok in Hpack as [-> Hrange].
  auto using decode_encode_utf8.
Qed.

(** The first loop of [write_docs_index]: one record per document is
    appended to the buffer, and its offset in the buffer is noted. *)
Lemma write_doc_records_spec (infos : list (str * str)) :
  ∀ (data : bytes) (offsets : list Z) data' offsets',
    Forall (λ it, utf8_within 65535 it.1 ∧ utf8_within 65535 it.2) infos →
    write_doc_records infos data offsets = Ok (data', offsets') →
    ∃ records,
      data' = data ++ concat (doc_record <$> records)
      ∧ offsets' = offsets ++ record_offsets (Z.of_nat (length data)) records
      ∧ Forall2 (λ it r, decode_utf8 r.1 = Ok it.1 ∧ decode_utf8 r.2 = Ok it.2
                         ∧ 0 <= Z.of_nat (length r.1) < 256 ^ Z.of_nat 2
                         ∧ 0 <= Z.of_nat (length r.2) < 256 ^ Z.of_nat 2)
                infos records.
Proof.
  induction infos as [| [url title] infos IH];
    intros data offsets data' offsets' Hfit Hwrite.
  - injection Hwrite as <- <-. exists []. cbn.
    rewrite !app_nil_r. repeat split. constructor.
  - apply Forall_cons in Hfit as [[Hurl Htitle] Hfit]. cbn [fst snd] in *.
    cbn [write_doc_records] in Hwrite.
    destruct (encode_utf8 url) as [eu |] eqn:Heu; [| discriminate].
    cbn [mbind result_bind] in Hwrite.
    destruct (pack 2 _) as [lu |] eqn:Hlu; [| discriminate].
    cbn [mbind result_bind] in Hwrite.
    destruct (encoded_field url eu lu Hurl Heu Hlu)
      as (Hcutu & -> & Hdecu & Hrangeu).
    rewrite Hcutu in Hwrite.
    assert (Htitle_bytes :
      ∃ et, (if bool_decide (title = []) then Ok []
             else encoded ← encode_utf8 title; mret (slice_to 65535 encoded))
            = Ok et
            ∧ (∀ lt, pack 2 (Z.of_nat (length et)) = Ok lt →
                 lt = le_bytes 2 (Z.of_nat (length et))
                 ∧ decode_utf8 et = Ok title
                 ∧ 0 <= Z.of_nat (length et) < 256 ^ Z.of_nat 2)).
    { destruct (decide (title = [])) as [-> | Hne].
      - rewrite bool_decide_eq_true_2 by reflexivity. exists [].
        split; [reflexivity |]. intros lt [-> ?]%pack_Ok. auto.
      - rewrite bool_decide_eq_false_2 in * by assumption.
        destruct (encode_utf8 title) as [et |] eqn:Het; [| discriminate].
        cbn [mbind result_bind mret result_ret]. exists (slice_to 65535 et).
        split; [reflexivity |]. intros lt Hlt.
        destruct (encoded_field title et lt Htitle Het Hlt)
          as (Hcut & -> & Hdec & Hrange).
        rewrite Hcut. auto. }
    destruct Htitle_bytes as (et & Het & Hpack). rewrite Het in Hwrite.
    cbn [mbind result_bind] in Hwrite.
    destruct (pack 2 (Z.of_nat (length et))) as [lt |] eqn:Hlt; [| discriminate].
    cbn [mbind result_bind] in Hwrite.
    destruct (Hpack lt eq_refl) as (-> & Hdect & Hranget).
    destruct (IH _ _ _ _ Hfit Hwrite) as (records & -> & -> & Hall).
    exists ((eu, et) :: records).
    assert (Hrecord : (((data ++ le_bytes 2 (Z.of_nat (length eu))) ++ eu)
                       ++ le_bytes 2 (Z.of_nat (length et))) ++ et
                      = data ++ doc_record (eu, et))
      by (unfold doc_record; cbn [fst snd]; now rewrite <- !app_assoc).
    rewrite Hrecord. split; [| split].
    + cbn [fmap list_fmap concat]. now rewrite <- !app_assoc.
    + rewrite <- app_assoc. cbn [app record_offsets]. do 3 f_equal.
      rewrite length_app. lia.
    + constructor; [cbn [fst snd]; auto | assumption].
Qed.

Lemma write_offsets_spec (base_offset : Z) (offsets : list Z) :
  ∀ f f', at_end f → write_offsets base_offset offsets f = Ok f' →
    content f' = content f ++ concat (le_bytes 8 <$> (Z.add base_offset <$> offsets))
    ∧ at_end f'
    ∧ Forall (λ off, 0 <= off < 256 ^ Z.of_nat 8) (Z.add base_offset <$> offsets).
Proof.
  induction offsets as [| off offsets IH]; intros f f' Hend Hwrite.
  - injection Hwrite as <-. cbn. rewrite app_nil_r. repeat split; auto.
  - cbn [write_offsets] in Hwrite.
    destruct (pack 8 _) as [b |] eqn:Hb; [| discriminate].
    cbn [mbind result_bind] in Hwrite. apply pack_Ok in Hb as [-> Hrange].
    destruct (write_at_end (le_bytes 8 (base_offset + off)) f Hend)
      as [Hc Hend1].
    destruct (IH _ _ Hend1 Hwrite) as (-> & Hend' & Hall).
    rewrite Hc. cbn [fmap list_fmap concat]. rewrite <- app_assoc.
    split; [reflexivity |]. split; [assumption |]. now constructor.
Qed.

Lemma read_offsets_table (offsets : list Z) :
  ∀ (c before after : bytes) (acc : list Z),
    c = before ++ concat (le_bytes 8 <$> offsets) ++ after →
    Forall (λ off, 0 <= off < 256 ^ Z.of_nat 8) offsets →
    ∃ p, read_offsets (length offsets) (File c (length before)) acc
         = Ok (acc ++ offsets, File c p).
Proof.
  induction offsets as [| off offsets IH]; intros c before after acc Hc Hall.
  - exists (length before). cbn. now rewrite app_nil_r.
  - apply Forall_cons in Hall as [Hoff Hall].
    cbn [length read_offsets fmap list_fmap concat] in *.
    rewrite (read_chunk c before (le_bytes 8 off)
               (concat (le_bytes 8 <$> offsets) ++ after))
      by (rewrite ?Hc, <- ?app_assoc, ?length_le_bytes; reflexivity).
    rewrite unpack_le_bytes by assumption. cbn [mbind result_bind].
    destruct (IH c (before ++ le_bytes 8 off) after (acc ++ [off]))
      as (p & ->); [now rewrite Hc, <- !app_assoc | assumption |].
    exists p. now rewrite <- app_assoc.
Qed.

(** The second loop of [_load_docs] over records that stand one after the
    other in the file: from version 3 on the title is read after the URL,
    below it is not, and the next record is found by its offset. *)
Lemma read_doc_infos_records (ver : Z) (records : list (bytes * bytes)) :
  ∀ (infos : list (str * str)) (c before after : bytes) (p : nat)
    (acc : list DocInfo),
    c = before ++ concat (doc_record <$> records) ++ after →
    Forall2 (λ it r, decode_utf8 r.1 = Ok it.1 ∧ decode_utf8 r.2 = Ok it.2
                     ∧ 0 <= Z.of_nat (length r.1) < 256 ^ Z.of_nat 2
                     ∧ 0 <= Z.of_nat (length r.2) < 256 ^ Z.of_nat 2)
            infos records →
    read_doc_infos ver (record_offsets (Z.of_nat (length before)) records)
      (File c p) acc
    = Ok (acc ++ ((λ it, {| url := it.1;
                            title := if 3 <=? ver then it.2 else [] |})
                  <$> infos)).
Proof.
  induction records as [| [eu et] records IH];
    intros infos c before after p acc Hc Hall.
  - apply Forall2_nil_inv_r in Hall as ->. cbn. now rewrite app_nil_r.
  - apply Forall2_cons_inv_r in Hall
      as ([url title] & infos' & (Hu & Ht & Hlu & Hlt) & Hall & ->).
    cbn [fst snd] in *.
    cbn [record_offsets read_doc_infos fmap list_fmap concat] in *.
    unfold seek. cbn [content]. rewrite Nat2Z.id.
    unfold doc_record in Hc. cbn [fst snd] in Hc.
    rewrite (read_chunk c before (le_bytes 2 (Z.of_nat (length eu)))
               (eu ++ le_bytes 2 (Z.of_nat (length et)) ++ et
                ++ concat (doc_record <$> records) ++ after))
      by (rewrite ?Hc, <- ?app_assoc, ?length_le_bytes; reflexivity).
    rewrite unpack_le_bytes by assumption. cbn [mbind result_bind].
    rewrite Nat2Z.id.
    rewrite (read_chunk c (before ++ le_bytes 2 (Z.of_nat (length eu))) eu
               (le_bytes 2 (Z.of_nat (length et)) ++ et
                ++ concat (doc_record <$> records) ++ after))
      by (rewrite ?Hc, <- ?app_assoc; reflexivity).
    rewrite Hu. cbn [mbind result_bind].
    assert (Hnext : Z.of_nat (length before)
                    + Z.of_nat (length (doc_record (eu, et)))
                    = Z.of_nat (length (before ++ doc_record (eu, et))))
      by (rewrite length_app; lia).
    assert (Hrest : c = (before ++ doc_record (eu, et))
                        ++ concat (doc_record <$> records) ++ after)
      by (rewrite Hc; unfold doc_record; cbn [fst snd];
          now rewrite <- !app_assoc).
    destruct (3 <=? ver).
    + rewrite (read_chunk c ((before ++ le_bytes 2 (Z.of_nat (length eu))) ++ eu)
                 (le_bytes 2 (Z.of_nat (length et)))
                 (et ++ concat (doc_record <$> records) ++ after))
        by (rewrite ?Hc, <- ?app_assoc, ?length_le_bytes; reflexivity).
      rewrite unpack_le_bytes by assumption. cbn [mbind result_bind].
      rewrite Nat2Z.id.
      rewrite (read_chunk c (((before ++ le_bytes 2 (Z.of_nat (length eu))) ++ eu)
                             ++ le_bytes 2 (Z.of_nat (length et))) et
                 (concat (doc_record <$> records) ++ after))
        by (rewrite ?Hc, <- ?app_assoc; reflexivity).
      rewrite Ht. cbn [mbind result_bind mret result_ret].
      rewrite Hnext.
      rewrite (IH infos' c (before ++ doc_record (eu, et)) after);
        [now rewrite <- app_assoc | exact Hrest | assumption].
    + cbn [mbind result_bind]. rewrite Hnext.
      rewrite (IH infos' c (before ++ doc_record (eu, et)) after);
        [now rewrite <- app_assoc | exact Hrest | assumption].
Qed.

(** What [write_docs_index] writes. *)
Lemma write_docs_index_layout (infos : list (str * str)) (docs : bytes) :
  Forall (λ it, utf8_within 65535 it.1 ∧ utf8_within 65535 it.2) infos →
  write_docs_index infos = Ok docs →
  ∃ records,
    docs = MAGIC_DOCS ++ [3; 0] ++ docs_payload records
    ∧ records_of infos records
    ∧ 0 <= Z.of_nat (length records) < 256 ^ Z.of_nat 4
    ∧ Forall (λ off, 0 <= off < 256 ^ Z.of_nat 8)
             (record_offsets (10 + Z.of_nat (length records) * 8) records).
Proof.
  intros Hfit. unfold write_docs_index.
  destruct (write_doc_records infos [] []) as [[data offsets] |] eqn:Hrecords;
    [| discriminate].
  cbn [mbind result_bind]. change (pack 2 VERSION) with (Ok [3; 0]).
  cbn [mbind result_bind].
  destruct (pack 4 _) as [bc |] eqn:Hbc; [| discriminate].
  cbn [mbind result_bind]. apply pack_Ok in Hbc as [-> Hcount].
  set (f0 := write (le_bytes 4 (Z.of_nat (length infos)))
               (write [3; 0] (write indexer.MAGIC_DOCS open_wb))).
  assert (Hheader : at_end (write [3; 0] (write indexer.MAGIC_DOCS open_wb)))
    by reflexivity.
  destruct (write_at_end (le_bytes 4 (Z.of_nat (length infos))) _ Hheader)
    as [Hc0 Hend0].
  fold f0 in Hc0, Hend0.
  change (content (write [3; 0] (write indexer.MAGIC_DOCS open_wb)))
    with (MAGIC_DOCS ++ [3; 0]) in Hc0.
  assert (Htell : tell f0 = 10%nat).
  { unfold tell. rewrite Hend0, Hc0, length_app, length_le_bytes. reflexivity. }
  rewrite Htell.
  destruct (write_offsets _ offsets f0) as [f1 |] eqn:Hoffsets; [| discriminate].
  cbn [mbind result_bind]. unfold mret, result_ret. intros Heq.
  assert (Hdocs : docs = content (write data f1)) by congruence.
  clear Heq. subst docs.
  destruct (write_doc_records_spec _ _ _ _ _ Hfit Hrecords)
    as (records & -> & -> & Hall).
  cbn [app length] in *.
  destruct (write_offsets_spec _ _ _ _ Hend0 Hoffsets) as (Hc1 & Hend1 & Hrange).
  rewrite record_offsets_shift, Z.add_0_r in Hc1, Hrange.
  destruct (write_at_end (concat (doc_record <$> records)) f1 Hend1) as [-> _].
  pose proof (Forall2_length _ _ _ Hall) as Hlength.
  rewrite Hlength in *.
  exists records. split; [| split; [exact Hall | split; assumption]].
  rewrite Hc1, Hc0. unfold docs_payload. now rewrite <- !app_assoc.
Qed.

(** What [_load_docs] reads from a file of this layout, for any version. *)
Lemma load_docs_layout (vb : bytes) (infos : list (str * str))
    (records : list (bytes * bytes)) :
  length vb = 2%nat →
  records_of infos records →
  0 <= Z.of_nat (length records) < 256 ^ Z.of_nat 4 →
  Forall (λ off, 0 <= off < 256 ^ Z.of_nat 8)
         (record_offsets (10 + Z.of_nat (length records) * 8) records) →
  _load_docs (MAGIC_DOCS ++ vb ++ docs_payload records)
  = Ok ((λ it, {| url := it.1;
                  title := if 3 <=? le_value vb then it.2 else [] |})
        <$> infos).
Proof.
  intros Hvb Hall Hcount Hrange. unfold docs_payload.
  set (n := Z.of_nat (length records)) in *.
  set (base := 10 + n * 8) in *.
  set (table := concat (le_bytes 8 <$> record_offsets base records)) in *.
  set (body := concat (doc_record <$> records)).
  unfold _load_docs. rewrite read_start.
  rewrite take_app_length' by reflexivity.
  rewrite bool_decide_eq_true_2 by reflexivity. cbn [negb].
  change (length MAGIC_DOCS) with 4%nat.
  rewrite (read_chunk _ MAGIC_DOCS vb (le_bytes 4 n ++ table ++ body))
    by (rewrite ?Hvb; reflexivity).
  assert (unpack 2 vb = Ok (le_value vb)) as ->
    by (unfold unpack; now rewrite Hvb).
  cbn [mbind result_bind].
  rewrite (read_chunk _ (MAGIC_DOCS ++ vb) (le_bytes 4 n) (table ++ body))
    by (rewrite <- ?app_assoc, ?length_le_bytes; reflexivity).
  rewrite unpack_le_bytes by assumption. cbn [mbind result_bind].
  unfold n at 1. rewrite Nat2Z.id.
  assert (Hlen_table : length (record_offsets base records) = length records)
    by now rewrite length_record_offsets.
  destruct (read_offsets_table (record_offsets base records)
              (MAGIC_DOCS ++ vb ++ le_bytes 4 n ++ table ++ body)
              ((MAGIC_DOCS ++ vb) ++ le_bytes 4 n)
              body []) as (p & Hread);
    [now rewrite <- !app_assoc | assumption |].
  rewrite Hlen_table in Hread. rewrite Hread.
  cbn [mbind result_bind app].
  assert (Hbase : base
                  = Z.of_nat (length (MAGIC_DOCS ++ vb ++ le_bytes 4 n
                                      ++ table))).
  { rewrite !length_app, length_le_bytes, Hvb. unfold table.
    assert (Htable : ∀ offs : list Z,
              length (concat (le_bytes 8 <$> offs)) = (8 * length offs)%nat).
    { induction offs as [| o offs IHo]; [reflexivity |].
      cbn [fmap list_fmap concat length]. rewrite length_app, length_le_bytes.
      cbn [fmap] in IHo. rewrite IHo. lia. }
    rewrite Htable, Hlen_table. change (length MAGIC_DOCS) with 4%nat.
    unfold base, n. lia. }
  rewrite Hbase.
  rewrite (read_doc_infos_records (le_value vb) records infos _
             (MAGIC_DOCS ++ vb ++ le_bytes 4 n ++ table) [] p []);
    [reflexivity | | assumption].
  now rewrite app_nil_r, <- !app_assoc.
Qed.

(** X10. The documents file is read back: for URLs and titles of at most
    65535 bytes in UTF-8, [_load_docs] returns from the file that
    [write_docs_index] wrote the URL and the title of every document, in
    order. *)
Theorem docs_roundtrip (infos : list (str * str)) (docs : bytes) :
  Forall (λ it, utf8_within 65535 it.1 ∧ utf8_within 65535 it.2) infos →
  write_docs_index infos = Ok docs →
  _load_docs docs
  = Ok ((λ it, {| url := it.1; title := it.2 |}) <$> infos).
Proof.
  intros Hfit Hwrite.
  destruct (write_docs_index_layout infos docs Hfit Hwrite)
    as (records & -> & Hall & Hcount & Hrange).
  exact (load_docs_layout [3; 0] infos records eq_refl Hall Hcount Hrange).
Qed.

End DocsFile.

(** ** indexer.py and search.py: the documents of a build *)

Section BuiltDocs.
Import indexer search.

Lemma elem_of_set_range (n : nat) (x : Z) :
  x ∈ set_range n ↔ 0 <= x < Z.of_nat n.
Proof.
  unfold set_range. rewrite elem_of_list_to_set, list_elem_of_fmap. split.
  - intros (i & -> & Hi). apply elem_of_seq in Hi. lia.
  - intros Hx. exists (Z.to_nat x). split; [lia |]. apply elem_of_seq. lia.
Qed.

Lemma foldl_build_step_infos (tokenize : str → list str) (block_size : Z)
    (cursor : list document) :
  ∀ s, indexer.doc_infos (foldl (build_step tokenize block_size) s cursor)
       = indexer.doc_infos s
         ++ ((λ doc, (indexer.url doc, indexer.title doc)) <$> cursor).
Proof.
  induction cursor as [| doc cursor IH]; intros s.
  - cbn. now rewrite app_nil_r.
  - cbn [foldl fmap list_fmap]. rewrite IH. unfold build_step.
    destruct (_ =? 0); cbn [indexer.doc_infos]; now rewrite <- app_assoc.
Qed.

Lemma build_blocks_infos (tokenize : str → list str) (block_size : Z)
    (cursor : list document) :
  indexer.doc_infos (build_blocks tokenize block_size cursor)
  = (λ doc, (indexer.url doc, indexer.title doc)) <$> cursor.
Proof.
  unfold build_blocks.
  pose proof (foldl_build_step_infos tokenize block_size cursor
                (BuildState [] ∅ 0 O [])) as Hinfos.
  destruct (bool_decide _); exact Hinfos.
Qed.

(** X11. The documents of a build are numbered from 0 in the order of the
    cursor: the reader opened on the files of the build holds one record per
    document, [get_doc_info] and [get_doc_url] return for the number [i]
    the URL and the title of the document [i], and the universe of a search
    engine over the reader is the set of these numbers. URLs and titles take
    at most 65535 bytes in UTF-8. *)
Theorem built_doc_infos (tokenize : str → list str) (block_size : Z)
    (collection : list document) (limit : Z) (files : index_files)
    (self : CompressedIndexReader) :
  0 < block_size →
  Forall (λ doc, utf8_within 65535 (indexer.url doc)
                 ∧ utf8_within 65535 (indexer.title doc))
         (find collection limit) →
  build_index_sized tokenize block_size collection limit = Ok files →
  open_reader files = Ok self →
  search.doc_infos self = info_of <$> find collection limit
  ∧ (∀ (i : nat) doc, find collection limit !! i = Some doc →
       get_doc_info self (Z.of_nat i) = Ok (info_of doc)
       ∧ get_doc_url self (Z.of_nat i) = Ok (indexer.url doc))
  ∧ ∀ tokenizer depth doc_id,
      doc_id ∈ all_docs (new_engine self tokenizer depth)
      ↔ 0 <= doc_id < Z.of_nat (length (find collection limit)).
Proof.
  intros _ Hfit Hbuild Hopen. unfold build_index_sized in Hbuild.
  rewrite build_blocks_infos in Hbuild.
  destruct (write_docs_index _) as [docs |] eqn:Hdocs; [| discriminate].
  cbn [mbind result_bind] in Hbuild.
  destruct (merge_blocks _ _) as [[dict post] |]; [| discriminate].
  cbn [mbind result_bind mret result_ret] in Hbuild. injection Hbuild as <-.
  unfold open_reader in Hopen. cbn [index_docs index_dict index_postings] in Hopen.
  assert (Hfit' : Forall (λ it : str * str,
                            utf8_within 65535 it.1 ∧ utf8_within 65535 it.2)
                    ((λ doc, (indexer.url doc, indexer.title doc)) <$>
                     find collection limit))
    by (apply Forall_fmap; exact Hfit).
  rewrite (docs_roundtrip _ _ Hfit' Hdocs) in Hopen.
  cbn [mbind result_bind] in Hopen.
  destruct (_load_dict dict) as [td |]; [| discriminate].
  cbn [mbind result_bind mret result_ret] in Hopen. injection Hopen as <-.
  cbn [search.doc_infos new_engine all_docs].
  rewrite <- list_fmap_compose.
  assert (Hinfos : (λ it : str * str, {| url := it.1; title := it.2 |})
                     ∘ (λ doc, (indexer.url doc, indexer.title doc)) <$>
                   find collection limit
                   = info_of <$> find collection limit) by reflexivity.
  rewrite Hinfos. split; [reflexivity |]. split.
  - intros i doc Hdoc. unfold get_doc_url, get_doc_info.
    cbn [search.doc_infos]. rewrite length_fmap.
    apply lookup_lt_Some in Hdoc as Hlt.
    destruct (Z.leb_spec 0 (Z.of_nat i)); [| lia].
    destruct (Z.ltb_spec (Z.of_nat i) (Z.of_nat (length (find collection limit))));
      [| lia].
    cbn [andb].
    destruct (getitem_in_range (info_of <$> find collection limit) (Z.of_nat i))
      as (info & Hlook & ->); [rewrite length_fmap; lia |].
    rewrite Nat2Z.id, list_lookup_fmap, Hdoc in Hlook. injection Hlook as <-.
    split; reflexivity.
  - intros tokenizer depth doc_id. now rewrite elem_of_set_range, length_fmap.
Qed.

End BuiltDocs.

Lemma docs_roundtrip_witness :
  ∃ docs,
    indexer.write_docs_index [(py "u0", py "t0"); (py "u1", [])] = Ok docs
    ∧ search._load_docs docs
      = Ok [ {| search.url := py "u0"; search.title := py "t0" |};
             {| search.url := py "u1"; search.title := [] |} ].
Proof.
  destruct (indexer.write_docs_index [(py "u0", py "t0"); (py "u1", [])])
    as [docs |] eqn:Hdocs; [| vm_compute in Hdocs; discriminate].
  exists docs. split; [reflexivity |].
  apply (docs_roundtrip [(py "u0", py "t0"); (py "u1", [])] docs);
    [| exact Hdocs].
  refine (bool_decide_unpack _ _). vm_compute. exact I.
Defined.

Lemma built_doc_infos_witness :
  ∃ files self,
    indexer.build_index_sized Scenario.tokenize 2 Scenario.corpus 0 = Ok files
    ∧ search.open_reader files = Ok self
    ∧ search.doc_infos self = info_of <$> Scenario.corpus
    ∧ search.get_doc_url self 2 = Ok (py "u2").
Proof.
  assert (Hbuild : ∃ files,
            indexer.build_index_sized Scenario.tokenize 2 Scenario.corpus 0
            = Ok files ∧ ∃ self, search.open_reader files = Ok self).
  { eexists. split; [vm_compute; reflexivity |].
    eexists. vm_compute. reflexivity. }
  destruct Hbuild as (files & Hbuild & self & Hopen).
  destruct (built_doc_infos Scenario.tokenize 2 Scenario.corpus 0 files self)
    as (Hinfos & Hget & _).
  - lia.
  - refine (bool_decide_unpack _ _). vm_compute. exact I.
  - exact Hbuild.
  - exact Hopen.
  - exists files, self. split; [exact Hbuild |]. split; [exact Hopen |].
    split; [exact Hinfos |]. exact (proj2 (Hget 2%nat _ eq_refl)).
Defined.

(** ** Opening an index: what the version decides *)

Section Versions.
Import search.





End Versions.

(** ** search.py: how [_evaluate_recursive] reads a query *)

Section TokenLists.
Import search.

Lemma process_term (w next : str) (rest : list str) :
  bare_word w → next ≠ py "/" →
  process_tokens (w :: next :: rest)
  = (more ← process_tokens (next :: rest); mret (TERM w :: more)).
Proof.
  intros [Hoperand Hphrase] Hnext. cbn [process_tokens].
  rewrite Hoperand, Hphrase. destruct rest as [| num rest]; [reflexivity |].
  now rewrite (bool_decide_eq_false_2 _ Hnext).
Qed.

Lemma bare_word_not_slash (w : str) : bare_word w → w ≠ py "/".
Proof. intros [Hoperand _] ->. discriminate. Qed.

Lemma process_last_term (w : str) :
  bare_word w → process_tokens [w] = Ok [TERM w].
Proof.
  intros [Hoperand Hphrase]. cbn [process_tokens].
  now rewrite Hoperand, Hphrase.
Qed.

Lemma process_op (t : str) (o : op) (rest : list str) :
  is_operand t = false → op_of_str t = Some o →
  process_tokens (t :: rest)
  = (more ← process_tokens rest; mret (OP o :: more)).
Proof. intros Hoperand Hop. cbn [process_tokens]. now rewrite Hoperand, Hop. Qed.

End TokenLists.

Ltac to_rpn :=
  unfold search.rpn_of_tokens;
  repeat first
    [ rewrite process_last_term by assumption
    | rewrite process_term
        by first [ assumption | discriminate
                 | apply bare_word_not_slash; assumption ]
    | rewrite (process_op (py "&&") search.And) by reflexivity
    | rewrite (process_op (py "||") search.Or) by reflexivity
    | rewrite (process_op (py "!") search.Not) by reflexivity
    | rewrite (process_op (py "(") search.LParen) by reflexivity
    | rewrite (process_op (py ")") search.RParen) by reflexivity ];
  reflexivity.

Section QueryShapes.
Import search.
Variable self : SearchEngine.

(** X12. The conjunction may be left out: between two operands, before a
    negation and before an opening parenthesis, the query is converted as
    if [&&] stood there. *)
Theorem implicit_and (a b : str) :
  bare_word a → bare_word b →
  rpn_of_tokens [a; b] = Ok [TERM a; TERM b; OP And]
  ∧ rpn_of_tokens [a; b] = rpn_of_tokens [a; py "&&"; b]
  ∧ rpn_of_tokens [a; py "!"; b] = rpn_of_tokens [a; py "&&"; py "!"; b]
  ∧ rpn_of_tokens [a; py "("; b; py ")"]
    = rpn_of_tokens [a; py "&&"; py "("; b; py ")"]
  ∧ rpn_of_tokens [py "("; a; py ")"; b]
    = rpn_of_tokens [py "("; a; py ")"; py "&&"; b].
Proof.
  intros Ha Hb.
  assert (H1 : rpn_of_tokens [a; b] = Ok [TERM a; TERM b; OP And]) by to_rpn.
  assert (H2 : rpn_of_tokens [a; py "&&"; b] = Ok [TERM a; TERM b; OP And])
    by to_rpn.
  assert (H3 : rpn_of_tokens [a; py "!"; b]
               = Ok [TERM a; TERM b; OP Not; OP And]) by to_rpn.
  assert (H4 : rpn_of_tokens [a; py "&&"; py "!"; b]
               = Ok [TERM a; TERM b; OP Not; OP And]) by to_rpn.
  assert (H5 : rpn_of_tokens [a; py "("; b; py ")"]
               = Ok [TERM a; TERM b; OP And]) by to_rpn.
  assert (H6 : rpn_of_tokens [a; py "&&"; py "("; b; py ")"]
               = Ok [TERM a; TERM b; OP And]) by to_rpn.
  assert (H7 : rpn_of_tokens [py "("; a; py ")"; b]
               = Ok [TERM a; TERM b; OP And]) by to_rpn.
  assert (H8 : rpn_of_tokens [py "("; a; py ")"; py "&&"; b]
               = Ok [TERM a; TERM b; OP And]) by to_rpn.
  rewrite H1, H2, H3, H4, H5, H6, H7, H8. auto.
Qed.

(** X13. Precedence and grouping of the operators: [!] binds tighter than
    [&&], [&&] tighter than [||]; [&&] and [||] group to the left; and
    parentheses override the precedence. *)
Theorem operator_precedence (a b c : str) :
  bare_word a → bare_word b → bare_word c →
  rpn_of_tokens [a; py "||"; b; py "&&"; c]
  = Ok [TERM a; TERM b; TERM c; OP And; OP Or]
  ∧ rpn_of_tokens [a; py "&&"; b; py "||"; c]
    = Ok [TERM a; TERM b; OP And; TERM c; OP Or]
  ∧ rpn_of_tokens [py "!"; a; py "&&"; b]
    = Ok [TERM a; OP Not; TERM b; OP And]
  ∧ rpn_of_tokens [py "!"; a; py "||"; b]
    = Ok [TERM a; OP Not; TERM b; OP Or]
  ∧ rpn_of_tokens [a; py "&&"; b; py "&&"; c]
    = Ok [TERM a; TERM b; OP And; TERM c; OP And]
  ∧ rpn_of_tokens [a; py "||"; b; py "||"; c]
    = Ok [TERM a; TERM b; OP Or; TERM c; OP Or]
  ∧ rpn_of_tokens [py "("; a; py "||"; b; py ")"; py "&&"; c]
    = Ok [TERM a; TERM b; OP Or; TERM c; OP And]
  ∧ rpn_of_tokens [py "!"; py "("; a; py "&&"; b; py ")"]
    = Ok [TERM a; TERM b; OP And; OP Not].
Proof. intros Ha Hb Hc. repeat split; to_rpn. Qed.

Lemma solve_with_ignored (w : str) (ops : list op) :
  Forall (λ o, ∀ A : gset Z, rpn_step self [A] (OP o) = Ok [A]) ops →
  _solve_rpn self (TERM w :: (OP <$> ops)) = _solve_rpn self [TERM w].
Proof.
  intros Hops. unfold _solve_rpn. cbn [run_rpn].
  assert (Hterm : ∃ r : result (gset Z),
            rpn_step self [] (TERM w) = (A ← r; mret [A])).
  { unfold rpn_step. destruct (tokenizer self w) as [| stem stems].
    - exists (Ok ∅). reflexivity.
    - exists (postings ← get_postings (reader self) stem; mret (dom postings)).
      now destruct (get_postings (reader self) stem). }
  destruct Hterm as (r & ->). destruct r as [A | e]; [| reflexivity].
  cbn [mbind result_bind mret result_ret].
  induction Hops as [| o ops Ho _ IH]; [reflexivity |].
  cbn [fmap list_fmap run_rpn]. rewrite Ho. exact IH.
Qed.

(** X14. Malformed queries are read leniently. Around a word [a], an
    unmatched parenthesis on either side, and a binary operator without its
    other operand, change nothing: the query evaluates as [a] alone, with
    the same result or the same exception. *)
Theorem stray_tokens_ignored (a : str) :
  bare_word a →
  Forall (λ tokens, _evaluate_recursive self tokens
                    = _evaluate_recursive self [a])
         [ [py "("; a]; [a; py ")"]; [py ")"; a]; [py "("; a; py ")"];
           [py "&&"; a]; [a; py "&&"]; [py "||"; a]; [a; py "||"] ].
Proof.
  intros Ha.
  assert (Hone : rpn_of_tokens [a] = Ok [TERM a]) by to_rpn.
  assert (Hignored : ∀ ops,
            Forall (λ o, o ≠ Not) ops →
            ∀ tokens, rpn_of_tokens tokens = Ok (TERM a :: (OP <$> ops)) →
              _evaluate_recursive self tokens = _evaluate_recursive self [a]).
  { intros ops Hops tokens Hrpn. unfold _evaluate_recursive.
    rewrite Hrpn, Hone. cbn [mbind result_bind]. apply solve_with_ignored.
    eapply Forall_impl; [exact Hops |]. cbn beta.
    intros o Ho A. now destruct o. }
  repeat constructor.
  - apply (Hignored [LParen]); [now repeat constructor | to_rpn].
  - apply (Hignored []); [constructor | to_rpn].
  - apply (Hignored [And]); [now repeat constructor | to_rpn].
  - apply (Hignored []); [constructor | to_rpn].
  - apply (Hignored [And]); [now repeat constructor | to_rpn].
  - apply (Hignored [And]); [now repeat constructor | to_rpn].
  - apply (Hignored [Or]); [now repeat constructor | to_rpn].
  - apply (Hignored [Or]); [now repeat constructor | to_rpn].
Qed.

(** X15. A [!] written after a word negates it: [a !] is converted to
    [a NOT AND], the conjunction finds one set only and is skipped, and the
    query evaluates as [! a]. *)
Theorem postfix_not (a : str) :
  bare_word a →
  rpn_of_tokens [a; py "!"] = Ok [TERM a; OP Not; OP And]
  ∧ rpn_of_tokens [py "!"; a] = Ok [TERM a; OP Not]
  ∧ _evaluate_recursive self [a; py "!"]
    = _evaluate_recursive self [py "!"; a].
Proof.
  intros Ha.
  assert (H1 : rpn_of_tokens [a; py "!"] = Ok [TERM a; OP Not; OP And])
    by to_rpn.
  assert (H2 : rpn_of_tokens [py "!"; a] = Ok [TERM a; OP Not]) by to_rpn.
  split; [exact H1 |]. split; [exact H2 |].
  unfold _evaluate_recursive. rewrite H1, H2. cbn [mbind result_bind].
  unfold _solve_rpn. cbn [run_rpn].
  destruct (rpn_step self [] (TERM a)) as [stack |] eqn:Hstep; [| reflexivity].
  cbn [mbind result_bind].
  assert (Hstack : ∃ A, stack = [A]).
  { unfold rpn_step in Hstep. destruct (tokenizer self a) as [| stem stems].
    - injection Hstep as <-. eauto.
    - destruct (get_postings (reader self) stem); [| discriminate].
      injection Hstep as <-. eauto. }
  destruct Hstack as [A ->]. reflexivity.
Qed.

End QueryShapes.

Lemma implicit_and_witness :
  search.rpn_of_tokens [py "quick"; py "fox"]
  = Ok [search.TERM (py "quick"); search.TERM (py "fox");
        search.OP search.And].
Proof.
  apply (implicit_and (py "quick") (py "fox")); split; reflexivity.
Defined.

Lemma operator_precedence_witness :
  search.rpn_of_tokens [py "a"; py "||"; py "b"; py "&&"; py "c"]
  = Ok [search.TERM (py "a"); search.TERM (py "b"); search.TERM (py "c");
        search.OP search.And; search.OP search.Or].
Proof.
  apply (operator_precedence (py "a") (py "b") (py "c")); split; reflexivity.
Defined.

Lemma stray_tokens_ignored_witness :
  search._evaluate_recursive Scenario.engine0 [py "("; py "fox"]
  = search._evaluate_recursive Scenario.engine0 [py "fox"].
Proof.
  assert (Hword : bare_word (py "fox")) by (split; reflexivity).
  pose proof (stray_tokens_ignored Scenario.engine0 (py "fox") Hword) as Hall.
  exact (Forall_inv Hall).
Defined.

Lemma postfix_not_witness :
  search._evaluate_recursive Scenario.engine0 [py "fox"; py "!"]
  = search._evaluate_recursive Scenario.engine0 [py "!"; py "fox"].
Proof.
  apply (postfix_not Scenario.engine0 (py "fox")). split; reflexivity.
Defined.

(** On the corpus of the scenarios: [fox !] returns the documents without
    [fox]. *)
Example postfix_not_on_corpus :
  Scenario.search (py "fox !") = Ok {[1; 3]}
  ∧ Scenario.search (py "( fox") = Ok {[0; 2]}.
Proof. split; vm_compute; reflexivity. Qed.

(** ** search.py: numbers, slashes and distances in a query *)

Section Numbers.
Import search.
Variable self : SearchEngine.

Lemma num_token (d : str) :
  is_operand (py "NUM:" ++ d) = false ∧ op_of_str (py "NUM:" ++ d) = None.
Proof.
  assert (Hop : op_of_str (py "NUM:" ++ d) = None).
  { unfold op_of_str. now rewrite !bool_decide_eq_false_2 by discriminate. }
  split; [| exact Hop]. unfold is_operand. rewrite Hop.
  rewrite (bool_decide_eq_false_2 (is_Some None)) by (intros [? [=]]).
  rewrite bool_decide_eq_false_2 by discriminate.
  change (py "NUM:" ++ d) with (78 :: 85 :: 77 :: 58 :: d).
  change (startswith (78 :: 85 :: 77 :: 58 :: d) (py "PHRASE:")) with false.
  change (startswith (78 :: 85 :: 77 :: 58 :: d) (py "NUM:"))
    with (startswith d []).
  now destruct d.
Qed.

Lemma process_dropped (t : str) (rest : list str) :
  is_operand t = false → op_of_str t = None →
  process_tokens (t :: rest) = process_tokens rest.
Proof. intros Hoperand Hop. cbn [process_tokens]. now rewrite Hoperand, Hop. Qed.

(** X16. What is neither an operand nor an operator is dropped from the
    query: a number that does not follow [operand /], and a slash that is
    not followed by a number. A query of one number has no operand at all
    and evaluates to the empty set. *)
Theorem numbers_and_slashes_dropped (a b d : str) :
  bare_word a → bare_word b →
  rpn_of_tokens [py "NUM:" ++ d] = Ok []
  ∧ _evaluate_recursive self [py "NUM:" ++ d] = Ok ∅
  ∧ rpn_of_tokens [a; py "NUM:" ++ d] = rpn_of_tokens [a]
  ∧ rpn_of_tokens [py "NUM:" ++ d; a] = rpn_of_tokens [a]
  ∧ rpn_of_tokens [a; py "/"; b] = rpn_of_tokens [a; b]
  ∧ rpn_of_tokens [a; py "/"] = rpn_of_tokens [a].
Proof.
  intros Ha Hb. destruct (num_token d) as [Hoperand Hop].
  pose proof Ha as [Ha1 Ha2]. pose proof Hb as [Hb1 Hb2].
  assert (Hnum : rpn_of_tokens [py "NUM:" ++ d] = Ok []).
  { unfold rpn_of_tokens. now rewrite process_dropped. }
  split; [exact Hnum |]. split.
  { unfold _evaluate_recursive. now rewrite Hnum. }
  assert (Hslash : ∀ rest, process_tokens (py "/" :: rest) = process_tokens rest)
    by (intros rest; now apply process_dropped).
  assert (Hnot_slash : py "NUM:" ++ d ≠ py "/") by discriminate.
  unfold rpn_of_tokens. split; [| split; [| split]].
  - rewrite process_term, process_dropped by assumption.
    cbn [process_tokens]. now rewrite Ha1, Ha2.
  - now rewrite process_dropped.
  - assert (Hb3 : startswith b (py "NUM:") = false).
    { unfold is_operand in Hb1. rewrite Hb2 in Hb1. cbn [orb] in Hb1.
      apply negb_true_iff, orb_false_iff in Hb1 as [_ Hb1]. exact Hb1. }
    assert (Hstep : process_tokens [a; py "/"; b]
                    = (more ← process_tokens [py "/"; b];
                       mret (TERM a :: more))).
    { cbn [process_tokens]. rewrite Ha1, Ha2, Hb3, andb_false_r. reflexivity. }
    rewrite Hstep, Hslash, process_last_term by assumption.
    rewrite process_term, process_last_term
      by (assumption || now apply bare_word_not_slash).
    reflexivity.
  - cbn [process_tokens]. rewrite Ha1, Ha2. reflexivity.
Qed.

(** X17. A distance: a word, a slash and the token of a number whose field
    after the colon [int] accepts become one proximity operand. When [int]
    refuses the field, which is the case of a word that starts with [NUM:]
    and does not go on with a number, the exception of [int] leaves
    [_evaluate_recursive]: the query is not evaluated. *)
Theorem proximity_suffix (w num field : str) (rest : list str) :
  bare_word w → startswith num (py "NUM:") = true →
  getitem (split_char 58 num) 1 = Ok field →
  (∀ dist, int field = Ok dist →
     process_tokens (w :: py "/" :: num :: rest)
     = (more ← process_tokens rest; mret (PROXIMITY w dist :: more)))
  ∧ (∀ e, int field = Raise e →
       _evaluate_recursive self (w :: py "/" :: num :: rest) = Raise e).
Proof.
  intros [Hoperand Hphrase] Hnum Hfield.
  assert (Hstep : process_tokens (w :: py "/" :: num :: rest)
                  = (dist ← int field; more ← process_tokens rest;
                     mret (PROXIMITY w dist :: more))).
  { cbn [process_tokens]. rewrite Hoperand, Hphrase, Hnum.
    rewrite bool_decide_eq_true_2 by reflexivity. cbn [andb].
    rewrite Hfield. reflexivity. }
  split.
  - intros dist Hdist. now rewrite Hstep, Hdist.
  - intros e He. unfold _evaluate_recursive, rpn_of_tokens.
    now rewrite Hstep, He.
Qed.

End Numbers.

Lemma numbers_and_slashes_dropped_witness :
  search._evaluate_recursive Scenario.engine0 [py "NUM:" ++ py "2024"] = Ok ∅
  ∧ search.rpn_of_tokens [py "covid"; py "NUM:" ++ py "19"]
    = search.rpn_of_tokens [py "covid"].
Proof.
  destruct (numbers_and_slashes_dropped Scenario.engine0 (py "covid")
              (py "covid") (py "2024")) as (_ & Hempty & _);
    [split; reflexivity | split; reflexivity |].
  destruct (numbers_and_slashes_dropped Scenario.engine0 (py "covid")
              (py "covid") (py "19")) as (_ & _ & Hdrop & _);
    [split; reflexivity | split; reflexivity |].
  split; assumption.
Defined.

Lemma proximity_suffix_witness :
  search.process_tokens [py "fox"; py "/"; py "NUM:3"]
  = Ok [search.PROXIMITY (py "fox") 3]
  ∧ ∃ msg, search._evaluate_recursive Scenario.engine0
             [py "fox"; py "/"; py "NUM:x"] = Raise (ValueError msg).
Proof.
  destruct (proximity_suffix Scenario.engine0 (py "fox") (py "NUM:3") (py "3") [])
    as [Hok _]; [split; reflexivity | reflexivity | reflexivity |].
  destruct (proximity_suffix Scenario.engine0 (py "fox") (py "NUM:x") (py "x") [])
    as [_ Hraise]; [split; reflexivity | reflexivity | reflexivity |].
  split; [exact (Hok 3 eq_refl) |]. eexists. apply Hraise. reflexivity.
Defined.

(** A distance may be written in the decimal digits of any script: the
    query [fox / ٣] is lexed into a word, a slash and a number, and [int]
    reads the number as 3. *)
Example distance_in_other_digits :
  search._tokenize (py "fox / " ++ [0x663])
  = [py "fox"; py "/"; py "NUM:" ++ [0x663]]
  ∧ search.process_tokens [py "fox"; py "/"; py "NUM:" ++ [0x663]]
    = Ok [search.PROXIMITY (py "fox") 3].
Proof. split; vm_compute; reflexivity. Qed.

(** The query [fox / NUM:x] is lexed into these three tokens, and
    [execute] raises. *)
Example word_after_slash_raises :
  search._tokenize (py "fox / NUM:x") = [py "fox"; py "/"; py "NUM:x"]
  ∧ Scenario.search (py "fox / NUM:x")
    = Raise (ValueError "invalid literal for int()").
Proof. split; vm_compute; reflexivity. Qed.

(** ** search.py: the lexer [_tokenize] *)

Section Lexer.
Import search.
Variable self : SearchEngine.

Lemma replace_char_id (old new : Z) (s : str) :
  Forall (λ c, c ≠ old) s → replace_char old new s = s.
Proof.
  unfold replace_char. induction 1 as [| c s Hc _ IH]; [reflexivity |].
  cbn [map]. rewrite IH. now rewrite (proj2 (Z.eqb_neq _ _) Hc).
Qed.

Lemma replace_char_absent (old new : Z) (s : str) :
  new ≠ old → Forall (λ c, c ≠ old) (replace_char old new s).
Proof.
  intros Hne. unfold replace_char. induction s as [| c s IH]; [constructor |].
  cbn [map]. constructor; [| exact IH].
  destruct (Z.eqb_spec c old); congruence.
Qed.

Lemma replace_char_keeps (old new other : Z) (s : str) :
  new ≠ other → Forall (λ c, c ≠ other) s →
  Forall (λ c, c ≠ other) (replace_char old new s).
Proof.
  intros Hne. unfold replace_char. induction 1 as [| c s Hc _ IH]; [constructor |].
  cbn [map]. constructor; [| exact IH]. now destruct (c =? old).
Qed.

(** X18. The guillemets are quotation marks: replacing them in the query by
    double quotes changes neither the tokens nor the result. *)
Theorem guillemets_are_quotes (query : str) :
  _tokenize (replace_char 187 34 (replace_char 171 34 query))
  = _tokenize query
  ∧ execute self (replace_char 187 34 (replace_char 171 34 query))
    = execute self query.
Proof.
  assert (Hlex : _tokenize (replace_char 187 34 (replace_char 171 34 query))
                 = _tokenize query).
  { unfold _tokenize.
    set (q := replace_char 187 34 (replace_char 171 34 query)).
    assert (Hq : replace_char 187 34 (replace_char 171 34 q) = q).
    { rewrite (replace_char_id 171 34 q).
      - apply replace_char_id. now apply replace_char_absent.
      - apply replace_char_keeps; [discriminate |].
        now apply replace_char_absent. }
    now rewrite Hq. }
  split; [exact Hlex |]. unfold execute. now rewrite Hlex.
Qed.

(** The white space and the decimal digits, as ranges of code points. *)
Lemma isspace_cases (c : Z) :
  isspace c = true →
  9 <= c <= 13 ∨ 28 <= c <= 32 ∨ c = 0x85 ∨ c = 0xA0 ∨ c = 0x1680
  ∨ 0x2000 <= c <= 0x200A ∨ c = 0x2028 ∨ c = 0x2029 ∨ c = 0x202F
  ∨ c = 0x205F ∨ c = 0x3000.
Proof.
  unfold isspace. rewrite !orb_true_iff, !andb_true_iff, !Z.leb_le, !Z.eqb_eq.
  tauto.
Qed.

Lemma isdecimal_cases (c : Z) :
  isdecimal c = true →
  Exists (λ zero, zero <= c <= zero + 9) decimal_zeros.
Proof.
  unfold isdecimal, decimal.
  destruct (List.find _ decimal_zeros) as [zero |] eqn:Hfind; [| discriminate].
  intros _. apply find_some in Hfind as [Hin Hrange].
  apply Exists_exists. exists zero. split; [now apply list_elem_of_In |].
  apply andb_true_iff in Hrange as [H1 H2]. apply Z.leb_le in H1, H2. lia.
Qed.

(** A decimal digit is an ASCII digit or a character from U+0660 on. *)
Lemma isdecimal_range (c : Z) :
  isdecimal c = true → 48 <= c <= 57 ∨ 1632 <= c.
Proof.
  intros Hc. apply isdecimal_cases in Hc. unfold decimal_zeros in Hc.
  rewrite !Exists_cons, Exists_nil in Hc. lia.
Qed.

Lemma isdecimal_not_space (c : Z) :
  isdecimal c = true → isspace c = false.
Proof.
  intros Hc. destruct (isspace c) eqn:Hspace; [exfalso | reflexivity].
  apply isspace_cases in Hspace. apply isdecimal_cases in Hc.
  unfold decimal_zeros in Hc. rewrite !Exists_cons, Exists_nil in Hc.
  assert (Hhigh : c = 0x1680 ∨ 0x2000 <= c <= 0x3000 ∨ c <= 32
                  ∨ c = 0x85 ∨ c = 0xA0) by lia.
  clear Hspace. lia.
Qed.

Lemma isspace_other (c : Z) :
  isspace c = true →
  isdecimal c = false ∧ word_char c = false
  ∧ c ≠ 34 ∧ c ≠ 38 ∧ c ≠ 124 ∧ c ≠ 33 ∧ c ≠ 40 ∧ c ≠ 41 ∧ c ≠ 47
  ∧ c ≠ 171 ∧ c ≠ 187.
Proof.
  intros Hspace.
  assert (Hne : ∀ k, isspace k = false → c ≠ k)
    by (intros k Hk ->; congruence).
  split.
  { destruct (isdecimal c) eqn:Hdigit; [| reflexivity].
    apply isdecimal_not_space in Hdigit. congruence. }
  split; [unfold word_char; now rewrite Hspace |].
  repeat split; now apply Hne.
Qed.

Lemma finditer_spaces (q : str) :
  ∀ fuel, Forall (λ c, isspace c = true) q → finditer fuel q = [].
Proof.
  induction q as [| c q IH]; intros fuel Hall; [now destruct fuel |].
  destruct fuel as [| fuel]; [reflexivity |].
  apply Forall_cons in Hall as [Hc Hall].
  destruct (isspace_other c Hc)
    as (Hdigit & Hword & H34 & H38 & H124 & H33 & H40 & H41 & H47 & _).
  cbn [finditer]. destruct (span _ q) as [phrase closing].
  rewrite (proj2 (Z.eqb_neq _ _) H34). cbn [andb]. rewrite Hdigit.
  cbn [startswith py map list_ascii_of_string].
  change (Z.of_nat (nat_of_ascii "&")) with 38.
  change (Z.of_nat (nat_of_ascii "|")) with 124.
  rewrite (proj2 (Z.eqb_neq _ _) H38), (proj2 (Z.eqb_neq _ _) H124).
  cbn [andb].
  rewrite (proj2 (Z.eqb_neq _ _) H33), (proj2 (Z.eqb_neq _ _) H40),
    (proj2 (Z.eqb_neq _ _) H41), (proj2 (Z.eqb_neq _ _) H47).
  cbn [orb]. rewrite Hword. now apply IH.
Qed.

Lemma span_all (p : Z → bool) (s : str) :
  Forall (λ c, p c = true) s → span p s = (s, []).
Proof.
  induction 1 as [| c s Hc _ IH]; [reflexivity |].
  cbn [span]. now rewrite Hc, IH.
Qed.

Lemma isdecimal_other (c : Z) :
  isdecimal c = true → c ≠ 34 ∧ c ≠ 171 ∧ c ≠ 187.
Proof. intros Hc. apply isdecimal_range in Hc. lia. Qed.

(** X19. A query without operands finds nothing: a query of white space
    only, the empty query among them, has no tokens, and a query that is
    one number, in the decimal digits of any script, is one token that the
    parser drops; [execute] returns the empty set for both. *)
Theorem query_without_operands (query : str) :
  (Forall (λ c, isspace c = true) query →
     _tokenize query = [] ∧ execute self query = Ok ∅)
  ∧ (query ≠ [] → Forall (λ c, isdecimal c = true) query →
       _tokenize query = [py "NUM:" ++ query] ∧ execute self query = Ok ∅).
Proof.
  split.
  - intros Hall.
    assert (Hlex : _tokenize query = []).
    { unfold _tokenize.
      assert (Hsame : replace_char 187 34 (replace_char 171 34 query) = query).
      { rewrite (replace_char_id 171 34 query).
        - apply replace_char_id. eapply Forall_impl; [exact Hall |].
          intros c Hc. now apply isspace_other in Hc.
        - eapply Forall_impl; [exact Hall |].
          intros c Hc. now apply isspace_other in Hc. }
      rewrite Hsame. now apply finditer_spaces. }
    split; [exact Hlex |]. unfold execute. now rewrite Hlex.
  - intros Hne Hall.
    assert (Hlex : _tokenize query = [py "NUM:" ++ query]).
    { unfold _tokenize.
      assert (Hsame : replace_char 187 34 (replace_char 171 34 query) = query).
      { rewrite (replace_char_id 171 34 query).
        - apply replace_char_id. eapply Forall_impl; [exact Hall |].
          intros c Hc. now apply isdecimal_other in Hc.
        - eapply Forall_impl; [exact Hall |].
          intros c Hc. now apply isdecimal_other in Hc. }
      rewrite Hsame. destruct query as [| c q]; [contradiction |].
      pose proof Hall as Hall'. apply Forall_cons in Hall' as [Hc _].
      cbn [length finditer]. destruct (span _ q) as [phrase closing].
      destruct (isdecimal_other c Hc) as (H34 & _).
      rewrite (proj2 (Z.eqb_neq _ _) H34). cbn [andb]. rewrite Hc.
      rewrite (span_all isdecimal (c :: q) Hall). now destruct (length q). }
    split; [exact Hlex |]. unfold execute, _evaluate_recursive, rpn_of_tokens.
    rewrite Hlex. destruct (num_token query) as [Hoperand Hop].
    now rewrite process_dropped.
Qed.

End Lexer.

Lemma query_without_operands_witness :
  search.execute Scenario.engine0 (py "  ") = Ok ∅
  ∧ search.execute Scenario.engine0 (py "2024") = Ok ∅
  ∧ search._tokenize [0x662; 0x660] = [py "NUM:" ++ [0x662; 0x660]].
Proof.
  destruct (query_without_operands Scenario.engine0 (py "  ")) as [Hspace _].
  destruct (query_without_operands Scenario.engine0 (py "2024")) as [_ Hnum].
  destruct (query_without_operands Scenario.engine0 [0x662; 0x660])
    as [_ Harabic].
  split; [| split].
  - apply Hspace. repeat constructor.
  - apply Hnum; [discriminate | repeat constructor].
  - apply Harabic; [discriminate | repeat constructor].
Defined.

(** ** Searching the index of a build *)

Section BuiltSearch.
Import indexer search.

Variable tokenize : str → list str.
Variable block_size : Z.
Variable collection : list document.
Variable limit : Z.
Variable files : index_files.
Variable self : CompressedIndexReader.

Hypothesis built :
  build_index_sized tokenize block_size collection limit = Ok files.
Hypothesis opened : open_reader files = Ok self.
Hypothesis short_terms :
  ∀ term encoded, emitted tokenize (find collection limit) term →
    encode_utf8 term = Ok encoded → (length encoded ≤ 255)%nat.
Hypothesis short_documents :
  ∀ doc, doc ∈ find collection limit →
    Z.of_nat (length (tokenize (parsed_text doc))) < 2 ^ 42.

(** The postings the reader returns for a term are the positions
    observed at tokenization. *)
Lemma built_postings (term : str) :
  ∃ postings,
    get_postings self term = Ok postings
    ∧ ∀ doc_id, postings !! doc_id
                = observed_at tokenize (find collection limit) term doc_id.
Proof.
  destruct (built_dictionary tokenize block_size collection limit short_terms
              files self built opened)
    as (stream & Hstream & Hnd & Hemitted & Hcount & Hdict).
  specialize (Hdict term).
  destruct (term_dict self !! term) as [[offset doc_count] |] eqn:Hterm.
  - destruct Hdict as (g & e & Hg & Hg1 & Hentry & -> & ->).
    destruct Hentry as (_ & _ & _ & _ & _ & before & later & Hfile & Hoffset).
    assert (Hsound : ∀ doc_id positions, g.2 !! doc_id = Some positions →
              observed_at tokenize (find collection limit) term doc_id
              = Some positions).
    { intros doc_id positions Hpos. apply Hstream. rewrite <- Hg1.
      eapply all_groups_sound; eassumption. }
    assert (Hbounded : bounded g.2).
    { intros doc_id positions Hpos. apply Hsound in Hpos.
      apply observed_at_Some in Hpos as (doc & Hdoc & Hid & -> & _).
      pose proof (short_documents doc (list_elem_of_lookup_2 _ _ _ Hdoc)).
      split; [lia |]. split.
      - pose proof (positions_in_length term (tokenize (parsed_text doc)) 0).
        lia.
      - eapply Forall_impl; [apply positions_in_bounds |].
        cbn beta. intros; lia. }
    exists (sorted_int <$> g.2). split.
    + apply (get_postings_sized_block search.buffer_size self term e.1.2 e.2
               g.2 before later); try assumption.
      unfold search.buffer_size. lia.
    + intros doc_id. rewrite lookup_fmap.
      destruct (g.2 !! doc_id) as [positions |] eqn:Hpos.
      * cbn. rewrite (Hsound _ _ Hpos). f_equal. apply sorted_int_id.
        apply Hsound in Hpos.
        apply observed_at_Some in Hpos as (doc & _ & _ & -> & _).
        apply positions_in_ascending_le.
      * cbn. destruct (observed_at _ _ _ _) as [positions |] eqn:Hseen;
          [| reflexivity].
        apply Hstream in Hseen.
        apply all_groups_complete in Hseen as (g' & Hg' & Hg'1 & Hsome).
        assert (g' = g) by (apply (NoDup_fst_eq _ _ _ Hnd); congruence).
        subst g'. rewrite Hpos in Hsome. now destruct Hsome.
  - exists ∅. split; [unfold get_postings, get_postings_sized; now rewrite Hterm |].
    intros doc_id. rewrite lookup_empty.
    destruct (observed_at _ _ _ _) as [positions |] eqn:Hseen; [| reflexivity].
    apply Hstream in Hseen.
    apply all_groups_complete in Hseen as (g & Hg & Hg1 & _).
    destruct Hdict. rewrite <- Hg1. apply list_elem_of_fmap. eauto.
Qed.

Lemma positions_in_spec (term : str) (tokens : list str) :
  ∀ pos x, x ∈ positions_in term pos tokens
           ↔ ∃ i : nat, x = pos + Z.of_nat i ∧ tokens !! i = Some term.
Proof.
  induction tokens as [| token rest IH]; intros pos x.
  - cbn. rewrite elem_of_nil. split; [tauto | intros (i & _ & [=])].
  - cbn [positions_in].
    assert (Hrest : x ∈ positions_in term (pos + 1) rest
                    ↔ ∃ i : nat, x = pos + Z.of_nat (S i)
                                 ∧ rest !! i = Some term).
    { rewrite IH. split; intros (i & -> & Hi); exists i; split; auto; lia. }
    destruct (bool_decide _) eqn:Hsame.
    + apply bool_decide_eq_true in Hsame as ->.
      rewrite elem_of_cons, Hrest. split.
      * intros [-> | (i & -> & Hi)]; [exists O | exists (S i)];
          split; auto; lia.
      * intros ([| i] & -> & Hi); [left; lia | right; eauto].
    + apply bool_decide_eq_false in Hsame. rewrite Hrest. split.
      * intros (i & -> & Hi). exists (S i). auto.
      * intros ([| i] & -> & Hi); [cbn in Hi; congruence | eauto].
Qed.

(** What an observation is in terms of the tokens of the document. *)
Lemma observed_at_tokens (term : str) (doc_id : Z) :
  match tokens_of tokenize (find collection limit) doc_id with
  | Some tokens =>
      observed_at tokenize (find collection limit) term doc_id
      = if bool_decide (positions_in term 0 tokens = []) then None
        else Some (positions_in term 0 tokens)
  | None => observed_at tokenize (find collection limit) term doc_id = None
  end.
Proof.
  unfold tokens_of, observed_at. destruct (doc_id <? 0); [reflexivity |].
  now destruct (find collection limit !! Z.to_nat doc_id).
Qed.

Lemma observed_at_is_Some (term : str) (doc_id : Z) :
  is_Some (observed_at tokenize (find collection limit) term doc_id)
  ↔ ∃ tokens, tokens_of tokenize (find collection limit) doc_id = Some tokens
              ∧ term ∈ tokens.
Proof.
  pose proof (observed_at_tokens term doc_id) as Hobs.
  destruct (tokens_of _ _ _) as [tokens |].
  - rewrite Hobs. destruct (bool_decide _) eqn:Hnil.
    + apply bool_decide_eq_true in Hnil. split; [intros [? [=]] |].
      intros (? & [= <-] & Hin).
      now apply (positions_in_nonempty term tokens 0) in Hin.
    + apply bool_decide_eq_false in Hnil. split; [| eauto].
      intros _. exists tokens. split; [reflexivity |].
      now apply (positions_in_nonempty term tokens 0).
  - rewrite Hobs. split; [intros [? [=]] | intros (? & [=] & _)].
Qed.

Lemma tokens_of_in_universe (doc_id : Z) (tokens : list str) :
  tokens_of tokenize (find collection limit) doc_id = Some tokens →
  0 <= doc_id < Z.of_nat (length (find collection limit)).
Proof.
  unfold tokens_of. destruct (Z.ltb_spec doc_id 0); [discriminate |].
  destruct (find collection limit !! Z.to_nat doc_id) eqn:Hdoc; [| discriminate].
  apply lookup_lt_Some in Hdoc. lia.
Qed.

(** The documents of a word over the reader. *)
Lemma built_term_search (tokenizer : str → list str) (depth : nat)
    (w : str) :
  ∃ A, _solve_rpn (new_engine self tokenizer depth) [TERM w] = Ok A
       ∧ ∀ doc_id, doc_id ∈ A
           ↔ ∃ stem tokens,
               head (tokenizer w) = Some stem
               ∧ tokens_of tokenize (find collection limit) doc_id = Some tokens
               ∧ stem ∈ tokens.
Proof.
  unfold _solve_rpn. cbn [run_rpn rpn_step new_engine search.tokenizer reader].
  destruct (tokenizer w) as [| stem stems].
  - exists ∅. split; [reflexivity |]. intros doc_id. rewrite elem_of_empty.
    split; [tauto | intros (? & ? & [=] & _)].
  - destruct (built_postings stem) as (postings & -> & Hobs).
    exists (dom postings). split; [reflexivity |]. intros doc_id.
    rewrite elem_of_dom, Hobs, observed_at_is_Some. cbn [head]. split.
    + intros (tokens & Htokens & Hin). eauto.
    + intros (? & tokens & [= <-] & Htokens & Hin). eauto.
Qed.

(** X20. A word of the query finds the documents that hold its first stem:
    over the reader of a build, with terms of at most 255 bytes in UTF-8 and
    documents of fewer than [2 ^ 42] tokens, [TERM w] evaluates to the set
    of the documents among whose tokens the indexer saw the first token that
    the tokenizer of the engine makes of [w], and to the empty set when the
    tokenizer makes no token of [w]. *)
Theorem term_search (tokenizer : str → list str) (depth : nat) (w : str) :
  ∃ A, _solve_rpn (new_engine self tokenizer depth) [TERM w] = Ok A
       ∧ ∀ doc_id, doc_id ∈ A
           ↔ ∃ stem tokens,
               head (tokenizer w) = Some stem
               ∧ tokens_of tokenize (find collection limit) doc_id = Some tokens
               ∧ stem ∈ tokens.
Proof. apply built_term_search. Qed.

Lemma built_fetched (terms : list str) :
  ∃ fetched,
    Forall2 (λ t (p : gmap Z (list Z)),
               get_postings self t = Ok p
               ∧ ∀ doc_id, p !! doc_id
                   = observed_at tokenize (find collection limit) t doc_id)
            terms fetched.
Proof.
  induction terms as [| t terms (fetched & Hall)]; [exists []; constructor |].
  destruct (built_postings t) as (p & Hp & Hobs).
  exists (p :: fetched). now constructor.
Qed.

(** The position lists that [_sequence_search] hands to [_check_sequence]
    for a document: the positions of every term among its tokens, provided
    every term occurs there. *)
Lemma fetched_positions (terms : list str) (fetched : list (gmap Z (list Z)))
    (doc_id : Z) (pl : list (list Z)) :
  terms ≠ [] →
  Forall2 (λ t (p : gmap Z (list Z)),
             get_postings self t = Ok p
             ∧ ∀ doc_id, p !! doc_id
                 = observed_at tokenize (find collection limit) t doc_id)
          terms fetched →
  Forall2 (λ (p : gmap Z (list Z)) ps, p !! doc_id = Some ps) fetched pl
  ↔ ∃ tokens,
      tokens_of tokenize (find collection limit) doc_id = Some tokens
      ∧ Forall (λ t, t ∈ tokens) terms
      ∧ pl = (λ t, positions_in t 0 tokens) <$> terms.
Proof.
  intros Hterms Hall. pose proof (λ t, observed_at_tokens t doc_id) as Hobs.
  destruct (tokens_of tokenize (find collection limit) doc_id) as [tokens |].
  - split.
    + intros Hpl. exists tokens. split; [reflexivity |].
      clear Hterms. revert pl Hpl.
      induction Hall as [| t p terms fetched [_ Hp] _ IH]; intros pl Hpl.
      * apply Forall2_nil_inv_l in Hpl as ->. split; [constructor | reflexivity].
      * apply Forall2_cons_inv_l in Hpl as (ps & pl' & Hps & Hpl & ->).
        destruct (IH _ Hpl) as [Hin ->].
        rewrite Hp, (Hobs t) in Hps.
        destruct (bool_decide _) eqn:Hnil; [discriminate |].
        apply bool_decide_eq_false in Hnil. injection Hps as <-.
        split; [| reflexivity]. constructor; [| assumption].
        now apply (positions_in_nonempty t tokens 0).
    + intros (? & [= <-] & Hin & ->). clear Hterms.
      induction Hall as [| t p terms fetched [_ Hp] _ IH]; [constructor |].
      apply Forall_cons in Hin as [Ht Hin]. cbn [fmap list_fmap].
      constructor; [| now apply IH].
      rewrite Hp, (Hobs t), bool_decide_eq_false_2; [reflexivity |].
      now apply (positions_in_nonempty t tokens 0).
  - split; [| intros (? & [=] & _)].
    intros Hpl. destruct Hall as [| t p terms fetched [_ Hp] _]; [congruence |].
    apply Forall2_cons_inv_l in Hpl as (ps & pl' & Hps & _ & _).
    rewrite Hp, (Hobs t) in Hps. discriminate.
Qed.

Lemma infix_lookup (terms tokens : list str) (n : nat) :
  (∀ (i : nat) t, terms !! i = Some t → tokens !! (n + i)%nat = Some t) →
  tokens = take n tokens ++ terms ++ drop (n + length terms) tokens.
Proof.
  revert n. induction terms as [| t terms IH]; intros n Hall.
  - cbn [app length]. now rewrite Nat.add_0_r, take_drop.
  - pose proof (Hall O t eq_refl) as Ht. rewrite Nat.add_0_r in Ht.
    rewrite (IH (S n)) at 1.
    + rewrite (take_S_r _ _ _ Ht), <- app_assoc. cbn [app length].
      now rewrite Nat.add_succ_r.
    + intros i t' Hi. specialize (Hall (S i) t' Hi).
      now rewrite Nat.add_succ_r in Hall.
Qed.

(** The phrase test on the position lists of a document is the test that
    the terms stand side by side among its tokens. *)
Lemma check_phrase_tokens (terms tokens : list str) :
  terms ≠ [] →
  accepted ((λ t, positions_in t 0 tokens) <$> terms)
    (Z.of_nat (length terms)) = true
  ↔ phrase_in terms tokens.
Proof.
  intros Hterms.
  rewrite <- (length_fmap (λ t, positions_in t 0 tokens) terms) at 1.
  rewrite check_sequence_exact. split.
  - intros (p & Hall).
    assert (Hat : ∀ (i : nat) t, terms !! i = Some t →
              ∃ j : nat, p + Z.of_nat i = Z.of_nat j ∧ tokens !! j = Some t).
    { intros i t Hi.
      specialize (Hall i (positions_in t 0 tokens)).
      rewrite list_lookup_fmap, Hi in Hall. specialize (Hall eq_refl).
      apply positions_in_spec in Hall as (j & Hj & Htok). exists j.
      split; [lia | assumption]. }
    assert (Hp : 0 <= p).
    { destruct terms as [| t terms]; [congruence |].
      destruct (Hat O t eq_refl) as (j & Hj & _). lia. }
    exists (take (Z.to_nat p) tokens),
      (drop (Z.to_nat p + length terms) tokens).
    apply infix_lookup. intros i t Hi.
    destruct (Hat i t Hi) as (j & Hj & Htok).
    now replace (Z.to_nat p + i)%nat with j by lia.
  - intros (before & after & ->). exists (Z.of_nat (length before)).
    intros i c Hi. rewrite list_lookup_fmap in Hi.
    destruct (terms !! i) as [t |] eqn:Ht; [| discriminate].
    injection Hi as <-. apply positions_in_spec.
    exists (length before + i)%nat. split; [lia |].
    rewrite lookup_app_r by lia.
    replace (length before + i - length before)%nat with i by lia.
    now apply lookup_app_l_Some.
Qed.

(** The other test is the test that the terms occur in order within the
    distance. *)
Lemma check_near_tokens (terms tokens : list str) (max_dist : Z) :
  max_dist ≠ Z.of_nat (length terms) →
  accepted ((λ t, positions_in t 0 tokens) <$> terms) max_dist = true
  ↔ near_in max_dist terms tokens.
Proof.
  intros Hdist. rewrite check_sequence_loose by now rewrite length_fmap.
  unfold near_in. split.
  - intros (ps & Hps & Hsorted & Hwithin).
    apply (Forall2_fmap_r (λ t, positions_in t 0 tokens)) in Hps.
    assert (Hnat : Forall2 (λ (p : Z) t, 0 <= p ∧ tokens !! Z.to_nat p = Some t)
                           ps terms).
    { eapply Forall2_impl; [exact Hps |]. cbn beta. intros p t Hp.
      apply positions_in_spec in Hp as (j & -> & Hj).
      split; [lia |]. now rewrite Z.add_0_l, Nat2Z.id. }
    assert (Hback : Z.of_nat <$> (Z.to_nat <$> ps) = ps).
    { clear -Hnat. induction Hnat as [| p t ps terms [Hp _] _ IH];
        [reflexivity |].
      cbn [fmap list_fmap] in *. rewrite IH. f_equal. lia. }
    exists (Z.to_nat <$> ps). split; [| split].
    + apply Forall2_fmap_l. eapply Forall2_impl; [exact Hnat |].
      now intros p t [_ ?].
    + clear -Hnat Hsorted. revert terms Hnat.
      induction Hsorted as [| p ps Hsorted IH Hhd]; intros terms Hnat;
        [constructor |].
      apply Forall2_cons_inv_l in Hnat as (t & terms' & [Hp _] & Hnat & ->).
      cbn [fmap list_fmap]. constructor; [eapply IH; eassumption |].
      destruct Hhd as [| q ps' Hq]; [constructor |].
      apply Forall2_cons_inv_l in Hnat as (t' & ? & [Hq' _] & _ & _).
      constructor. lia.
    + now rewrite Hback.
  - intros (ps & Hps & Hsorted & Hwithin).
    exists (Z.of_nat <$> ps). split; [| split; [| assumption]].
    + apply Forall2_fmap. eapply Forall2_impl; [exact Hps |]. cbn beta.
      intros p t Hp. apply positions_in_spec. exists p. auto.
    + clear -Hsorted. induction Hsorted as [| p ps Hsorted IH Hhd];
        [constructor |].
      cbn [fmap list_fmap]. constructor; [assumption |].
      destruct Hhd as [| q ps' Hq]; constructor. lia.
Qed.

(** The documents of [_sequence_search] over the reader, when the depth
    suffices for the terms. *)
Lemma built_sequence_search (tokenizer : str → list str) (depth : nat)
    (terms : list str) (max_dist : Z) :
  (length terms < depth)%nat →
  ∃ A, _sequence_search (new_engine self tokenizer depth) terms max_dist = Ok A
       ∧ ∀ doc_id, doc_id ∈ A
           ↔ terms ≠ []
             ∧ ∃ tokens,
                 tokens_of tokenize (find collection limit) doc_id = Some tokens
                 ∧ Forall (λ t, t ∈ tokens) terms
                 ∧ accepted ((λ t, positions_in t 0 tokens) <$> terms)
                     max_dist = true.
Proof.
  intros Hdepth.
  destruct (built_fetched terms) as (fetched & Hall).
  destruct (sequence_search_docs (new_engine self tokenizer depth) terms fetched
              max_dist Hdepth) as (A & HA & Hdocs).
  { eapply Forall2_impl; [exact Hall |]. now intros t p [? _]. }
  exists A. split; [exact HA |]. intros doc_id. rewrite Hdocs. split.
  - intros [Hterms (pl & Hpl & Hcheck)]. split; [assumption |].
    apply (fetched_positions terms fetched doc_id pl Hterms Hall) in Hpl
      as (tokens & Htokens & Hin & ->). eauto.
  - intros [Hterms (tokens & Htokens & Hin & Hcheck)]. split; [assumption |].
    exists ((λ t, positions_in t 0 tokens) <$> terms). split; [| assumption].
    apply (fetched_positions terms fetched doc_id _ Hterms Hall). eauto.
Qed.

(** At any depth, [_sequence_search] over the reader returns documents of
    the collection, or raises [RecursionError]. *)
Lemma built_sequence_search_total (tokenizer : str → list str) (depth : nat)
    (terms : list str) (max_dist : Z) :
  (∃ A, _sequence_search (new_engine self tokenizer depth) terms max_dist = Ok A
        ∧ ∀ doc_id, doc_id ∈ A →
            ∃ tokens,
              tokens_of tokenize (find collection limit) doc_id = Some tokens)
  ∨ _sequence_search (new_engine self tokenizer depth) terms max_dist
    = Raise RecursionError.
Proof.
  destruct (built_fetched terms) as (fetched & Hall).
  destruct (sequence_search_total (new_engine self tokenizer depth) terms
              fetched max_dist) as [(A & HA & Hdocs) | Hraise];
    [| left | now right].
  { eapply Forall2_impl; [exact Hall |]. now intros t p [? _]. }
  exists A. split; [exact HA |]. intros doc_id Hin.
  destruct (Hdocs doc_id Hin) as [Hterms Hsome].
  destruct Hall as [| t p terms fetched [_ Hp] _]; [congruence |].
  apply Forall_cons in Hsome as [Hsome _]. rewrite Hp in Hsome.
  apply observed_at_is_Some in Hsome as (tokens & Htokens & _). eauto.
Qed.

Lemma infix_elem_of (terms tokens : list str) :
  phrase_in terms tokens → Forall (λ t, t ∈ tokens) terms.
Proof.
  intros (before & after & ->). apply Forall_forall. intros t Ht.
  rewrite !elem_of_app. auto.
Qed.

Lemma near_elem_of (terms tokens : list str) (max_dist : Z) :
  near_in max_dist terms tokens → Forall (λ t, t ∈ tokens) terms.
Proof.
  intros (ps & Hps & _). apply Forall_forall. intros t Ht.
  apply list_elem_of_lookup in Ht as [i Hi].
  destruct (Forall2_lookup_r _ _ _ _ _ Hps Hi) as (p & _ & Hp).
  eapply list_elem_of_lookup_2; eassumption.
Qed.

(** X21. A phrase finds the documents in which its terms stand side by
    side. Over the reader opened on the files of a build, with terms of at
    most 255 bytes in UTF-8 and documents of fewer than [2 ^ 42] tokens,
    and with fewer terms in the phrase than the interpreter allows nested
    calls, [PHRASE val] evaluates to the set of the documents whose tokens,
    as the indexer saw them, hold the tokens of [val] one after the other;
    a phrase without tokens finds nothing. *)
Theorem phrase_search (tokenizer : str → list str) (depth : nat) (val : str) :
  (length (tokenizer val) < depth)%nat →
  ∃ A, _solve_rpn (new_engine self tokenizer depth) [PHRASE val] = Ok A
       ∧ ∀ doc_id, doc_id ∈ A
           ↔ tokenizer val ≠ []
             ∧ ∃ tokens,
                 tokens_of tokenize (find collection limit) doc_id = Some tokens
                 ∧ phrase_in (tokenizer val) tokens.
Proof.
  intros Hdepth.
  destruct (built_sequence_search tokenizer depth (tokenizer val)
              (Z.of_nat (length (tokenizer val))) Hdepth) as (A & HA & Hdocs).
  exists A. split.
  - unfold _solve_rpn. cbn [run_rpn rpn_step new_engine search.tokenizer].
    cbn [new_engine] in HA. now rewrite HA.
  - intros doc_id. rewrite Hdocs. split.
    + intros [Hterms (tokens & Htokens & _ & Hcheck)]. split; [assumption |].
      exists tokens. split; [assumption |].
      now apply check_phrase_tokens in Hcheck.
    + intros [Hterms (tokens & Htokens & Hphrase)]. split; [assumption |].
      exists tokens. split; [assumption |].
      split; [now apply infix_elem_of | now apply check_phrase_tokens].
Qed.

(** X22. A proximity finds the documents in which its terms occur in order
    within the distance. Over the reader opened on the files of a build,
    with terms of at most 255 bytes in UTF-8 and documents of fewer than
    [2 ^ 42] tokens, and with fewer terms than the interpreter allows nested
    calls, [PROXIMITY val dist] evaluates to the set of the documents whose
    tokens hold the tokens of [val] at ascending positions, every one at
    most [dist] after the first. The distance that equals the number of
    terms is read as a phrase: then the terms must stand side by side. *)
Theorem proximity_search (tokenizer : str → list str) (depth : nat)
    (val : str) (dist : Z) :
  (length (tokenizer val) < depth)%nat →
  ∃ A, _solve_rpn (new_engine self tokenizer depth) [PROXIMITY val dist] = Ok A
       ∧ ∀ doc_id, doc_id ∈ A
           ↔ tokenizer val ≠ []
             ∧ ∃ tokens,
                 tokens_of tokenize (find collection limit) doc_id = Some tokens
                 ∧ if bool_decide (dist = Z.of_nat (length (tokenizer val)))
                   then phrase_in (tokenizer val) tokens
                   else near_in dist (tokenizer val) tokens.
Proof.
  intros Hdepth.
  destruct (built_sequence_search tokenizer depth (tokenizer val) dist Hdepth)
    as (A & HA & Hdocs).
  exists A. split.
  - unfold _solve_rpn. cbn [run_rpn rpn_step new_engine search.tokenizer].
    cbn [new_engine] in HA. now rewrite HA.
  - intros doc_id. rewrite Hdocs.
    destruct (decide (dist = Z.of_nat (length (tokenizer val)))) as [-> | Hne].
    + rewrite bool_decide_eq_true_2 by reflexivity. split.
      * intros [Hterms (tokens & Htokens & _ & Hcheck)]. split; [assumption |].
        exists tokens. split; [assumption |].
        now apply check_phrase_tokens in Hcheck.
      * intros [Hterms (tokens & Htokens & Hphrase)]. split; [assumption |].
        exists tokens. split; [assumption |].
        split; [now apply infix_elem_of | now apply check_phrase_tokens].
    + rewrite bool_decide_eq_false_2 by assumption. split.
      * intros [Hterms (tokens & Htokens & _ & Hcheck)]. split; [assumption |].
        exists tokens. split; [assumption |].
        now apply check_near_tokens in Hcheck.
      * intros [Hterms (tokens & Htokens & Hnear)]. split; [assumption |].
        exists tokens. split; [assumption |].
        split; [now apply (near_elem_of _ _ dist) | now apply check_near_tokens].
Qed.

End BuiltSearch.

(** ** The total search over the index of a build *)

Section DocsCount.
Import indexer search.

Lemma read_offsets_length (count : nat) :
  ∀ f acc offsets f',
    read_offsets count f acc = Ok (offsets, f') →
    length offsets = (length acc + count)%nat.
Proof.
  induction count as [| count IH]; intros f acc offsets f' Hread.
  - injection Hread as <- <-. lia.
  - cbn [read_offsets] in Hread. destruct (read 8 f) as [b f1].
    destruct (unpack 8 b) as [off |]; [| discriminate].
    cbn [mbind result_bind] in Hread. apply IH in Hread.
    rewrite length_app in Hread. cbn [length] in Hread. lia.
Qed.

Lemma read_doc_infos_length (ver : Z) (offsets : list Z) :
  ∀ f acc infos,
    read_doc_infos ver offsets f acc = Ok infos →
    length infos = (length acc + length offsets)%nat.
Proof.
  induction offsets as [| off offsets IH]; intros f acc infos Hread.
  - injection Hread as <-. cbn. lia.
  - cbn [read_doc_infos] in Hread.
    destruct (read 2 (seek (Z.to_nat off) f)) as [b1 f1].
    destruct (unpack 2 b1) as [url_len |]; [| discriminate].
    cbn [mbind result_bind] in Hread.
    destruct (read (Z.to_nat url_len) f1) as [b2 f2].
    destruct (decode_utf8 b2) as [url |]; [| discriminate].
    cbn [mbind result_bind] in Hread.
    destruct (if 3 <=? ver then _ else _) as [[title f3] |]; [| discriminate].
    cbn [mbind result_bind] in Hread. apply IH in Hread.
    rewrite length_app in Hread. cbn [length] in *. lia.
Qed.

Lemma load_docs_header (n : Z) (rest : bytes) (infos : list DocInfo) :
  0 <= n < 256 ^ Z.of_nat 4 →
  _load_docs (MAGIC_DOCS ++ [3; 0] ++ le_bytes 4 n ++ rest) = Ok infos →
  length infos = Z.to_nat n.
Proof.
  intros Hn. unfold _load_docs. rewrite read_start.
  rewrite take_app_length' by reflexivity.
  rewrite bool_decide_eq_true_2 by reflexivity. cbn [negb].
  change (length MAGIC_DOCS) with 4%nat.
  rewrite (read_chunk _ MAGIC_DOCS [3; 0] (le_bytes 4 n ++ rest)) by reflexivity.
  change (unpack 2 [3; 0]) with (Ok 3). cbn [mbind result_bind].
  rewrite (read_chunk _ (MAGIC_DOCS ++ [3; 0]) (le_bytes 4 n) rest)
    by (rewrite <- ?app_assoc, ?length_le_bytes; reflexivity).
  rewrite unpack_le_bytes by assumption. cbn [mbind result_bind].
  destruct (read_offsets _ _ _) as [[offsets f] |] eqn:Hoffsets; [| discriminate].
  cbn [mbind result_bind]. intros Hread.
  apply read_offsets_length in Hoffsets.
  apply read_doc_infos_length in Hread. cbn [length] in *. lia.
Qed.

Lemma write_docs_index_header (infos : list (str * str)) (docs : bytes) :
  write_docs_index infos = Ok docs →
  0 <= Z.of_nat (length infos) < 256 ^ Z.of_nat 4
  ∧ ∃ rest, docs = MAGIC_DOCS ++ [3; 0]
                   ++ le_bytes 4 (Z.of_nat (length infos)) ++ rest.
Proof.
  unfold write_docs_index.
  destruct (write_doc_records infos [] []) as [[data offsets] |];
    [| discriminate].
  cbn [mbind result_bind]. change (pack 2 VERSION) with (Ok [3; 0]).
  cbn [mbind result_bind].
  destruct (pack 4 _) as [bc |] eqn:Hbc; [| discriminate].
  cbn [mbind result_bind]. apply pack_Ok in Hbc as [-> Hcount].
  assert (Hheader : at_end (write [3; 0] (write indexer.MAGIC_DOCS open_wb)))
    by reflexivity.
  destruct (write_at_end (le_bytes 4 (Z.of_nat (length infos))) _ Hheader)
    as [Hc0 Hend0].
  change (content (write [3; 0] (write indexer.MAGIC_DOCS open_wb)))
    with (MAGIC_DOCS ++ [3; 0]) in Hc0.
  destruct (write_offsets _ offsets _) as [f1 |] eqn:Hoffsets; [| discriminate].
  cbn [mbind result_bind]. unfold mret, result_ret. intros Heq.
  assert (Hdocs : docs = content (write data f1)) by congruence.
  clear Heq. subst docs.
  destruct (write_offsets_spec _ _ _ _ Hend0 Hoffsets) as (Hc1 & Hend1 & _).
  destruct (write_at_end data f1 Hend1) as [-> _].
  split; [assumption |]. rewrite Hc1, Hc0. eexists.
  rewrite <- !app_assoc. reflexivity.
Qed.

Lemma built_docs_count (tokenize : str → list str) (block_size : Z)
    (collection : list document) (limit : Z) (files : index_files)
    (self : CompressedIndexReader) :
  build_index_sized tokenize block_size collection limit = Ok files →
  open_reader files = Ok self →
  length (search.doc_infos self) = length (find collection limit).
Proof.
  unfold build_index_sized. intros Hbuild Hopen.
  rewrite build_blocks_infos in Hbuild.
  destruct (write_docs_index _) as [docs |] eqn:Hdocs; [| discriminate].
  cbn [mbind result_bind] in Hbuild.
  destruct (merge_blocks _ _) as [[dict post] |]; [| discriminate].
  cbn [mbind result_bind mret result_ret] in Hbuild. injection Hbuild as <-.
  unfold open_reader in Hopen. cbn [index_docs index_dict index_postings] in Hopen.
  destruct (_load_docs docs) as [infos |] eqn:Hload; [| discriminate].
  cbn [mbind result_bind] in Hopen.
  destruct (_load_dict dict) as [td |]; [| discriminate].
  cbn [mbind result_bind mret result_ret] in Hopen. injection Hopen as <-.
  cbn [search.doc_infos].
  destruct (write_docs_index_header _ _ Hdocs) as (Hcount & rest & ->).
  apply load_docs_header in Hload; [| assumption].
  rewrite length_fmap in *. lia.
Qed.

End DocsCount.

Section ParseErrors.
Import search.

Lemma int_raises (s : str) (e : exn) :
  int s = Raise e → ∃ msg, e = ValueError msg.
Proof.
  unfold int.
  match goal with
  | |- context [let '(_, _) := ?x in _] => destruct x as [sign buffer]
  end.
  destruct (scan_digits buffer 95 0 0) as [[[value digits] rest] |];
    [| intros [= <-]; eauto].
  destruct (_ <? _)%nat; [intros [= <-]; eauto |].
  destruct (forallb _ _); [discriminate | intros [= <-]; eauto].
Qed.

Lemma split_char_nonempty (sep : Z) (s : str) :
  ∃ field fields, split_char sep s = field :: fields.
Proof.
  induction s as [| c rest (field & fields & IH)]; [cbn; eauto |].
  cbn [split_char]. rewrite IH. destruct (c =? sep); eauto.
Qed.

Lemma num_field (num : str) :
  startswith num (py "NUM:") = true →
  ∃ field, getitem (split_char 58 num) 1 = Ok field.
Proof.
  change (py "NUM:") with [78; 85; 77; 58].
  destruct num as [| c1 [| c2 [| c3 [| c4 d]]]]; cbn [startswith];
    rewrite ?andb_false_r; try discriminate.
  rewrite !andb_true_iff, !Z.eqb_eq.
  intros (-> & -> & -> & -> & _).
  destruct (split_char_nonempty 58 d) as (field & fields & Hd).
  exists field. cbn [split_char]. rewrite Hd.
  change (getitem ([78; 85; 77] :: field :: fields) 1 = Ok field).
  unfold getitem. cbn [length].
  destruct (Z.ltb_spec 1 0); [lia |].
  destruct (Z.leb_spec 0 1); [| lia].
  destruct (Z.ltb_spec 1 (Z.of_nat (S (S (length fields))))); [| lia].
  reflexivity.
Qed.

Lemma process_tokens_raises (n : nat) :
  ∀ tokens e, (length tokens ≤ n)%nat →
    process_tokens tokens = Raise e → ∃ msg, e = ValueError msg.
Proof.
  induction n as [| n IH]; intros tokens e Hlen.
  - destruct tokens; [discriminate | cbn in Hlen; lia].
  - destruct tokens as [| t rest]; [discriminate |].
    cbn [length] in Hlen. cbn [process_tokens].
    assert (Hrest : ∀ x, (more ← process_tokens rest; mret (x :: more))
                         = Raise e → ∃ msg, e = ValueError msg).
    { intros x. destruct (process_tokens rest) eqn:Hp; [discriminate |].
      cbn. intros [= <-]. apply (IH rest); [lia | assumption]. }
    destruct (is_operand t).
    + destruct rest as [| slash [| num rest']]; try apply Hrest.
      destruct (bool_decide (slash = py "/") && startswith num (py "NUM:"))
        eqn:Hsuffix; [| apply Hrest].
      apply andb_true_iff in Hsuffix as [_ Hnum].
      destruct (num_field num Hnum) as (field & ->). cbn [mbind result_bind].
      destruct (int field) as [dist | e'] eqn:Hint.
      * cbn [mbind result_bind].
        destruct (process_tokens rest') eqn:Hp; [discriminate |].
        cbn. intros [= <-]. apply (IH rest'); [cbn in Hlen; lia | assumption].
      * cbn. intros [= <-]. eapply int_raises, Hint.
    + destruct (op_of_str t); [apply Hrest |].
      apply IH. lia.
Qed.

End ParseErrors.

Section SearchTotal.
Import indexer search.

Variable tokenize : str → list str.
Variable block_size : Z.
Variable collection : list document.
Variable limit : Z.
Variable files : index_files.
Variable self : CompressedIndexReader.
Variable tokenizer : str → list str.
Variable depth : nat.

Hypothesis built :
  build_index_sized tokenize block_size collection limit = Ok files.
Hypothesis opened : open_reader files = Ok self.
Hypothesis short_terms :
  ∀ term encoded, emitted tokenize (find collection limit) term →
    encode_utf8 term = Ok encoded → (length encoded ≤ 255)%nat.
Hypothesis short_documents :
  ∀ doc, doc ∈ find collection limit →
    Z.of_nat (length (tokenize (parsed_text doc))) < 2 ^ 42.

Lemma tokens_of_all_docs (doc_id : Z) (tokens : list str) :
  tokens_of tokenize (find collection limit) doc_id = Some tokens →
  doc_id ∈ all_docs (new_engine self tokenizer depth).
Proof.
  intros Htokens. apply tokens_of_in_universe in Htokens.
  cbn [new_engine all_docs]. apply elem_of_set_range.
  now rewrite (built_docs_count _ _ _ _ _ _ built opened).
Qed.

Lemma rpn_step_universe (stack : list (gset Z)) (token : token) :
  Forall (λ A : gset Z, A ⊆ all_docs (new_engine self tokenizer depth)) stack →
  (∃ stack', rpn_step (new_engine self tokenizer depth) stack token = Ok stack'
             ∧ Forall (λ A : gset Z,
                         A ⊆ all_docs (new_engine self tokenizer depth))
                      stack')
  ∨ rpn_step (new_engine self tokenizer depth) stack token
    = Raise RecursionError.
Proof.
  intros Hstack.
  assert (Hpush : ∀ A : gset Z,
            (∀ doc_id, doc_id ∈ A →
               ∃ tokens, tokens_of tokenize (find collection limit) doc_id
                         = Some tokens) →
            Forall (λ A : gset Z,
                      A ⊆ all_docs (new_engine self tokenizer depth))
                   (A :: stack)).
  { intros A HA. constructor; [| assumption]. intros doc_id Hin.
    destruct (HA doc_id Hin) as [tokens Htokens].
    eapply tokens_of_all_docs, Htokens. }
  destruct token as [w | val | val dist | o].
  - left.
    destruct (built_term_search tokenize block_size collection limit files self
                built opened short_terms short_documents tokenizer depth w)
      as (A & HA & Hdocs).
    unfold _solve_rpn in HA. cbn [run_rpn] in HA.
    assert (Hstep : rpn_step (new_engine self tokenizer depth) stack (TERM w)
                    = Ok (A :: stack)).
    { unfold rpn_step in *. cbn [new_engine search.tokenizer reader] in *.
      destruct (tokenizer w) as [| stem stems].
      - cbn in HA. now injection HA as <-.
      - destruct (get_postings self stem) as [postings |]; [| discriminate].
        cbn in HA. now injection HA as <-. }
    exists (A :: stack). split; [exact Hstep |]. apply Hpush.
    intros doc_id Hin. apply Hdocs in Hin as (? & tokens & _ & ? & _). eauto.
  - destruct (built_sequence_search_total tokenize block_size collection limit
                files self built opened short_terms short_documents tokenizer
                depth (tokenizer val) (Z.of_nat (length (tokenizer val))))
      as [(A & HA & Hdocs) | Hraise].
    + left. exists (A :: stack). split; [| now apply Hpush].
      cbn [rpn_step new_engine search.tokenizer]. cbn [new_engine] in HA.
      now rewrite HA.
    + right. cbn [rpn_step new_engine search.tokenizer].
      cbn [new_engine] in Hraise. now rewrite Hraise.
  - destruct (built_sequence_search_total tokenize block_size collection limit
                files self built opened short_terms short_documents tokenizer
                depth (tokenizer val) dist)
      as [(A & HA & Hdocs) | Hraise].
    + left. exists (A :: stack). split; [| now apply Hpush].
      cbn [rpn_step new_engine search.tokenizer]. cbn [new_engine] in HA.
      now rewrite HA.
    + right. cbn [rpn_step new_engine search.tokenizer].
      cbn [new_engine] in Hraise. now rewrite Hraise.
  - left.
    destruct o; cbn [rpn_step]; try (eexists; split; [reflexivity | assumption]).
    + destruct stack as [| b [| a below]];
        try (eexists; split; [reflexivity | assumption]).
      eexists. split; [reflexivity |].
      apply Forall_cons in Hstack as [Hb Hstack].
      apply Forall_cons in Hstack as [Ha Hstack].
      constructor; [| assumption]. intros x [Hx _]%elem_of_intersection. auto.
    + destruct stack as [| b [| a below]];
        try (eexists; split; [reflexivity | assumption]).
      eexists. split; [reflexivity |].
      apply Forall_cons in Hstack as [Hb Hstack].
      apply Forall_cons in Hstack as [Ha Hstack].
      constructor; [| assumption]. intros x [Hx | Hx]%elem_of_union; auto.
    + destruct stack as [| a below];
        [eexists; split; [reflexivity | assumption] |].
      eexists. split; [reflexivity |].
      apply Forall_cons in Hstack as [Ha Hstack].
      constructor; [| assumption]. now intros x [Hx _]%elem_of_difference.
Qed.

Lemma run_rpn_universe (rpn : list token) :
  ∀ stack,
    Forall (λ A : gset Z, A ⊆ all_docs (new_engine self tokenizer depth))
           stack →
    (∃ stack', run_rpn (new_engine self tokenizer depth) rpn stack = Ok stack'
               ∧ Forall (λ A : gset Z,
                           A ⊆ all_docs (new_engine self tokenizer depth))
                        stack')
    ∨ run_rpn (new_engine self tokenizer depth) rpn stack
      = Raise RecursionError.
Proof.
  induction rpn as [| token rpn IH]; intros stack Hstack; [eauto |].
  cbn [run_rpn].
  destruct (rpn_step_universe stack token Hstack)
    as [(stack1 & -> & Hstack1) | ->]; [| now right].
  cbn [mbind result_bind]. now apply IH.
Qed.

(** X23. Searching the index of a build raises none of the exceptions of
    the index. Over the reader opened on the files of a build, with terms of
    at most 255 bytes in UTF-8 and documents of fewer than [2 ^ 42] tokens,
    and with a tokenizer that answers every text, [execute] either returns
    a set of document numbers, all of them numbers of documents of the
    collection, or raises the [ValueError] of a distance that [int]
    refuses, or the [RecursionError] of a phrase with more terms than the
    interpreter allows nested calls. No [IndexError] of the decoder, no
    [struct.error] and no [KeyError] leaves it. *)
Theorem search_never_fails (query : str) :
  (∃ A, execute (new_engine self tokenizer depth) query = Ok A
        ∧ A ⊆ all_docs (new_engine self tokenizer depth)
        ∧ ∀ doc_id, doc_id ∈ A →
            0 <= doc_id < Z.of_nat (length (find collection limit)))
  ∨ (∃ msg, execute (new_engine self tokenizer depth) query
            = Raise (ValueError msg))
  ∨ execute (new_engine self tokenizer depth) query = Raise RecursionError.
Proof.
  unfold execute, _evaluate_recursive, rpn_of_tokens.
  destruct (process_tokens (_tokenize query)) as [processed | e] eqn:Hp.
  - cbn [mbind result_bind mret result_ret]. unfold _solve_rpn.
    destruct (run_rpn_universe
                (shunting_yard (add_implicit_and processed) [] []) [])
      as [(stack & -> & Hstack) | ->]; [constructor | | now right; right].
    left. cbn [mbind result_bind mret result_ret].
    assert (Hlast : default ∅ (last stack)
                    ⊆ all_docs (new_engine self tokenizer depth)).
    { destruct (last stack) as [A |] eqn:Hlast; [| intros x []%elem_of_empty].
      apply last_Some in Hlast as (below & ->).
      apply Forall_app in Hstack as [_ Hstack]. now apply Forall_cons in Hstack. }
    eexists. split; [reflexivity |]. split; [exact Hlast |].
    intros doc_id Hin. apply Hlast in Hin. cbn [new_engine all_docs] in Hin.
    apply elem_of_set_range in Hin.
    now rewrite (built_docs_count _ _ _ _ _ _ built opened) in Hin.
  - right. left. apply (process_tokens_raises _ _ _ (le_n _)) in Hp as [msg ->].
    eauto.
Qed.

End SearchTotal.

Ltac scenario_index :=
  lazymatch goal with
  | |- indexer.build_index_sized _ _ _ _ = Ok _ => vm_compute; reflexivity
  | |- search.open_reader _ = Ok _ => vm_compute; reflexivity
  | |- ∀ term encoded, emitted _ _ term → _ =>
      let t := fresh "t" in
      let e := fresh "e" in
      let doc := fresh "doc" in
      let Hdoc := fresh "Hdoc" in
      let Ht := fresh "Ht" in
      let He := fresh "He" in
      let Hcheck := fresh "Hcheck" in
      intros t e (doc & Hdoc & Ht) He;
      assert (Hcheck :
        Forall (λ doc, Forall (λ t, match encode_utf8 t with
                                    | Ok e => (length e <=? 255)%nat
                                    | Raise _ => true
                                    end = true)
                         (Scenario.tokenize (indexer.parsed_text doc)))
               Scenario.corpus)
        by (refine (bool_decide_unpack _ _); vm_compute; exact I);
      pose proof (proj1 (Forall_forall _ _)
                    (proj1 (Forall_forall _ _) Hcheck doc Hdoc) t Ht) as Hcheck';
      cbn beta in Hcheck'; rewrite He in Hcheck';
      now apply Nat.leb_le in Hcheck'
  | |- ∀ doc, doc ∈ _ → _ < _ =>
      let doc := fresh "doc" in
      let Hdoc := fresh "Hdoc" in
      let Hcheck := fresh "Hcheck" in
      intros doc Hdoc;
      assert (Hcheck :
        Forall (λ doc, Z.of_nat (length (Scenario.tokenize
                                           (indexer.parsed_text doc))) < 2 ^ 42)
               Scenario.corpus)
        by (refine (bool_decide_unpack _ _); vm_compute; exact I);
      exact (proj1 (Forall_forall _ _) Hcheck doc Hdoc)
  end.

Lemma term_search_witness :
  ∃ A, search._solve_rpn
         (search.new_engine scenario_reader Scenario.tokenize 900)
         [search.TERM (py "Fox")] = Ok A
       ∧ ∀ doc_id, doc_id ∈ A
           ↔ ∃ stem tokens,
               head (Scenario.tokenize (py "Fox")) = Some stem
               ∧ tokens_of Scenario.tokenize (indexer.find Scenario.corpus 0)
                   doc_id = Some tokens
               ∧ stem ∈ tokens.
Proof.
  apply (term_search Scenario.tokenize 2 Scenario.corpus 0 scenario_files
           scenario_reader); scenario_index.
Defined.

Lemma phrase_search_witness :
  ∃ A, search._solve_rpn
         (search.new_engine scenario_reader Scenario.tokenize 900)
         [search.PHRASE (py "quick fox")] = Ok A
       ∧ ∀ doc_id, doc_id ∈ A
           ↔ Scenario.tokenize (py "quick fox") ≠ []
             ∧ ∃ tokens,
                 tokens_of Scenario.tokenize (indexer.find Scenario.corpus 0)
                   doc_id = Some tokens
                 ∧ phrase_in (Scenario.tokenize (py "quick fox")) tokens.
Proof.
  apply (phrase_search Scenario.tokenize 2 Scenario.corpus 0 scenario_files
           scenario_reader); try scenario_index.
  apply Nat.ltb_lt. vm_compute. reflexivity.
Defined.

Lemma proximity_search_witness :
  ∃ A, search._solve_rpn
         (search.new_engine scenario_reader Scenario.tokenize 900)
         [search.PROXIMITY (py "the fox") 3] = Ok A
       ∧ ∀ doc_id, doc_id ∈ A
           ↔ Scenario.tokenize (py "the fox") ≠ []
             ∧ ∃ tokens,
                 tokens_of Scenario.tokenize (indexer.find Scenario.corpus 0)
                   doc_id = Some tokens
                 ∧ if bool_decide
                        (3 = Z.of_nat (length (Scenario.tokenize (py "the fox"))))
                   then phrase_in (Scenario.tokenize (py "the fox")) tokens
                   else near_in 3 (Scenario.tokenize (py "the fox")) tokens.
Proof.
  apply (proximity_search Scenario.tokenize 2 Scenario.corpus 0 scenario_files
           scenario_reader); try scenario_index.
  apply Nat.ltb_lt. vm_compute. reflexivity.
Defined.

Lemma search_never_fails_witness :
  (∃ A, search.execute
          (search.new_engine scenario_reader Scenario.tokenize 900)
          (py "brown && !fox") = Ok A
        ∧ A ⊆ search.all_docs
                (search.new_engine scenario_reader Scenario.tokenize 900)
        ∧ ∀ doc_id, doc_id ∈ A →
            0 <= doc_id
            < Z.of_nat (length (indexer.find Scenario.corpus 0)))
  ∨ (∃ msg, search.execute
              (search.new_engine scenario_reader Scenario.tokenize 900)
              (py "brown && !fox") = Raise (ValueError msg))
  ∨ search.execute
      (search.new_engine scenario_reader Scenario.tokenize 900)
      (py "brown && !fox") = Raise RecursionError.
Proof.
  apply (search_never_fails Scenario.tokenize 2 Scenario.corpus 0 scenario_files
           scenario_reader Scenario.tokenize 900); scenario_index.
Defined.

(** The recursion limit is met by a phrase with as many terms as the
    interpreter allows nested calls: two terms that stand side by side in a
    document, under an interpreter that allows two calls. *)
Example long_phrase_raises :
  search.execute (search.new_engine scenario_reader Scenario.tokenize 2)
    (Scenario.quoted "quick fox") = Raise RecursionError
  ∧ search.execute (search.new_engine scenario_reader Scenario.tokenize 3)
      (Scenario.quoted "quick fox") = Ok {[2]}.
Proof. split; vm_compute; reflexivity. Qed.

(** ** tokenizer_wrapper.py: the protocol of the client *)

Section Protocol.
Import tokenizer_wrapper.

Lemma lstrip_suffix (s : str) : ∃ spaces, s = spaces ++ lstrip s.
Proof.
  induction s as [| c s (spaces & IH)]; [exists []; reflexivity |].
  cbn [lstrip]. destruct (isspace c); [| exists []; reflexivity].
  exists (c :: spaces). cbn. now rewrite <- IH.
Qed.

Lemma lstrip_head (s : str) :
  match lstrip s with
  | [] => True
  | c :: _ => isspace c = false
  end.
Proof.
  induction s as [| c s IH]; [exact I |].
  cbn [lstrip]. destruct (isspace c) eqn:Hc; [exact IH | exact Hc].
Qed.

Lemma lstrip_id (s : str) :
  match s with
  | [] => True
  | c :: _ => isspace c = false
  end → lstrip s = s.
Proof. destruct s as [| c s]; [reflexivity |]. cbn. now intros ->. Qed.

(** What [strip] leaves starts and ends with a character that is not
    white space. *)
Lemma strip_ends (s : str) :
  match strip s with
  | [] => True
  | c :: _ => isspace c = false
  end
  ∧ match rev (strip s) with
    | [] => True
    | c :: _ => isspace c = false
    end.
Proof.
  unfold strip. set (a := lstrip s). set (b := lstrip (rev a)).
  rewrite rev_involutive. split; [| apply lstrip_head].
  destruct (lstrip_suffix (rev a)) as (spaces & Hb). fold b in Hb.
  pose proof (lstrip_head s) as Ha. fold a in Ha.
  destruct (rev b) as [| c rest] eqn:Hrev; [exact I |].
  assert (Hb' : b = rev rest ++ [c]).
  { rewrite <- (rev_involutive b), Hrev. reflexivity. }
  rewrite Hb', app_assoc in Hb.
  apply (f_equal (@rev _)) in Hb. rewrite rev_involutive, rev_unit in Hb.
  rewrite Hb in Ha. exact Ha.
Qed.

Lemma strip_id (s : str) :
  match s with
  | [] => True
  | c :: _ => isspace c = false
  end →
  match rev s with
  | [] => True
  | c :: _ => isspace c = false
  end →
  strip s = s.
Proof.
  intros Hhead Hlast. unfold strip.
  rewrite (lstrip_id s Hhead), (lstrip_id (rev s) Hlast).
  apply rev_involutive.
Qed.

Lemma strip_idempotent (s : str) : strip (strip s) = strip s.
Proof. destruct (strip_ends s). now apply strip_id. Qed.

Lemma read_tokens_clean (alive : bool) (out : list reading) :
  ∀ (acc tokens : list str) (out' : list reading),
    read_tokens alive out acc = Some (Ok tokens, out') →
    Forall (λ t, t ≠ [] ∧ strip t = t ∧ t ≠ END_DOC) acc →
    Forall (λ t, t ≠ [] ∧ strip t = t ∧ t ≠ END_DOC) tokens.
Proof.
  induction out as [| r out IH]; intros acc tokens out'; cbn [read_tokens].
  - destruct alive; [discriminate |]. now intros [= <- <-].
  - destruct r as [line |]; [| discriminate].
    destruct (bool_decide (line = [])); [now intros [= <- <-] |].
    destruct (bool_decide (strip line = END_DOC)) eqn:Hend;
      [now intros [= <- <-] |].
    destruct (bool_decide (strip line = [])) eqn:Hnil; [apply IH |].
    apply bool_decide_eq_false in Hend, Hnil.
    intros Hread Hacc. apply (IH _ _ _ Hread).
    apply Forall_app. split; [exact Hacc |].
    constructor; [| constructor]. auto using strip_idempotent.
Qed.

(** X24. Whatever the child prints, the tokens that [tokenize] returns,
    when it returns, are not empty, have no white space at either end, and
    are not the sentinel line. *)
Theorem tokenize_tokens_clean (self self' : Popen) (text : str)
    (tokens : list str) :
  tokenize self text = Some (Ok tokens, self') →
  Forall (λ t, t ≠ [] ∧ strip t = t ∧ t ≠ END_DOC) tokens.
Proof.
  unfold tokenize. destruct (bool_decide (text = []));
    [intros [= <- <-]; constructor |].
  destruct (encode_utf8 _); [| discriminate].
  destruct (negb (running self)); [intros [= <- <-]; constructor |].
  destruct (respond self _) as [printed alive].
  destruct (read_tokens alive (stdout self ++ printed) [])
    as [[r out'] |] eqn:Hread; [| discriminate].
  intros [= -> <-]. eapply read_tokens_clean; [exact Hread | constructor].
Qed.

(** X25. The text is sent as one line: its newlines are replaced by
    spaces, so that a text and the same text with spaces for newlines are
    tokenized alike; for the empty text the child is not asked at all. *)
Theorem tokenize_one_line (self : Popen) (text : str) :
  tokenize self (replace_char 10 32 text) = tokenize self text
  ∧ tokenize self [] = Some (Ok [], self).
Proof.
  split; [| reflexivity]. unfold tokenize.
  assert (Hnil : replace_char 10 32 text = [] ↔ text = [])
    by (destruct text; cbn; split; congruence).
  assert (Hsame : replace_char 10 32 (replace_char 10 32 text)
                  = replace_char 10 32 text).
  { apply replace_char_id. now apply replace_char_absent. }
  rewrite Hsame.
  destruct (decide (text = [])) as [-> | Htext]; [reflexivity |].
  rewrite !bool_decide_eq_false_2 by tauto. reflexivity.
Qed.

(** A line without line endings in it is handed over as it is. *)
Lemma lines_from_line (t : str) :
  ∀ (line rest : str),
    10 ∉ t → 13 ∉ t →
    lines_from line (t ++ [10] ++ rest)
    = (line ++ t ++ [10]) :: lines_from [] rest.
Proof.
  induction t as [| c t IH]; intros line rest H10 H13; [reflexivity |].
  apply not_elem_of_cons in H10 as [Hc10 H10].
  apply not_elem_of_cons in H13 as [Hc13 H13]. cbn [app lines_from].
  destruct (Z.eqb_spec c 10); [congruence |].
  destruct (Z.eqb_spec c 13); [congruence |]. cbn [app] in IH.
  rewrite IH by assumption. now rewrite <- app_assoc.
Qed.

Lemma strip_line (t : str) :
  t ≠ [] → strip t = t → strip (t ++ [10]) = t.
Proof.
  intros Hne Hstrip. pose proof (strip_ends t) as [Hhead Hlast].
  rewrite Hstrip in Hhead, Hlast. unfold strip.
  rewrite (lstrip_id (t ++ [10])) by (destruct t; [congruence | exact Hhead]).
  rewrite rev_unit. cbn [lstrip]. change (isspace 10) with true. cbn match.
  rewrite (lstrip_id (rev t) Hlast). apply rev_involutive.
Qed.

(** What a child that obeys the protocol prints is read as one line per
    token and the sentinel line. *)
Lemma reply_lines (tokens : list str) :
  Forall clean_token tokens →
  reply tokens
  = (Line <$> ((λ t, t ++ [10]) <$> tokens)) ++ [Line (END_DOC ++ [10])].
Proof.
  intros Hclean. unfold reply, readlines.
  induction Hclean as [| t tokens (_ & _ & H10 & H13 & _) _ IH].
  - reflexivity.
  - cbn [map concat fmap list_fmap app]. rewrite <- !app_assoc.
    rewrite (lines_from_line t [] _ H10 H13). cbn [fmap list_fmap app].
    f_equal. exact IH.
Qed.

Lemma strip_lines (tokens : list str) :
  Forall clean_token tokens →
  strip <$> ((λ t, t ++ [10]) <$> tokens) = tokens
  ∧ filter (λ t, t ≠ []) tokens = tokens
  ∧ ([] ∉ (λ t, t ++ [10]) <$> tokens)
  ∧ END_DOC ∉ tokens.
Proof.
  induction 1 as [| t tokens (Hne & Hstrip & _ & _ & Hend) _
                    (IH1 & IH2 & IH3 & IH4)].
  - repeat split; [apply not_elem_of_nil | apply not_elem_of_nil].
  - cbn [fmap list_fmap]. rewrite (strip_line t Hne Hstrip).
    cbn [fmap] in IH1. rewrite IH1. rewrite filter_cons_True by exact Hne.
    rewrite IH2. repeat split.
    + apply not_elem_of_cons. split; [now destruct t | exact IH3].
    + apply not_elem_of_cons. split; [congruence | exact IH4].
Qed.

(** X26. Against a live child that obeys the protocol, the client is the
    function the child runs: when the tokens the child makes of the line are
    clean, [tokenize] returns exactly these tokens, in order, and leaves the
    pipe empty for the next request. A text that cannot be encoded is not
    sent: [UnicodeEncodeError] is raised, and the child is left as it
    was. *)
Theorem tokenize_live (f : str → list str) (text : str) :
  text ≠ [] →
  Forall clean_token (f (replace_char 10 32 text ++ [10])) →
  tokenize (live f) text
  = match encode_utf8 text with
    | Ok _ => Some (Ok (f (replace_char 10 32 text ++ [10])), live f)
    | Raise e => Some (Raise e, live f)
    end.
Proof.
  intros Htext Hclean. unfold tokenize.
  rewrite bool_decide_eq_false_2 by assumption.
  pose proof (encode_request text) as Hreq.
  destruct (encode_utf8 text) as [data | e];
    [destruct Hreq as [line ->] | now rewrite Hreq].
  cbn [live running negb stdout respond app].
  set (tokens := f (replace_char 10 32 text ++ [10])) in *.
  rewrite (reply_lines tokens Hclean).
  destruct (strip_lines tokens Hclean) as (Hstrip & Hfilter & Hne & Hend).
  rewrite read_tokens_lines by (rewrite ?Hstrip; assumption).
  rewrite Hstrip, Hfilter. reflexivity.
Qed.

End Protocol.

Lemma tokenize_tokens_clean_witness :
  Forall (λ t, t ≠ [] ∧ strip t = t ∧ t ≠ tokenizer_wrapper.END_DOC)
         [py "foo"].
Proof.
  apply (tokenize_tokens_clean dying_child
           {| tokenizer_wrapper.respond :=
                tokenizer_wrapper.respond dying_child;
              tokenizer_wrapper.running := false;
              tokenizer_wrapper.stdout := [] |}
           (py "some text") [py "foo"]).
  reflexivity.
Defined.

Lemma tokenize_live_witness :
  tokenizer_wrapper.tokenize
    (tokenizer_wrapper.live Scenario.identity_tokenizer) (py "The quick  Brown")
  = Some (Ok [py "the"; py "quick"; py "brown"],
          tokenizer_wrapper.live Scenario.identity_tokenizer).
Proof.
  apply (tokenize_live Scenario.identity_tokenizer (py "The quick  Brown")).
  - discriminate.
  - refine (bool_decide_unpack _ _). vm_compute. exact I.
Defined.

(** ** search.py: what the operators of a query denote *)

Section Denotation.
Import search.
Variable self : SearchEngine.

Lemma word_evaluates (w : str) (A : gset Z) :
  bare_word w → _evaluate_recursive self [w] = Ok A →
  evaluates self [TERM w] A.
Proof.
  intros Hw Heval.
  assert (Hrpn : rpn_of_tokens [w] = Ok [TERM w]) by to_rpn.
  unfold _evaluate_recursive in Heval. rewrite Hrpn in Heval.
  cbn [mbind result_bind] in Heval. unfold _solve_rpn in Heval.
  cbn [run_rpn] in Heval. apply evaluates_operand; [discriminate |].
  destruct (rpn_step self [] (TERM w)) as [stack |] eqn:Hstep; [| discriminate].
  cbn [mbind result_bind mret result_ret] in Heval.
  assert (Hstack : ∃ B, stack = [B]).
  { unfold rpn_step in Hstep. destruct (tokenizer self w) as [| stem stems].
    - injection Hstep as <-. eauto.
    - destruct (get_postings (reader self) stem); [| discriminate].
      injection Hstep as <-. eauto. }
  destruct Hstack as [B ->]. change (Ok B = Ok A) in Heval. congruence.
Qed.

(** X27. The operators denote the operations on sets: when the words [a]
    and [b] alone evaluate to the sets [A] and [B], then [a && b] and the
    juxtaposition [a b] evaluate to the intersection, [a || b] to the
    union, [! a] to the complement of [A] in the universe of the engine,
    and [a && ! b] to the difference within the universe. *)
Theorem boolean_denotation (a b : str) (A B : gset Z) :
  bare_word a → bare_word b →
  _evaluate_recursive self [a] = Ok A →
  _evaluate_recursive self [b] = Ok B →
  _evaluate_recursive self [a; py "&&"; b] = Ok (A ∩ B)
  ∧ _evaluate_recursive self [a; b] = Ok (A ∩ B)
  ∧ _evaluate_recursive self [a; py "||"; b] = Ok (A ∪ B)
  ∧ _evaluate_recursive self [py "!"; a] = Ok (all_docs self ∖ A)
  ∧ _evaluate_recursive self [a; py "&&"; py "!"; b]
    = Ok (A ∩ (all_docs self ∖ B)).
Proof.
  intros Ha Hb HA HB.
  pose proof (word_evaluates a A Ha HA) as HeA.
  pose proof (word_evaluates b B Hb HB) as HeB.
  assert (H1 : rpn_of_tokens [a; py "&&"; b]
               = Ok ([TERM a] ++ [TERM b] ++ [OP And])) by to_rpn.
  assert (H2 : rpn_of_tokens [a; b] = Ok ([TERM a] ++ [TERM b] ++ [OP And]))
    by to_rpn.
  assert (H3 : rpn_of_tokens [a; py "||"; b]
               = Ok ([TERM a] ++ [TERM b] ++ [OP Or])) by to_rpn.
  assert (H4 : rpn_of_tokens [py "!"; a] = Ok ([TERM a] ++ [OP Not]))
    by to_rpn.
  assert (H5 : rpn_of_tokens [a; py "&&"; py "!"; b]
               = Ok ([TERM a] ++ ([TERM b] ++ [OP Not]) ++ [OP And]))
    by to_rpn.
  unfold _evaluate_recursive. rewrite H1, H2, H3, H4, H5.
  cbn [mbind result_bind].
  pose proof (evaluates_not self _ _ HeB) as HnB.
  rewrite (evaluates_solve self _ _ (evaluates_and self _ _ _ _ HeA HeB)).
  rewrite (evaluates_solve self _ _ (evaluates_or self _ _ _ _ HeA HeB)).
  rewrite (evaluates_solve self _ _ (evaluates_not self _ _ HeA)).
  rewrite (evaluates_solve self _ _ (evaluates_and self _ _ _ _ HeA HnB)).
  auto.
Qed.

End Denotation.

Lemma boolean_denotation_witness :
  search._evaluate_recursive Scenario.engine0 [py "brown"; py "&&"; py "!"; py "fox"]
  = Ok ({[0; 1; 3]} ∩ (search.all_docs Scenario.engine0 ∖ {[0; 2]})).
Proof.
  apply (boolean_denotation Scenario.engine0 (py "brown") (py "fox")
           {[0; 1; 3]} {[0; 2]}).
  - split; reflexivity.
  - split; reflexivity.
  - vm_compute. reflexivity.
  - vm_compute. reflexivity.
Defined.

(** ** search.py: a dictionary that is cut short *)

Section ShortDictionary.
Import search.






End ShortDictionary.


(** A dictionary cut inside a character of a term, and one cut between two
    entries. *)
Example dictionary_cut_in_a_character :
  search._load_dict
    (search.MAGIC_DICT ++ [3; 0] ++ le_bytes 4 1
     ++ take 2 (entry_bytes ([0xD0; 0xB0], 9, 1)))
  = Raise UnicodeDecodeError
  ∧ search._load_dict
      (search.MAGIC_DICT ++ [3; 0] ++ le_bytes 4 2
       ++ entry_bytes ([0xD0; 0xB0], 9, 1))
    = Raise struct_error.
Proof. split; vm_compute; reflexivity. Qed.

(** ** indexer.py: the index in memory and the blocks *)

Section MemoryIndex.
Import indexer.

(** X29. The loop over the tokens of a document records, for every term
    of the document, the ascending list of the positions at which it
    occurs, under the number of the document; the entries of the other
    documents are not touched, and a term that does not occur gets no
    entry. The number is new in the index. *)
Theorem add_tokens_positions (tokens : list str) (doc_id : Z)
    (index : gmap (list Z) (gmap Z (list Z))) :
  (∀ term, at2 index term doc_id = None) →
  ∀ term doc_id',
    at2 (add_tokens doc_id 0 tokens index) term doc_id'
    = (if bool_decide (doc_id' = doc_id)
       then (if bool_decide (term ∈ tokens)
             then Some (positions_in term 0 tokens) else None)
       else at2 index term doc_id')
    ∧ StronglySorted Z.lt (positions_in term 0 tokens)
    ∧ ∀ p, p ∈ positions_in term 0 tokens
           ↔ 0 <= p ∧ tokens !! Z.to_nat p = Some term.
Proof.
  intros Hfresh term doc_id'. split; [| split].
  - rewrite add_tokens_at2.
    destruct (decide (doc_id' = doc_id)) as [-> | Hne].
    + rewrite !bool_decide_eq_true_2 by reflexivity. rewrite Hfresh.
      pose proof (positions_in_nonempty term tokens 0) as Hin.
      destruct (positions_in term 0 tokens) as [| p ps].
      * rewrite bool_decide_eq_false_2; [reflexivity |].
        intros Hterm. now apply Hin in Hterm.
      * rewrite bool_decide_eq_true_2 by (now apply Hin). reflexivity.
    + rewrite !bool_decide_eq_false_2 by congruence. reflexivity.
  - apply positions_in_ascending.
  - intros p. rewrite positions_in_spec. split.
    + intros (i & -> & Hi). split; [lia |]. now rewrite Z.add_0_l, Nat2Z.id.
    + intros [Hp Hi]. exists (Z.to_nat p). split; [lia | assumption].
Qed.

(** X30. A block file lists the index in the order of the terms: the
    terms that [block_reader] yields from the file of [save_temp_block] are
    in strictly ascending order, and the pairs are exactly the terms of the
    index, each with its map of documents. *)
Theorem temp_block_sorted (index : gmap (list Z) (gmap Z (list Z))) :
  StronglySorted str_lt (block_reader (save_temp_block index)).*1
  ∧ ∀ term doc_map,
      (term, doc_map) ∈ block_reader (save_temp_block index)
      ↔ index !! term = Some doc_map.
Proof.
  split; [apply save_temp_block_sorted |].
  intros term doc_map. unfold block_reader, save_temp_block.
  change (map ?f ?l) with (f <$> l). rewrite list_elem_of_fmap. split.
  - intros (t & [= -> ->] & Ht).
    apply elem_of_sorted_str, elem_of_keys in Ht as [d Hd].
    now rewrite Hd.
  - intros Hterm. exists term. rewrite Hterm. split; [reflexivity |].
    apply elem_of_sorted_str, elem_of_keys. eauto.
Qed.

End MemoryIndex.

Lemma add_tokens_positions_witness :
  at2 (indexer.add_tokens 7 0 [py "a"; py "b"; py "a"] ∅) (py "a") 7
  = Some [0; 2].
Proof.
  destruct (add_tokens_positions [py "a"; py "b"; py "a"] 7 ∅) with (py "a") 7
    as [Hat _].
  - intros term. reflexivity.
  - exact Hat.
Defined.

Lemma temp_block_sorted_witness :
  StronglySorted str_lt
    (indexer.block_reader
       (indexer.save_temp_block {[ py "fox" := {[0 := [3]]} ]})).*1
  ∧ ∀ term doc_map,
      (term, doc_map)
      ∈ indexer.block_reader
          (indexer.save_temp_block {[ py "fox" := {[0 := [3]]} ]})
      ↔ ({[ py "fox" := {[0 := [3]]} ]} : gmap (list Z) (gmap Z (list Z)))
        !! term = Some doc_map.
Proof. apply (temp_block_sorted {[ py "fox" := {[0 := [3]]} ]}). Defined.
